(** * diff-match-patch (JavaScript port): a shallow embedding and its properties

    The development follows [src/index.js].  JavaScript strings are
    sequences of 16-bit code units and are modelled as lists of integers;
    JavaScript numbers that index strings and arrays are modelled as [Z];
    the few genuinely fractional quantities (time-outs, match scores) are
    exact rationals.  Arrays that the source mutates in place are lists that
    the model rebuilds, sparse arrays and objects used as dictionaries are
    finite maps.  Loops whose trip count is not structurally evident carry a
    fuel argument and return [None] when it runs out; the totality lemmas
    show that the fuel handed to them by the callers is always enough. *)

From Stdlib Require Import ZArith QArith Qround Ascii String Lia Bool.
From stdpp Require Import base option list gmap.

Local Open Scope Z_scope.

(** ** JavaScript strings *)

Module JS.

(** A UTF-16 code unit. *)
Definition char := Z.

(** A JavaScript string value. *)
Definition jstring := list Z.

(** Literal strings of the development, one code unit per character. *)
Definition str (s : string) : jstring :=
  map (fun a => Z.of_nat (nat_of_ascii a)) (list_ascii_of_string s).

(** [s.length] *)
Definition len {A} (s : list A) : Z := Z.of_nat (length s).

(** Relational [==] on strings (both operands are always strings here). *)
Definition str_eqb (a b : jstring) : bool := bool_decide (a = b).

(** Truthiness of a string: the empty string is falsy. *)
Definition truthy (s : jstring) : bool :=
  match s with [] => false | _ => true end.

(** Clamp an index argument into [0 .. length], as [substring] does. *)
Definition clamp (i : Z) (s : jstring) : nat :=
  Z.to_nat (Z.max 0 (Z.min i (len s))).

(** [s.substring(a, b)]: both ends are clamped, and swapped when [a > b]. *)
Definition substring (s : jstring) (a b : Z) : jstring :=
  let a' := clamp a s in
  let b' := clamp b s in
  take (Nat.max a' b' - Nat.min a' b') (drop (Nat.min a' b') s).

(** [s.substring(a)] *)
Definition substring_from (s : jstring) (a : Z) : jstring :=
  drop (clamp a s) s.

(** [s.charAt(i)]: the empty string outside the string. *)
Definition charAt (s : jstring) (i : Z) : jstring :=
  if (0 <=? i) && (i <? len s) then take 1 (drop (Z.to_nat i) s) else [].

(** [s.charCodeAt(i)] for an index inside the string. *)
Definition charCodeAt (s : jstring) (i : Z) : option Z :=
  if 0 <=? i then s !! Z.to_nat i else None.

(** Is [pat] a prefix of [s]? *)
Fixpoint starts_with (pat s : jstring) : bool :=
  match pat, s with
  | [], _ => true
  | _ :: _, [] => false
  | p :: pat', c :: s' => (p =? c) && starts_with pat' s'
  end.

(** First position [>= pos] at which [pat] occurs in [s] (where [pos] is
    the position of the head of [s] in the whole string). *)
Fixpoint find_from (pat s : jstring) (pos : Z) : Z :=
  if starts_with pat s then pos
  else match s with
       | [] => -1
       | _ :: s' => find_from pat s' (pos + 1)
       end.

(** [s.indexOf(pat, from)] *)
Definition indexOf (s pat : jstring) (from : Z) : Z :=
  find_from pat (drop (clamp from s) s) (Z.of_nat (clamp from s)).

(** Last position [<= pos] at which [pat] occurs, scanning downwards
    through the [n + 1] candidate positions [pos, pos - 1, ..., pos - n]. *)
Fixpoint find_back (pat s : jstring) (pos : Z) (n : nat) : Z :=
  if starts_with pat (drop (Z.to_nat pos) s) then pos
  else match n with
       | O => -1
       | S n' => find_back pat s (pos - 1) n'
       end.

(** [s.lastIndexOf(pat, from)]: the search starts at
    [min(max(from, 0), s.length - pat.length)]. *)
Definition lastIndexOf (s pat : jstring) (from : Z) : Z :=
  let start := Z.min (Z.max from 0) (len s - len pat) in
  if start <? 0 then -1 else find_back pat s start (Z.to_nat start).

(** [s.lastIndexOf(pat)] *)
Definition lastIndexOf_end (s pat : jstring) : Z :=
  lastIndexOf s pat (len s).

End JS.

Export JS.

(** ** Edit scripts *)

(** [DIFF_DELETE = -1], [DIFF_INSERT = 1], [DIFF_EQUAL = 0]. *)
Inductive Op := DIFF_DELETE | DIFF_INSERT | DIFF_EQUAL.

Global Instance Op_eq_dec : EqDecision Op.
Proof. solve_decision. Defined.

Definition op_eqb (a b : Op) : bool := bool_decide (a = b).

(** [DiffMatchPatch.Diff]: slot 0 is the operation, slot 1 the text. *)
Record Diff := mkDiff { d_op : Op; d_text : jstring }.

Global Instance Diff_eq_dec : EqDecision Diff.
Proof. solve_decision. Defined.

(** Array access [a[i]]; [None] stands for [undefined]. *)
Definition get {A} (l : list A) (i : Z) : option A :=
  if 0 <=? i then l !! Z.to_nat i else None.

(** [a[i] = x] for an index inside the array. *)
Definition set_at {A} (l : list A) (i : Z) (x : A) : list A :=
  if 0 <=? i then <[Z.to_nat i := x]> l else l.

(** [a.splice(start, del, ...ins)] for [0 <= start]. *)
Definition splice {A} (l : list A) (start del : Z) (ins : list A) : list A :=
  take (Z.to_nat start) l ++ ins ++ drop (Z.to_nat start + Z.to_nat del) l.

Definition set_text (d : Diff) (t : jstring) : Diff := mkDiff (d_op d) t.
Definition set_op (d : Diff) (o : Op) : Diff := mkDiff o (d_text d).

(** ** String primitives of the diff engine *)

(** The binary search shared by [diffCommonPrefix]: the state is
    [(pointermin, pointermax, pointermid, pointerstart)]. *)
Fixpoint diffCommonPrefix_loop (fuel : nat) (text1 text2 : jstring)
    (pointermin pointermax pointermid pointerstart : Z) : option Z :=
  if pointermin <? pointermid then
    match fuel with
    | O => None
    | S fuel' =>
        if str_eqb (substring text1 pointerstart pointermid)
                   (substring text2 pointerstart pointermid)
        then
          diffCommonPrefix_loop fuel' text1 text2 pointermid pointermax
            ((pointermax - pointermid) / 2 + pointermid) pointermid
        else
          diffCommonPrefix_loop fuel' text1 text2 pointermin pointermid
            ((pointermid - pointermin) / 2 + pointermin) pointerstart
    end
  else Some pointermid.

Definition diffCommonPrefix (text1 text2 : jstring) : option Z :=
  if negb (truthy text1) || negb (truthy text2)
     || negb (str_eqb (charAt text1 0) (charAt text2 0))
  then Some 0
  else
    let pointermax := Z.min (len text1) (len text2) in
    diffCommonPrefix_loop (Z.to_nat pointermax + 2)%nat text1 text2
      0 pointermax pointermax 0.

Fixpoint diffCommonSuffix_loop (fuel : nat) (text1 text2 : jstring)
    (pointermin pointermax pointermid pointerend : Z) : option Z :=
  if pointermin <? pointermid then
    match fuel with
    | O => None
    | S fuel' =>
        if str_eqb
             (substring text1 (len text1 - pointermid) (len text1 - pointerend))
             (substring text2 (len text2 - pointermid) (len text2 - pointerend))
        then
          diffCommonSuffix_loop fuel' text1 text2 pointermid pointermax
            ((pointermax - pointermid) / 2 + pointermid) pointermid
        else
          diffCommonSuffix_loop fuel' text1 text2 pointermin pointermid
            ((pointermid - pointermin) / 2 + pointermin) pointerend
    end
  else Some pointermid.

Definition diffCommonSuffix (text1 text2 : jstring) : option Z :=
  if negb (truthy text1) || negb (truthy text2)
     || negb (str_eqb (charAt text1 (len text1 - 1))
                      (charAt text2 (len text2 - 1)))
  then Some 0
  else
    let pointermax := Z.min (len text1) (len text2) in
    diffCommonSuffix_loop (Z.to_nat pointermax + 2)%nat text1 text2
      0 pointermax pointermax 0.

(** [Math.ceil(a / b)] for a positive divisor. *)
Definition ceil_div (a b : Z) : Z := - ((- a) / b).

(** [diffCommonOverlap_]: the loop state is [(best, length)]. *)
Fixpoint diffCommonOverlap_loop (fuel : nat) (text1 text2 : jstring)
    (textLength best length : Z) : option Z :=
  match fuel with
  | O => None
  | S fuel' =>
      let pattern := substring_from text1 (textLength - length) in
      let found := indexOf text2 pattern 0 in
      if found =? -1 then Some best
      else
        let length := length + found in
        if (found =? 0)
           || str_eqb (substring_from text1 (textLength - length))
                      (substring text2 0 length)
        then diffCommonOverlap_loop fuel' text1 text2 textLength length (length + 1)
        else diffCommonOverlap_loop fuel' text1 text2 textLength best length
  end.

Definition diffCommonOverlap_ (text1 text2 : jstring) : option Z :=
  let text1Length := len text1 in
  let text2Length := len text2 in
  if (text1Length =? 0) || (text2Length =? 0) then Some 0
  else
    let text1' :=
      if text2Length <? text1Length
      then substring_from text1 (text1Length - text2Length) else text1 in
    let text2' :=
      if text1Length <? text2Length
      then substring text2 0 text1Length else text2 in
    let textLength := Z.min text1Length text2Length in
    if str_eqb text1' text2' then Some textLength
    else diffCommonOverlap_loop (Z.to_nat textLength + 2)%nat text1' text2'
           textLength 0 1.

(** ** Engine configuration *)

Record Config := mkConfig {
  diffTimeout : Q;            (* seconds; 0 for infinity *)
  diffEditCost : Z;
  matchThreshold : Q;
  matchDistance : Z;
  patchDeleteThreshold : Q;
  patchMargin : Z;
  matchMaxBits : Z
}.

(** The defaults installed by the constructor. *)
Definition default_config : Config :=
  {| diffTimeout := 1; diffEditCost := 4; matchThreshold := 1 # 2;
     matchDistance := 1000; patchDeleteThreshold := 1 # 2;
     patchMargin := 4; matchMaxBits := 32 |}.

(** The same engine with the diff time-out switched off. *)
Definition with_diffTimeout (cfg : Config) (t : Q) : Config :=
  {| diffTimeout := t; diffEditCost := diffEditCost cfg;
     matchThreshold := matchThreshold cfg; matchDistance := matchDistance cfg;
     patchDeleteThreshold := patchDeleteThreshold cfg;
     patchMargin := patchMargin cfg; matchMaxBits := matchMaxBits cfg |}.

(** ** Half match *)

(** The five-element array returned by [diffHalfMatch_]. *)
Definition HalfMatch : Type := jstring * jstring * jstring * jstring * jstring.

Definition hm_common (hm : HalfMatch) : jstring := snd hm.

(** The [while] loop of the closure [diffHalfMatchI_]; [best] holds
    [(bestLongtext_a, bestLongtext_b, bestShorttext_a, bestShorttext_b,
    bestCommon)].  The four texts are [undefined] in the source until the
    first assignment; they are only returned after one. *)
Fixpoint diffHalfMatchI_loop (fuel : nat) (longtext shorttext : jstring)
    (i : Z) (seed : jstring) (j : Z) (best : HalfMatch) : option HalfMatch :=
  match fuel with
  | O => None
  | S fuel' =>
      let j := indexOf shorttext seed (j + 1) in
      if j =? -1 then Some best
      else
        prefixLength ← diffCommonPrefix (substring_from longtext i)
                                         (substring_from shorttext j);
        suffixLength ← diffCommonSuffix (substring longtext 0 i)
                                         (substring shorttext 0 j);
        if len (hm_common best) <? suffixLength + prefixLength then
          diffHalfMatchI_loop fuel' longtext shorttext i seed j
            (substring longtext 0 (i - suffixLength),
             substring_from longtext (i + prefixLength),
             substring shorttext 0 (j - suffixLength),
             substring_from shorttext (j + prefixLength),
             substring shorttext (j - suffixLength) j
               ++ substring shorttext j (j + prefixLength))
        else diffHalfMatchI_loop fuel' longtext shorttext i seed j best
  end.

Definition diffHalfMatchI_ (longtext shorttext : jstring) (i : Z)
  : option (option HalfMatch) :=
  let seed := substring longtext i (i + len longtext / 4) in
  best ← diffHalfMatchI_loop (length shorttext + 2)%nat longtext shorttext i seed
           (-1) ([], [], [], [], []);
  if len longtext <=? len (hm_common best) * 2
  then Some (Some best) else Some None.

(** [diffHalfMatch_]: the outer [option] is the fuel of the loops, the
    inner one is the source's [null]. *)
Definition diffHalfMatch_ (cfg : Config) (text1 text2 : jstring)
  : option (option HalfMatch) :=
  if Qle_bool (diffTimeout cfg) 0 then Some None
  else
    let longtext := if len text2 <? len text1 then text1 else text2 in
    let shorttext := if len text2 <? len text1 then text2 else text1 in
    if (len longtext <? 4) || (len shorttext * 2 <? len longtext)
    then Some None
    else
      hm1 ← diffHalfMatchI_ longtext shorttext (ceil_div (len longtext) 4);
      hm2 ← diffHalfMatchI_ longtext shorttext (ceil_div (len longtext) 2);
      let hm :=
        match hm1, hm2 with
        | None, None => None
        | Some h1, None => Some h1
        | None, Some h2 => Some h2
        | Some h1, Some h2 =>
            if len (hm_common h2) <? len (hm_common h1)
            then Some h1 else Some h2
        end in
      match hm with
      | None => Some None
      | Some (a, b, c, d, m) =>
          if len text2 <? len text1
          then Some (Some (a, b, c, d, m))
          else Some (Some (c, d, a, b, m))
      end.

(** ** [diffCleanupMerge] *)

(** The local variables of the first sweep. *)
Record MergeState := mkMerge {
  mg_diffs : list Diff;
  mg_pointer : Z;
  mg_countDelete : Z;
  mg_countInsert : Z;
  mg_textDelete : jstring;
  mg_textInsert : jstring
}.

(** "Factor out any common prefixies": acts on
    [(diffs, pointer, textInsert, textDelete)]. *)
Definition merge_factor_prefix (diffs : list Diff) (pointer count : Z)
    (textInsert textDelete : jstring)
  : option (list Diff * Z * jstring * jstring) :=
  commonlength ← diffCommonPrefix textInsert textDelete;
  if commonlength =? 0 then Some (diffs, pointer, textInsert, textDelete)
  else
    '(diffs, pointer) ←
      (if 0 <? pointer - count then
         prev ← get diffs (pointer - count - 1);
         if op_eqb (d_op prev) DIFF_EQUAL then
           Some (set_at diffs (pointer - count - 1)
                   (set_text prev
                      (d_text prev ++ substring textInsert 0 commonlength)),
                 pointer)
         else
           Some (splice diffs 0 0
                   [mkDiff DIFF_EQUAL (substring textInsert 0 commonlength)],
                 pointer + 1)
       else
         Some (splice diffs 0 0
                 [mkDiff DIFF_EQUAL (substring textInsert 0 commonlength)],
               pointer + 1));
    Some (diffs, pointer, substring_from textInsert commonlength,
          substring_from textDelete commonlength).

(** "Factor out any common suffixies". *)
Definition merge_factor_suffix (diffs : list Diff) (pointer : Z)
    (textInsert textDelete : jstring)
  : option (list Diff * jstring * jstring) :=
  commonlength ← diffCommonSuffix textInsert textDelete;
  if commonlength =? 0 then Some (diffs, textInsert, textDelete)
  else
    cur ← get diffs pointer;
    Some (set_at diffs pointer
            (set_text cur
               (substring_from textInsert (len textInsert - commonlength)
                  ++ d_text cur)),
          substring textInsert 0 (len textInsert - commonlength),
          substring textDelete 0 (len textDelete - commonlength)).

(** One iteration of the first [while] loop. *)
Definition merge_step (s : MergeState) : option MergeState :=
  let '(mkMerge diffs pointer countDelete countInsert textDelete textInsert) := s in
  cur ← get diffs pointer;
  match d_op cur with
  | DIFF_INSERT =>
      Some (mkMerge diffs (pointer + 1) countDelete (countInsert + 1)
              textDelete (textInsert ++ d_text cur))
  | DIFF_DELETE =>
      Some (mkMerge diffs (pointer + 1) (countDelete + 1) countInsert
              (textDelete ++ d_text cur) textInsert)
  | DIFF_EQUAL =>
      '(diffs, pointer) ←
        (if 1 <? countDelete + countInsert then
           '(diffs, pointer, textInsert, textDelete) ←
             (if negb (countDelete =? 0) && negb (countInsert =? 0) then
                '(diffs, pointer, textInsert, textDelete) ←
                  merge_factor_prefix diffs pointer
                    (countDelete + countInsert) textInsert textDelete;
                '(diffs, textInsert, textDelete) ←
                  merge_factor_suffix diffs pointer textInsert textDelete;
                Some (diffs, pointer, textInsert, textDelete)
              else Some (diffs, pointer, textInsert, textDelete));
           (* Delete the offending records and add the merged ones. *)
           let pointer := pointer - (countDelete + countInsert) in
           let diffs := splice diffs pointer (countDelete + countInsert) [] in
           let '(diffs, pointer) :=
             if negb (len textDelete =? 0)
             then (splice diffs pointer 0 [mkDiff DIFF_DELETE textDelete],
                   pointer + 1)
             else (diffs, pointer) in
           let '(diffs, pointer) :=
             if negb (len textInsert =? 0)
             then (splice diffs pointer 0 [mkDiff DIFF_INSERT textInsert],
                   pointer + 1)
             else (diffs, pointer) in
           Some (diffs, pointer + 1)
         else if negb (pointer =? 0) then
           prev ← get diffs (pointer - 1);
           if op_eqb (d_op prev) DIFF_EQUAL then
             (* Merge this equality with the previous one. *)
             Some (splice
                     (set_at diffs (pointer - 1)
                        (set_text prev (d_text prev ++ d_text cur)))
                     pointer 1 [],
                   pointer)
           else Some (diffs, pointer + 1)
         else Some (diffs, pointer + 1));
      Some (mkMerge diffs pointer 0 0 [] [])
  end.

Fixpoint merge_loop (fuel : nat) (s : MergeState) : option (list Diff) :=
  if mg_pointer s <? len (mg_diffs s) then
    match fuel with
    | O => None
    | S fuel' => s' ← merge_step s; merge_loop fuel' s'
    end
  else Some (mg_diffs s).

(** The second sweep: single edits surrounded on both sides by
    equalities.  The state is [(diffs, pointer, changes)]. *)
Definition shift_step (diffs : list Diff) (pointer : Z)
  : option (list Diff * bool) :=
  prev ← get diffs (pointer - 1);
  next ← get diffs (pointer + 1);
  if op_eqb (d_op prev) DIFF_EQUAL && op_eqb (d_op next) DIFF_EQUAL then
    cur ← get diffs pointer;
    if str_eqb (substring_from (d_text cur)
                  (len (d_text cur) - len (d_text prev)))
               (d_text prev)
    then
      (* Shift the edit over the previous equality. *)
      let diffs := set_at diffs pointer
        (set_text cur
           (d_text prev
              ++ substring (d_text cur) 0
                   (len (d_text cur) - len (d_text prev)))) in
      let diffs := set_at diffs (pointer + 1)
        (set_text next (d_text prev ++ d_text next)) in
      Some (splice diffs (pointer - 1) 1 [], true)
    else if str_eqb (substring (d_text cur) 0 (len (d_text next)))
                    (d_text next)
    then
      (* Shift the edit over the next equality. *)
      let diffs := set_at diffs (pointer - 1)
        (set_text prev (d_text prev ++ d_text next)) in
      let diffs := set_at diffs pointer
        (set_text cur
           (substring_from (d_text cur) (len (d_text next))
              ++ d_text next)) in
      Some (splice diffs (pointer + 1) 1 [], true)
    else Some (diffs, false)
  else Some (diffs, false).

Fixpoint shift_loop (fuel : nat) (diffs : list Diff) (pointer : Z)
    (changes : bool) : option (list Diff * bool) :=
  if pointer <? len diffs - 1 then
    match fuel with
    | O => None
    | S fuel' =>
        '(diffs, changed) ← shift_step diffs pointer;
        shift_loop fuel' diffs (pointer + 1) (changes || changed)
    end
  else Some (diffs, changes).

(** Number of code units held by a script. *)
Definition script_size (diffs : list Diff) : nat :=
  sum_list (map (fun d => length (d_text d)) diffs).

(** [diffCleanupMerge]; [fuel] bounds the depth of the self-recursion. *)
Fixpoint diffCleanupMerge_rec (fuel : nat) (diffs : list Diff)
  : option (list Diff) :=
  match fuel with
  | O => None
  | S fuel' =>
      (* Add a dummy entry at the end. *)
      let diffs := diffs ++ [mkDiff DIFF_EQUAL []] in
      diffs ← merge_loop (length diffs + 1)%nat (mkMerge diffs 0 0 0 [] []);
      last ← get diffs (len diffs - 1);
      let diffs :=
        if str_eqb (d_text last) [] then take (length diffs - 1)%nat diffs
        else diffs in
      r ← shift_loop (length diffs) diffs 1 false;
      if (snd r : bool) then diffCleanupMerge_rec fuel' (fst r) else Some (fst r)
  end.

Definition diffCleanupMerge (diffs : list Diff) : option (list Diff) :=
  diffCleanupMerge_rec (length diffs + script_size diffs + 2)%nat diffs.

(** ** [diffCleanupSemanticLossless] *)

(** [/[^a-zA-Z0-9]/] on a one-character string. *)
Definition nonAlphaNumeric (c : Z) : bool :=
  negb (((97 <=? c) && (c <=? 122)) || ((65 <=? c) && (c <=? 90))
        || ((48 <=? c) && (c <=? 57))).

(** [/\s/]: the ECMAScript white space and line terminator code units. *)
Definition whitespace (c : Z) : bool :=
  ((9 <=? c) && (c <=? 13)) || (c =? 32) || (c =? 160) || (c =? 5760)
  || ((8192 <=? c) && (c <=? 8202)) || (c =? 8232) || (c =? 8233)
  || (c =? 8239) || (c =? 8287) || (c =? 12288) || (c =? 65279).

(** [/[\r\n]/] *)
Definition linebreak (c : Z) : bool := (c =? 13) || (c =? 10).

(** [/\n\r?\n$/] *)
Definition blanklineEnd (s : jstring) : bool :=
  match rev s with
  | 10 :: 10 :: _ => true
  | 10 :: 13 :: 10 :: _ => true
  | _ => false
  end.

(** [/^\r?\n\r?\n/] *)
Definition blanklineStart (s : jstring) : bool :=
  match s with
  | 10 :: 10 :: _ => true
  | 10 :: 13 :: 10 :: _ => true
  | 13 :: 10 :: 10 :: _ => true
  | 13 :: 10 :: 13 :: 10 :: _ => true
  | _ => false
  end.

(** The closure [diffCleanupSemanticScore_]. *)
Definition diffCleanupSemanticScore_ (one two : jstring) : Z :=
  match last one, head two with
  | Some char1, Some char2 =>
      let nonAlphaNumeric1 := nonAlphaNumeric char1 in
      let nonAlphaNumeric2 := nonAlphaNumeric char2 in
      let whitespace1 := nonAlphaNumeric1 && whitespace char1 in
      let whitespace2 := nonAlphaNumeric2 && whitespace char2 in
      let lineBreak1 := whitespace1 && linebreak char1 in
      let lineBreak2 := whitespace2 && linebreak char2 in
      let blankLine1 := lineBreak1 && blanklineEnd one in
      let blankLine2 := lineBreak2 && blanklineStart two in
      if blankLine1 || blankLine2 then 5
      else if lineBreak1 || lineBreak2 then 4
      else if nonAlphaNumeric1 && negb whitespace1 && whitespace2 then 3
      else if whitespace1 || whitespace2 then 2
      else if nonAlphaNumeric1 || nonAlphaNumeric2 then 1
      else 0
  | _, _ => 6 (* Edges are the best. *)
  end.

(** The candidate arrangement [(equality1, edit, equality2)]. *)
Definition Arrangement : Type := jstring * jstring * jstring.

Definition arrangement_score (a : Arrangement) : Z :=
  let '(equality1, edit, equality2) := a in
  diffCleanupSemanticScore_ equality1 edit
  + diffCleanupSemanticScore_ edit equality2.

(** "Second, step character by character right, looking for the best
    fit": the state is the current arrangement, the best one and its
    score. *)
Fixpoint lossless_slide (fuel : nat) (cur best : Arrangement) (bestScore : Z)
  : option Arrangement :=
  let '(equality1, edit, equality2) := cur in
  if str_eqb (charAt edit 0) (charAt equality2 0) then
    match fuel with
    | O => None
    | S fuel' =>
        let cur' := (equality1 ++ charAt edit 0,
                     substring_from edit 1 ++ charAt equality2 0,
                     substring_from equality2 1) in
        let score := arrangement_score cur' in
        if bestScore <=? score
        then lossless_slide fuel' cur' cur' score
        else lossless_slide fuel' cur' best bestScore
    end
  else Some best.

(** One iteration of the loop of [diffCleanupSemanticLossless]; returns
    the script and the pointer before the final [pointer++]. *)
Definition lossless_step (diffs : list Diff) (pointer : Z)
  : option (list Diff * Z) :=
  prev ← get diffs (pointer - 1);
  next ← get diffs (pointer + 1);
  if op_eqb (d_op prev) DIFF_EQUAL && op_eqb (d_op next) DIFF_EQUAL then
    cur ← get diffs pointer;
    let equality1 := d_text prev in
    let edit := d_text cur in
    let equality2 := d_text next in
    (* First, shift the edit as far left as possible. *)
    commonOffset ← diffCommonSuffix equality1 edit;
    let '(equality1, edit, equality2) :=
      if negb (commonOffset =? 0) then
        let commonString := substring_from edit (len edit - commonOffset) in
        (substring equality1 0 (len equality1 - commonOffset),
         commonString ++ substring edit 0 (len edit - commonOffset),
         commonString ++ equality2)
      else (equality1, edit, equality2) in
    let start := (equality1, edit, equality2) in
    best ← lossless_slide (length equality2 + 1) start start
             (arrangement_score start);
    let '(bestEquality1, bestEdit, bestEquality2) := best in
    if negb (str_eqb (d_text prev) bestEquality1) then
      (* We have an improvement, save it back to the diff. *)
      let '(diffs, pointer) :=
        if truthy bestEquality1
        then (set_at diffs (pointer - 1) (set_text prev bestEquality1), pointer)
        else (splice diffs (pointer - 1) 1 [], pointer - 1) in
      cur' ← get diffs pointer;
      let diffs := set_at diffs pointer (set_text cur' bestEdit) in
      if truthy bestEquality2 then
        next' ← get diffs (pointer + 1);
        Some (set_at diffs (pointer + 1) (set_text next' bestEquality2), pointer)
      else Some (splice diffs (pointer + 1) 1 [], pointer - 1)
    else Some (diffs, pointer)
  else Some (diffs, pointer).

Fixpoint lossless_loop (fuel : nat) (diffs : list Diff) (pointer : Z)
  : option (list Diff) :=
  if pointer <? len diffs - 1 then
    match fuel with
    | O => None
    | S fuel' =>
        r ← lossless_step diffs pointer;
        lossless_loop fuel' (fst r) (snd r + 1)
    end
  else Some diffs.

Definition diffCleanupSemanticLossless (diffs : list Diff)
  : option (list Diff) :=
  lossless_loop (3 * length diffs + 3) diffs 1.

(** ** [diffCleanupSemantic] *)

(** The local variables of the first loop of [diffCleanupSemantic].
    [equalities] is a JavaScript array used as a stack through its own
    length counter, so it is a sparse map here. *)
Record SemState := mkSem {
  sm_diffs : list Diff;
  sm_changes : bool;
  sm_equalities : gmap Z Z;
  sm_equalitiesLength : Z;
  sm_lastEquality : option jstring;   (* [None] is [null] *)
  sm_pointer : Z;
  sm_lengthInsertions1 : Z;
  sm_lengthDeletions1 : Z;
  sm_lengthInsertions2 : Z;
  sm_lengthDeletions2 : Z
}.

(** One iteration of the first [while] loop, including [pointer++]. *)
Definition semantic_step (s : SemState) : option SemState :=
  let '(mkSem diffs changes equalities equalitiesLength lastEquality pointer
          lengthInsertions1 lengthDeletions1
          lengthInsertions2 lengthDeletions2) := s in
  cur ← get diffs pointer;
  if op_eqb (d_op cur) DIFF_EQUAL then
    (* Equality found. *)
    Some (mkSem diffs changes
            (<[equalitiesLength := pointer]> equalities)
            (equalitiesLength + 1) (Some (d_text cur)) (pointer + 1)
            lengthInsertions2 lengthDeletions2 0 0)
  else
    (* An insertion or deletion. *)
    let lengthInsertions2 :=
      if op_eqb (d_op cur) DIFF_INSERT
      then lengthInsertions2 + len (d_text cur) else lengthInsertions2 in
    let lengthDeletions2 :=
      if op_eqb (d_op cur) DIFF_INSERT
      then lengthDeletions2 else lengthDeletions2 + len (d_text cur) in
    match lastEquality with
    | Some (c :: rest) =>
        let lastEquality := c :: rest in
        if (len lastEquality <=? Z.max lengthInsertions1 lengthDeletions1)
           && (len lastEquality <=? Z.max lengthInsertions2 lengthDeletions2)
        then
          top ← equalities !! (equalitiesLength - 1);
          (* Duplicate record. *)
          let diffs := splice diffs top 0 [mkDiff DIFF_DELETE lastEquality] in
          (* Change second copy to insert. *)
          second ← get diffs (top + 1);
          let diffs := set_at diffs (top + 1) (set_op second DIFF_INSERT) in
          (* Throw away the equality we just deleted, and the previous
             one (it needs to be reevaluated). *)
          let equalitiesLength := equalitiesLength - 2 in
          pointer ←
            (if 0 <? equalitiesLength
             then equalities !! (equalitiesLength - 1) else Some (-1));
          Some (mkSem diffs true equalities equalitiesLength None
                  (pointer + 1) 0 0 0 0)
        else
          Some (mkSem diffs changes equalities equalitiesLength
                  (Some lastEquality) (pointer + 1)
                  lengthInsertions1 lengthDeletions1
                  lengthInsertions2 lengthDeletions2)
    | _ =>
        Some (mkSem diffs changes equalities equalitiesLength lastEquality
                (pointer + 1) lengthInsertions1 lengthDeletions1
                lengthInsertions2 lengthDeletions2)
    end.

Fixpoint semantic_loop (fuel : nat) (s : SemState) : option SemState :=
  if sm_pointer s <? len (sm_diffs s) then
    match fuel with
    | O => None
    | S fuel' => s' ← semantic_step s; semantic_loop fuel' s'
    end
  else Some s.

(** One iteration of "Find any overlaps between deletions and
    insertions"; returns the script and the pointer for the next turn. *)
Definition overlap_step (diffs : list Diff) (pointer : Z)
  : option (list Diff * Z) :=
  prev ← get diffs (pointer - 1);
  cur ← get diffs pointer;
  if op_eqb (d_op prev) DIFF_DELETE && op_eqb (d_op cur) DIFF_INSERT then
    let deletion := d_text prev in
    let insertion := d_text cur in
    overlapLength1 ← diffCommonOverlap_ deletion insertion;
    overlapLength2 ← diffCommonOverlap_ insertion deletion;
    if overlapLength2 <=? overlapLength1 then
      if (len deletion <=? 2 * overlapLength1)
         || (len insertion <=? 2 * overlapLength1)
      then
        (* Overlap found.  Insert an equality and trim the surrounding
           edits. *)
        let diffs := splice diffs pointer 0
          [mkDiff DIFF_EQUAL (substring insertion 0 overlapLength1)] in
        let diffs := set_at diffs (pointer - 1)
          (set_text prev
             (substring deletion 0 (len deletion - overlapLength1))) in
        let diffs := set_at diffs (pointer + 1)
          (set_text cur (substring_from insertion overlapLength1)) in
        Some (diffs, pointer + 3)
      else Some (diffs, pointer + 2)
    else
      if (len deletion <=? 2 * overlapLength2)
         || (len insertion <=? 2 * overlapLength2)
      then
        (* Reverse overlap found.  Insert an equality and swap and trim
           the surrounding edits. *)
        let diffs := splice diffs pointer 0
          [mkDiff DIFF_EQUAL (substring deletion 0 overlapLength2)] in
        let diffs := set_at diffs (pointer - 1)
          (mkDiff DIFF_INSERT
             (substring insertion 0 (len insertion - overlapLength2))) in
        let diffs := set_at diffs (pointer + 1)
          (mkDiff DIFF_DELETE (substring_from deletion overlapLength2)) in
        Some (diffs, pointer + 3)
      else Some (diffs, pointer + 2)
  else Some (diffs, pointer + 1).

Fixpoint overlap_loop (fuel : nat) (diffs : list Diff) (pointer : Z)
  : option (list Diff) :=
  if pointer <? len diffs then
    match fuel with
    | O => None
    | S fuel' =>
        r ← overlap_step diffs pointer;
        overlap_loop fuel' (fst r) (snd r)
    end
  else Some diffs.

Definition diffCleanupSemantic (diffs : list Diff) : option (list Diff) :=
  s ← semantic_loop ((length diffs + 2) * (length diffs + 2) * 2)
        (mkSem diffs false ∅ 0 None 0 0 0 0 0);
  (* Normalize the diff. *)
  diffs ← (if sm_changes s then diffCleanupMerge (sm_diffs s)
           else Some (sm_diffs s));
  diffs ← diffCleanupSemanticLossless diffs;
  overlap_loop (length diffs + 1) diffs 1.

(** ** Line mode: [diffLinesToChars_] and [diffCharsToLines_] *)

(** The property names every object literal inherits from
    [Object.prototype]; the [in] operator sees them. *)
Definition object_prototype_keys : list jstring :=
  map str ["constructor"; "hasOwnProperty"; "isPrototypeOf";
           "propertyIsEnumerable"; "toLocaleString"; "toString"; "valueOf";
           "__proto__"; "__defineGetter__"; "__defineSetter__";
           "__lookupGetter__"; "__lookupSetter__"]%string.

(** What [lineHash[line]] evaluates to on the object literal [lineHash]. *)
Inductive HashValue :=
  | OwnNumber (n : Z)     (* a line number stored by the munger *)
  | InheritedObject       (* a function or object found on the prototype *)
  | Undefined.

Definition lineHash_get (lineHash : gmap (list Z) Z) (line : jstring)
  : HashValue :=
  match lineHash !! line with
  | Some n => OwnNumber n
  | None =>
      if bool_decide (line ∈ object_prototype_keys)
      then InheritedObject else Undefined
  end.

(** [String.fromCharCode(v)]: the argument goes through [ToNumber] and
    [ToUint16]; a function or an object converts to [NaN], hence to 0. *)
Definition fromCharCode (v : HashValue) : jstring :=
  match v with
  | OwnNumber n => [n mod 65536]
  | InheritedObject => [0]
  | Undefined => [0]
  end.

(** The state shared by the two calls of the closure
    [diffLinesToCharsMunge_]. *)
Record LineTable := mkLineTable {
  lineArray : list jstring;
  lineHash : gmap (list Z) Z
}.

(** The loop of [diffLinesToCharsMunge_]; the state is
    [(chars, lineStart, lineEnd, lineArrayLength)] and the table. *)
Fixpoint munge_loop (fuel : nat) (text : jstring) (maxLines : Z)
    (tbl : LineTable) (chars : jstring) (lineStart lineEnd : Z)
    (lineArrayLength : Z) : option (jstring * LineTable) :=
  if lineEnd <? len text - 1 then
    match fuel with
    | O => None
    | S fuel' =>
        let lineEnd := indexOf text [10] lineStart in
        let lineEnd := if lineEnd =? -1 then len text - 1 else lineEnd in
        let line := substring text lineStart (lineEnd + 1) in
        match lineHash_get (lineHash tbl) line with
        | Undefined =>
            let '(line, lineEnd) :=
              if lineArrayLength =? maxLines
              then (substring_from text lineStart, len text)
              else (line, lineEnd) in
            munge_loop fuel' text maxLines
              (mkLineTable (lineArray tbl ++ [line])
                 (<[line := lineArrayLength]> (lineHash tbl)))
              (chars ++ fromCharCode (OwnNumber lineArrayLength))
              (lineEnd + 1) lineEnd (lineArrayLength + 1)
        | v =>
            munge_loop fuel' text maxLines tbl (chars ++ fromCharCode v)
              (lineEnd + 1) lineEnd lineArrayLength
        end
    end
  else Some (chars, tbl).

Definition diffLinesToCharsMunge_ (text : jstring) (maxLines : Z)
    (tbl : LineTable) : option (jstring * LineTable) :=
  munge_loop (length text + 1) text maxLines tbl [] 0 (-1)
    (len (lineArray tbl)).

(** The object [{chars1, chars2, lineArray}]. *)
Definition diffLinesToChars_ (text1 text2 : jstring)
  : option (jstring * jstring * list jstring) :=
  let tbl := mkLineTable [[]] ∅ in
  '(chars1, tbl) ← diffLinesToCharsMunge_ text1 40000 tbl;
  '(chars2, tbl) ← diffLinesToCharsMunge_ text2 65535 tbl;
  Some (chars1, chars2, lineArray tbl).

(** [Array.prototype.join] prints a missing element as the empty
    string. *)
Definition diffCharsToLines_ (diffs : list Diff) (lineArray : list jstring)
  : list Diff :=
  map (fun d =>
         set_text d
           (concat (map (fun c => default [] (get lineArray c)) (d_text d))))
      diffs.

(** ** [diffText1], [diffText2] *)

Definition diffText1 (diffs : list Diff) : jstring :=
  concat (map (fun d => if op_eqb (d_op d) DIFF_INSERT then [] else d_text d)
              diffs).

Definition diffText2 (diffs : list Diff) : jstring :=
  concat (map (fun d => if op_eqb (d_op d) DIFF_DELETE then [] else d_text d)
              diffs).

(** ** The diff engine: [diffMain], [diffCompute_], [diffLineMode_],
    [diffBisect_] *)

(** [Number.MAX_VALUE] *)
Definition MAX_VALUE : Q := inject_Z ((2 ^ 53 - 1) * 2 ^ 971).

(** [new Array(vLength)] filled with [-1]. *)
Definition new_filled (vLength : Z) : gmap Z Z :=
  foldr (fun i m => <[i := -1]> m) ∅ (seqZ 0 vLength).

(** The greedy slide along a diagonal of the forward path. *)
Fixpoint snake_forward (fuel : nat) (text1 text2 : jstring) (x1 y1 : Z)
  : option (Z * Z) :=
  if (x1 <? len text1) && (y1 <? len text2)
     && str_eqb (charAt text1 x1) (charAt text2 y1)
  then match fuel with
       | O => None
       | S fuel' => snake_forward fuel' text1 text2 (x1 + 1) (y1 + 1)
       end
  else Some (x1, y1).

(** The same along the reverse path. *)
Fixpoint snake_reverse (fuel : nat) (text1 text2 : jstring) (x2 y2 : Z)
  : option (Z * Z) :=
  if (x2 <? len text1) && (y2 <? len text2)
     && str_eqb (charAt text1 (len text1 - x2 - 1))
                (charAt text2 (len text2 - y2 - 1))
  then match fuel with
       | O => None
       | S fuel' => snake_reverse fuel' text1 text2 (x2 + 1) (y2 + 1)
       end
  else Some (x2, y2).

(** The furthest point so far on diagonal [k] at level [d]: "from above"
    or "from the left plus one". *)
Definition furthest (v : gmap Z Z) (kOffset k d : Z) : option Z :=
  if k =? - d then v !! (kOffset + 1)
  else if k =? d then b ← v !! (kOffset - 1); Some (b + 1)
  else
    b ← v !! (kOffset - 1);
    a ← v !! (kOffset + 1);
    Some (if b <? a then a else b + 1).

(** What a [for] loop of the bisection hands back: the updated frontier
    and offsets, or the split point of a detected overlap. *)
Inductive Walk :=
  | Frontier (v : gmap Z Z) (kstart kend : Z)
  | Overlap (x y : Z).

(** "Walk the front path one step": the [k1] loop at level [d]. *)
Fixpoint walk_front (fuel : nat) (text1 text2 : jstring)
    (vOffset vLength delta d : Z) (front : bool) (v2 : gmap Z Z)
    (v1 : gmap Z Z) (k1start k1end k1 : Z) : option Walk :=
  if k1 <=? d - k1end then
    match fuel with
    | O => None
    | S fuel' =>
        let k1Offset := vOffset + k1 in
        x1 ← furthest v1 k1Offset k1 d;
        '(x1, y1) ← snake_forward (length text1 + length text2 + 2)
                      text1 text2 x1 (x1 - k1);
        let v1 := <[k1Offset := x1]> v1 in
        if len text1 <? x1 then
          (* Ran off the right of the graph. *)
          walk_front fuel' text1 text2 vOffset vLength delta d front v2
            v1 k1start (k1end + 2) (k1 + 2)
        else if len text2 <? y1 then
          (* Ran off the bottom of the graph. *)
          walk_front fuel' text1 text2 vOffset vLength delta d front v2
            v1 (k1start + 2) k1end (k1 + 2)
        else if front then
          let k2Offset := vOffset + delta - k1 in
          if (0 <=? k2Offset) && (k2Offset <? vLength) then
            r ← v2 !! k2Offset;
            if negb (r =? -1) && (len text1 - r <=? x1)
            then Some (Overlap x1 y1)
            else walk_front fuel' text1 text2 vOffset vLength delta d front
                   v2 v1 k1start k1end (k1 + 2)
          else walk_front fuel' text1 text2 vOffset vLength delta d front
                 v2 v1 k1start k1end (k1 + 2)
        else walk_front fuel' text1 text2 vOffset vLength delta d front
               v2 v1 k1start k1end (k1 + 2)
    end
  else Some (Frontier v1 k1start k1end).

(** "Walk the reverse path one step": the [k2] loop at level [d]. *)
Fixpoint walk_reverse (fuel : nat) (text1 text2 : jstring)
    (vOffset vLength delta d : Z) (front : bool) (v1 : gmap Z Z)
    (v2 : gmap Z Z) (k2start k2end k2 : Z) : option Walk :=
  if k2 <=? d - k2end then
    match fuel with
    | O => None
    | S fuel' =>
        let k2Offset := vOffset + k2 in
        x2 ← furthest v2 k2Offset k2 d;
        '(x2, y2) ← snake_reverse (length text1 + length text2 + 2)
                      text1 text2 x2 (x2 - k2);
        let v2 := <[k2Offset := x2]> v2 in
        if len text1 <? x2 then
          (* Ran off the left of the graph. *)
          walk_reverse fuel' text1 text2 vOffset vLength delta d front v1
            v2 k2start (k2end + 2) (k2 + 2)
        else if len text2 <? y2 then
          (* Ran off the top of the graph. *)
          walk_reverse fuel' text1 text2 vOffset vLength delta d front v1
            v2 (k2start + 2) k2end (k2 + 2)
        else if negb front then
          let k1Offset := vOffset + delta - k2 in
          if (0 <=? k1Offset) && (k1Offset <? vLength) then
            x1 ← v1 !! k1Offset;
            if negb (x1 =? -1) && (len text1 - x2 <=? x1)
            then Some (Overlap x1 (vOffset + x1 - k1Offset))
            else walk_reverse fuel' text1 text2 vOffset vLength delta d
                   front v1 v2 k2start k2end (k2 + 2)
          else walk_reverse fuel' text1 text2 vOffset vLength delta d front
                 v1 v2 k2start k2end (k2 + 2)
        else walk_reverse fuel' text1 text2 vOffset vLength delta d front
               v1 v2 k2start k2end (k2 + 2)
    end
  else Some (Frontier v2 k2start k2end).

Section DiffEngine.

(** The engine's options, and the successive values returned by
    [new Date().getTime()]: the [n]-th reading of the clock is [now n].
    Every function that may read the clock threads the number of readings
    made so far. *)
Variable cfg : Config.
Variable now : nat -> Z.

Definition DiffMainFn : Type :=
  jstring -> jstring -> bool -> Q -> nat -> option (list Diff * nat).

Section Recursion.

(** The recursive calls to [this.diffMain] with all four arguments. *)
Variable diffMain : DiffMainFn.

Definition diffBisectSplit_ (text1 text2 : jstring) (x y : Z) (deadline : Q)
    (clk : nat) : option (list Diff * nat) :=
  let text1a := substring text1 0 x in
  let text2a := substring text2 0 y in
  let text1b := substring_from text1 x in
  let text2b := substring_from text2 y in
  (* Compute both diffs serially. *)
  '(diffs, clk) ← diffMain text1a text2a false deadline clk;
  '(diffsb, clk) ← diffMain text1b text2b false deadline clk;
  Some (diffs ++ diffsb, clk).

(** The [d] loop of [diffBisect_]; [n] counts the levels still to go. *)
Fixpoint bisect_loop (n : nat) (text1 text2 : jstring)
    (vOffset vLength delta : Z) (front : bool) (deadline : Q) (d : Z)
    (v1 v2 : gmap Z Z) (k1start k1end k2start k2end : Z) (clk : nat)
  : option (list Diff * nat) :=
  let bail := Some ([mkDiff DIFF_DELETE text1; mkDiff DIFF_INSERT text2],
                    clk) in
  match n with
  | O => bail
  | S n' =>
      (* Bail out if deadline is reached. *)
      if negb (Qle_bool (inject_Z (now clk)) deadline)
      then Some ([mkDiff DIFF_DELETE text1; mkDiff DIFF_INSERT text2], S clk)
      else
        let clk := S clk in
        w1 ← walk_front (Z.to_nat d + 2) text1 text2 vOffset vLength delta d
               front v2 v1 k1start k1end (- d + k1start);
        match w1 with
        | Overlap x y => diffBisectSplit_ text1 text2 x y deadline clk
        | Frontier v1 k1start k1end =>
            w2 ← walk_reverse (Z.to_nat d + 2) text1 text2 vOffset vLength
                   delta d front v1 v2 k2start k2end (- d + k2start);
            match w2 with
            | Overlap x y => diffBisectSplit_ text1 text2 x y deadline clk
            | Frontier v2 k2start k2end =>
                bisect_loop n' text1 text2 vOffset vLength delta front
                  deadline (d + 1) v1 v2 k1start k1end k2start k2end clk
            end
        end
  end.

Definition diffBisect_ (text1 text2 : jstring) (deadline : Q) (clk : nat)
  : option (list Diff * nat) :=
  let text1Length := len text1 in
  let text2Length := len text2 in
  let maxD := ceil_div (text1Length + text2Length) 2 in
  let vOffset := maxD in
  let vLength := 2 * maxD in
  let v1 := <[vOffset + 1 := 0]> (new_filled vLength) in
  let v2 := <[vOffset + 1 := 0]> (new_filled vLength) in
  let delta := text1Length - text2Length in
  (* If the total number of characters is odd, then the front path will
     collide with the reverse path. *)
  let front := negb (Z.rem delta 2 =? 0) in
  bisect_loop (Z.to_nat maxD) text1 text2 vOffset vLength delta front
    deadline 0 v1 v2 0 0 0 0 clk.

(** The local variables of the re-diff loop of [diffLineMode_]. *)
Record RediffState := mkRediff {
  rd_diffs : list Diff;
  rd_pointer : Z;
  rd_countDelete : Z;
  rd_countInsert : Z;
  rd_textDelete : jstring;
  rd_textInsert : jstring
}.

(** One iteration of the re-diff loop, including [pointer++]. *)
Definition rediff_step (deadline : Q) (s : RediffState) (clk : nat)
  : option (RediffState * nat) :=
  let '(mkRediff diffs pointer countDelete countInsert textDelete textInsert) := s in
  cur ← get diffs pointer;
  match d_op cur with
  | DIFF_INSERT =>
      Some (mkRediff diffs (pointer + 1) countDelete (countInsert + 1)
              textDelete (textInsert ++ d_text cur), clk)
  | DIFF_DELETE =>
      Some (mkRediff diffs (pointer + 1) (countDelete + 1) countInsert
              (textDelete ++ d_text cur) textInsert, clk)
  | DIFF_EQUAL =>
      (* Upon reaching an equality, check for prior redundancies. *)
      if (1 <=? countDelete) && (1 <=? countInsert) then
        (* Delete the offending records and add the merged ones. *)
        let diffs := splice diffs (pointer - countDelete - countInsert)
                       (countDelete + countInsert) [] in
        let pointer := pointer - countDelete - countInsert in
        '(subDiff, clk) ← diffMain textDelete textInsert false deadline clk;
        let diffs := splice diffs pointer 0 subDiff in
        let pointer := pointer + len subDiff in
        Some (mkRediff diffs (pointer + 1) 0 0 [] [], clk)
      else Some (mkRediff diffs (pointer + 1) 0 0 [] [], clk)
  end.

Fixpoint rediff_loop (fuel : nat) (deadline : Q) (s : RediffState)
    (clk : nat) : option (list Diff * nat) :=
  if rd_pointer s <? len (rd_diffs s) then
    match fuel with
    | O => None
    | S fuel' =>
        r ← rediff_step deadline s clk;
        rediff_loop fuel' deadline (fst r) (snd r)
    end
  else Some (rd_diffs s, clk).

Definition diffLineMode_ (text1 text2 : jstring) (deadline : Q) (clk : nat)
  : option (list Diff * nat) :=
  (* Scan the text on a line-by-line basis first. *)
  '(chars1, chars2, linearray) ← diffLinesToChars_ text1 text2;
  '(diffs, clk) ← diffMain chars1 chars2 false deadline clk;
  (* Convert the diff back to original text. *)
  let diffs := diffCharsToLines_ diffs linearray in
  (* Eliminate freak matches (e.g. blank lines) *)
  diffs ← diffCleanupSemantic diffs;
  (* Rediff any replacement blocks, this time character-by-character.
     Add a dummy entry at the end. *)
  let diffs := diffs ++ [mkDiff DIFF_EQUAL []] in
  '(diffs, clk) ← rediff_loop (length diffs + 1)%nat deadline
                    (mkRediff diffs 0 0 0 [] []) clk;
  (* Remove the dummy entry at the end. *)
  Some (take (length diffs - 1)%nat diffs, clk).

Definition diffCompute_ (text1 text2 : jstring) (checklines : bool)
    (deadline : Q) (clk : nat) : option (list Diff * nat) :=
  if negb (truthy text1) then
    (* Just add some text (speedup). *)
    Some ([mkDiff DIFF_INSERT text2], clk)
  else if negb (truthy text2) then
    (* Just delete some text (speedup). *)
    Some ([mkDiff DIFF_DELETE text1], clk)
  else
    let longtext := if len text2 <? len text1 then text1 else text2 in
    let shorttext := if len text2 <? len text1 then text2 else text1 in
    let i := indexOf longtext shorttext 0 in
    if negb (i =? -1) then
      (* Shorter text is inside the longer text (speedup).  Swap
         insertions for deletions if diff is reversed. *)
      let op := if len text2 <? len text1 then DIFF_DELETE else DIFF_INSERT in
      Some ([mkDiff op (substring longtext 0 i);
             mkDiff DIFF_EQUAL shorttext;
             mkDiff op (substring_from longtext (i + len shorttext))], clk)
    else if len shorttext =? 1 then
      (* Single character string.  After the previous speedup, the
         character can't be an equality. *)
      Some ([mkDiff DIFF_DELETE text1; mkDiff DIFF_INSERT text2], clk)
    else
      (* Check to see if the problem can be split in two. *)
      hm ← diffHalfMatch_ cfg text1 text2;
      match hm with
      | Some (text1A, text1B, text2A, text2B, midCommon) =>
          (* Send both pairs off for separate processing. *)
          '(diffsA, clk) ← diffMain text1A text2A checklines deadline clk;
          '(diffsB, clk) ← diffMain text1B text2B checklines deadline clk;
          (* Merge the results. *)
          Some (diffsA ++ [mkDiff DIFF_EQUAL midCommon] ++ diffsB, clk)
      | None =>
          if checklines && (100 <? len text1) && (100 <? len text2)
          then diffLineMode_ text1 text2 deadline clk
          else diffBisect_ text1 text2 deadline clk
      end.

End Recursion.

(** [diffMain] called with all four arguments; [fuel] bounds the depth of
    the recursion through [diffCompute_]. *)
Fixpoint diffMain_rec (fuel : nat) (text1 text2 : jstring)
    (checklines : bool) (deadline : Q) (clk : nat)
  : option (list Diff * nat) :=
  match fuel with
  | O => None
  | S fuel' =>
      (* Check for equality (speedup). *)
      if str_eqb text1 text2 then
        if truthy text1 then Some ([mkDiff DIFF_EQUAL text1], clk)
        else Some ([], clk)
      else
        (* Trim off common prefix (speedup). *)
        commonlength ← diffCommonPrefix text1 text2;
        let commonprefix := substring text1 0 commonlength in
        let text1 := substring_from text1 commonlength in
        let text2 := substring_from text2 commonlength in
        (* Trim off common suffix (speedup). *)
        commonlength ← diffCommonSuffix text1 text2;
        let commonsuffix := substring_from text1 (len text1 - commonlength) in
        let text1 := substring text1 0 (len text1 - commonlength) in
        let text2 := substring text2 0 (len text2 - commonlength) in
        (* Compute the diff on the middle block. *)
        '(diffs, clk) ← diffCompute_ (diffMain_rec fuel') text1 text2
                          checklines deadline clk;
        (* Restore the prefix and suffix. *)
        let diffs :=
          if truthy commonprefix
          then mkDiff DIFF_EQUAL commonprefix :: diffs else diffs in
        let diffs :=
          if truthy commonsuffix
          then diffs ++ [mkDiff DIFF_EQUAL commonsuffix] else diffs in
        diffs ← diffCleanupMerge diffs;
        Some (diffs, clk)
  end.

(** [diffMain(text1, text2, optChecklines, optDeadline)] for two strings;
    an absent optional argument is [None].  The result carries the number
    of clock readings made. *)
Definition diffMain_clock (text1 text2 : jstring) (optChecklines : option bool)
    (optDeadline : option Q) (clk : nat) : option (list Diff * nat) :=
  (* Set a deadline by which time the diff must be complete. *)
  let '(deadline, clk) :=
    match optDeadline with
    | Some deadline => (deadline, clk)
    | None =>
        if Qle_bool (diffTimeout cfg) 0 then (MAX_VALUE, clk)
        else ((inject_Z (now clk) + diffTimeout cfg * 1000)%Q, S clk)
    end in
  let checklines := default true optChecklines in
  diffMain_rec (2 * (length text1 + length text2) + 4)%nat text1 text2
    checklines deadline clk.

(** The public entry point, on a fresh clock. *)
Definition diffMain (text1 text2 : jstring) (optChecklines : option bool)
  : option (list Diff) :=
  r ← diffMain_clock text1 text2 optChecklines None 0;
  Some (fst r).

End DiffEngine.

(** ** Errors *)

(** The errors thrown by the library, one constructor per [throw] site
    (the JavaScript values are [Error] objects told apart by their
    message), and the two built-in errors that can escape uncaught. *)
Inductive Error :=
  | NullInput
  | IllegalEscape (param : jstring)
  | InvalidNumber (param : jstring)
  | InvalidOp (token : jstring)
  | DeltaLengthMismatch (pointer length : Z)
  | PatternTooLong
  | PatchNotInitialized
  | InvalidCallShape
  | InvalidPatchString (line : jstring)
  | InvalidPatchMode (sign line : jstring)
  | URIError
  | TypeError
  | RangeError.

Global Instance Error_eq_dec : EqDecision Error.
Proof. solve_decision. Defined.

(** The outcome of a call that may throw. *)
Inductive Result (A : Type) :=
  | Ok (a : A)
  | Throw (e : Error).

Arguments Ok {A} a.
Arguments Throw {A} e.

Definition rbind {A B} (r : Result A) (k : A -> Result B) : Result B :=
  match r with
  | Ok a => k a
  | Throw e => Throw e
  end.

Global Instance Result_eq_dec {A} `{EqDecision A} : EqDecision (Result A).
Proof. solve_decision. Defined.

Global Instance Result_bind : MBind Result := fun A B k r => rbind r k.

(** ** The built-ins [encodeURI] and [decodeURI] (ECMA-262, 19.2.6) *)

Module URI.

(** [uriReserved] plus ["#"]: [; / ? : @ & = + $ , #]. *)
Definition reserved (c : Z) : bool :=
  (c =? 59) || (c =? 47) || (c =? 63) || (c =? 58) || (c =? 64) || (c =? 38)
  || (c =? 61) || (c =? 43) || (c =? 36) || (c =? 44) || (c =? 35).

(** [uriUnescaped]: letters, digits and [- _ . ! ~ * ' ( )]. *)
Definition unescaped (c : Z) : bool :=
  ((97 <=? c) && (c <=? 122)) || ((65 <=? c) && (c <=? 90))
  || ((48 <=? c) && (c <=? 57))
  || (c =? 45) || (c =? 95) || (c =? 46) || (c =? 33) || (c =? 126)
  || (c =? 42) || (c =? 39) || (c =? 40) || (c =? 41).

(** The code units [encodeURI] copies unchanged. *)
Definition unreserved (c : Z) : bool := reserved c || unescaped c.

Definition high_surrogate (c : Z) : bool := (55296 <=? c) && (c <=? 56319).
Definition low_surrogate (c : Z) : bool := (56320 <=? c) && (c <=? 57343).

(** Upper-case hexadecimal digit of a nibble. *)
Definition hex_digit (d : Z) : Z := if d <? 10 then 48 + d else 55 + d.

(** ["%XY"] *)
Definition percent_octet (b : Z) : jstring :=
  [37; hex_digit (b / 16); hex_digit (b mod 16)].

(** The UTF-8 encoding of a code point. *)
Definition utf8_octets (cp : Z) : list Z :=
  if cp <? 128 then [cp]
  else if cp <? 2048 then [192 + cp / 64; 128 + cp mod 64]
  else if cp <? 65536 then
    [224 + cp / 4096; 128 + (cp / 64) mod 64; 128 + cp mod 64]
  else
    [240 + cp / 262144; 128 + (cp / 4096) mod 64; 128 + (cp / 64) mod 64;
     128 + cp mod 64].

Definition percent_encode (cp : Z) : jstring :=
  concat (map percent_octet (utf8_octets cp)).

(** [encodeURI(s)]; [None] is the [URIError] thrown for an unpaired
    surrogate. *)
Fixpoint encodeURI (s : jstring) : option jstring :=
  match s with
  | [] => Some []
  | c :: rest =>
      if unreserved c then r ← encodeURI rest; Some (c :: r)
      else if high_surrogate c then
        match rest with
        | c2 :: rest' =>
            if low_surrogate c2 then
              r ← encodeURI rest';
              Some (percent_encode
                      ((c - 55296) * 1024 + (c2 - 56320) + 65536) ++ r)
            else None
        | [] => None
        end
      else if low_surrogate c then None
      else r ← encodeURI rest; Some (percent_encode c ++ r)
  end.

Definition hex_value (c : Z) : option Z :=
  if (48 <=? c) && (c <=? 57) then Some (c - 48)
  else if (65 <=? c) && (c <=? 70) then Some (c - 55)
  else if (97 <=? c) && (c <=? 102) then Some (c - 87)
  else None.

Definition hex_octet (a b : Z) : option Z :=
  x ← hex_value a; y ← hex_value b; Some (16 * x + y).

(** Number of leading 1 bits of an octet (5 stands for "more than 4"). *)
Definition leading_ones (b : Z) : Z :=
  if b <? 128 then 0 else if b <? 192 then 1 else if b <? 224 then 2
  else if b <? 240 then 3 else if b <? 248 then 4 else 5.

Definition continuation (b : Z) : bool := (128 <=? b) && (b <? 192).

(** The code point of a well-formed UTF-8 sequence of two to four octets:
    continuation octets, no overlong form, no surrogate, at most
    [0x10FFFF]. *)
Definition utf8_decode (octets : list Z) : option Z :=
  match octets with
  | [b0; b1] =>
      let v := (b0 - 192) * 64 + (b1 - 128) in
      if continuation b1 && (128 <=? v) then Some v else None
  | [b0; b1; b2] =>
      let v := (b0 - 224) * 4096 + (b1 - 128) * 64 + (b2 - 128) in
      if continuation b1 && continuation b2 && (2048 <=? v)
         && negb ((55296 <=? v) && (v <=? 57343))
      then Some v else None
  | [b0; b1; b2; b3] =>
      let v := (b0 - 240) * 262144 + (b1 - 128) * 4096 + (b2 - 128) * 64
               + (b3 - 128) in
      if continuation b1 && continuation b2 && continuation b3
         && (65536 <=? v) && (v <=? 1114111)
      then Some v else None
  | _ => None
  end.

(** [UTF16EncodeCodePoint] *)
Definition utf16_encode (v : Z) : jstring :=
  if v <? 65536 then [v]
  else [55296 + (v - 65536) / 1024; 56320 + (v - 65536) mod 1024].

(** [decodeURI(s)]; [None] is the [URIError] thrown for a malformed
    escape sequence. *)
Fixpoint decodeURI (s : jstring) : option jstring :=
  match s with
  | [] => Some []
  | c :: rest =>
      if negb (c =? 37) then r ← decodeURI rest; Some (c :: r)
      else
        match rest with
        | h1 :: h2 :: rest1 =>
            b ← hex_octet h1 h2;
            let n := leading_ones b in
            if n =? 0 then
              r ← decodeURI rest1;
              if reserved b then Some (37 :: h1 :: h2 :: r) else Some (b :: r)
            else if n =? 2 then
              match rest1 with
              | p1 :: h3 :: h4 :: rest2 =>
                  if p1 =? 37 then
                    b1 ← hex_octet h3 h4;
                    v ← utf8_decode [b; b1];
                    r ← decodeURI rest2;
                    Some (utf16_encode v ++ r)
                  else None
              | _ => None
              end
            else if n =? 3 then
              match rest1 with
              | p1 :: h3 :: h4 :: p2 :: h5 :: h6 :: rest3 =>
                  if (p1 =? 37) && (p2 =? 37) then
                    b1 ← hex_octet h3 h4;
                    b2 ← hex_octet h5 h6;
                    v ← utf8_decode [b; b1; b2];
                    r ← decodeURI rest3;
                    Some (utf16_encode v ++ r)
                  else None
              | _ => None
              end
            else if n =? 4 then
              match rest1 with
              | p1 :: h3 :: h4 :: p2 :: h5 :: h6 :: p3 :: h7 :: h8 :: rest4 =>
                  if (p1 =? 37) && (p2 =? 37) && (p3 =? 37) then
                    b1 ← hex_octet h3 h4;
                    b2 ← hex_octet h5 h6;
                    b3 ← hex_octet h7 h8;
                    v ← utf8_decode [b; b1; b2; b3];
                    r ← decodeURI rest4;
                    Some (utf16_encode v ++ r)
                  else None
              | _ => None
              end
            else None
        | _ => None
        end
  end.

End URI.

(** ** Text helpers of the serializers *)

(** [s.replace(/%20/g, " ")] *)
Fixpoint replace_pct20 (s : jstring) : jstring :=
  match s with
  | [] => []
  | c :: rest =>
      match rest with
      | c1 :: c2 :: rest' =>
          if (c =? 37) && (c1 =? 50) && (c2 =? 48)
          then 32 :: replace_pct20 rest'
          else c :: replace_pct20 rest
      | _ => c :: replace_pct20 rest
      end
  end.

(** [parts.join(sep)] *)
Fixpoint join (sep : jstring) (parts : list jstring) : jstring :=
  match parts with
  | [] => []
  | [p] => p
  | p :: ps => p ++ sep ++ join sep ps
  end.

(** [s.split(sep)] for a one-character separator; the result is never
    empty. *)
Fixpoint split (sep : Z) (s : jstring) : list jstring :=
  match s with
  | [] => [[]]
  | c :: rest =>
      if c =? sep then [] :: split sep rest
      else match split sep rest with
           | t :: ts => (c :: t) :: ts
           | [] => [[c]]
           end
  end.

(** The decimal digits of a non-negative integer, most significant first;
    [fuel] bounds the number of digits. *)
Fixpoint digits (fuel : nat) (n : Z) (acc : jstring) : jstring :=
  match fuel with
  | O => acc
  | S fuel' =>
      let acc := (48 + n mod 10) :: acc in
      if n <? 10 then acc else digits fuel' (n / 10) acc
  end.

(** [String(n)] for an integer. *)
Definition show_int (n : Z) : jstring :=
  if n <? 0 then 45 :: digits (S (Z.to_nat (Z.log2 (- n)))) (- n) []
  else digits (S (Z.to_nat (Z.log2 n))) n [].

Definition is_digit (c : Z) : bool := (48 <=? c) && (c <=? 57).

(** The value of the longest prefix of decimal digits, with the number of
    digits read. *)
Fixpoint read_digits (s : jstring) (acc : Z) (count : nat) : Z * nat :=
  match s with
  | c :: rest =>
      if is_digit c then read_digits rest (acc * 10 + (c - 48)) (S count)
      else (acc, count)
  | [] => (acc, count)
  end.

(** Strip leading white space and line terminators. *)
Fixpoint trim_start (s : jstring) : jstring :=
  match s with
  | c :: rest => if whitespace c then trim_start rest else s
  | [] => []
  end.

(** [parseInt(s, 10)]; [None] is [NaN].  The result is the exact integer
    (the source holds it in a double). *)
Definition parseInt (s : jstring) : option Z :=
  let s := trim_start s in
  let '(sign, s) :=
    match s with
    | 45 :: rest => (-1, rest)
    | 43 :: rest => (1, rest)
    | _ => (1, s)
    end in
  let '(v, count) := read_digits s 0 0 in
  match count with
  | O => None
  | S _ => Some (sign * v)
  end.

(** ** Delta encoding *)

Definition delta_token (d : Diff) : Result jstring :=
  match d_op d with
  | DIFF_INSERT =>
      match URI.encodeURI (d_text d) with
      | Some e => Ok (43 :: e)
      | None => Throw URIError
      end
  | DIFF_DELETE => Ok (45 :: show_int (len (d_text d)))
  | DIFF_EQUAL => Ok (61 :: show_int (len (d_text d)))
  end.

(** The [for] loop of [diffToDelta]. *)
Fixpoint delta_tokens (diffs : list Diff) : Result (list jstring) :=
  match diffs with
  | [] => Ok []
  | d :: rest =>
      t ← delta_token d;
      ts ← delta_tokens rest;
      Ok (t :: ts)
  end.

Definition diffToDelta (diffs : list Diff) : Result jstring :=
  text ← delta_tokens diffs;
  Ok (replace_pct20 (join [9] text)).

(** The [for] loop of [diffFromDelta] over the remaining tokens; the state
    is the array built so far (in reverse) and the cursor in [text1]. *)
Fixpoint fromDelta_loop (text1 : jstring) (tokens : list jstring)
    (diffs : list Diff) (pointer : Z) : Result (list Diff * Z) :=
  match tokens with
  | [] => Ok (diffs, pointer)
  | token :: rest =>
      (* Each token begins with a one character parameter which specifies
         the operation of this token (delete, insert, equality). *)
      let param := substring_from token 1 in
      match token with
      | 43 :: _ =>
          match URI.decodeURI param with
          | Some t =>
              fromDelta_loop text1 rest (diffs ++ [mkDiff DIFF_INSERT t])
                pointer
          | None => Throw (IllegalEscape param)
          end
      | 45 :: _ | 61 :: _ =>
          match parseInt param with
          | Some n =>
              if n <? 0 then Throw (InvalidNumber param)
              else
                let text := substring text1 pointer (pointer + n) in
                let op := if str_eqb (charAt token 0) [61]
                          then DIFF_EQUAL else DIFF_DELETE in
                fromDelta_loop text1 rest (diffs ++ [mkDiff op text])
                  (pointer + n)
          | None => Throw (InvalidNumber param)
          end
      | [] => fromDelta_loop text1 rest diffs pointer
      | _ => Throw (InvalidOp token)
      end
  end.

Definition diffFromDelta (text1 delta : jstring) : Result (list Diff) :=
  let tokens := split 9 delta in
  r ← fromDelta_loop text1 tokens [] 0;
  if negb (snd r =? len text1)
  then Throw (DeltaLengthMismatch (snd r) (len text1))
  else Ok (fst r).

(** ** Match engine *)

(** [ToInt32]: the wrap-around of the 32-bit bitwise operators. *)
Definition int32 (z : Z) : Z := (z + 2147483648) mod 4294967296 - 2147483648.

(** [x << n] *)
Definition shl (x n : Z) : Z := int32 (Z.shiftl (int32 x) (n mod 32)).

(** [x | y] and [x & y] *)
Definition bor (x y : Z) : Z := Z.lor (int32 x) (int32 y).
Definition band (x y : Z) : Z := Z.land (int32 x) (int32 y).

(** A sparse array or dictionary of numbers read by a bitwise operator: a
    missing entry is [undefined], which [ToInt32] turns into 0. *)
Definition bits (m : gmap Z Z) (i : Z) : Z := default 0 (m !! i).

(** [matchAlphabet_]: the keys are the code units of the pattern. *)
Fixpoint alphabet_fill (pattern : jstring) (patternLength i : Z)
    (s : gmap Z Z) : gmap Z Z :=
  match pattern with
  | [] => s
  | c :: rest =>
      alphabet_fill rest patternLength (i + 1)
        (<[c := bor (bits s c) (shl 1 (patternLength - i - 1))]> s)
  end.

Definition matchAlphabet_ (pattern : jstring) : gmap Z Z :=
  alphabet_fill pattern (len pattern) 0
    (foldr (fun c s => <[c := 0]> s) ∅ pattern).

(** [s[text.charAt(j - 1)]] under a bitwise operator. *)
Definition charMatch_at (s : gmap Z Z) (text : jstring) (j : Z) : Z :=
  match charAt text (j - 1) with
  | [c] => bits s c
  | _ => 0
  end.

Section Bitap.

Variable cfg : Config.
Variables (text pattern : jstring) (loc : Z).

(** The closure [matchBitapScore_]. *)
Definition matchBitapScore_ (e x : Z) : Q :=
  let accuracy := (inject_Z e / inject_Z (len pattern))%Q in
  let proximity := Z.abs (loc - x) in
  if matchDistance cfg =? 0 then
    (* Dodge divide by zero error. *)
    if proximity =? 0 then accuracy else 1%Q
  else (accuracy + inject_Z proximity / inject_Z (matchDistance cfg))%Q.

(** [Math.min] on scores. *)
Definition score_min (a b : Q) : Q := if Qle_bool a b then a else b.

(** "Run a binary search to determine how far from [loc] we can stray at
    this error level": the state is [(binMin, binMid, binMax)]. *)
Fixpoint bin_search (fuel : nat) (d : Z) (scoreThreshold : Q)
    (binMin binMid binMax : Z) : option (Z * Z) :=
  if binMin <? binMid then
    match fuel with
    | O => None
    | S fuel' =>
        if Qle_bool (matchBitapScore_ d (loc + binMid)) scoreThreshold
        then bin_search fuel' d scoreThreshold binMid
               ((binMax - binMid) / 2 + binMid) binMax
        else bin_search fuel' d scoreThreshold binMin
               ((binMid - binMin) / 2 + binMin) binMid
    end
  else Some (binMid, binMax).

(** The [j] loop at error level [d], counting [j] down from [finish]; the
    state is [(rd, start, scoreThreshold, bestLoc)]. *)
Fixpoint rd_loop (j : nat) (d matchmask : Z) (s lastRd : gmap Z Z)
    (rd : gmap Z Z) (start : Z) (scoreThreshold : Q) (bestLoc : Z)
  : gmap Z Z * Q * Z :=
  match j with
  | O => (rd, scoreThreshold, bestLoc)
  | S j' =>
      let jz := Z.of_nat j in
      if jz <? start then (rd, scoreThreshold, bestLoc)
      else
        let charMatch := charMatch_at s text jz in
        let v :=
          if d =? 0 then
            (* First pass: exact match. *)
            band (bor (shl (bits rd (jz + 1)) 1) 1) charMatch
          else
            (* Subsequent passes: fuzzy match. *)
            bor (bor (band (bor (shl (bits rd (jz + 1)) 1) 1) charMatch)
                     (bor (shl (bor (bits lastRd (jz + 1)) (bits lastRd jz))
                               1) 1))
                (bits lastRd (jz + 1)) in
        let rd := <[jz := v]> rd in
        if negb (band v matchmask =? 0) then
          let score := matchBitapScore_ d (jz - 1) in
          (* This match will almost certainly be better than any existing
             match.  But check anyway. *)
          if Qle_bool score scoreThreshold then
            let bestLoc := jz - 1 in
            if loc <? bestLoc then
              (* When passing loc, don't exceed our current distance from
                 loc. *)
              rd_loop j' d matchmask s lastRd rd
                (Z.max 1 (2 * loc - bestLoc)) score bestLoc
            else
              (* Already passed loc, downhill from here on in. *)
              (rd, score, bestLoc)
          else rd_loop j' d matchmask s lastRd rd start scoreThreshold bestLoc
        else rd_loop j' d matchmask s lastRd rd start scoreThreshold bestLoc
  end.

(** The [d] loop; [n] counts the error levels still to go. *)
Fixpoint bitap_loop (n : nat) (d matchmask : Z) (s lastRd : gmap Z Z)
    (binMax : Z) (scoreThreshold : Q) (bestLoc : Z)
  : option (Result Z) :=
  match n with
  | O => Some (Ok bestLoc)
  | S n' =>
      '(binMid, _) ← bin_search (Z.to_nat binMax + 2) d scoreThreshold
                       0 binMax binMax;
      (* Use the result from this iteration as the maximum for the next. *)
      let binMax := binMid in
      let start := Z.max 1 (loc - binMid + 1) in
      let finish := Z.min (loc + binMid) (len text) + len pattern in
      if finish + 2 <? 0 then Some (Throw RangeError)
      else
        let rd := <[finish + 1 := shl 1 d - 1]> (∅ : gmap Z Z) in
        let '(rd, scoreThreshold, bestLoc) :=
          rd_loop (Z.to_nat finish) d matchmask s lastRd rd start
            scoreThreshold bestLoc in
        (* No hope for a (better) match at greater error levels. *)
        if negb (Qle_bool (matchBitapScore_ (d + 1) loc) scoreThreshold)
        then Some (Ok bestLoc)
        else bitap_loop n' (d + 1) matchmask s rd binMax scoreThreshold
               bestLoc
  end.

Definition matchBitap_ : option (Result Z) :=
  if matchMaxBits cfg <? len pattern then Some (Throw PatternTooLong)
  else
    (* Initialise the alphabet. *)
    let s := matchAlphabet_ pattern in
    (* Highest score beyond which we give up. *)
    let scoreThreshold := matchThreshold cfg in
    (* Is there a nearby exact match? (speedup) *)
    let bestLoc := indexOf text pattern loc in
    let scoreThreshold :=
      if negb (bestLoc =? -1) then
        let scoreThreshold :=
          score_min (matchBitapScore_ 0 bestLoc) scoreThreshold in
        (* What about in the other direction? (speedup) *)
        let bestLoc := lastIndexOf text pattern (loc + len pattern) in
        if negb (bestLoc =? -1)
        then score_min (matchBitapScore_ 0 bestLoc) scoreThreshold
        else scoreThreshold
      else scoreThreshold in
    (* Initialise the bit arrays. *)
    let matchmask := shl 1 (len pattern - 1) in
    bitap_loop (length pattern) 0 matchmask s ∅ (len pattern + len text)
      scoreThreshold (-1).

End Bitap.

(** [matchMain] on non-null arguments. *)
Definition matchMain (cfg : Config) (text pattern : jstring) (loc : Z)
  : option (Result Z) :=
  let loc := Z.max 0 (Z.min loc (len text)) in
  if str_eqb text pattern then
    (* Shortcut (potentially not guaranteed by the algorithm) *)
    Some (Ok 0)
  else if len text =? 0 then
    (* Nothing to match. *)
    Some (Ok (-1))
  else if str_eqb (substring text loc (loc + len pattern)) pattern then
    (* Perfect match at the perfect spot!  (Includes case of null pattern) *)
    Some (Ok loc)
  else
    (* Do a fuzzy compare. *)
    matchBitap_ cfg text pattern loc.

(** ** [diffCleanupEfficiency] *)

Record EffState := mkEff {
  ef_diffs : list Diff;
  ef_changes : bool;
  ef_equalities : gmap Z Z;
  ef_equalitiesLength : Z;
  ef_lastEquality : option jstring;   (* [None] is [null] *)
  ef_pointer : Z;
  ef_preIns : bool;
  ef_preDel : bool;
  ef_postIns : bool;
  ef_postDel : bool
}.

Definition count_true (bs : list bool) : Z :=
  len (filter (fun b => b = true) bs).

(** One iteration of the loop of [diffCleanupEfficiency], including
    [pointer++]. *)
Definition efficiency_step (cfg : Config) (s : EffState) : option EffState :=
  let '(mkEff diffs changes equalities equalitiesLength lastEquality pointer
          preIns preDel postIns postDel) := s in
  cur ← get diffs pointer;
  if op_eqb (d_op cur) DIFF_EQUAL then
    (* Equality found. *)
    if (len (d_text cur) <? diffEditCost cfg) && (postIns || postDel) then
      (* Candidate found. *)
      Some (mkEff diffs changes (<[equalitiesLength := pointer]> equalities)
              (equalitiesLength + 1) (Some (d_text cur)) (pointer + 1)
              postIns postDel false false)
    else
      (* Not a candidate, and can never become one. *)
      Some (mkEff diffs changes equalities 0 None (pointer + 1)
              preIns preDel false false)
  else
    (* An insertion or deletion. *)
    let postDel := if op_eqb (d_op cur) DIFF_DELETE then true else postDel in
    let postIns := if op_eqb (d_op cur) DIFF_DELETE then postIns else true in
    match lastEquality with
    | Some (c :: rest) =>
        let lastEquality := c :: rest in
        if (preIns && preDel && postIns && postDel)
           || ((2 * len lastEquality <? diffEditCost cfg)
               && (count_true [preIns; preDel; postIns; postDel] =? 3))
        then
          top ← equalities !! (equalitiesLength - 1);
          (* Duplicate record. *)
          let diffs := splice diffs top 0 [mkDiff DIFF_DELETE lastEquality] in
          (* Change second copy to insert. *)
          second ← get diffs (top + 1);
          let diffs := set_at diffs (top + 1) (set_op second DIFF_INSERT) in
          (* Throw away the equality we just deleted. *)
          let equalitiesLength := equalitiesLength - 1 in
          if preIns && preDel then
            (* No changes made which could affect previous entry, keep
               going. *)
            Some (mkEff diffs true equalities 0 None (pointer + 1)
                    preIns preDel true true)
          else
            (* Throw away the previous equality. *)
            let equalitiesLength := equalitiesLength - 1 in
            pointer ←
              (if 0 <? equalitiesLength
               then equalities !! (equalitiesLength - 1) else Some (-1));
            Some (mkEff diffs true equalities equalitiesLength None
                    (pointer + 1) preIns preDel false false)
        else
          Some (mkEff diffs changes equalities equalitiesLength
                  (Some lastEquality) (pointer + 1)
                  preIns preDel postIns postDel)
    | _ =>
        Some (mkEff diffs changes equalities equalitiesLength lastEquality
                (pointer + 1) preIns preDel postIns postDel)
    end.

Fixpoint efficiency_loop (fuel : nat) (cfg : Config) (s : EffState)
  : option EffState :=
  if ef_pointer s <? len (ef_diffs s) then
    match fuel with
    | O => None
    | S fuel' => s' ← efficiency_step cfg s; efficiency_loop fuel' cfg s'
    end
  else Some s.

Definition diffCleanupEfficiency (cfg : Config) (diffs : list Diff)
  : option (list Diff) :=
  s ← efficiency_loop ((length diffs + 2) * (length diffs + 2) * 2) cfg
        (mkEff diffs false ∅ 0 None 0 false false false false);
  if ef_changes s then diffCleanupMerge (ef_diffs s) else Some (ef_diffs s).

(** ** Patches *)

(** [DiffMatchPatch.patchObj]; the start positions are [null] ([None])
    until assigned. *)
Record Patch := mkPatch {
  p_diffs : list Diff;
  p_start1 : option Z;
  p_start2 : option Z;
  p_length1 : Z;
  p_length2 : Z
}.

Global Instance Patch_eq_dec : EqDecision Patch.
Proof. solve_decision. Defined.

(** [new DiffMatchPatch.patchObj()] *)
Definition new_patchObj : Patch := mkPatch [] None None 0 0.

(** [ToNumber] of a start position: [null] counts as 0. *)
Definition num (o : option Z) : Z := default 0 o.

(** The [while] loop of [patchAddContext_]: grows [padding] and returns
    its final value. *)
Fixpoint context_loop (fuel : nat) (cfg : Config) (text : jstring)
    (start2 length1 : Z) (pattern : jstring) (padding : Z) : option Z :=
  if negb (indexOf text pattern 0 =? lastIndexOf_end text pattern)
     && (len pattern <? matchMaxBits cfg - patchMargin cfg - patchMargin cfg)
  then
    match fuel with
    | O => None
    | S fuel' =>
        let padding := padding + patchMargin cfg in
        context_loop fuel' cfg text start2 length1
          (substring text (start2 - padding) (start2 + length1 + padding))
          padding
    end
  else Some padding.

Definition patchAddContext_ (cfg : Config) (patch : Patch) (text : jstring)
  : option (Result Patch) :=
  if len text =? 0 then Some (Ok patch)
  else
    match p_start2 patch with
    | None => Some (Throw PatchNotInitialized)
    | Some start2 =>
        let pattern := substring text start2 (start2 + p_length1 patch) in
        (* Look for the first and last matches of pattern in text.  If two
           different matches are found, increase the pattern length. *)
        padding ← context_loop
                    (Z.to_nat (Z.abs start2 + Z.abs (p_length1 patch)
                               + len text) + 1)
                    cfg text start2 (p_length1 patch) pattern 0;
        (* Add one chunk for good luck. *)
        let padding := padding + patchMargin cfg in
        (* Add the prefix. *)
        let prefix := substring text (start2 - padding) start2 in
        let diffs :=
          if truthy prefix
          then mkDiff DIFF_EQUAL prefix :: p_diffs patch
          else p_diffs patch in
        (* Add the suffix. *)
        let suffix := substring text (start2 + p_length1 patch)
                        (start2 + p_length1 patch + padding) in
        let diffs :=
          if truthy suffix
          then diffs ++ [mkDiff DIFF_EQUAL suffix] else diffs in
        Some (Ok (mkPatch diffs
                    (* Roll back the start points. *)
                    (Some (num (p_start1 patch) - len prefix))
                    (Some (start2 - len prefix))
                    (* Extend the lengths. *)
                    (p_length1 patch + (len prefix + len suffix))
                    (p_length2 patch + (len prefix + len suffix))))
    end.

(** The local variables of the [for] loop of [patchMake]; the array
    [patch.diffs] always has [patchDiffLength] elements. *)
Record MakeState := mkMake {
  mk_patches : list Patch;
  mk_patch : Patch;
  mk_charCount1 : Z;
  mk_charCount2 : Z;
  mk_prepatchText : jstring;
  mk_postpatchText : jstring
}.

Definition patchDiffLength (s : MakeState) : Z := len (p_diffs (mk_patch s)).

(** The body of the [for] loop for the diff [d]; [is_last] is
    [diffs.length == x + 1]. *)
Definition make_step (cfg : Config) (s : MakeState) (d : Diff)
    (is_last : bool) : option (Result MakeState) :=
  let '(mkMake patches patch charCount1 charCount2 prepatchText
          postpatchText) := s in
  let diffType := d_op d in
  let diffText := d_text d in
  let patch :=
    if (len (p_diffs patch) =? 0) && negb (op_eqb diffType DIFF_EQUAL)
    then
      (* A new patch starts here. *)
      mkPatch (p_diffs patch) (Some charCount1) (Some charCount2)
        (p_length1 patch) (p_length2 patch)
    else patch in
  r ←
    match diffType with
    | DIFF_INSERT =>
        Some (Ok (mkMake patches
                (mkPatch (p_diffs patch ++ [d]) (p_start1 patch)
                   (p_start2 patch) (p_length1 patch)
                   (p_length2 patch + len diffText))
                charCount1 charCount2 prepatchText
                (substring postpatchText 0 charCount2 ++ diffText
                   ++ substring_from postpatchText charCount2)))
    | DIFF_DELETE =>
        Some (Ok (mkMake patches
                (mkPatch (p_diffs patch ++ [d]) (p_start1 patch)
                   (p_start2 patch) (p_length1 patch + len diffText)
                   (p_length2 patch))
                charCount1 charCount2 prepatchText
                (substring postpatchText 0 charCount2
                   ++ substring_from postpatchText
                        (charCount2 + len diffText))))
    | DIFF_EQUAL =>
        if (len diffText <=? 2 * patchMargin cfg)
           && negb (len (p_diffs patch) =? 0) && negb is_last
        then
          (* Small equality inside a patch. *)
          Some (Ok (mkMake patches
                  (mkPatch (p_diffs patch ++ [d]) (p_start1 patch)
                     (p_start2 patch) (p_length1 patch + len diffText)
                     (p_length2 patch + len diffText))
                  charCount1 charCount2 prepatchText postpatchText))
        else if (2 * patchMargin cfg <=? len diffText)
                && negb (len (p_diffs patch) =? 0)
        then
          (* Time for a new patch. *)
          r ← patchAddContext_ cfg patch prepatchText;
          match r with
          | Throw e => Some (Throw e)
          | Ok patch =>
              (* Unlike Unidiff, our patch lists have a rolling context.
                 Update prepatch text & pos to reflect the application of
                 the just completed patch. *)
              Some (Ok (mkMake (patches ++ [patch]) new_patchObj
                      charCount2 charCount2 postpatchText postpatchText))
          end
        else
          Some (Ok (mkMake patches patch charCount1 charCount2
                  prepatchText postpatchText))
    end;
  match r with
  | Throw e => Some (Throw e)
  | Ok s =>
      (* Update the current character count. *)
      let charCount1 :=
        if negb (op_eqb diffType DIFF_INSERT)
        then mk_charCount1 s + len diffText else mk_charCount1 s in
      let charCount2 :=
        if negb (op_eqb diffType DIFF_DELETE)
        then mk_charCount2 s + len diffText else mk_charCount2 s in
      Some (Ok (mkMake (mk_patches s) (mk_patch s) charCount1 charCount2
              (mk_prepatchText s) (mk_postpatchText s)))
  end.

Fixpoint make_loop (cfg : Config) (diffs : list Diff) (s : MakeState)
  : option (Result MakeState) :=
  match diffs with
  | [] => Some (Ok s)
  | d :: rest =>
      r ← make_step cfg s d (bool_decide (rest = []));
      match r with
      | Throw e => Some (Throw e)
      | Ok s => make_loop cfg rest s
      end
  end.

(** [patchMake] once [text1] and [diffs] have been sorted out of the
    arguments. *)
Definition patchMake_diffs (cfg : Config) (text1 : jstring)
    (diffs : list Diff) : option (Result (list Patch)) :=
  match diffs with
  | [] => Some (Ok [])   (* Get rid of the null case. *)
  | _ =>
      r ← make_loop cfg diffs (mkMake [] new_patchObj 0 0 text1 text1);
      match r with
      | Throw e => Some (Throw e)
      | Ok s =>
          (* Pick up the leftover patch if not empty. *)
          if negb (patchDiffLength s =? 0) then
            r ← patchAddContext_ cfg (mk_patch s) (mk_prepatchText s);
            match r with
            | Throw e => Some (Throw e)
            | Ok patch => Some (Ok (mk_patches s ++ [patch]))
            end
          else Some (Ok (mk_patches s))
      end
  end.

(** The values [patchMake] tells apart in its arguments. *)
Inductive Arg :=
  | AUndefined
  | ANull
  | AString (s : jstring)
  | ADiffs (diffs : list Diff).

(** [patchMake(a, optB, optC)] *)
Definition patchMake (cfg : Config) (now : nat -> Z) (a optB optC : Arg)
  : option (Result (list Patch)) :=
  match a, optB, optC with
  | AString text1, AString text2, AUndefined =>
      (* Method 1: text1, text2.  Compute diffs from text1 and text2. *)
      diffs ← diffMain cfg now text1 text2 (Some true);
      diffs ←
        (if 2 <? len diffs then
           diffs ← diffCleanupSemantic diffs;
           diffCleanupEfficiency cfg diffs
         else Some diffs);
      patchMake_diffs cfg text1 diffs
  | ADiffs diffs, AUndefined, AUndefined =>
      (* Method 2: diffs.  Compute text1 from diffs. *)
      patchMake_diffs cfg (diffText1 diffs) diffs
  | AString text1, ADiffs diffs, AUndefined =>
      (* Method 3: text1, diffs *)
      patchMake_diffs cfg text1 diffs
  | AString text1, AString text2, ADiffs diffs =>
      (* Method 4: text1, text2, diffs.  text2 is not used. *)
      patchMake_diffs cfg text1 diffs
  | _, _, _ => Some (Throw InvalidCallShape)
  end.

(** [patchAddPadding]: returns the padded patches and the padding
    string.  The first and the last patch may be the same object, so the
    second update acts on the result of the first. *)
Definition nullPadding (cfg : Config) : jstring :=
  map (fun x => x mod 65536) (seqZ 1 (patchMargin cfg)).

Definition pad_first (cfg : Config) (patch : Patch) : Patch :=
  let paddingLength := patchMargin cfg in
  match p_diffs patch with
  | d :: rest =>
      if op_eqb (d_op d) DIFF_EQUAL then
        if len (d_text d) <? paddingLength then
          (* Grow first equality. *)
          let extraLength := paddingLength - len (d_text d) in
          mkPatch
            (set_text d (substring_from (nullPadding cfg) (len (d_text d))
                           ++ d_text d) :: rest)
            (Some (num (p_start1 patch) - extraLength))
            (Some (num (p_start2 patch) - extraLength))
            (p_length1 patch + extraLength) (p_length2 patch + extraLength)
        else patch
      else
        (* Add nullPadding equality. *)
        mkPatch (mkDiff DIFF_EQUAL (nullPadding cfg) :: p_diffs patch)
          (Some (num (p_start1 patch) - paddingLength))
          (Some (num (p_start2 patch) - paddingLength))
          (p_length1 patch + paddingLength) (p_length2 patch + paddingLength)
  | [] =>
      mkPatch [mkDiff DIFF_EQUAL (nullPadding cfg)]
        (Some (num (p_start1 patch) - paddingLength))
        (Some (num (p_start2 patch) - paddingLength))
        (p_length1 patch + paddingLength) (p_length2 patch + paddingLength)
  end.

Definition pad_last (cfg : Config) (patch : Patch) : Patch :=
  let paddingLength := patchMargin cfg in
  match last (p_diffs patch) with
  | Some d =>
      if op_eqb (d_op d) DIFF_EQUAL then
        if len (d_text d) <? paddingLength then
          (* Grow last equality. *)
          let extraLength := paddingLength - len (d_text d) in
          mkPatch
            (take (length (p_diffs patch) - 1) (p_diffs patch)
               ++ [set_text d (d_text d
                                 ++ substring (nullPadding cfg) 0 extraLength)])
            (p_start1 patch) (p_start2 patch)
            (p_length1 patch + extraLength) (p_length2 patch + extraLength)
        else patch
      else
        (* Add nullPadding equality. *)
        mkPatch (p_diffs patch ++ [mkDiff DIFF_EQUAL (nullPadding cfg)])
          (p_start1 patch) (p_start2 patch)
          (p_length1 patch + paddingLength) (p_length2 patch + paddingLength)
  | None =>
      mkPatch [mkDiff DIFF_EQUAL (nullPadding cfg)]
        (p_start1 patch) (p_start2 patch)
        (p_length1 patch + paddingLength) (p_length2 patch + paddingLength)
  end.

(** "Bump all the patches forward." *)
Definition bump (cfg : Config) (patch : Patch) : Patch :=
  mkPatch (p_diffs patch)
    (Some (num (p_start1 patch) + patchMargin cfg))
    (Some (num (p_start2 patch) + patchMargin cfg))
    (p_length1 patch) (p_length2 patch).

Definition patchAddPadding (cfg : Config) (patches : list Patch)
  : Result (list Patch * jstring) :=
  let patches := map (bump cfg) patches in
  match patches with
  | [] => Throw TypeError   (* [patches[0].diffs] on an empty array *)
  | first :: rest =>
      let patches := pad_first cfg first :: rest in
      match last patches with
      | Some l =>
          Ok (take (length patches - 1) patches ++ [pad_last cfg l],
              nullPadding cfg)
      | None => Throw TypeError
      end
  end.

(** [patchSplitMax]: the fragment under construction. *)
Record SplitState := mkSplit {
  sp_bigdiffs : list Diff;   (* [bigpatch.diffs] *)
  sp_patch : Patch;
  sp_start1 : Z;
  sp_start2 : Z;
  sp_empty : bool
}.

(** The inner [while] loop: packs diffs into the fragment. *)
Fixpoint split_fill (fuel : nat) (cfg : Config) (s : SplitState)
  : option SplitState :=
  let patchSize := matchMaxBits cfg in
  let '(mkSplit bigdiffs patch start1 start2 empty) := s in
  match bigdiffs with
  | d :: rest =>
      if p_length1 patch <? patchSize - patchMargin cfg then
        match fuel with
        | O => None
        | S fuel' =>
            let diffType := d_op d in
            let diffText := d_text d in
            if op_eqb diffType DIFF_INSERT then
              (* Insertions are harmless. *)
              split_fill fuel' cfg
                (mkSplit rest
                   (mkPatch (p_diffs patch ++ [d]) (p_start1 patch)
                      (p_start2 patch) (p_length1 patch)
                      (p_length2 patch + len diffText))
                   start1 (start2 + len diffText) false)
            else if op_eqb diffType DIFF_DELETE
                    && (len (p_diffs patch) =? 1)
                    && match p_diffs patch with
                       | d0 :: _ => op_eqb (d_op d0) DIFF_EQUAL
                       | [] => false
                       end
                    && (2 * patchSize <? len diffText)
            then
              (* This is a large deletion.  Let it pass in one chunk. *)
              split_fill fuel' cfg
                (mkSplit rest
                   (mkPatch (p_diffs patch ++ [mkDiff diffType diffText])
                      (p_start1 patch) (p_start2 patch)
                      (p_length1 patch + len diffText) (p_length2 patch))
                   (start1 + len diffText) start2 false)
            else
              (* Deletion or equality.  Only take as much as we can
                 stomach. *)
              let diffText :=
                substring diffText 0
                  (patchSize - p_length1 patch - patchMargin cfg) in
              let length2 :=
                if op_eqb diffType DIFF_EQUAL
                then p_length2 patch + len diffText else p_length2 patch in
              let start2 :=
                if op_eqb diffType DIFF_EQUAL
                then start2 + len diffText else start2 in
              let empty :=
                if op_eqb diffType DIFF_EQUAL then empty else false in
              let bigdiffs :=
                if str_eqb diffText (d_text d) then rest
                else set_text d (substring_from (d_text d) (len diffText))
                     :: rest in
              split_fill fuel' cfg
                (mkSplit bigdiffs
                   (mkPatch (p_diffs patch ++ [mkDiff diffType diffText])
                      (p_start1 patch) (p_start2 patch)
                      (p_length1 patch + len diffText) length2)
                   (start1 + len diffText) start2 empty)
        end
      else Some s
  | [] => Some s
  end.

(** "Append the end context for this patch." *)
Definition add_postcontext (patch : Patch) (postcontext : jstring) : Patch :=
  if str_eqb postcontext [] then patch
  else
    let diffs :=
      match last (p_diffs patch) with
      | Some l =>
          if op_eqb (d_op l) DIFF_EQUAL
          then take (length (p_diffs patch) - 1) (p_diffs patch)
                 ++ [set_text l (d_text l ++ postcontext)]
          else p_diffs patch ++ [mkDiff DIFF_EQUAL postcontext]
      | None => p_diffs patch ++ [mkDiff DIFF_EQUAL postcontext]
      end in
    mkPatch diffs (p_start1 patch) (p_start2 patch)
      (p_length1 patch + len postcontext) (p_length2 patch + len postcontext).

(** The outer [while] loop: one fragment per turn, appended to [acc]
    unless it is empty. *)
Fixpoint split_big (fuel : nat) (cfg : Config) (bigdiffs : list Diff)
    (start1 start2 : Z) (precontext : jstring) (acc : list Patch)
  : option (list Patch) :=
  match bigdiffs with
  | [] => Some acc
  | _ :: _ =>
      match fuel with
      | O => None
      | S fuel' =>
          (* Create one of several smaller patches. *)
          let patch :=
            if str_eqb precontext [] then
              mkPatch [] (Some (start1 - len precontext))
                (Some (start2 - len precontext)) 0 0
            else
              mkPatch [mkDiff DIFF_EQUAL precontext]
                (Some (start1 - len precontext))
                (Some (start2 - len precontext))
                (len precontext) (len precontext) in
          s ← split_fill (length bigdiffs + script_size bigdiffs + 1) cfg
                (mkSplit bigdiffs patch start1 start2 true);
          let '(mkSplit bigdiffs patch start1 start2 empty) := s in
          (* Compute the head context for the next patch. *)
          let precontext := diffText2 (p_diffs patch) in
          let precontext :=
            substring_from precontext (len precontext - patchMargin cfg) in
          (* Append the end context for this patch. *)
          let postcontext :=
            substring (diffText1 bigdiffs) 0 (patchMargin cfg) in
          let patch := add_postcontext patch postcontext in
          split_big fuel' cfg bigdiffs start1 start2 precontext
            (if empty then acc else acc ++ [patch])
      end
  end.

(** [patchSplitMax]: every patch with [length1 > matchMaxBits] is
    replaced, in place, by its fragments. *)
Fixpoint patchSplitMax (cfg : Config) (patches : list Patch)
  : option (list Patch) :=
  match patches with
  | [] => Some []
  | bigpatch :: rest =>
      head ←
        (if p_length1 bigpatch <=? matchMaxBits cfg then Some [bigpatch]
         else
           split_big
             (length (p_diffs bigpatch) + script_size (p_diffs bigpatch) + 1)
             cfg (p_diffs bigpatch) (num (p_start1 bigpatch))
             (num (p_start2 bigpatch)) [] []);
      tail ← patchSplitMax cfg rest;
      Some (head ++ tail)
  end.

(** ** Patch text format *)

(** A start position inside a string concatenation. *)
Definition show_start (o : option Z) : jstring :=
  match o with
  | Some n => show_int n
  | None => str "null"
  end.

Definition coords (start : option Z) (length : Z) : jstring :=
  if length =? 0 then show_start start ++ str ",0"
  else if length =? 1 then show_int (num start + 1)
  else show_int (num start + 1) ++ str "," ++ show_int length.

Definition op_char (o : Op) : Z :=
  match o with
  | DIFF_INSERT => 43
  | DIFF_DELETE => 45
  | DIFF_EQUAL => 32
  end.

(** The body lines of [patchObj.prototype.toString]. *)
Fixpoint patch_body (diffs : list Diff) : option jstring :=
  match diffs with
  | [] => Some []
  | d :: rest =>
      e ← URI.encodeURI (d_text d);
      r ← patch_body rest;
      Some (op_char (d_op d) :: e ++ [10] ++ r)
  end.

(** [patchObj.prototype.toString] *)
Definition patch_toString (patch : Patch) : Result jstring :=
  let coords1 := coords (p_start1 patch) (p_length1 patch) in
  let coords2 := coords (p_start2 patch) (p_length2 patch) in
  match patch_body (p_diffs patch) with
  | Some body =>
      Ok (replace_pct20
            (str "@@ -" ++ coords1 ++ str " +" ++ coords2 ++ str " @@"
               ++ [10] ++ body))
  | None => Throw URIError
  end.

(** [patchToText]: [join] converts every patch with [toString]. *)
Fixpoint patchToText (patches : list Patch) : Result jstring :=
  match patches with
  | [] => Ok []
  | p :: rest =>
      t ← patch_toString p;
      r ← patchToText rest;
      Ok (t ++ r)
  end.

(** The longest prefix of decimal digits and the rest. *)
Fixpoint span_digits (s : jstring) : jstring * jstring :=
  match s with
  | c :: rest =>
      if is_digit c then
        let '(ds, r) := span_digits rest in (c :: ds, r)
      else ([], s)
  | [] => ([], [])
  end.

(** Drop the literal [lit] from the front of [s]. *)
Definition expect (lit s : jstring) : option jstring :=
  if starts_with lit s then Some (drop (length lit) s) else None.

(** A comma, if there is one. *)
Definition optional_comma (s : jstring) : jstring :=
  match s with
  | 44 :: rest => rest
  | _ => s
  end.

(** [line.match(patchHeader)]: the four groups of the regular expression
    "@@ -" digits+ ","? digits* " +" digits+ ","? digits* " @@", anchored at
    both ends. *)
Definition match_patchHeader (line : jstring)
  : option (jstring * jstring * jstring * jstring) :=
  s ← expect (str "@@ -") line;
  let '(m1, s) := span_digits s in
  if negb (truthy m1) then None
  else
    let '(m2, s) := span_digits (optional_comma s) in
    s ← expect (str " +") s;
    let '(m3, s) := span_digits s in
    if negb (truthy m3) then None
    else
      let '(m4, s) := span_digits (optional_comma s) in
      s ← expect (str " @@") s;
      if truthy s then None else Some (m1, m2, m3, m4).

(** The start and length read from a header group pair. *)
Definition header_coords (mstart mlength : jstring) : option Z * Z :=
  let start := fst (read_digits mstart 0 0) in
  if str_eqb mlength [] then (Some (start - 1), 1)
  else if str_eqb mlength (str "0") then (Some start, 0)
  else (Some (start - 1), fst (read_digits mlength 0 0)).

Definition header_patch (m : jstring * jstring * jstring * jstring) : Patch :=
  let '(m1, m2, m3, m4) := m in
  let '(start1, length1) := header_coords m1 m2 in
  let '(start2, length2) := header_coords m3 m4 in
  mkPatch [] start1 start2 length1 length2.

Definition push_diff (patch : Patch) (d : Diff) : Patch :=
  mkPatch (p_diffs patch ++ [d]) (p_start1 patch) (p_start2 patch)
    (p_length1 patch) (p_length2 patch).

(** The two nested [while] loops of [patchFromText] over the remaining
    lines.  [cur] is the patch whose body is being read ([None] at a
    position where the outer loop expects a header); [patches] holds the
    patches completed before it. *)
Fixpoint fromText_loop (text : list jstring) (patches : list Patch)
    (cur : option Patch) : Result (list Patch) :=
  match text with
  | [] => Ok (patches ++ option_list cur)
  | line :: rest =>
      let header patches :=
        match match_patchHeader line with
        | None => Throw (InvalidPatchString line)
        | Some m => fromText_loop rest patches (Some (header_patch m))
        end in
      match cur with
      | None => header patches
      | Some patch =>
          let sign := charAt line 0 in
          match URI.decodeURI (substring_from line 1) with
          | None => Throw (IllegalEscape (substring_from line 1))
          | Some decoded =>
              if str_eqb sign [45] then
                (* Deletion. *)
                fromText_loop rest patches
                  (Some (push_diff patch (mkDiff DIFF_DELETE decoded)))
              else if str_eqb sign [43] then
                (* Insertion. *)
                fromText_loop rest patches
                  (Some (push_diff patch (mkDiff DIFF_INSERT decoded)))
              else if str_eqb sign [32] then
                (* Minor equality. *)
                fromText_loop rest patches
                  (Some (push_diff patch (mkDiff DIFF_EQUAL decoded)))
              else if str_eqb sign [64] then
                (* Start of next patch. *)
                header (patches ++ [patch])
              else if str_eqb sign [] then
                (* Blank line?  Whatever. *)
                fromText_loop rest patches (Some patch)
              else Throw (InvalidPatchMode sign decoded)
          end
      end
  end.

(** [patchFromText] on a string. *)
Definition patchFromText (textline : jstring) : Result (list Patch) :=
  if negb (truthy textline) then Ok []
  else fromText_loop (split 10 textline) [] None.

(** ** Predicates of the specification *)

(** "No two consecutive Ops have the same kind." *)
Fixpoint no_adjacent_same_kind (diffs : list Diff) : bool :=
  match diffs with
  | d :: (d' :: _) as rest =>
      negb (op_eqb (d_op d) (d_op d')) && no_adjacent_same_kind rest
  | _ => true
  end.

(** "No Op has an empty text." *)
Definition no_empty_text (diffs : list Diff) : bool :=
  forallb (fun d => truthy (d_text d)) diffs.

(** A script as the cleanup passes are meant to leave it. *)
Definition cleaned (diffs : list Diff) : Prop :=
  no_adjacent_same_kind diffs = true /\ no_empty_text diffs = true.

(** [length1] and [length2] agree with the texts of the diffs. *)
Definition lengths_agree (p : Patch) : Prop :=
  p_length1 p = len (diffText1 (p_diffs p))
  /\ p_length2 p = len (diffText2 (p_diffs p)).

(** A code unit is an integer below [2^16]. *)
Definition code_unit (c : Z) : Prop := 0 <= c < 65536.

(** Well-formed UTF-16: code units in range, every high surrogate
    immediately followed by a low surrogate and every low surrogate
    immediately preceded by a high one. *)
Fixpoint well_formed_utf16 (s : jstring) : bool :=
  match s with
  | [] => true
  | c :: rest =>
      (0 <=? c) && (c <? 65536) &&
      if URI.high_surrogate c then
        match rest with
        | c2 :: rest' => URI.low_surrogate c2 && well_formed_utf16 rest'
        | [] => false
        end
      else negb (URI.low_surrogate c) && well_formed_utf16 rest
  end.

(** The engine with the diff time-out switched off ("0 for infinity"). *)
Definition unlimited : Config := with_diffTimeout default_config 0.

(** A clock for the examples: it reads [1700000000000 + n] milliseconds at
    its [n]-th reading. *)
Definition wall_clock (n : nat) : Z := 1700000000000 + Z.of_nat n.

(** Inputs used below. *)
Definition long_line : jstring := repeat 115 100 ++ [10].
Definition c1_text1 : jstring := str "c" ++ long_line ++ str "toString".
Definition c1_text2 : jstring := str "d" ++ long_line.
Definition c2_text1 : jstring := str "a" ++ [10] ++ long_line ++ str "c".
Definition c2_text2 : jstring := str "ba" ++ [10] ++ long_line ++ str "d".
Definition c2_script : list Diff :=
  [mkDiff DIFF_EQUAL (str "x"); mkDiff DIFF_DELETE (str "a");
   mkDiff DIFF_INSERT (str "a"); mkDiff DIFF_EQUAL (str "y")].

(** A delta token that [diffFromDelta] accepts: blank, ["+"] followed by
    a decodable text, or ["-"]/["="] followed by a parameter that parses as
    a non-negative integer. *)
Definition token_ok (token : jstring) : bool :=
  match token with
  | [] => true
  | c :: param =>
      if c =? 43 then bool_decide (is_Some (URI.decodeURI param))
      else if (c =? 45) || (c =? 61) then
        match parseInt param with
        | Some n => 0 <=? n
        | None => false
        end
      else false
  end.

(** A ["-"] or ["="] token whose parameter does not parse as a
    non-negative integer. *)
Definition bad_number_token (token : jstring) : bool :=
  match token with
  | [] => false
  | c :: param =>
      ((c =? 45) || (c =? 61)) &&
      match parseInt param with
      | Some n => n <? 0
      | None => true
      end
  end.

(** A half match splits both texts around the common middle. *)
Definition splits_texts (long short : jstring) (hm : HalfMatch) : Prop :=
  let '(long_a, long_b, short_a, short_b, common) := hm in
  long = long_a ++ common ++ long_b /\ short = short_a ++ common ++ short_b.

(** What is left to split of a big patch: the number of its diffs plus
    the number of their code units. *)
Definition split_measure (diffs : list Diff) : nat :=
  (length diffs + script_size diffs)%nat.

(** A fragment that carries a "large deletion": a leading context
    equality followed by a deletion longer than twice [matchMaxBits]. *)
Definition large_deletion (cfg : Config) (p : Patch) : Prop :=
  exists ctx big rest,
    p_diffs p = mkDiff DIFF_EQUAL ctx :: mkDiff DIFF_DELETE big :: rest
    /\ 2 * matchMaxBits cfg < len big.

(** The bound kept while a fragment is being filled. *)
Definition filling_bound (cfg : Config) (p : Patch) : Prop :=
  p_length1 p <= matchMaxBits cfg - patchMargin cfg \/ large_deletion cfg p.

(** What [patchSplitMax] guarantees for every patch it leaves. *)
Definition split_bound (cfg : Config) (p : Patch) : Prop :=
  p_length1 p <= matchMaxBits cfg \/ large_deletion cfg p.

(** A patch whose header [toString] can print and [patchFromText] read
    back: assigned, non-negative starts and non-negative lengths. *)
Definition printable (p : Patch) : Prop :=
  exists s1 s2,
    p_start1 p = Some s1 /\ p_start2 p = Some s2
    /\ 0 <= s1 /\ 0 <= s2 /\ 0 <= p_length1 p /\ 0 <= p_length2 p.

(** Every diff text of the patch is well-formed UTF-16. *)
Definition well_formed_patch (p : Patch) : bool :=
  forallb (fun d => well_formed_utf16 (d_text d)) (p_diffs p).

Definition well_formed_patches (patches : list Patch) : bool :=
  forallb well_formed_patch patches.

(** The patch of the C6 counterexample: two characters kept, seventy
    deleted. *)
Definition c6_text : jstring := str "ab" ++ repeat 120 70.
Definition c6_diffs : list Diff :=
  [mkDiff DIFF_EQUAL (str "ab"); mkDiff DIFF_DELETE (repeat 120 70)].

(** A patch under construction in [patchMake] has both start positions
    assigned, equal (the context is rolling) and non-negative. *)
Definition started (p : Patch) : Prop :=
  exists st, p_start1 p = Some st /\ p_start2 p = Some st /\ 0 <= st.

(** What [patchMake] guarantees for each patch it returns. *)
Definition made (p : Patch) : Prop :=
  lengths_agree p /\ started p /\ p_diffs p <> [].

(** The invariant of the [for] loop of [patchMake]. *)
Definition make_inv (s : MakeState) : Prop :=
  Forall made (mk_patches s)
  /\ lengths_agree (mk_patch s)
  /\ 0 <= mk_charCount1 s /\ 0 <= mk_charCount2 s
  /\ (p_diffs (mk_patch s) = [] -> mk_charCount1 s = mk_charCount2 s)
  /\ (p_diffs (mk_patch s) <> [] -> started (mk_patch s)).

Definition c6_patch : Patch := mkPatch c6_diffs (Some 0) (Some 0) 72 2.

(** Two emoji that share their high surrogate, and the script [diffMain]
    returns for them. *)
Definition c4_text1 : jstring := [55357; 56832].
Definition c4_text2 : jstring := [55357; 56833].
Definition c4_script : list Diff :=
  [mkDiff DIFF_EQUAL [55357]; mkDiff DIFF_DELETE [56832];
   mkDiff DIFF_INSERT [56833]].

(** The insertions of a script are well-formed UTF-16. *)
Definition insertions_well_formed (diffs : list Diff) : bool :=
  forallb (fun d => if op_eqb (d_op d) DIFF_INSERT
                    then well_formed_utf16 (d_text d) else true) diffs.

(** A script with a space, an accented letter and an emoji inserted. *)
Definition c4_good_script : list Diff :=
  [mkDiff DIFF_EQUAL (str "a"); mkDiff DIFF_INSERT [32; 233; 55357; 56832];
   mkDiff DIFF_DELETE (str "b"); mkDiff DIFF_INSERT (str "%20")].

(** Two well-formed texts whose patch context cuts a surrogate pair. *)
Definition c8_text1 : jstring := [55357; 56832; 55357; 56832] ++ str "xa".
Definition c8_text2 : jstring := [55357; 56832; 55357; 56832] ++ str "xb".
Definition c8_patch : Patch :=
  mkPatch [mkDiff DIFF_EQUAL [56832; 55357; 56832; 120];
           mkDiff DIFF_DELETE (str "a"); mkDiff DIFF_INSERT (str "b")]
    (Some 1) (Some 1) 5 5.

(** Two texts whose patches print and parse back. *)
Definition c8_good_text1 : jstring :=
  str "The quick brown fox jumps over the lazy dog." ++ [10; 55357; 56832].
Definition c8_good_text2 : jstring :=
  str "That quick brown fox jumped over a lazy dog." ++ [10; 55357; 56832].

Definition c8_good_patches : list Patch :=
  [mkPatch [mkDiff DIFF_EQUAL (str "Th"); mkDiff DIFF_DELETE (str "e");
            mkDiff DIFF_INSERT (str "at"); mkDiff DIFF_EQUAL (str " quick b")]
     (Some 0) (Some 0) 11 12;
   mkPatch [mkDiff DIFF_EQUAL (str "jump"); mkDiff DIFF_DELETE (str "s");
            mkDiff DIFF_INSERT (str "ed"); mkDiff DIFF_EQUAL (str " over ");
            mkDiff DIFF_DELETE (str "the"); mkDiff DIFF_INSERT (str "a");
            mkDiff DIFF_EQUAL (str " laz")]
     (Some 21) (Some 21) 18 17].

(** The lines of a patch as [patchFromText] reads them: the header, then
    one line per diff, with [%20] already replaced. *)
Definition header_line (p : Patch) : jstring :=
  str "@@ -" ++ coords (p_start1 p) (p_length1 p) ++ str " +"
    ++ coords (p_start2 p) (p_length2 p) ++ str " @@".

Definition body_line (d : Diff) : jstring :=
  op_char (d_op d)
    :: replace_pct20 (default [] (URI.encodeURI (d_text d))).

Definition patch_lines (p : Patch) : list jstring :=
  header_line p :: map body_line (p_diffs p).

(** [lines.map(l => l + "\n").join("")] *)
Definition unlines (lines : list jstring) : jstring :=
  concat (map (fun l => l ++ [10]) lines).

(** The characters of a header are neither ["%"] nor a line feed. *)
Definition plain (c : Z) : Prop := c <> 37 /\ c <> 10.

(** The suffix of [s1] of length [k] is the prefix of [s2] of length
    [k]. *)
Definition overlaps (s1 s2 : jstring) (k : Z) : Prop :=
  drop (length s1 - Z.to_nat k) s1 = take (Z.to_nat k) s2.

(** ** Reading a script: [diffXIndex] and [diffLevenshtein] *)

(** The [for] loop of [diffXIndex].  At the head of an iteration
    [chars1] and [chars2] hold what the source also keeps in
    [lastChars1] and [lastChars2]; the loop is left by [break] as soon as
    the count in [text1] overshoots [loc]. *)
Fixpoint xindex_loop (diffs : list Diff) (loc chars1 chars2 : Z) : Z :=
  match diffs with
  | [] =>
      (* Add the remaining character length. *)
      chars2 + (loc - chars1)
  | d :: rest =>
      let chars1' :=
        if negb (op_eqb (d_op d) DIFF_INSERT)
        then chars1 + len (d_text d) else chars1 in
      let chars2' :=
        if negb (op_eqb (d_op d) DIFF_DELETE)
        then chars2 + len (d_text d) else chars2 in
      if loc <? chars1' then
        (* Overshot the location.  Was the location deleted? *)
        if op_eqb (d_op d) DIFF_DELETE then chars2
        else chars2 + (loc - chars1)
      else xindex_loop rest loc chars1' chars2'
  end.

(** [diffXIndex(diffs, loc)] *)
Definition diffXIndex (diffs : list Diff) (loc : Z) : Z :=
  xindex_loop diffs loc 0 0.

(** The [for] loop of [diffLevenshtein]. *)
Fixpoint levenshtein_loop (diffs : list Diff)
    (levenshtein insertions deletions : Z) : Z :=
  match diffs with
  | [] => levenshtein + Z.max insertions deletions
  | d :: rest =>
      match d_op d with
      | DIFF_INSERT =>
          levenshtein_loop rest levenshtein
            (insertions + len (d_text d)) deletions
      | DIFF_DELETE =>
          levenshtein_loop rest levenshtein insertions
            (deletions + len (d_text d))
      | DIFF_EQUAL =>
          (* A deletion and an insertion is one substitution. *)
          levenshtein_loop rest (levenshtein + Z.max insertions deletions)
            0 0
      end
  end.

(** [diffLevenshtein(diffs)] *)
Definition diffLevenshtein (diffs : list Diff) : Z :=
  levenshtein_loop diffs 0 0 0.

(** ** [patchApply] *)

(** [patchDeepCopy]: fresh patch objects with fresh diffs. *)
Definition patchDeepCopy (patches : list Patch) : list Patch :=
  map (fun patch =>
         mkPatch (map (fun d => mkDiff (d_op d) (d_text d)) (p_diffs patch))
           (p_start1 patch) (p_start2 patch)
           (p_length1 patch) (p_length2 patch))
      patches.

(** The inner [for] loop of the imperfect-match branch: [diffs] is the
    framework of equivalent indices, [mods] the diffs of the patch still
    to apply.  [index2] is assigned in the same iteration whenever it is
    read, so it is not part of the state. *)
Fixpoint apply_mods (diffs mods : list Diff) (startLoc index1 : Z)
    (text : jstring) : jstring :=
  match mods with
  | [] => text
  | m :: rest =>
      let index2 := diffXIndex diffs index1 in
      let text :=
        match d_op m with
        | DIFF_INSERT =>
            (* Insertion *)
            substring text 0 (startLoc + index2) ++ d_text m
              ++ substring_from text (startLoc + index2)
        | DIFF_DELETE =>
            (* Deletion *)
            substring text 0 (startLoc + index2)
              ++ substring_from text
                   (startLoc + diffXIndex diffs (index1 + len (d_text m)))
        | DIFF_EQUAL => text
        end in
      let index1 :=
        if negb (op_eqb (d_op m) DIFF_DELETE)
        then index1 + len (d_text m) else index1 in
      apply_mods diffs rest startLoc index1 text
  end.

(** The variables of the outer [for] loop, with the number of clock
    readings made so far. *)
Record ApplyState := mkApply {
  ap_text : jstring;
  ap_delta : Z;
  ap_results : list bool;
  ap_clk : nat
}.

(** Where the patch is found: [(startLoc, endLoc)]. *)
Definition apply_locate (cfg : Config) (text text1 : jstring)
    (expectedLoc : Z) : option (Result (Z * Z)) :=
  if matchMaxBits cfg <? len text1 then
    (* patchSplitMax will only provide an oversized pattern in the case of
       a monster delete. *)
    r ← matchMain cfg text (substring text1 0 (matchMaxBits cfg)) expectedLoc;
    match r with
    | Throw e => Some (Throw e)
    | Ok startLoc =>
        if negb (startLoc =? -1) then
          r ← matchMain cfg text
                (substring_from text1 (len text1 - matchMaxBits cfg))
                (expectedLoc + len text1 - matchMaxBits cfg);
          match r with
          | Throw e => Some (Throw e)
          | Ok endLoc =>
              if (endLoc =? -1) || (endLoc <=? startLoc) then
                (* Can't find valid trailing context.  Drop this patch. *)
                Some (Ok (-1, endLoc))
              else Some (Ok (startLoc, endLoc))
          end
        else Some (Ok (startLoc, -1))
    end
  else
    r ← matchMain cfg text text1 expectedLoc;
    match r with
    | Throw e => Some (Throw e)
    | Ok startLoc => Some (Ok (startLoc, -1))
    end.

(** The body of the outer [for] loop for one patch. *)
Definition apply_step (cfg : Config) (now : nat -> Z) (patch : Patch)
    (s : ApplyState) : option (Result ApplyState) :=
  let '(mkApply text delta results clk) := s in
  let expectedLoc := num (p_start2 patch) + delta in
  let text1 := diffText1 (p_diffs patch) in
  r ← apply_locate cfg text text1 expectedLoc;
  match r with
  | Throw e => Some (Throw e)
  | Ok (startLoc, endLoc) =>
      if startLoc =? -1 then
        (* No match found.  Subtract the delta for this failed patch from
           subsequent patches. *)
        Some (Ok (mkApply text
                    (delta - (p_length2 patch - p_length1 patch))
                    (results ++ [false]) clk))
      else
        (* Found a match. *)
        let delta := startLoc - expectedLoc in
        let text2 :=
          if endLoc =? -1
          then substring text startLoc (startLoc + len text1)
          else substring text startLoc (endLoc + matchMaxBits cfg) in
        if str_eqb text1 text2 then
          (* Perfect match, just shove the replacement text in. *)
          Some (Ok (mkApply
                      (substring text 0 startLoc
                         ++ diffText2 (p_diffs patch)
                         ++ substring_from text (startLoc + len text1))
                      delta (results ++ [true]) clk))
        else
          (* Imperfect match.  Run a diff to get a framework of equivalent
             indices. *)
          '(diffs, clk) ← diffMain_clock cfg now text1 text2 (Some false)
                            None clk;
          if (matchMaxBits cfg <? len text1)
             && negb (Qle_bool
                        (inject_Z (diffLevenshtein diffs)
                           / inject_Z (len text1))
                        (patchDeleteThreshold cfg))
          then
            (* The end points match, but the content is unacceptably bad. *)
            Some (Ok (mkApply text delta (results ++ [false]) clk))
          else
            diffs ← diffCleanupSemanticLossless diffs;
            Some (Ok (mkApply
                        (apply_mods diffs (p_diffs patch) startLoc 0 text)
                        delta (results ++ [true]) clk))
  end.

Fixpoint apply_loop (cfg : Config) (now : nat -> Z) (patches : list Patch)
    (s : ApplyState) : option (Result ApplyState) :=
  match patches with
  | [] => Some (Ok s)
  | patch :: rest =>
      r ← apply_step cfg now patch s;
      match r with
      | Throw e => Some (Throw e)
      | Ok s => apply_loop cfg now rest s
      end
  end.

(** [patchApply(patches, text)]: the new text and one flag per patch that
    was tried. *)
Definition patchApply (cfg : Config) (now : nat -> Z)
    (patches : list Patch) (text : jstring)
  : option (Result (jstring * list bool)) :=
  match patches with
  | [] => Some (Ok (text, []))
  | _ =>
      (* Deep copy the patches so that no changes are made to originals. *)
      let patches := patchDeepCopy patches in
      match patchAddPadding cfg patches with
      | Throw e => Some (Throw e)
      | Ok (patches, nullPadding) =>
          let text := nullPadding ++ text ++ nullPadding in
          patches ← patchSplitMax cfg patches;
          r ← apply_loop cfg now patches (mkApply text 0 [] 0);
          match r with
          | Throw e => Some (Throw e)
          | Ok s =>
              (* Strip the padding off. *)
              Some (Ok (substring (ap_text s) (len nullPadding)
                          (len (ap_text s) - len nullPadding),
                        ap_results s))
          end
      end
  end.

(** The patch begins (ends) with an equality of at least [n] code
    units. *)
Definition head_context (n : Z) (p : Patch) : Prop :=
  exists d rest,
    p_diffs p = d :: rest /\ d_op d = DIFF_EQUAL /\ n <= len (d_text d).

Definition tail_context (n : Z) (p : Patch) : Prop :=
  exists d,
    last (p_diffs p) = Some d /\ d_op d = DIFF_EQUAL /\ n <= len (d_text d).

(** ** Patches that apply where they say *)

(** The patch [p] is found in [text] exactly at [p.start2], and replacing
    its source text by its destination text gives [text']. *)
Definition applies_at (text : jstring) (p : Patch) (text' : jstring) : Prop :=
  exists before after,
    p_start2 p = Some (len before)
    /\ text = before ++ diffText1 (p_diffs p) ++ after
    /\ text' = before ++ diffText2 (p_diffs p) ++ after.

(** The same, for a patch with enough context on both sides: at least
    [n] code units of context, or the edge of the text. *)
Definition anchored_at (n : Z) (text : jstring) (p : Patch)
    (text' : jstring) : Prop :=
  exists before after,
    p_start2 p = Some (len before)
    /\ text = before ++ diffText1 (p_diffs p) ++ after
    /\ text' = before ++ diffText2 (p_diffs p) ++ after
    /\ (head_context n p \/ before = [])
    /\ (tail_context n p \/ after = []).

(** The patches of a list are taken one after the other, each on the
    text the previous ones leave; [R text p text'] is what one patch
    does. *)
Fixpoint chain (R : jstring -> Patch -> jstring -> Prop) (text : jstring)
    (patches : list Patch) (text' : jstring) : Prop :=
  match patches with
  | [] => text' = text
  | p :: rest => exists mid, R text p mid /\ chain R mid rest text'
  end.

Definition applies : jstring -> list Patch -> jstring -> Prop :=
  chain applies_at.

Definition anchored (n : Z) : jstring -> list Patch -> jstring -> Prop :=
  chain (anchored_at n).

(** A patch in a text that ends with the padding [np]: it applies where
    it says, and it has [n] code units of context on its right or it
    reaches the padding. *)
Definition ready_at (n : Z) (np : jstring) (text : jstring) (p : Patch)
    (text' : jstring) : Prop :=
  exists before after,
    p_start2 p = Some (len before)
    /\ text = before ++ diffText1 (p_diffs p) ++ after ++ np
    /\ text' = before ++ diffText2 (p_diffs p) ++ after ++ np
    /\ (tail_context n p \/ after = []).

(** What the [for] loop of [patchMake] keeps, in terms of the texts:
    [done] are the diffs it has consumed, [rest] the ones to come; the
    patch being built lies between [H] and [tail] in the rolling text. *)
Definition anchor_inv (cfg : Config) (text1 : jstring)
    (done rest : list Diff) (s : MakeState) : Prop :=
  exists H tail,
    mk_prepatchText s = H ++ diffText1 (p_diffs (mk_patch s)) ++ tail
    /\ mk_postpatchText s = H ++ diffText2 (p_diffs (mk_patch s)) ++ tail
    /\ mk_postpatchText s = diffText2 done ++ diffText1 rest
    /\ anchored (patchMargin cfg) text1 (mk_patches s) (mk_prepatchText s)
    /\ p_length1 (mk_patch s) = len (diffText1 (p_diffs (mk_patch s)))
    /\ (p_diffs (mk_patch s) <> [] ->
        p_start1 (mk_patch s) = Some (len H)
        /\ p_start2 (mk_patch s) = Some (len H))
    /\ (rest <> [] ->
        tail = diffText1 rest
        /\ mk_charCount1 s = len H + len (diffText1 (p_diffs (mk_patch s)))
        /\ mk_charCount2 s = len H + len (diffText2 (p_diffs (mk_patch s)))).

(** ** [diffCleanupMerge]: what its sweeps keep *)

(** The weight of a script: its number of diffs plus the code units they
    hold. *)
Definition weight (diffs : list Diff) : Z :=
  len diffs + Z.of_nat (script_size diffs).

(** 1 when the last diff holds the empty string, as the dummy entry of
    [diffCleanupMerge] does until it is given text. *)
Definition trailing (diffs : list Diff) : Z :=
  match last diffs with
  | Some d => if str_eqb (d_text d) [] then 1 else 0
  | None => 0
  end.

(** The invariant of the first sweep: [run] is the run of edits read
    since the last equality, [pre] what lies before it. *)
Definition merge_inv (s : MergeState) : Prop :=
  exists pre run post,
    mg_diffs s = pre ++ run ++ post
    /\ mg_pointer s = len pre + len run
    /\ mg_countDelete s + mg_countInsert s = len run
    /\ Forall (fun d => d_op d <> DIFF_EQUAL) run
    /\ diffText1 run = mg_textDelete s
    /\ diffText2 run = mg_textInsert s
    /\ (pre = [] \/ exists pre0 e, pre = pre0 ++ [mkDiff DIFF_EQUAL e]).

(** ** Valid edit scripts *)

(** [diffs] is an edit script from [text1] to [text2]. *)
Definition valid_script (text1 text2 : jstring) (diffs : list Diff) : Prop :=
  diffText1 diffs = text1 /\ diffText2 diffs = text2.

(** [diffCompute_] does not switch to the line mode for these
    arguments. *)
Definition line_mode_off (checklines : bool) (text1 text2 : jstring) : Prop :=
  checklines = false \/ len text1 <= 100 \/ len text2 <= 100.

(** ** Line mode: what the table of lines keeps *)

(** The text the line numbers [chars] stand for. *)
Definition decode_lines (lineArray : list jstring) (chars : jstring)
  : jstring :=
  concat (map (fun c => default [] (get lineArray c)) chars).

(** The last line of [text] has no line feed and is a property name of
    [Object.prototype]. *)
Definition inherited_line (text : jstring) : Prop :=
  exists pre key,
    key ∈ object_prototype_keys /\ text = pre ++ key
    /\ (pre = [] \/ last pre = Some 10).

(** Every line of the hash is in the array, at its number. *)
Definition table_ok (tbl : LineTable) : Prop :=
  1 <= len (lineArray tbl)
  /\ forall line n,
       lineHash tbl !! line = Some n ->
       get (lineArray tbl) n = Some line /\ 0 <= n < 65536.

(** ** [diffCleanupSemanticLossless]: sliding an edit *)

(** The arrangements [(equality1, edit, equality2)] of one edit between
    two equalities: the texts without and with the edit, and the length
    of the edit. *)
Definition arrangement_of (without within : jstring) (size : Z)
    (a : Arrangement) : Prop :=
  let '(equality1, edit, equality2) := a in
  equality1 ++ equality2 = without
  /\ equality1 ++ edit ++ equality2 = within
  /\ len edit = size.

(** No diff of the script holds the empty string. *)
Definition texts_nonempty (diffs : list Diff) : Prop :=
  Forall (fun d => d_text d <> []) diffs.

(** ** The equality stack of [diffCleanupSemantic] and [diffCleanupEfficiency] *)

(** The number of equalities of a script. *)
Definition count_equal (diffs : list Diff) : Z :=
  len (filter (fun d => d_op d = DIFF_EQUAL) diffs).

(** What both loops keep of their stack: the slots from [0] up to
    [equalitiesLength] hold indices, and [lastEquality], when it is not
    [null], is the text of the equality whose index is on top. *)
Definition stack_ok (diffs : list Diff) (equalities : gmap Z Z)
    (equalitiesLength : Z) (lastEquality : option jstring) : Prop :=
  (forall i, 0 <= i < equalitiesLength ->
     exists k, equalities !! i = Some k /\ 0 <= k)
  /\ (forall t, lastEquality = Some t ->
        exists A B,
          equalities !! (equalitiesLength - 1) = Some (len A)
          /\ diffs = A ++ mkDiff DIFF_EQUAL t :: B).

(** What decreases at every turn of these loops: removing an equality
    pays for sending the pointer back. *)
Definition cleanup_potential (diffs : list Diff) (pointer : Z) : Z :=
  count_equal diffs * (len diffs + count_equal diffs + 1)
  + (len diffs - pointer).

(** What one turn of these loops does to the script and the pointer. *)
Definition cleanup_step_ok (diffs : list Diff) (pointer : Z)
    (diffs' : list Diff) (pointer' : Z) : Prop :=
  0 <= pointer'
  /\ cleanup_potential diffs' pointer' < cleanup_potential diffs pointer
  /\ diffText1 diffs' = diffText1 diffs
  /\ diffText2 diffs' = diffText2 diffs
  /\ (texts_nonempty diffs -> texts_nonempty diffs').

(** No diff of the script but the last holds the empty string:
    [diffCleanupMerge] works on the script with a dummy entry at its
    end. *)
Definition nonempty_but_last (diffs : list Diff) : Prop :=
  texts_nonempty (take (length diffs - 1) diffs).

(** * Properties *)

(** ** The diff engine on concrete inputs *)

(** C1 (round trip of [diffMain], violated by the code).  With the
    time-out switched off and line mode allowed, the text
    ["c" + 100 * "s" + "\n" + "toString"] is diffed against
    ["d" + 100 * "s" + "\n"].  The last line of the first text is the name
    of a property every object inherits, so [diffLinesToChars_] finds it
    ["in lineHash"], encodes it as the code unit 0 and never records it in
    [lineArray]; the returned script deletes ["c"], inserts ["d"], keeps the
    long line, and its source text has lost ["toString"]. *)
Theorem C1_diffMain_drops_inherited_line (now : nat -> Z) :
  diffMain unlimited now c1_text1 c1_text2 None
  = Some [mkDiff DIFF_DELETE (str "c"); mkDiff DIFF_INSERT (str "d");
          mkDiff DIFF_EQUAL long_line]
  /\ diffText1 [mkDiff DIFF_DELETE (str "c"); mkDiff DIFF_INSERT (str "d");
                mkDiff DIFF_EQUAL long_line] <> c1_text1
  /\ diffText2 [mkDiff DIFF_DELETE (str "c"); mkDiff DIFF_INSERT (str "d");
                mkDiff DIFF_EQUAL long_line] = c1_text2.
Proof.
  split; [vm_compute; reflexivity|].
  split; [|vm_compute; reflexivity].
  intros H. apply (f_equal length) in H. vm_compute in H. discriminate.
Qed.

(** C2 (invariants after [diffCleanupMerge], violated by the code).  When
    the deletions and insertions of a run cancel out, the first sweep
    removes the run and steps over the equality that follows without
    merging it into the one before: two equalities stay adjacent.  And
    [diffMain] itself can return an empty edit: in line mode the overlap
    pass of [diffCleanupSemantic] trims a deletion down to the empty
    string, which the final [diffCleanupMerge] keeps. *)
Theorem C2_cleanupMerge_leaves_adjacent_equalities :
  (diffCleanupMerge c2_script
   = Some [mkDiff DIFF_EQUAL (str "xa"); mkDiff DIFF_EQUAL (str "y")]
   /\ no_adjacent_same_kind
        [mkDiff DIFF_EQUAL (str "xa"); mkDiff DIFF_EQUAL (str "y")] = false)
  /\ (diffMain unlimited wall_clock c2_text1 c2_text2 None
      = Some [mkDiff DIFF_INSERT (str "b");
              mkDiff DIFF_EQUAL (str "a" ++ [10]);
              mkDiff DIFF_DELETE [];
              mkDiff DIFF_EQUAL long_line;
              mkDiff DIFF_DELETE (str "c"); mkDiff DIFF_INSERT (str "d")]
      /\ no_empty_text
           [mkDiff DIFF_INSERT (str "b");
            mkDiff DIFF_EQUAL (str "a" ++ [10]);
            mkDiff DIFF_DELETE [];
            mkDiff DIFF_EQUAL long_line;
            mkDiff DIFF_DELETE (str "c"); mkDiff DIFF_INSERT (str "d")]
         = false).
Proof.
  repeat split; vm_compute; reflexivity.
Qed.

(** C3 (idempotence of [diffCleanupMerge], violated by the code).  On the
    script of C2 the first application leaves two adjacent equalities; the
    second application merges them, so it is not a no-op. *)
Theorem C3_cleanupMerge_twice_differs :
  diffCleanupMerge c2_script
  = Some [mkDiff DIFF_EQUAL (str "xa"); mkDiff DIFF_EQUAL (str "y")]
  /\ diffCleanupMerge
       [mkDiff DIFF_EQUAL (str "xa"); mkDiff DIFF_EQUAL (str "y")]
     = Some [mkDiff DIFF_EQUAL (str "xay")]
  /\ [mkDiff DIFF_EQUAL (str "xay")]
     <> [mkDiff DIFF_EQUAL (str "xa"); mkDiff DIFF_EQUAL (str "y")].
Proof.
  repeat split; try (vm_compute; reflexivity). discriminate.
Qed.

(** ** Facts about the string primitives *)

Lemma len_cons {A} (c : A) (s : list A) : len (c :: s) = len s + 1.
Proof. unfold len. simpl. lia. Qed.

Lemma len_nonneg {A} (s : list A) : 0 <= len s.
Proof. unfold len. lia. Qed.

Lemma substring_from_1_cons (c : Z) (s : jstring) :
  substring_from (c :: s) 1 = s.
Proof.
  unfold substring_from, clamp. rewrite len_cons.
  pose proof (len_nonneg s).
  replace (Z.to_nat (Z.max 0 (Z.min 1 (len s + 1)))) with 1%nat by lia.
  reflexivity.
Qed.

Lemma len_app {A} (a b : list A) : len (a ++ b) = len a + len b.
Proof. unfold len. rewrite length_app. lia. Qed.

Lemma len_nil {A} : len (@nil A) = 0.
Proof. reflexivity. Qed.

Lemma len_zero_nil {A} (s : list A) : len s = 0 -> s = [].
Proof. destruct s; [done|]. rewrite len_cons. pose proof (len_nonneg s). lia. Qed.

Lemma truthy_false_nil (s : jstring) : truthy s = false <-> s = [].
Proof. by destruct s. Qed.

Lemma truthy_true_len (s : jstring) : truthy s = true <-> 0 < len s.
Proof.
  destruct s as [|c s].
  - split; [done|]. unfold len. simpl. lia.
  - rewrite len_cons. pose proof (len_nonneg s). split; [lia|done].
Qed.

Lemma str_eqb_eq (a b : jstring) : str_eqb a b = true <-> a = b.
Proof. unfold str_eqb. apply bool_decide_eq_true. Qed.

Lemma str_eqb_neq (a b : jstring) : str_eqb a b = false <-> a <> b.
Proof. unfold str_eqb. apply bool_decide_eq_false. Qed.

Lemma clamp_in (i : Z) (s : jstring) :
  0 <= i <= len s -> clamp i s = Z.to_nat i.
Proof. unfold clamp. intros ?. f_equal. lia. Qed.

Lemma clamp_le (i : Z) (s : jstring) : (clamp i s <= length s)%nat.
Proof. unfold clamp, len. lia. Qed.

Lemma clamp_neg (i : Z) (s : jstring) : i <= 0 -> clamp i s = 0%nat.
Proof. unfold clamp. pose proof (len_nonneg s). lia. Qed.

Lemma clamp_big (i : Z) (s : jstring) : len s <= i -> clamp i s = length s.
Proof. unfold clamp, len. lia. Qed.

(** [substring] with ordered arguments inside the string. *)
Lemma substring_in (s : jstring) (a b : Z) :
  0 <= a <= b -> b <= len s ->
  substring s a b = take (Z.to_nat (b - a)) (drop (Z.to_nat a) s).
Proof.
  intros Ha Hb. unfold substring.
  rewrite !clamp_in by lia.
  replace (Nat.min (Z.to_nat a) (Z.to_nat b)) with (Z.to_nat a) by lia.
  replace (Nat.max (Z.to_nat a) (Z.to_nat b)) with (Z.to_nat b) by lia.
  f_equal. lia.
Qed.

Lemma substring_0 (s : jstring) (b : Z) :
  substring s 0 b = take (clamp b s) s.
Proof.
  unfold substring. rewrite (clamp_neg 0) by lia.
  rewrite Nat.min_0_l, Nat.max_0_l, Nat.sub_0_r. reflexivity.
Qed.

Lemma substring_from_in (s : jstring) (a : Z) :
  0 <= a <= len s -> substring_from s a = drop (Z.to_nat a) s.
Proof. intros ?. unfold substring_from. by rewrite clamp_in. Qed.

Lemma len_take (s : jstring) (n : nat) :
  (n <= length s)%nat -> len (take n s) = Z.of_nat n.
Proof. intros ?. unfold len. rewrite length_take. lia. Qed.

Lemma len_drop (s : jstring) (n : nat) :
  len (drop n s) = len s - Z.of_nat (Nat.min n (length s)).
Proof. unfold len. rewrite length_drop. lia. Qed.

(** Splitting a string at any index, as [substring(0, x)] and
    [substring(x)] do. *)
Lemma substring_split (s : jstring) (x : Z) :
  substring s 0 x ++ substring_from s x = s.
Proof. rewrite substring_0. unfold substring_from. apply take_drop. Qed.

Lemma take_take_drop_app {A} (l : list A) (n m : nat) :
  take n l ++ take m (drop n l) = take (n + m) l.
Proof. apply take_take_drop. Qed.

(** *** [starts_with], [indexOf] *)

Lemma starts_with_spec (pat s : jstring) :
  starts_with pat s = true <-> take (length pat) s = pat.
Proof.
  revert s. induction pat as [|p pat IH]; intros s; simpl.
  - by rewrite take_0.
  - destruct s as [|c s]; simpl; [split; discriminate|].
    rewrite andb_true_iff, Z.eqb_eq, IH. split.
    + intros [-> ->]. reflexivity.
    + intros [= -> ->]. done.
Qed.

Lemma starts_with_length (pat s : jstring) :
  starts_with pat s = true -> (length pat <= length s)%nat.
Proof.
  intros H%starts_with_spec. rewrite <- H at 1.
  rewrite length_take. lia.
Qed.

Lemma find_from_bounds (pat s : jstring) (pos : Z) :
  find_from pat s pos = -1
  \/ (pos <= find_from pat s pos
      /\ find_from pat s pos + len pat <= pos + len s).
Proof.
  revert pos. induction s as [|c s IH]; intros pos; simpl.
  - destruct pat; simpl; [right; rewrite len_nil; lia|by left].
  - destruct (starts_with pat (c :: s)) eqn:Hsw.
    + right. apply starts_with_length in Hsw. unfold len. lia.
    + destruct (IH (pos + 1)) as [->|[? ?]]; [by left|right].
      rewrite len_cons. lia.
Qed.

(** A hit of [indexOf] lies at or after the (clamped) start, and the
    pattern fits in the text from there. *)
Lemma indexOf_bounds (s pat : jstring) (from : Z) :
  indexOf s pat from = -1
  \/ (Z.of_nat (clamp from s) <= indexOf s pat from
      /\ indexOf s pat from + len pat <= len s).
Proof.
  unfold indexOf.
  destruct (find_from_bounds pat (drop (clamp from s) s) (Z.of_nat (clamp from s)))
    as [->|[H1 H2]]; [by left|right].
  split; [done|]. rewrite len_drop in H2.
  pose proof (clamp_le from s). lia.
Qed.

(** *** [diffCommonPrefix] and [diffCommonSuffix] *)

Lemma take_eq_extend (t1 t2 : jstring) (n m : nat) :
  (n <= m)%nat ->
  take n t1 = take n t2 ->
  take (m - n) (drop n t1) = take (m - n) (drop n t2) ->
  take m t1 = take m t2.
Proof.
  intros Hle H1 H2.
  replace m with (n + (m - n))%nat by lia.
  rewrite <- !take_take_drop. by rewrite H1, H2.
Qed.

Lemma diffCommonPrefix_loop_spec fuel text1 text2 pmin pmax pmid :
  0 <= pmin <= pmid -> pmid <= pmax ->
  pmax <= len text1 -> pmax <= len text2 ->
  take (Z.to_nat pmin) text1 = take (Z.to_nat pmin) text2 ->
  (pmid = pmax /\ (Z.to_nat (pmax - pmin) + 2 <= fuel)%nat)
  \/ (pmid = (pmax - pmin) / 2 + pmin
      /\ (Z.to_nat (pmax - pmin) + 1 <= fuel)%nat) ->
  exists n,
    diffCommonPrefix_loop fuel text1 text2 pmin pmax pmid pmin = Some n
    /\ 0 <= n <= pmax
    /\ take (Z.to_nat n) text1 = take (Z.to_nat n) text2.
Proof.
  revert pmin pmax pmid.
  induction fuel as [|fuel IH]; intros pmin pmax pmid Hmin Hmid H1 H2 Heq Hfuel.
  - destruct Hfuel as [[_ ?]|[_ ?]]; lia.
  - simpl. destruct (Z.ltb_spec pmin pmid) as [Hlt|Hge].
    2:{ exists pmid. split; [done|]. split; [lia|].
        by replace pmid with pmin by lia. }
    destruct (str_eqb _ _) eqn:Hcmp.
    + apply str_eqb_eq in Hcmp.
      rewrite !substring_in in Hcmp by lia.
      assert (pmid <= (pmax - pmid) / 2 + pmid <= pmax)
        by (Z.div_mod_to_equations; lia).
      apply IH; [lia|lia|lia|lia| |].
      * eapply (take_eq_extend _ _ (Z.to_nat pmin)); [lia|done|].
        by replace (Z.to_nat pmid - Z.to_nat pmin)%nat
          with (Z.to_nat (pmid - pmin)) by lia.
      * right. split; [done|].
        destruct Hfuel as [[-> ?]|[-> ?]]; Z.div_mod_to_equations; lia.
    + assert (pmin <= (pmid - pmin) / 2 + pmin <= pmid)
        by (Z.div_mod_to_equations; lia).
      destruct (IH pmin pmid ((pmid - pmin) / 2 + pmin)) as (n & -> & ? & ?);
        [lia|lia|lia|lia|done| |].
      * right. split; [done|].
        destruct Hfuel as [[-> ?]|[-> ?]]; Z.div_mod_to_equations; lia.
      * exists n. split; [done|]. split; [lia|done].
Qed.

(** [diffCommonPrefix] returns the length of a common prefix. *)
Lemma diffCommonPrefix_spec (text1 text2 : jstring) :
  exists n,
    diffCommonPrefix text1 text2 = Some n
    /\ 0 <= n /\ n <= len text1 /\ n <= len text2
    /\ take (Z.to_nat n) text1 = take (Z.to_nat n) text2.
Proof.
  unfold diffCommonPrefix.
  pose proof (len_nonneg text1). pose proof (len_nonneg text2).
  destruct (_ || _).
  - exists 0. split; [done|]. split; [lia|]. split; [lia|]. split; [lia|].
    by rewrite !take_0.
  - destruct (diffCommonPrefix_loop_spec
                (Z.to_nat (Z.min (len text1) (len text2)) + 2) text1 text2 0
                (Z.min (len text1) (len text2)) (Z.min (len text1) (len text2)))
      as (n & Hn & ? & ?); try lia.
    + by rewrite !take_0.
    + exists n. rewrite Hn. split; [done|]. split; [lia|]. split; [lia|].
      split; [lia|done].
Qed.

Lemma drop_eq_extend (t1 t2 : jstring) (n m : nat) :
  (n <= m)%nat -> (m <= length t1)%nat -> (m <= length t2)%nat ->
  drop (length t1 - n) t1 = drop (length t2 - n) t2 ->
  take (m - n) (drop (length t1 - m) t1)
  = take (m - n) (drop (length t2 - m) t2) ->
  drop (length t1 - m) t1 = drop (length t2 - m) t2.
Proof.
  intros Hle Hm1 Hm2 H1 H2.
  rewrite <- (take_drop (m - n) (drop (length t1 - m) t1)).
  rewrite <- (take_drop (m - n) (drop (length t2 - m) t2)).
  rewrite H2. f_equal. rewrite !drop_drop.
  replace (length t1 - m + (m - n))%nat with (length t1 - n)%nat by lia.
  replace (length t2 - m + (m - n))%nat with (length t2 - n)%nat by lia.
  done.
Qed.

Lemma diffCommonSuffix_loop_spec fuel text1 text2 pmin pmax pmid :
  0 <= pmin <= pmid -> pmid <= pmax ->
  pmax <= len text1 -> pmax <= len text2 ->
  drop (length text1 - Z.to_nat pmin) text1
  = drop (length text2 - Z.to_nat pmin) text2 ->
  (pmid = pmax /\ (Z.to_nat (pmax - pmin) + 2 <= fuel)%nat)
  \/ (pmid = (pmax - pmin) / 2 + pmin
      /\ (Z.to_nat (pmax - pmin) + 1 <= fuel)%nat) ->
  exists n,
    diffCommonSuffix_loop fuel text1 text2 pmin pmax pmid pmin = Some n
    /\ 0 <= n <= pmax
    /\ drop (length text1 - Z.to_nat n) text1
       = drop (length text2 - Z.to_nat n) text2.
Proof.
  revert pmin pmax pmid.
  induction fuel as [|fuel IH]; intros pmin pmax pmid Hmin Hmid H1 H2 Heq Hfuel.
  - destruct Hfuel as [[_ ?]|[_ ?]]; lia.
  - simpl. destruct (Z.ltb_spec pmin pmid) as [Hlt|Hge].
    2:{ exists pmid. split; [done|]. split; [lia|].
        by replace pmid with pmin by lia. }
    unfold len in H1, H2.
    destruct (str_eqb _ _) eqn:Hcmp.
    + apply str_eqb_eq in Hcmp.
      rewrite !substring_in in Hcmp by (unfold len; lia).
      assert (pmid <= (pmax - pmid) / 2 + pmid <= pmax)
        by (Z.div_mod_to_equations; lia).
      apply IH; [lia|lia|unfold len; lia|unfold len; lia| |].
      * eapply (drop_eq_extend _ _ (Z.to_nat pmin)); [lia|lia|lia|done|].
        replace (Z.to_nat (len text1 - pmin - (len text1 - pmid)))
          with (Z.to_nat pmid - Z.to_nat pmin)%nat in Hcmp by (unfold len; lia).
        replace (Z.to_nat (len text2 - pmin - (len text2 - pmid)))
          with (Z.to_nat pmid - Z.to_nat pmin)%nat in Hcmp by (unfold len; lia).
        replace (Z.to_nat (len text1 - pmid))
          with (length text1 - Z.to_nat pmid)%nat in Hcmp by (unfold len; lia).
        replace (Z.to_nat (len text2 - pmid))
          with (length text2 - Z.to_nat pmid)%nat in Hcmp by (unfold len; lia).
        done.
      * right. split; [done|].
        destruct Hfuel as [[-> ?]|[-> ?]]; Z.div_mod_to_equations; lia.
    + assert (pmin <= (pmid - pmin) / 2 + pmin <= pmid)
        by (Z.div_mod_to_equations; lia).
      destruct (IH pmin pmid ((pmid - pmin) / 2 + pmin)) as (n & -> & ? & ?);
        [lia|lia|unfold len; lia|unfold len; lia|done| |].
      * right. split; [done|].
        destruct Hfuel as [[-> ?]|[-> ?]]; Z.div_mod_to_equations; lia.
      * exists n. split; [done|]. split; [lia|done].
Qed.

(** [diffCommonSuffix] returns the length of a common suffix. *)
Lemma diffCommonSuffix_spec (text1 text2 : jstring) :
  exists n,
    diffCommonSuffix text1 text2 = Some n
    /\ 0 <= n /\ n <= len text1 /\ n <= len text2
    /\ drop (length text1 - Z.to_nat n) text1
       = drop (length text2 - Z.to_nat n) text2.
Proof.
  unfold diffCommonSuffix.
  pose proof (len_nonneg text1). pose proof (len_nonneg text2).
  destruct (_ || _).
  - exists 0. split; [done|]. split; [lia|]. split; [lia|]. split; [lia|].
    change (Z.to_nat 0) with 0%nat. rewrite !Nat.sub_0_r, !drop_all. done.
  - destruct (diffCommonSuffix_loop_spec
                (Z.to_nat (Z.min (len text1) (len text2)) + 2) text1 text2 0
                (Z.min (len text1) (len text2)) (Z.min (len text1) (len text2)))
      as (n & Hn & ? & ?); try lia.
    + change (Z.to_nat 0) with 0%nat. rewrite !Nat.sub_0_r, !drop_all. done.
    + exists n. rewrite Hn. split; [done|]. split; [lia|]. split; [lia|].
      split; [lia|done].
Qed.

(** ** Delta decoding: the "Invalid number" error *)

Lemma fromDelta_loop_ok_prefix text1 pre :
  Forall (fun t => token_ok t = true) pre ->
  forall rest diffs pointer,
  exists diffs' pointer',
    fromDelta_loop text1 (pre ++ rest) diffs pointer
    = fromDelta_loop text1 rest diffs' pointer'.
Proof.
  induction 1 as [|token pre Htok _ IH]; intros rest diffs pointer.
  - by exists diffs, pointer.
  - destruct token as [|c param].
    + simpl. apply IH.
    + simpl in Htok.
      destruct (Z.eqb_spec c 43) as [->|Hc43].
      * apply bool_decide_eq_true in Htok. destruct Htok as [t Ht].
        change (fromDelta_loop text1 (((43 :: param) :: pre) ++ rest) diffs pointer)
          with (match URI.decodeURI (substring_from (43 :: param) 1) with
                | Some t => fromDelta_loop text1 (pre ++ rest)
                              (diffs ++ [mkDiff DIFF_INSERT t]) pointer
                | None => Throw (IllegalEscape (substring_from (43 :: param) 1))
                end).
        rewrite !substring_from_1_cons.
        rewrite Ht. apply IH.
      * destruct (parseInt param) as [n|] eqn:Hn;
          [|by destruct ((c =? 45) || (c =? 61))].
        destruct (Z.eqb_spec c 45) as [->|Hc45].
        -- simpl in Htok. apply Z.leb_le in Htok.
           change (fromDelta_loop text1 (((45 :: param) :: pre) ++ rest) diffs pointer)
             with (match parseInt (substring_from (45 :: param) 1) with
                   | Some n =>
                       if n <? 0 then Throw (InvalidNumber (substring_from (45 :: param) 1))
                       else fromDelta_loop text1 (pre ++ rest)
                              (diffs ++ [mkDiff
                                 (if str_eqb (charAt (45 :: param) 0) [61]
                                  then DIFF_EQUAL else DIFF_DELETE)
                                 (substring text1 pointer (pointer + n))])
                              (pointer + n)
                   | None => Throw (InvalidNumber (substring_from (45 :: param) 1))
                   end).
           rewrite !substring_from_1_cons.
           rewrite Hn. destruct (Z.ltb_spec n 0); [lia|]. apply IH.
        -- destruct (Z.eqb_spec c 61) as [->|Hc61]; [|done].
           simpl in Htok. apply Z.leb_le in Htok.
           change (fromDelta_loop text1 (((61 :: param) :: pre) ++ rest) diffs pointer)
             with (match parseInt (substring_from (61 :: param) 1) with
                   | Some n =>
                       if n <? 0 then Throw (InvalidNumber (substring_from (61 :: param) 1))
                       else fromDelta_loop text1 (pre ++ rest)
                              (diffs ++ [mkDiff
                                 (if str_eqb (charAt (61 :: param) 0) [61]
                                  then DIFF_EQUAL else DIFF_DELETE)
                                 (substring text1 pointer (pointer + n))])
                              (pointer + n)
                   | None => Throw (InvalidNumber (substring_from (61 :: param) 1))
                   end).
           rewrite !substring_from_1_cons.
           rewrite Hn. destruct (Z.ltb_spec n 0); [lia|]. apply IH.
Qed.

Lemma fromDelta_loop_bad_number text1 token rest diffs pointer :
  bad_number_token token = true ->
  fromDelta_loop text1 (token :: rest) diffs pointer
  = Throw (InvalidNumber (substring_from token 1)).
Proof.
  destruct token as [|c param]; [done|]. simpl.
  intros [Hc Hp]%andb_prop.
  apply orb_prop in Hc as [->%Z.eqb_eq | ->%Z.eqb_eq].
  - change (fromDelta_loop text1 ((45 :: param) :: rest) diffs pointer)
      with (match parseInt (substring_from (45 :: param) 1) with
            | Some n =>
                if n <? 0 then Throw (InvalidNumber (substring_from (45 :: param) 1))
                else fromDelta_loop text1 rest
                       (diffs ++ [mkDiff
                          (if str_eqb (charAt (45 :: param) 0) [61]
                           then DIFF_EQUAL else DIFF_DELETE)
                          (substring text1 pointer (pointer + n))])
                       (pointer + n)
            | None => Throw (InvalidNumber (substring_from (45 :: param) 1))
            end).
    rewrite !substring_from_1_cons.
    destruct (parseInt param); [by rewrite Hp|done].
  - change (fromDelta_loop text1 ((61 :: param) :: rest) diffs pointer)
      with (match parseInt (substring_from (61 :: param) 1) with
            | Some n =>
                if n <? 0 then Throw (InvalidNumber (substring_from (61 :: param) 1))
                else fromDelta_loop text1 rest
                       (diffs ++ [mkDiff
                          (if str_eqb (charAt (61 :: param) 0) [61]
                           then DIFF_EQUAL else DIFF_DELETE)
                          (substring text1 pointer (pointer + n))])
                       (pointer + n)
            | None => Throw (InvalidNumber (substring_from (61 :: param) 1))
            end).
    rewrite !substring_from_1_cons.
    destruct (parseInt param); [by rewrite Hp|done].
Qed.

(** C10 as stated fails: the delta ["?\t-x"] contains the token ["-x"],
    whose parameter is not a number, yet the error raised is the one for
    the unknown operation ["?"] met first. *)
Lemma C10_counterexample :
  str "-x" ∈ split 9 (str "?" ++ [9] ++ str "-x")
  /\ bad_number_token (str "-x") = true
  /\ diffFromDelta [] (str "?" ++ [9] ++ str "-x") = Throw (InvalidOp (str "?")).
Proof.
  split; [|split]; [|reflexivity..].
  vm_compute. apply list_elem_of_In. right. left. reflexivity.
Qed.

(** C10, amended: when every token before it is acceptable, a ["-"] or
    ["="] token whose parameter does not parse as a non-negative integer
    makes [diffFromDelta] throw "Invalid number" with that parameter; no
    diffs are returned, and the error is none of [IllegalEscape],
    [InvalidOp], [DeltaLengthMismatch]. *)
Theorem C10_invalid_number (text1 delta : jstring)
    (pre post : list jstring) (token : jstring) :
  split 9 delta = pre ++ token :: post ->
  Forall (fun t => token_ok t = true) pre ->
  bad_number_token token = true ->
  diffFromDelta text1 delta = Throw (InvalidNumber (substring_from token 1))
  /\ (forall diffs, diffFromDelta text1 delta <> Ok diffs)
  /\ (forall p, InvalidNumber (substring_from token 1) <> IllegalEscape p)
  /\ (forall t, InvalidNumber (substring_from token 1) <> InvalidOp t)
  /\ (forall a b, InvalidNumber (substring_from token 1)
                  <> DeltaLengthMismatch a b).
Proof.
  intros Hsplit Hpre Hbad.
  assert (diffFromDelta text1 delta
          = Throw (InvalidNumber (substring_from token 1))) as Heq.
  { unfold diffFromDelta. rewrite Hsplit.
    destruct (fromDelta_loop_ok_prefix text1 pre Hpre (token :: post) [] 0)
      as (diffs' & pointer' & ->).
    by rewrite fromDelta_loop_bad_number. }
  split; [done|]. rewrite Heq. repeat split; intros; discriminate.
Qed.

Lemma C10_invalid_number_witness :
  diffFromDelta (str "abc") (str "=1" ++ [9] ++ str "+x" ++ [9] ++ str "=-5")
  = Throw (InvalidNumber (str "-5")).
Proof.
  apply (C10_invalid_number (str "abc")
           (str "=1" ++ [9] ++ str "+x" ++ [9] ++ str "=-5")
           [str "=1"; str "+x"] [] (str "=-5")).
  - reflexivity.
  - repeat constructor.
  - reflexivity.
Defined.

(** ** Match engine: errors and totality *)

Section BitapFacts.

Variable cfg : Config.
Variables (text pattern : jstring) (loc : Z).

(** The binary search ends within the fuel it is given, between its
    bounds.  After the first turn [binMid] is the midpoint of the interval,
    which then shrinks at every turn. *)
Lemma bin_search_total fuel d thr binMin binMid binMax :
  binMin <= binMid <= binMax ->
  (binMid = binMax /\ (Z.to_nat (binMax - binMin) + 2 <= fuel)%nat)
  \/ (binMid = (binMax - binMin) / 2 + binMin
      /\ (Z.to_nat (binMax - binMin) + 1 <= fuel)%nat) ->
  exists mid max',
    bin_search cfg pattern loc fuel d thr binMin binMid binMax
    = Some (mid, max') /\ binMin <= mid <= binMax.
Proof.
  revert binMin binMid binMax.
  induction fuel as [|fuel IH]; intros binMin binMid binMax Hord Hfuel.
  - destruct Hfuel as [[_ ?]|[_ ?]]; lia.
  - simpl. destruct (Z.ltb_spec binMin binMid) as [Hlt|Hge];
      [|exists binMid, binMax; split; [done|lia]].
    destruct (Qle_bool _ _).
    + destruct (IH binMid ((binMax - binMid) / 2 + binMid) binMax)
        as (mid & max' & -> & Hm).
      * split; [|]; Z.div_mod_to_equations; lia.
      * right. split; [done|].
        destruct Hfuel as [[-> ?]|[-> ?]]; Z.div_mod_to_equations; lia.
      * exists mid, max'. split; [done|lia].
    + destruct (IH binMin ((binMid - binMin) / 2 + binMin) binMid)
        as (mid & max' & -> & Hm).
      * split; [|]; Z.div_mod_to_equations; lia.
      * right. split; [done|].
        destruct Hfuel as [[-> ?]|[-> ?]]; Z.div_mod_to_equations; lia.
      * exists mid, max'. split; [done|lia].
Qed.

(** The location recorded by the [j] loop is [-1] or inside the text
    positions scanned. *)
Lemma rd_loop_bestLoc j d matchmask s lastRd rd start thr bestLoc :
  -1 <= bestLoc ->
  -1 <= snd (rd_loop cfg text pattern loc j d matchmask s lastRd rd start
               thr bestLoc).
Proof.
  revert rd start thr bestLoc.
  induction j as [|j IH]; intros rd start thr bestLoc Hb; [done|].
  cbn [rd_loop]. cbv zeta.
  repeat (match goal with
          | |- context [if ?b then _ else _] => destruct b
          end);
    first [ apply IH; lia | simpl; lia ].
Qed.

(** The error-level loop never throws "Pattern too long". *)
Lemma bitap_loop_not_too_long n d matchmask s lastRd binMax thr bestLoc :
  bitap_loop cfg text pattern loc n d matchmask s lastRd binMax thr bestLoc
  <> Some (Throw PatternTooLong).
Proof.
  revert d lastRd binMax thr bestLoc.
  induction n as [|n IH]; intros d lastRd binMax thr bestLoc; [done|].
  cbn [bitap_loop].
  destruct (bin_search _ _ _ _ _ _ _ _ _) as [[binMid max']|]; [|done].
  cbn -[rd_loop bin_search Z.add Z.min Z.max Z.sub].
  destruct (_ <? 0); [done|].
  destruct (rd_loop _ _ _ _ _ _ _ _ _ _ _ _ _) as [[rd thr'] best'].
  destruct (negb _); [done|]. apply IH.
Qed.

(** From a location inside the text the error-level loop returns a
    location or [-1]. *)
Lemma bitap_loop_total n d matchmask s lastRd binMax thr bestLoc :
  0 <= loc -> 0 <= binMax -> -1 <= bestLoc ->
  exists z,
    bitap_loop cfg text pattern loc n d matchmask s lastRd binMax thr bestLoc
    = Some (Ok z) /\ -1 <= z.
Proof.
  intros Hloc. revert d lastRd binMax thr bestLoc.
  induction n as [|n IH]; intros d lastRd binMax thr bestLoc Hmax Hbest.
  - exists bestLoc. by split.
  - cbn [bitap_loop].
    destruct (bin_search_total (Z.to_nat binMax + 2) d thr 0 binMax binMax)
      as (binMid & max' & -> & Hmid); [lia| left; split; [done|lia] |].
    cbn -[rd_loop bin_search Z.add Z.min Z.max Z.sub].
    pose proof (len_nonneg text). pose proof (len_nonneg pattern).
    destruct (Z.ltb_spec (Z.min (loc + binMid) (len text) + len pattern + 2) 0);
      [lia|].
    pose proof (rd_loop_bestLoc
                  (Z.to_nat (Z.min (loc + binMid) (len text) + len pattern))
                  d matchmask s lastRd
                  (<[Z.min (loc + binMid) (len text) + len pattern + 1
                     := shl 1 d - 1]> ∅)
                  (Z.max 1 (loc - binMid + 1)) thr bestLoc Hbest) as Hrd.
    destruct (rd_loop _ _ _ _ _ _ _ _ _ _ _ _ _) as [[rd thr'] best'].
    simpl in Hrd.
    destruct (negb _).
    + exists best'. by split.
    + apply IH; lia.
Qed.

End BitapFacts.

(** C9.  [matchBitap_] throws "Pattern too long" exactly when the pattern
    is longer than [matchMaxBits], the test being the first thing it does;
    and whenever the pattern is not longer than that, [matchMain] returns
    a number, which is a location or [-1], and throws nothing. *)
Theorem C9_match_errors (cfg : Config) (text pattern : jstring) (loc : Z) :
  (matchBitap_ cfg text pattern loc = Some (Throw PatternTooLong)
   <-> matchMaxBits cfg < len pattern)
  /\ (len pattern <= matchMaxBits cfg ->
      exists z, matchMain cfg text pattern loc = Some (Ok z) /\ -1 <= z).
Proof.
  split.
  - unfold matchBitap_.
    destruct (Z.ltb_spec (matchMaxBits cfg) (len pattern)) as [Hlt|Hle].
    + split; [done|]. by intros _.
    + split; [|lia]. intros H. by apply bitap_loop_not_too_long in H.
  - intros Hle. unfold matchMain.
    pose proof (len_nonneg text).
    destruct (str_eqb text pattern); [exists 0; split; [done|lia]|].
    destruct (len text =? 0); [exists (-1); split; [done|lia]|].
    destruct (str_eqb _ pattern); [eexists; split; [done|lia]|].
    unfold matchBitap_.
    destruct (Z.ltb_spec (matchMaxBits cfg) (len pattern)); [lia|].
    apply bitap_loop_total; [lia| |lia].
    pose proof (len_nonneg pattern). lia.
Qed.

Lemma C9_match_errors_witness :
  exists z, matchMain default_config (str "abcdefghijk") (str "efxhi") 0
            = Some (Ok z) /\ -1 <= z.
Proof.
  apply (C9_match_errors default_config (str "abcdefghijk") (str "efxhi") 0).
  vm_compute. discriminate.
Defined.

(** ** Half match *)

(** The arrangement found around one occurrence of the seed: a common
    suffix of the texts before [(I, J)] and a common prefix of the texts
    after it make a common middle. *)
Lemma middle_from_extensions (long short : jstring) (I J SL PL : nat) :
  (SL <= I)%nat -> (SL <= J)%nat ->
  drop (I - SL) (take I long) = drop (J - SL) (take J short) ->
  take PL (drop I long) = take PL (drop J short) ->
  long = take (I - SL) long
         ++ (take SL (drop (J - SL) short) ++ take PL (drop J short))
         ++ drop (I + PL) long
  /\ short = take (J - SL) short
             ++ (take SL (drop (J - SL) short) ++ take PL (drop J short))
             ++ drop (J + PL) short.
Proof.
  intros HI HJ Hs Hp.
  assert (take SL (drop (J - SL) short) = drop (J - SL) (take J short)) as E1.
  { rewrite take_drop_commute. do 2 f_equal. lia. }
  assert (take SL (drop (I - SL) long) = drop (I - SL) (take I long)) as E2.
  { rewrite take_drop_commute. do 2 f_equal. lia. }
  split.
  - rewrite E1, <- Hs, <- E2, <- Hp.
    rewrite !app_assoc, take_take_drop.
    replace (I - SL + SL)%nat with I by lia.
    by rewrite take_take_drop, take_drop.
  - rewrite !app_assoc, take_take_drop.
    replace (J - SL + SL)%nat with J by lia.
    by rewrite take_take_drop, take_drop.
Qed.

Lemma diffHalfMatchI_loop_spec fuel long short i seed j best :
  0 <= i <= len long -> seed <> [] -> -1 <= j <= len short ->
  splits_texts long short best \/ hm_common best = [] ->
  (Z.to_nat (len short - j) + 1 <= fuel)%nat ->
  exists best',
    diffHalfMatchI_loop fuel long short i seed j best = Some best'
    /\ (splits_texts long short best' \/ hm_common best' = []).
Proof.
  intros Hi Hseed. revert j best.
  induction fuel as [|fuel IH]; intros j best Hj Hbest Hfuel; [lia|].
  cbn [diffHalfMatchI_loop]. cbv zeta.
  destruct (indexOf_bounds short seed (j + 1)) as [->|[Hlo Hhi]].
  { exists best. by split. }
  set (j' := indexOf short seed (j + 1)) in *.
  destruct (Z.eqb_spec j' (-1)) as [_|Hfound]; [exists best; by split|].
  assert (0 < len seed).
  { destruct seed; [done|]. rewrite len_cons. pose proof (len_nonneg seed). lia. }
  assert (j + 1 <= j' /\ j' < len short) as [Hj1 Hj2].
  { unfold clamp in Hlo. lia. }
  destruct (diffCommonPrefix_spec (substring_from long i) (substring_from short j'))
    as (pl & -> & Hpl0 & Hpl1 & Hpl2 & Hpl).
  destruct (diffCommonSuffix_spec (substring long 0 i) (substring short 0 j'))
    as (sl & -> & Hsl0 & Hsl1 & Hsl2 & Hsl).
  cbn [mbind option_bind].
  destruct (_ <? _); [|apply IH; [lia|done|lia]].
  apply IH; [lia| |lia]. left.
  rewrite !substring_from_in in * by lia.
  rewrite !substring_0 in *. rewrite !clamp_in in * by lia.
  rewrite len_drop in Hpl1, Hpl2.
  rewrite len_take in Hsl1, Hsl2 by (unfold len in *; lia).
  rewrite !length_take in Hsl.
  unfold len in Hi, Hj2, Hpl1, Hpl2.
  rewrite !substring_from_in by (unfold len; lia).
  rewrite !substring_in by (unfold len; lia).
  rewrite !clamp_in by (unfold len; lia).
  replace (Z.to_nat (i - sl)) with (Z.to_nat i - Z.to_nat sl)%nat by lia.
  replace (Z.to_nat (j' - sl)) with (Z.to_nat j' - Z.to_nat sl)%nat by lia.
  replace (Z.to_nat (i + pl)) with (Z.to_nat i + Z.to_nat pl)%nat by lia.
  replace (Z.to_nat (j' + pl)) with (Z.to_nat j' + Z.to_nat pl)%nat by lia.
  replace (Z.to_nat (j' - (j' - sl))) with (Z.to_nat sl) by lia.
  replace (Z.to_nat (j' + pl - j')) with (Z.to_nat pl) by lia.
  apply middle_from_extensions; [lia|lia| |done].
  replace (Z.to_nat i `min` length long)%nat with (Z.to_nat i) in Hsl by lia.
  replace (Z.to_nat j' `min` length short)%nat with (Z.to_nat j') in Hsl by lia.
  done.
Qed.

Lemma diffHalfMatchI_spec long short i :
  4 <= len long -> 0 <= i -> i + len long / 4 <= len long ->
  exists r,
    diffHalfMatchI_ long short i = Some r
    /\ forall hm, r = Some hm ->
         splits_texts long short hm /\ len long <= 2 * len (hm_common hm).
Proof.
  intros Hlen Hi0 Hi. unfold diffHalfMatchI_.
  assert (0 < len long / 4) by (Z.div_mod_to_equations; lia).
  destruct (diffHalfMatchI_loop_spec (length short + 2) long short i
              (substring long i (i + len long / 4)) (-1) ([], [], [], [], []))
    as (best & -> & Hbest).
  - lia.
  - rewrite substring_in by lia. intros E.
    apply (f_equal length) in E.
    rewrite length_take, length_drop in E. unfold len in *. simpl in E. lia.
  - pose proof (len_nonneg short). lia.
  - by right.
  - unfold len. lia.
  - cbn [mbind option_bind].
    destruct (Z.leb_spec (len long) (len (hm_common best) * 2)) as [Hge|Hlt].
    + eexists. split; [done|]. intros hm ?; simplify_eq.
      destruct Hbest as [Hs|Hnil]; [split; [done|lia]|].
      rewrite Hnil in Hge. unfold len in Hge at 2. simpl in Hge. lia.
    + eexists. split; [done|]. by intros hm [=].
Qed.

(** C7.  [diffHalfMatch_] always returns; a five-element result splits
    both texts around the common middle, which is at least half as long as
    the longer text; and the function returns [null] whenever the time-out
    is zero or negative. *)
Theorem C7_half_match (cfg : Config) (text1 text2 : jstring) :
  (exists r, diffHalfMatch_ cfg text1 text2 = Some r)
  /\ (forall text1_a text1_b text2_a text2_b common,
        diffHalfMatch_ cfg text1 text2
        = Some (Some (text1_a, text1_b, text2_a, text2_b, common)) ->
        text1 = text1_a ++ common ++ text1_b
        /\ text2 = text2_a ++ common ++ text2_b
        /\ Z.max (len text1) (len text2) <= 2 * len common)
  /\ ((diffTimeout cfg <= 0)%Q -> diffHalfMatch_ cfg text1 text2 = Some None).
Proof.
  unfold diffHalfMatch_.
  destruct (Qle_bool (diffTimeout cfg) 0) eqn:Htimeout.
  { split; [by eexists|]. split; [by intros ? ? ? ? ? [=]|done]. }
  assert (~ (diffTimeout cfg <= 0)%Q) as Hpos.
  { intros H%Qle_bool_iff. congruence. }
  set (long := if len text2 <? len text1 then text1 else text2).
  set (short := if len text2 <? len text1 then text2 else text1).
  assert (Z.max (len text1) (len text2) = len long) as Hmax.
  { unfold long. destruct (Z.ltb_spec (len text2) (len text1)); lia. }
  destruct (Z.ltb_spec (len long) 4) as [Hshort|Hlong]; simpl.
  { split; [by eexists|]. split; [by intros ? ? ? ? ? [=]|done]. }
  destruct (_ <? len long).
  { split; [by eexists|]. split; [by intros ? ? ? ? ? [=]|done]. }
  destruct (diffHalfMatchI_spec long short (ceil_div (len long) 4))
    as (hm1 & -> & H1);
    [done | unfold ceil_div; Z.div_mod_to_equations; lia
     | unfold ceil_div; Z.div_mod_to_equations; lia |].
  destruct (diffHalfMatchI_spec long short (ceil_div (len long) 2))
    as (hm2 & -> & H2);
    [done | unfold ceil_div; Z.div_mod_to_equations; lia
     | unfold ceil_div; Z.div_mod_to_equations; lia |].
  cbn [mbind option_bind].
  set (hm := match hm1, hm2 with
             | None, None => None
             | Some h1, None => Some h1
             | None, Some h2 => Some h2
             | Some h1, Some h2 =>
                 if len (hm_common h2) <? len (hm_common h1)
                 then Some h1 else Some h2
             end).
  assert (forall h, hm = Some h ->
            splits_texts long short h /\ len long <= 2 * len (hm_common h))
    as Hhm.
  { intros h. unfold hm.
    destruct hm1 as [h1|], hm2 as [h2|]; try done.
    - destruct (len (hm_common h2) <? len (hm_common h1));
        intros ?; simplify_eq; [by apply H1|by apply H2].
    - intros ?; simplify_eq. by apply H1.
    - intros ?; simplify_eq. by apply H2. }
  clearbody hm. destruct hm as [[[[[a b] c] d] m]|].
  2:{ split; [by eexists|]. split; [by intros ? ? ? ? ? [=]|done]. }
  destruct (Hhm _ eq_refl) as [[Hl Hs] Hm]. simpl in Hm.
  unfold long, short in *.
  destruct (len text2 <? len text1).
  - split; [by eexists|]. split; [|done].
    intros ? ? ? ? ? ?; simplify_eq. split; [done|]. split; [done|lia].
  - split; [by eexists|]. split; [|done].
    intros ? ? ? ? ? ?; simplify_eq. split; [done|]. split; [done|lia].
Qed.

Lemma C7_half_match_witness :
  str "1234567890" = str "12" ++ str "345678" ++ str "90"
  /\ str "a345678z" = str "a" ++ str "345678" ++ str "z"
  /\ Z.max (len (str "1234567890")) (len (str "a345678z"))
     <= 2 * len (str "345678").
Proof.
  apply (C7_half_match default_config (str "1234567890") (str "a345678z")).
  vm_compute. reflexivity.
Defined.

(** ** Patches: lengths, splitting, padding *)

Lemma diffText1_app (a b : list Diff) :
  diffText1 (a ++ b) = diffText1 a ++ diffText1 b.
Proof. unfold diffText1. by rewrite map_app, concat_app. Qed.

Lemma diffText2_app (a b : list Diff) :
  diffText2 (a ++ b) = diffText2 a ++ diffText2 b.
Proof. unfold diffText2. by rewrite map_app, concat_app. Qed.

Lemma diffText1_cons (d : Diff) (ds : list Diff) :
  diffText1 (d :: ds)
  = (if op_eqb (d_op d) DIFF_INSERT then [] else d_text d) ++ diffText1 ds.
Proof. reflexivity. Qed.

Lemma diffText2_cons (d : Diff) (ds : list Diff) :
  diffText2 (d :: ds)
  = (if op_eqb (d_op d) DIFF_DELETE then [] else d_text d) ++ diffText2 ds.
Proof. reflexivity. Qed.

Lemma diffText1_single (d : Diff) :
  diffText1 [d] = if op_eqb (d_op d) DIFF_INSERT then [] else d_text d.
Proof. unfold diffText1. simpl. by rewrite app_nil_r. Qed.

Lemma diffText2_single (d : Diff) :
  diffText2 [d] = if op_eqb (d_op d) DIFF_DELETE then [] else d_text d.
Proof. unfold diffText2. simpl. by rewrite app_nil_r. Qed.

(** Appending a diff to a patch and accounting for it keeps the lengths
    in agreement. *)
Lemma lengths_agree_push (p : Patch) (d : Diff) :
  lengths_agree p ->
  lengths_agree
    (mkPatch (p_diffs p ++ [d]) (p_start1 p) (p_start2 p)
       (p_length1 p + len (diffText1 [d]))
       (p_length2 p + len (diffText2 [d]))).
Proof.
  intros [H1 H2]. split; simpl.
  - by rewrite diffText1_app, len_app, H1.
  - by rewrite diffText2_app, len_app, H2.
Qed.

Lemma lengths_agree_starts (p : Patch) (s1 s2 : option Z) :
  lengths_agree p ->
  lengths_agree (mkPatch (p_diffs p) s1 s2 (p_length1 p) (p_length2 p)).
Proof. by intros [H1 H2]. Qed.

(** Replacing the last diff: the texts before it are unchanged. *)
Lemma last_split {A} (l : list A) (x : A) :
  last l = Some x -> l = take (length l - 1) l ++ [x].
Proof.
  intros H. destruct (last_Some l x) as [[l' ->] _]; [done|].
  rewrite length_app. simpl.
  replace (length l' + 1 - 1)%nat with (length l') by lia.
  by rewrite take_app_length.
Qed.

Lemma len_substring_0 (s : jstring) (k : Z) :
  len (substring s 0 k) <= Z.max 0 k /\ len (substring s 0 k) <= len s.
Proof.
  rewrite substring_0. unfold len. rewrite length_take.
  unfold clamp, len. lia.
Qed.

Lemma len_tail_chunk (s : jstring) (k : Z) :
  len (substring_from s (len s - k)) <= Z.max 0 k.
Proof.
  unfold substring_from. rewrite len_drop. unfold clamp, len. lia.
Qed.

Lemma lengths_agree_postcontext (p : Patch) (post : jstring) :
  lengths_agree p -> lengths_agree (add_postcontext p post).
Proof.
  intros [H1 H2]. unfold add_postcontext.
  destruct (str_eqb post []); [done|].
  destruct (last (p_diffs p)) as [l|] eqn:Hlast.
  - destruct (op_eqb (d_op l) DIFF_EQUAL) eqn:Hop.
    + apply bool_decide_eq_true in Hop.
      rewrite (last_split _ _ Hlast) in H1, H2.
      rewrite diffText1_app, diffText1_single, len_app in H1.
      rewrite diffText2_app, diffText2_single, len_app in H2.
      split; simpl.
      * rewrite diffText1_app, diffText1_single, len_app. simpl.
        rewrite Hop in *. simpl in *. rewrite len_app. lia.
      * rewrite diffText2_app, diffText2_single, len_app. simpl.
        rewrite Hop in *. simpl in *. rewrite len_app. lia.
    + split; simpl.
      * rewrite diffText1_app, diffText1_single, len_app. simpl. lia.
      * rewrite diffText2_app, diffText2_single, len_app. simpl. lia.
  - split; simpl.
    + rewrite diffText1_app, diffText1_single, len_app. simpl. lia.
    + rewrite diffText2_app, diffText2_single, len_app. simpl. lia.
Qed.

Lemma large_deletion_postcontext cfg (p : Patch) (post : jstring) :
  large_deletion cfg p -> large_deletion cfg (add_postcontext p post).
Proof.
  intros (ctx & big & rest & Hd & Hbig). unfold add_postcontext.
  destruct (str_eqb post []); [by exists ctx, big, rest|].
  destruct (last (p_diffs p)) as [l|] eqn:Hlast.
  - destruct (op_eqb (d_op l) DIFF_EQUAL) eqn:Hop.
    + rewrite Hd in *. destruct rest as [|r rest].
      * simpl in Hlast. simplify_eq; done.
      * eexists ctx, big, _. split; [|done]. simpl.
        replace (length rest - 0)%nat with (length rest) by lia.
        reflexivity.
    + eexists ctx, big, _. split; [|done]. simpl. by rewrite Hd.
  - eexists ctx, big, _. split; [|done]. simpl. by rewrite Hd.
Qed.

Lemma split_measure_cons (d : Diff) (ds : list Diff) :
  split_measure (d :: ds)
  = (1 + length (d_text d) + split_measure ds)%nat.
Proof. unfold split_measure, script_size. simpl. lia. Qed.

Section SplitFacts.

Variable cfg : Config.
Hypothesis margin_nonneg : 0 <= patchMargin cfg.
Hypothesis margin_small : 2 * patchMargin cfg < matchMaxBits cfg.

Lemma split_fill_spec fuel s :
  (split_measure (sp_bigdiffs s) <= fuel)%nat ->
  filling_bound cfg (sp_patch s) ->
  exists s',
    split_fill fuel cfg s = Some s'
    /\ filling_bound cfg (sp_patch s')
    /\ (lengths_agree (sp_patch s) -> lengths_agree (sp_patch s'))
    /\ (split_measure (sp_bigdiffs s') <= split_measure (sp_bigdiffs s))%nat
    /\ (sp_bigdiffs s <> [] ->
        p_length1 (sp_patch s) < matchMaxBits cfg - patchMargin cfg ->
        (split_measure (sp_bigdiffs s') < split_measure (sp_bigdiffs s))%nat).
Proof.
  revert s. induction fuel as [|fuel IH]; intros [bigdiffs patch start1 start2 empty];
    cbn [sp_bigdiffs sp_patch]; intros Hfuel Hbound.
  - destruct bigdiffs as [|d rest]; [|rewrite split_measure_cons in Hfuel; lia].
    exists (mkSplit [] patch start1 start2 empty). simpl.
    split_and!; try done; intros; congruence.
  - cbn [split_fill]. destruct bigdiffs as [|d rest].
    { exists (mkSplit [] patch start1 start2 empty). simpl.
      split_and!; try done; intros; congruence. }
    destruct (Z.ltb_spec (p_length1 patch) (matchMaxBits cfg - patchMargin cfg))
      as [Hroom|Hfull].
    2:{ exists (mkSplit (d :: rest) patch start1 start2 empty). simpl.
        split_and!; try done; intros; lia. }
    rewrite split_measure_cons in Hfuel.
    destruct (op_eqb (d_op d) DIFF_INSERT) eqn:Hins.
    { (* Insertions are harmless. *)
      match goal with
      | |- context [split_fill fuel cfg ?s0] =>
          destruct (IH s0) as (s' & -> & Hb' & Hl' & Hm' & _)
      end; cbn [sp_bigdiffs sp_patch] in *.
      - lia.
      - destruct Hbound as [?|(ctx & big & r & Hd & ?)]; [by left|right].
        exists ctx, big, (r ++ [d]). simpl. by rewrite Hd.
      - exists s'. split; [done|]. split; [done|]. split.
        + intros Hl. apply Hl'.
          pose proof (lengths_agree_push patch d Hl) as Hp.
          rewrite diffText1_single, diffText2_single, Hins in Hp.
          apply bool_decide_eq_true in Hins.
          rewrite Hins in Hp. simpl in Hp.
          by rewrite Z.add_0_r in Hp.
        + rewrite split_measure_cons. split; intros; lia. }
    destruct (op_eqb (d_op d) DIFF_DELETE && (len (p_diffs patch) =? 1)
              && match p_diffs patch with
                 | d0 :: _ => op_eqb (d_op d0) DIFF_EQUAL
                 | [] => false
                 end
              && (2 * matchMaxBits cfg <? len (d_text d))) eqn:Hlarge.
    { (* This is a large deletion.  Let it pass in one chunk. *)
      apply andb_prop in Hlarge as [Hlarge Hbig%Z.ltb_lt].
      apply andb_prop in Hlarge as [Hlarge Hhead].
      apply andb_prop in Hlarge as [Hdel%bool_decide_eq_true Hone%Z.eqb_eq].
      destruct (p_diffs patch) as [|d0 [|d1 ds]] eqn:Hdiffs;
        [done| |rewrite !len_cons in Hone; pose proof (len_nonneg ds); lia].
      apply bool_decide_eq_true in Hhead.
      match goal with
      | |- context [split_fill fuel cfg ?s0] =>
          destruct (IH s0) as (s' & -> & Hb' & Hl' & Hm' & _)
      end; cbn [sp_bigdiffs sp_patch] in *.
      - lia.
      - right. exists (d_text d0), (d_text d), []. simpl. split; [|done].
        destruct d0 as [o0 t0], d as [o t]. simpl in *. by subst.
      - exists s'. split; [done|]. split; [done|]. split.
        + intros Hl. apply Hl'.
          pose proof (lengths_agree_push patch d Hl) as Hp.
          rewrite diffText1_single, diffText2_single in Hp.
          rewrite Hdel in Hp. simpl in Hp. rewrite Z.add_0_r, Hdiffs in Hp.
          destruct d as [o t]. simpl in *. by subst.
        + rewrite split_measure_cons. split; intros; lia. }
    (* Deletion or equality.  Only take as much as we can stomach. *)
    clear Hlarge.
    set (cut := substring (d_text d) 0
                  (matchMaxBits cfg - p_length1 patch - patchMargin cfg)).
    assert (len cut <= matchMaxBits cfg - p_length1 patch - patchMargin cfg
            /\ len cut <= len (d_text d)) as [Hcut1 Hcut2].
    { pose proof (len_substring_0 (d_text d)
                    (matchMaxBits cfg - p_length1 patch - patchMargin cfg)).
      fold cut in H. lia. }
    match goal with
      | |- context [split_fill fuel cfg ?s0] =>
          destruct (IH s0) as (s' & -> & Hb' & Hl' & Hm' & _)
      end; cbn [sp_bigdiffs sp_patch] in *.
    + destruct (str_eqb cut (d_text d)) eqn:Hwhole; [lia|].
      apply str_eqb_neq in Hwhole.
      rewrite split_measure_cons. simpl.
      assert (0 < len cut).
      { unfold cut in *. rewrite substring_0 in *.
        destruct (d_text d) as [|c t] eqn:Ht; [by rewrite take_nil in Hwhole|].
        unfold len. rewrite length_take. unfold clamp.
        rewrite len_cons. pose proof (len_nonneg t). simpl. lia. }
      unfold substring_from. rewrite length_drop. unfold clamp, len in *. lia.
    + left. simpl. lia.
    + exists s'. split; [done|]. split; [done|]. split.
      * intros Hl. apply Hl'.
        pose proof (lengths_agree_push patch (mkDiff (d_op d) cut) Hl) as Hp.
        rewrite diffText1_single, diffText2_single in Hp. simpl in Hp.
        rewrite Hins in Hp.
        destruct (d_op d); simpl in *; try done.
        by rewrite Z.add_0_r in Hp.
      * assert (split_measure
                  (if str_eqb cut (d_text d) then rest
                   else set_text d (substring_from (d_text d) (len cut)) :: rest)
                < split_measure (d :: rest))%nat.
        { rewrite split_measure_cons.
          destruct (str_eqb cut (d_text d)) eqn:Hwhole; [lia|].
          apply str_eqb_neq in Hwhole.
          rewrite split_measure_cons. simpl.
          assert (0 < len cut).
          { unfold cut in *. rewrite substring_0 in *.
            destruct (d_text d) as [|c t] eqn:Ht; [by rewrite take_nil in Hwhole|].
            unfold len. rewrite length_take. unfold clamp.
            rewrite len_cons. pose proof (len_nonneg t). simpl. lia. }
          unfold substring_from. rewrite length_drop. unfold clamp, len in *. lia. }
        split; intros; lia.
Qed.

Lemma split_bound_postcontext (p : Patch) (post : jstring) :
  filling_bound cfg p -> len post <= patchMargin cfg ->
  split_bound cfg (add_postcontext p post).
Proof.
  intros [Hlen|Hbig] Hpost.
  - left. unfold add_postcontext.
    destruct (str_eqb post []); simpl; lia.
  - right. by apply large_deletion_postcontext.
Qed.

Lemma split_big_spec fuel bigdiffs start1 start2 precontext acc :
  (split_measure bigdiffs <= fuel)%nat ->
  len precontext <= patchMargin cfg ->
  exists out,
    split_big fuel cfg bigdiffs start1 start2 precontext acc = Some out
    /\ (Forall (split_bound cfg) acc -> Forall (split_bound cfg) out)
    /\ (Forall lengths_agree acc -> Forall lengths_agree out).
Proof.
  revert bigdiffs start1 start2 precontext acc.
  induction fuel as [|fuel IH]; intros bigdiffs start1 start2 pre acc Hfuel Hpre.
  - destruct bigdiffs as [|d rest]; [|rewrite split_measure_cons in Hfuel; lia].
    exists acc. by simpl.
  - destruct bigdiffs as [|d rest]; [exists acc; by simpl|].
    cbn [split_big].
    set (patch := if str_eqb pre [] then _ else _).
    assert (p_length1 patch <= patchMargin cfg /\ lengths_agree patch)
      as [Hp1 Hp2].
    { unfold patch. destruct (str_eqb pre []) eqn:Hnil; simpl.
      - split; [lia|]. by split.
      - split; [lia|]. split; simpl.
        + by rewrite diffText1_single.
        + by rewrite diffText2_single. }
    destruct (split_fill_spec
                (length (d :: rest) + script_size (d :: rest) + 1)
                (mkSplit (d :: rest) patch start1 start2 true))
      as (s' & -> & Hb' & Hl' & _ & Hm'); cbn [sp_bigdiffs sp_patch] in *.
    { unfold split_measure. lia. }
    { left. lia. }
    specialize (Hm' ltac:(done) ltac:(lia)).
    destruct s' as [bigdiffs' patch' start1' start2' empty'].
    cbn [sp_bigdiffs sp_patch mbind option_bind] in *.
    set (pre' := substring_from _ _).
    set (post := substring _ 0 _).
    destruct (IH bigdiffs' start1' start2' pre'
                (if empty' then acc else acc ++ [add_postcontext patch' post]))
      as (out & -> & Hout1 & Hout2).
    { lia. }
    { pose proof (len_tail_chunk (diffText2 (p_diffs patch')) (patchMargin cfg)).
      fold pre' in H. lia. }
    exists out. split; [done|]. split; intros Hacc.
    + apply Hout1. destruct empty'; [done|].
      apply Forall_app. split; [done|]. apply Forall_singleton.
      apply split_bound_postcontext; [done|].
      pose proof (len_substring_0 (diffText1 bigdiffs') (patchMargin cfg)).
      fold post in H. lia.
    + apply Hout2. destruct empty'; [done|].
      apply Forall_app. split; [done|]. apply Forall_singleton.
      apply lengths_agree_postcontext. by apply Hl'.
Qed.

Lemma patchSplitMax_spec (patches : list Patch) :
  exists out,
    patchSplitMax cfg patches = Some out
    /\ Forall (split_bound cfg) out
    /\ (Forall lengths_agree patches -> Forall lengths_agree out).
Proof.
  induction patches as [|bigpatch rest (tail & Htail & Hb & Hl)].
  - exists []. by simpl.
  - cbn [patchSplitMax]. rewrite Htail.
    destruct (Z.leb_spec (p_length1 bigpatch) (matchMaxBits cfg)) as [Hsmall|Hbig].
    + exists (bigpatch :: tail). split; [done|]. split.
      * constructor; [by left|done].
      * intros [? ?]%Forall_cons. constructor; auto.
    + destruct (split_big_spec
                  (length (p_diffs bigpatch) + script_size (p_diffs bigpatch) + 1)
                  (p_diffs bigpatch) (num (p_start1 bigpatch))
                  (num (p_start2 bigpatch)) [] [])
        as (head & -> & Hh1 & Hh2).
      { unfold split_measure. lia. }
      { rewrite len_nil. lia. }
      exists (head ++ tail). split; [done|]. split.
      * apply Forall_app. split; [by apply Hh1|done].
      * intros [? ?]%Forall_cons. apply Forall_app. split; [by apply Hh2|auto].
Qed.

End SplitFacts.

(** *** Building patches *)

Lemma starts_with_refl (s : jstring) : starts_with s s = true.
Proof. induction s as [|c s IH]; [done|]. simpl. by rewrite Z.eqb_refl. Qed.

Lemma indexOf_self (s : jstring) : indexOf s s 0 = 0.
Proof.
  unfold indexOf. rewrite clamp_neg by lia. simpl.
  destruct s; simpl; [done|]. by rewrite Z.eqb_refl, starts_with_refl.
Qed.

Lemma lastIndexOf_end_self (s : jstring) : lastIndexOf_end s s = 0.
Proof.
  unfold lastIndexOf_end, lastIndexOf.
  replace (Z.min (Z.max (len s) 0) (len s - len s)) with 0
    by (pose proof (len_nonneg s); lia).
  simpl. by rewrite starts_with_refl.
Qed.

Lemma substring_whole (s : jstring) (a b : Z) :
  a <= 0 -> len s <= b -> substring s a b = s.
Proof.
  intros Ha Hb. unfold substring.
  rewrite (clamp_neg a) by lia. rewrite (clamp_big b) by lia.
  rewrite Nat.max_0_l, Nat.min_0_l, Nat.sub_0_r. simpl.
  by rewrite firstn_all.
Qed.

Lemma len_diffText1_context (prefix suffix : jstring) (diffs : list Diff) :
  len (diffText1
         (let diffs :=
            if truthy prefix then mkDiff DIFF_EQUAL prefix :: diffs
            else diffs in
          if truthy suffix then diffs ++ [mkDiff DIFF_EQUAL suffix]
          else diffs))
  = len prefix + len (diffText1 diffs) + len suffix.
Proof.
  destruct prefix, suffix; cbn [truthy]; cbv zeta;
    rewrite ?diffText1_app, ?diffText1_cons, ?diffText1_single, ?len_app;
    cbn [d_op d_text op_eqb]; rewrite ?len_app;
    unfold len; simpl; lia.
Qed.

Lemma len_diffText2_context (prefix suffix : jstring) (diffs : list Diff) :
  len (diffText2
         (let diffs :=
            if truthy prefix then mkDiff DIFF_EQUAL prefix :: diffs
            else diffs in
          if truthy suffix then diffs ++ [mkDiff DIFF_EQUAL suffix]
          else diffs))
  = len prefix + len (diffText2 diffs) + len suffix.
Proof.
  destruct prefix, suffix; cbn [truthy]; cbv zeta;
    rewrite ?diffText2_app, ?diffText2_cons, ?diffText2_single, ?len_app;
    cbn [d_op d_text op_eqb]; rewrite ?len_app;
    unfold len; simpl; lia.
Qed.

Section MakeFacts.

Variable cfg : Config.
Hypothesis margin_pos : 0 < patchMargin cfg.

Lemma context_loop_total text start2 length1 fuel pattern padding :
  0 <= padding ->
  Z.abs start2 + Z.abs length1 + len text < padding + Z.of_nat fuel ->
  padding = 0
  \/ pattern = substring text (start2 - padding) (start2 + length1 + padding) ->
  exists p,
    context_loop fuel cfg text start2 length1 pattern padding = Some p
    /\ padding <= p.
Proof.
  revert pattern padding.
  induction fuel as [|fuel IH]; intros pattern padding Hpad Hfuel Hpat.
  - assert (pattern = text) as ->.
    { pose proof (len_nonneg text).
      destruct Hpat as [->| ->]; [lia|]. apply substring_whole; lia. }
    simpl. rewrite indexOf_self, lastIndexOf_end_self. simpl.
    exists padding. split; [done|lia].
  - cbn [context_loop].
    destruct (negb _ && _); [|exists padding; split; [done|lia]].
    destruct (IH (substring text (start2 - (padding + patchMargin cfg))
                    (start2 + length1 + (padding + patchMargin cfg)))
                (padding + patchMargin cfg)) as (p & -> & Hp);
      [lia|lia|by right|].
    exists p. split; [done|lia].
Qed.

Lemma patchAddContext_spec patch text :
  started patch ->
  exists p',
    patchAddContext_ cfg patch text = Some (Ok p')
    /\ (lengths_agree patch -> lengths_agree p')
    /\ started p'
    /\ (p_diffs patch <> [] -> p_diffs p' <> []).
Proof.
  intros (st & Hs1 & Hs2 & Hst). unfold patchAddContext_.
  destruct (len text =? 0).
  { exists patch. split; [done|]. split; [done|]. split; [|done].
    by exists st. }
  rewrite Hs2.
  destruct (context_loop_total text st (p_length1 patch)
              (Z.to_nat (Z.abs st + Z.abs (p_length1 patch) + len text) + 1)
              (substring text st (st + p_length1 patch)) 0)
    as (padding & -> & Hpad); [lia|lia|by left|].
  cbn [mbind option_bind].
  set (pad := padding + patchMargin cfg).
  set (prefix := substring text (st - pad) st).
  set (suffix := substring text (st + p_length1 patch)
                   (st + p_length1 patch + pad)).
  eexists. split; [reflexivity|]. cbn [p_diffs p_start1 p_start2].
  assert (len prefix <= st) as Hprefix.
  { unfold prefix, substring, len. rewrite length_take, length_drop.
    unfold clamp, len. lia. }
  split; [|split].
  - intros [H1 H2]. split; cbn [p_length1 p_length2 p_diffs].
    + rewrite len_diffText1_context. lia.
    + rewrite len_diffText2_context. lia.
  - exists (st - len prefix). rewrite Hs1. simpl. split; [done|]. split; [done|lia].
  - intros Hne. destruct (truthy prefix), (truthy suffix);
      destruct (p_diffs patch); simpl; congruence.
Qed.

Local Ltac make_done :=
  split_and!; try done; try lia;
  try match goal with
      | H : p_diffs _ = _ |- _ => by rewrite H
      | |- _ -> started _ => intros _; eexists; by simpl
      | |- _ -> _ = _ => intros ?; by simplify_list_eq
      end.

Lemma make_step_spec s d is_last :
  make_inv s ->
  exists s', make_step cfg s d is_last = Some (Ok s') /\ make_inv s'.
Proof.
  destruct s as [patches patch c1 c2 pre post].
  intros (Hps & Hl & Hc1 & Hc2 & Hnil & Hcons); cbn [mk_patches mk_patch
    mk_charCount1 mk_charCount2] in *.
  destruct d as [op text]. pose proof (len_nonneg text) as Htext.
  pose proof (lengths_agree_push patch (mkDiff DIFF_DELETE text) Hl) as HpD.
  pose proof (lengths_agree_push patch (mkDiff DIFF_INSERT text) Hl) as HpI.
  pose proof (lengths_agree_push patch (mkDiff DIFF_EQUAL text) Hl) as HpE.
  rewrite diffText1_single, diffText2_single in HpD, HpI, HpE.
  simpl in HpD, HpI, HpE. rewrite Z.add_0_r in HpD, HpI.
  unfold make_step. cbn [d_op d_text].
  destruct (p_diffs patch) as [|d0 ds] eqn:Hdiffs.
  - (* No patch is open. *)
    specialize (Hnil eq_refl). subst c2.
    change (len (@nil Diff) =? 0) with true. cbn [andb].
    destruct op; cbn [op_eqb negb bool_decide decide_rel]; simpl negb;
      cbv iota; cbn [p_diffs p_start1 p_start2 p_length1 p_length2].
    + eexists. split; [reflexivity|]. unfold make_inv; cbn.
      make_done.
    + eexists. split; [reflexivity|]. unfold make_inv; cbn.
      make_done.
    + rewrite Hdiffs. change (len (@nil Diff) =? 0) with true.
      rewrite !andb_false_r. cbn [negb andb].
      eexists. split; [simpl; reflexivity|]. unfold make_inv; cbn.
      make_done.
  - (* A patch is open. *)
    specialize (Hcons ltac:(done)).
    assert ((len (d0 :: ds) =? 0) = false) as Hopen.
    { rewrite len_cons. pose proof (len_nonneg ds). lia. }
    rewrite Hopen. cbn [andb negb].
    destruct op; cbn [op_eqb negb bool_decide decide_rel]; simpl negb;
      cbv iota; rewrite ?Hdiffs, ?Hopen; cbn [negb].
    + eexists. split; [reflexivity|]. unfold make_inv; cbn.
      make_done.
    + eexists. split; [reflexivity|]. unfold make_inv; cbn.
      make_done.
    + rewrite !andb_true_r.
      destruct ((len text <=? 2 * patchMargin cfg) && negb is_last).
      * eexists. split; [reflexivity|]. unfold make_inv; cbn.
        make_done.
      * destruct (2 * patchMargin cfg <=? len text).
        -- destruct (patchAddContext_spec patch pre Hcons)
             as (p' & -> & Hl' & Hs' & Hne').
           eexists. split; [reflexivity|]. unfold make_inv; cbn.
           make_done.
           apply Forall_app. split; [done|]. apply Forall_singleton.
           split_and!; auto. apply Hne'. by rewrite Hdiffs.
        -- eexists. split; [reflexivity|]. unfold make_inv; cbn.
           make_done.
Qed.

Lemma make_loop_spec diffs s :
  make_inv s ->
  exists s', make_loop cfg diffs s = Some (Ok s') /\ make_inv s'.
Proof.
  revert s. induction diffs as [|d rest IH]; intros s Hinv.
  - by exists s.
  - cbn [make_loop].
    destruct (make_step_spec s d (bool_decide (rest = [])) Hinv)
      as (s1 & -> & Hinv1).
    cbn [mbind option_bind]. by apply IH.
Qed.

Lemma patchMake_diffs_spec text1 diffs :
  exists patches,
    patchMake_diffs cfg text1 diffs = Some (Ok patches)
    /\ Forall made patches.
Proof.
  unfold patchMake_diffs. destruct diffs as [|d rest]; [by exists []|].
  destruct (make_loop_spec (d :: rest) (mkMake [] new_patchObj 0 0 text1 text1))
    as (s & -> & Hps & Hl & _ & _ & _ & Hcons).
  { unfold make_inv. simpl. split_and!; try done. }
  cbn [mbind option_bind]. unfold patchDiffLength.
  destruct (p_diffs (mk_patch s)) as [|d0 ds] eqn:Hdiffs.
  - exists (mk_patches s). by simpl.
  - assert (p_diffs (mk_patch s) <> []) as Hne by (rewrite Hdiffs; done).
    assert ((len (d0 :: ds) =? 0) = false) as ->.
    { rewrite len_cons. pose proof (len_nonneg ds). lia. }
    cbn [negb].
    destruct (patchAddContext_spec (mk_patch s) (mk_prepatchText s)
                (Hcons ltac:(done)))
      as (p' & -> & Hl' & Hs' & Hne').
    exists (mk_patches s ++ [p']). split; [done|].
    apply Forall_app. split; [done|]. apply Forall_singleton.
    split_and!; auto.
Qed.

(** *** Padding *)

Lemma len_nullPadding : len (nullPadding cfg) = patchMargin cfg.
Proof. unfold nullPadding, len. rewrite length_map, length_seqZ. lia. Qed.

Lemma lengths_agree_bump (p : Patch) :
  lengths_agree p -> lengths_agree (bump cfg p).
Proof. by intros [? ?]. Qed.

Lemma lengths_agree_cons_equal (p : Patch) (t : jstring) (s1 s2 : option Z) :
  lengths_agree p ->
  lengths_agree
    (mkPatch (mkDiff DIFF_EQUAL t :: p_diffs p) s1 s2
       (p_length1 p + len t) (p_length2 p + len t)).
Proof.
  intros [H1 H2].
  split; cbn [p_diffs p_length1 p_length2];
    rewrite ?diffText1_cons, ?diffText2_cons; cbn [d_op d_text];
    change (op_eqb DIFF_EQUAL DIFF_INSERT) with false;
    change (op_eqb DIFF_EQUAL DIFF_DELETE) with false; cbv iota;
    rewrite len_app; lia.
Qed.

Lemma lengths_agree_pad_first (p : Patch) :
  lengths_agree p -> lengths_agree (pad_first cfg p).
Proof.
  intros Hl. unfold pad_first. pose proof len_nullPadding as Hpad.
  pose proof (lengths_agree_cons_equal p (nullPadding cfg)
                (Some (num (p_start1 p) - patchMargin cfg))
                (Some (num (p_start2 p) - patchMargin cfg)) Hl) as Hcons.
  rewrite Hpad in Hcons.
  destruct (p_diffs p) as [|[op t] rest] eqn:Hdiffs; [done|].
  cbn [d_op d_text]. destruct (op_eqb op DIFF_EQUAL) eqn:Hop; [|done].
  apply bool_decide_eq_true in Hop. subst op.
  destruct (Z.ltb_spec (len t) (patchMargin cfg)) as [Hshort|Hlong]; [|done].
  destruct Hl as [H1 H2]. rewrite Hdiffs in H1, H2.
  rewrite diffText1_cons in H1. rewrite diffText2_cons in H2.
  cbn [d_op d_text] in H1, H2.
  change (op_eqb DIFF_EQUAL DIFF_INSERT) with false in H1.
  change (op_eqb DIFF_EQUAL DIFF_DELETE) with false in H2.
  cbv iota in H1, H2. rewrite len_app in H1, H2.
  assert (len (substring_from (nullPadding cfg) (len t))
          = patchMargin cfg - len t) as Hgrow.
  { unfold substring_from, len in *. rewrite length_drop.
    unfold clamp, len. lia. }
  unfold set_text.
  split; cbn [p_length1 p_length2 p_diffs d_op d_text];
    rewrite ?diffText1_cons, ?diffText2_cons; cbn [d_op d_text];
    change (op_eqb DIFF_EQUAL DIFF_INSERT) with false;
    change (op_eqb DIFF_EQUAL DIFF_DELETE) with false; cbv iota;
    rewrite !len_app, Hgrow; lia.
Qed.

Lemma lengths_agree_pad_last (p : Patch) :
  lengths_agree p -> lengths_agree (pad_last cfg p).
Proof.
  intros [H1 H2]. unfold pad_last. pose proof len_nullPadding as Hpad.
  destruct (last (p_diffs p)) as [[op t]|] eqn:Hlast.
  - cbn [d_op d_text]. destruct (op_eqb op DIFF_EQUAL) eqn:Hop.
    + apply bool_decide_eq_true in Hop. subst op.
      destruct (Z.ltb_spec (len t) (patchMargin cfg)) as [Hshort|Hlong];
        [|done].
      rewrite (last_split _ _ Hlast) in H1, H2.
      rewrite diffText1_app, diffText1_single, len_app in H1.
      rewrite diffText2_app, diffText2_single, len_app in H2.
      simpl in H1, H2.
      assert (len (substring (nullPadding cfg) 0 (patchMargin cfg - len t))
              = patchMargin cfg - len t) as Hgrow.
      { rewrite substring_0. unfold len at 1. rewrite length_take.
        unfold clamp. pose proof (len_nonneg t). unfold len in *. lia. }
      split; cbn [p_length1 p_length2 p_diffs set_text d_op];
        rewrite ?diffText1_app, ?diffText2_app, ?diffText1_single,
          ?diffText2_single; simpl; rewrite !len_app, Hgrow; lia.
    + split; cbn [p_length1 p_length2 p_diffs];
        rewrite ?diffText1_app, ?diffText2_app, ?diffText1_single,
          ?diffText2_single; simpl; rewrite len_app; lia.
  - apply last_None in Hlast. rewrite Hlast in *.
    change (len (diffText1 [])) with 0 in H1.
    change (len (diffText2 [])) with 0 in H2.
    split; simpl; rewrite ?diffText1_single, ?diffText2_single; simpl; lia.
Qed.

Lemma patchAddPadding_spec (patches : list Patch) :
  patches <> [] ->
  exists out,
    patchAddPadding cfg patches = Ok (out, nullPadding cfg)
    /\ (Forall lengths_agree patches -> Forall lengths_agree out).
Proof.
  intros Hne. unfold patchAddPadding.
  destruct patches as [|first rest]; [done|]. cbn [map].
  set (padded := pad_first cfg (bump cfg first) :: map (bump cfg) rest).
  destruct (last padded) as [l|] eqn:Hlast;
    [|apply last_None in Hlast; unfold padded in Hlast; discriminate].
  eexists. split; [reflexivity|]. intros [Hf Hr]%Forall_cons.
  assert (Forall lengths_agree padded) as Hpadded.
  { constructor.
    - by apply lengths_agree_pad_first, lengths_agree_bump.
    - apply Forall_map. eapply Forall_impl; [exact Hr|].
      intros p Hp. by apply lengths_agree_bump. }
  apply Forall_app. split.
  - by apply Forall_take.
  - apply Forall_singleton, lengths_agree_pad_last.
    rewrite (last_split _ _ Hlast) in Hpadded.
    destruct (proj1 (Forall_app _ _ _) Hpadded) as [_ Hl].
    by inversion Hl.
Qed.

End MakeFacts.

(** *** The claims about patch lists *)

(** C5.  Under a configuration with a positive margin smaller than half
    of [matchMaxBits], every patch returned by [patchMake], whatever the
    call shape, has [length1] equal to the total length of its
    non-insertion texts and [length2] equal to the total length of its
    non-deletion texts; [patchMake] on a text and a script always returns
    such a list; [patchSplitMax] always returns and keeps the property for
    every patch of its result, and so does [patchAddPadding] on a
    non-empty list. *)
Theorem C5_lengths_invariant (cfg : Config) :
  0 < patchMargin cfg ->
  2 * patchMargin cfg < matchMaxBits cfg ->
  (forall now a optB optC patches,
     patchMake cfg now a optB optC = Some (Ok patches) ->
     Forall lengths_agree patches)
  /\ (forall text1 diffs,
        exists patches,
          patchMake_diffs cfg text1 diffs = Some (Ok patches)
          /\ Forall lengths_agree patches)
  /\ (forall patches,
        Forall lengths_agree patches ->
        exists out,
          patchSplitMax cfg patches = Some out /\ Forall lengths_agree out)
  /\ (forall patches,
        patches <> [] ->
        Forall lengths_agree patches ->
        exists out,
          patchAddPadding cfg patches = Ok (out, nullPadding cfg)
          /\ Forall lengths_agree out).
Proof.
  intros Hmargin Hsplit.
  assert (forall text1 diffs,
            exists patches,
              patchMake_diffs cfg text1 diffs = Some (Ok patches)
              /\ Forall lengths_agree patches) as Hmake.
  { intros text1 diffs.
    destruct (patchMake_diffs_spec cfg Hmargin text1 diffs) as (ps & Hps & Hall).
    exists ps. split; [done|]. eapply Forall_impl; [exact Hall|].
    by intros p [? _]. }
  split_and!.
  - intros now a optB optC patches Hcall.
    assert (forall text1 diffs,
              patchMake_diffs cfg text1 diffs = Some (Ok patches) ->
              Forall lengths_agree patches) as Hdet.
    { intros text1 diffs Heq.
      destruct (Hmake text1 diffs) as (ps & Hps & Hall). congruence. }
    unfold patchMake in Hcall.
    destruct a as [| |text1|diffs], optB as [| |text2|diffs'],
      optC as [| |text3|diffs'']; try discriminate; eauto.
    destruct (diffMain cfg now text1 text2 (Some true)) as [diffs|];
      [|discriminate].
    cbn [mbind option_bind] in Hcall.
    destruct (if 2 <? len diffs then _ else _) as [diffs1|];
      [|discriminate].
    cbn [mbind option_bind] in Hcall. eauto.
  - exact Hmake.
  - intros patches Hall.
    destruct (patchSplitMax_spec cfg ltac:(lia) Hsplit patches)
      as (out & Hout & _ & Hl).
    exists out. auto.
  - intros patches Hne Hall.
    destruct (patchAddPadding_spec cfg Hmargin patches Hne) as (out & Hout & Hl).
    exists out. auto.
Qed.

Lemma C5_lengths_invariant_witness :
  exists patches,
    patchMake_diffs default_config c6_text c6_diffs = Some (Ok patches)
    /\ Forall lengths_agree patches.
Proof.
  destruct (C5_lengths_invariant default_config) as (_ & Hmake & _);
    [simpl; lia|simpl; lia|].
  apply Hmake.
Defined.

(** C6 as claimed fails: the two-diff patch that [patchMake] builds for a
    deletion of 70 characters after a 2-character context has
    [length1 = 72], and [patchSplitMax] returns it unchanged although
    [matchMaxBits] is 32. *)
Lemma C6_counterexample :
  patchMake default_config wall_clock (AString c6_text) (ADiffs c6_diffs)
    AUndefined = Some (Ok [c6_patch])
  /\ patchSplitMax default_config [c6_patch] = Some [c6_patch]
  /\ matchMaxBits default_config < p_length1 c6_patch.
Proof. split_and!; [by vm_compute..|]. simpl. lia. Qed.

(** C6, amended.  Under a configuration with a non-negative margin smaller
    than half of [matchMaxBits], [patchSplitMax] always returns, and every
    patch of its result either has [length1 <= matchMaxBits] or starts
    with a context equality followed by a deletion longer than
    [2 * matchMaxBits], the large deletion that the source lets pass in
    one chunk. *)
Theorem C6_split_max_bound (cfg : Config) (patches : list Patch) :
  0 <= patchMargin cfg ->
  2 * patchMargin cfg < matchMaxBits cfg ->
  exists out,
    patchSplitMax cfg patches = Some out /\ Forall (split_bound cfg) out.
Proof.
  intros Hmargin Hsplit.
  destruct (patchSplitMax_spec cfg Hmargin Hsplit patches)
    as (out & Hout & Hbound & _).
  by exists out.
Qed.

Lemma C6_split_max_bound_witness :
  exists out,
    patchSplitMax default_config [c6_patch] = Some out
    /\ Forall (split_bound default_config) out.
Proof. apply (C6_split_max_bound default_config [c6_patch]); simpl; lia. Defined.

(** ** [encodeURI] and [decodeURI] *)

Module URIFacts.
Import URI.

Lemma hex_digit_range (d : Z) :
  0 <= d < 16 -> 48 <= hex_digit d <= 70.
Proof. unfold hex_digit. destruct (Z.ltb_spec d 10); lia. Qed.

Lemma hex_value_hex_digit (d : Z) :
  0 <= d < 16 -> hex_value (hex_digit d) = Some d.
Proof.
  intros Hd. unfold hex_digit, hex_value.
  destruct (Z.ltb_spec d 10).
  - replace ((48 <=? 48 + d) && (48 + d <=? 57)) with true by lia.
    f_equal. lia.
  - replace ((48 <=? 55 + d) && (55 + d <=? 57)) with false by lia.
    replace ((65 <=? 55 + d) && (55 + d <=? 70)) with true by lia.
    f_equal. lia.
Qed.

Lemma hex_octet_percent (b : Z) :
  0 <= b < 256 ->
  hex_octet (hex_digit (b / 16)) (hex_digit (b mod 16)) = Some b.
Proof.
  intros Hb. unfold hex_octet.
  rewrite !hex_value_hex_digit by (Z.div_mod_to_equations; lia).
  simpl. f_equal. Z.div_mod_to_equations. lia.
Qed.

Lemma hex_digit_inj_2_0 (b : Z) :
  0 <= b < 256 ->
  hex_digit (b / 16) = 50 -> hex_digit (b mod 16) = 48 -> b = 32.
Proof.
  unfold hex_digit. intros Hb.
  destruct (Z.ltb_spec (b / 16) 10), (Z.ltb_spec (b mod 16) 10);
    intros; Z.div_mod_to_equations; lia.
Qed.

End URIFacts.

Lemma replace_pct20_other (c : Z) (rest : jstring) :
  c <> 37 -> replace_pct20 (c :: rest) = c :: replace_pct20 rest.
Proof.
  intros Hc. destruct rest as [|c1 [|c2 rest]]; try reflexivity.
  cbn [replace_pct20].
  replace (c =? 37) with false by lia. reflexivity.
Qed.

Lemma replace_pct20_step (c c1 c2 : Z) (rest : jstring) :
  replace_pct20 (c :: c1 :: c2 :: rest)
  = if (c =? 37) && (c1 =? 50) && (c2 =? 48)
    then 32 :: replace_pct20 rest
    else c :: replace_pct20 (c1 :: c2 :: rest).
Proof. reflexivity. Qed.

Lemma replace_pct20_percent_octet (b : Z) (rest : jstring) :
  0 <= b < 256 ->
  replace_pct20 (URI.percent_octet b ++ rest)
  = (if b =? 32 then [32] else URI.percent_octet b) ++ replace_pct20 rest.
Proof.
  intros Hb. unfold URI.percent_octet.
  pose proof (URIFacts.hex_digit_range (b / 16)
                ltac:(Z.div_mod_to_equations; lia)) as H1.
  pose proof (URIFacts.hex_digit_range (b mod 16)
                ltac:(Z.div_mod_to_equations; lia)) as H2.
  destruct (Z.eqb_spec b 32) as [->|Hne].
  - reflexivity.
  - cbn [app]. rewrite replace_pct20_step.
    assert ((URI.hex_digit (b / 16) =? 50) && (URI.hex_digit (b mod 16) =? 48)
            = false) as Hno.
    { apply andb_false_iff.
      destruct (Z.eqb_spec (URI.hex_digit (b / 16)) 50) as [E1|]; [|by left].
      destruct (Z.eqb_spec (URI.hex_digit (b mod 16)) 48) as [E2|]; [|by right].
      by pose proof (URIFacts.hex_digit_inj_2_0 b Hb E1 E2). }
    change (37 =? 37) with true. cbn [andb]. rewrite Hno.
    rewrite !replace_pct20_other by lia. reflexivity.
Qed.

Module URIDecode.
Import URI.

Lemma decodeURI_plain (c : Z) (rest : jstring) :
  c <> 37 ->
  decodeURI (c :: rest) = r ← decodeURI rest; Some (c :: r).
Proof.
  intros Hc. cbn [decodeURI]. by replace (c =? 37) with false by lia.
Qed.

Lemma decodeURI_1 (h1 h2 b : Z) (rest : jstring) :
  hex_octet h1 h2 = Some b -> leading_ones b = 0 -> reserved b = false ->
  decodeURI (37 :: h1 :: h2 :: rest) = r ← decodeURI rest; Some (b :: r).
Proof.
  intros Hb Hl Hr. cbn [decodeURI]. change (37 =? 37) with true. cbn [negb].
  rewrite Hb. cbn [mbind option_bind]. rewrite Hl, Hr. reflexivity.
Qed.

Lemma decodeURI_2 (h1 h2 h3 h4 b0 b1 : Z) (rest : jstring) :
  hex_octet h1 h2 = Some b0 -> leading_ones b0 = 2 ->
  hex_octet h3 h4 = Some b1 ->
  decodeURI (37 :: h1 :: h2 :: 37 :: h3 :: h4 :: rest)
  = v ← utf8_decode [b0; b1]; r ← decodeURI rest; Some (utf16_encode v ++ r).
Proof.
  intros Hb0 Hl Hb1.
  remember (37 :: h3 :: h4 :: rest) as rest1 eqn:E.
  cbn [decodeURI]. change (37 =? 37) with true. cbn [negb].
  rewrite Hb0. cbn [mbind option_bind]. rewrite Hl.
  change (2 =? 0) with false. change (2 =? 2) with true. cbv iota.
  subst rest1. cbv iota. change (37 =? 37) with true. cbv iota.
  rewrite Hb1. reflexivity.
Qed.

Lemma decodeURI_3 (h1 h2 h3 h4 h5 h6 b0 b1 b2 : Z) (rest : jstring) :
  hex_octet h1 h2 = Some b0 -> leading_ones b0 = 3 ->
  hex_octet h3 h4 = Some b1 -> hex_octet h5 h6 = Some b2 ->
  decodeURI (37 :: h1 :: h2 :: 37 :: h3 :: h4 :: 37 :: h5 :: h6 :: rest)
  = v ← utf8_decode [b0; b1; b2]; r ← decodeURI rest;
    Some (utf16_encode v ++ r).
Proof.
  intros Hb0 Hl Hb1 Hb2.
  remember (37 :: h3 :: h4 :: 37 :: h5 :: h6 :: rest) as rest1 eqn:E.
  cbn [decodeURI]. change (37 =? 37) with true. cbn [negb].
  rewrite Hb0. cbn [mbind option_bind]. rewrite Hl.
  change (3 =? 0) with false. change (3 =? 2) with false.
  change (3 =? 3) with true. cbv iota.
  subst rest1. cbv iota. change (37 =? 37) with true. cbn [andb].
  rewrite Hb1, Hb2. reflexivity.
Qed.

Lemma decodeURI_4 (h1 h2 h3 h4 h5 h6 h7 h8 b0 b1 b2 b3 : Z) (rest : jstring) :
  hex_octet h1 h2 = Some b0 -> leading_ones b0 = 4 ->
  hex_octet h3 h4 = Some b1 -> hex_octet h5 h6 = Some b2 ->
  hex_octet h7 h8 = Some b3 ->
  decodeURI (37 :: h1 :: h2 :: 37 :: h3 :: h4 :: 37 :: h5 :: h6
               :: 37 :: h7 :: h8 :: rest)
  = v ← utf8_decode [b0; b1; b2; b3]; r ← decodeURI rest;
    Some (utf16_encode v ++ r).
Proof.
  intros Hb0 Hl Hb1 Hb2 Hb3.
  remember (37 :: h3 :: h4 :: 37 :: h5 :: h6 :: 37 :: h7 :: h8 :: rest)
    as rest1 eqn:E.
  cbn [decodeURI]. change (37 =? 37) with true. cbn [negb].
  rewrite Hb0. cbn [mbind option_bind]. rewrite Hl.
  change (4 =? 0) with false. change (4 =? 2) with false.
  change (4 =? 3) with false. change (4 =? 4) with true. cbv iota.
  subst rest1. cbv iota. change (37 =? 37) with true. cbn [andb].
  rewrite Hb1, Hb2, Hb3. reflexivity.
Qed.

End URIDecode.

Module URIRoundTrip.
Import URI URIFacts URIDecode.

Local Ltac divmod := Z.div_mod_to_equations; lia.

Lemma percent_octet_eq (b : Z) :
  percent_octet b = [37; hex_digit (b / 16); hex_digit (b mod 16)].
Proof. reflexivity. Qed.

Lemma leading_ones_0 b : 0 <= b < 128 -> leading_ones b = 0.
Proof. intros ?. unfold leading_ones. by replace (b <? 128) with true by lia. Qed.

Lemma leading_ones_2 b : 192 <= b < 224 -> leading_ones b = 2.
Proof.
  intros ?. unfold leading_ones.
  replace (b <? 128) with false by lia. replace (b <? 192) with false by lia.
  by replace (b <? 224) with true by lia.
Qed.

Lemma leading_ones_3 b : 224 <= b < 240 -> leading_ones b = 3.
Proof.
  intros ?. unfold leading_ones.
  replace (b <? 128) with false by lia. replace (b <? 192) with false by lia.
  replace (b <? 224) with false by lia.
  by replace (b <? 240) with true by lia.
Qed.

Lemma leading_ones_4 b : 240 <= b < 248 -> leading_ones b = 4.
Proof.
  intros ?. unfold leading_ones.
  replace (b <? 128) with false by lia. replace (b <? 192) with false by lia.
  replace (b <? 224) with false by lia. replace (b <? 240) with false by lia.
  by replace (b <? 248) with true by lia.
Qed.

Lemma continuation_low6 (x : Z) : continuation (128 + x mod 64) = true.
Proof. unfold continuation. apply andb_true_intro. split; divmod. Qed.

(** An escaped octet above 127 is left alone by the [%20] replacement. *)
Lemma replace_pct20_high (b : Z) (rest : jstring) :
  128 <= b < 256 ->
  replace_pct20 (percent_octet b ++ rest)
  = percent_octet b ++ replace_pct20 rest.
Proof.
  intros Hb. rewrite replace_pct20_percent_octet by lia.
  by replace (b =? 32) with false by lia.
Qed.

(** One escaped code point, seen through the replacement and the
    decoder. *)
Lemma escape_round_trip (cp : Z) (e : jstring) :
  0 <= cp <= 1114111 -> ~ (55296 <= cp <= 57343) ->
  reserved cp = false ->
  decodeURI (replace_pct20 (percent_encode cp ++ e))
  = r ← decodeURI (replace_pct20 e); Some (utf16_encode cp ++ r).
Proof.
  intros Hcp Hsur Hres. unfold percent_encode, utf8_octets.
  destruct (Z.ltb_spec cp 128) as [H1|H1];
    [|destruct (Z.ltb_spec cp 2048) as [H2|H2];
      [|destruct (Z.ltb_spec cp 65536) as [H3|H3]]];
    cbn [map concat]; rewrite app_nil_r, <- ?app_assoc.
  - (* one octet *)
    rewrite replace_pct20_percent_octet by lia.
    unfold utf16_encode. replace (cp <? 65536) with true by lia.
    destruct (Z.eqb_spec cp 32) as [->|Hne].
    + cbn [app]. by rewrite decodeURI_plain.
    + rewrite percent_octet_eq. cbn [app].
      by rewrite (decodeURI_1 _ _ cp)
        by auto using hex_octet_percent, leading_ones_0 with lia.
  - (* two octets *)
    rewrite !replace_pct20_high by divmod.
    rewrite !percent_octet_eq. cbn [app].
    rewrite (decodeURI_2 _ _ _ _ (192 + cp / 64) (128 + cp mod 64));
      [|apply hex_octet_percent; divmod|apply leading_ones_2; divmod
       |apply hex_octet_percent; divmod].
    unfold utf8_decode. rewrite continuation_low6.
    replace (192 + cp / 64 - 192) with (cp / 64) by lia.
    replace (128 + cp mod 64 - 128) with (cp mod 64) by lia.
    replace (cp / 64 * 64 + cp mod 64) with cp by divmod.
    replace (128 <=? cp) with true by lia. cbn [andb mbind option_bind].
    unfold utf16_encode. by replace (cp <? 65536) with true by lia.
  - (* three octets *)
    rewrite !replace_pct20_high by divmod.
    rewrite !percent_octet_eq. cbn [app].
    rewrite (decodeURI_3 _ _ _ _ _ _ (224 + cp / 4096)
               (128 + (cp / 64) mod 64) (128 + cp mod 64));
      [|apply hex_octet_percent; divmod|apply leading_ones_3; divmod
       |apply hex_octet_percent; divmod|apply hex_octet_percent; divmod].
    unfold utf8_decode. rewrite !continuation_low6.
    replace ((224 + cp / 4096 - 224) * 4096
             + (128 + (cp / 64) mod 64 - 128) * 64
             + (128 + cp mod 64 - 128)) with cp by divmod.
    replace (2048 <=? cp) with true by lia.
    replace ((55296 <=? cp) && (cp <=? 57343)) with false by lia.
    cbn [andb negb mbind option_bind].
    unfold utf16_encode. by replace (cp <? 65536) with true by lia.
  - (* four octets *)
    rewrite !replace_pct20_high by divmod.
    rewrite !percent_octet_eq. cbn [app].
    rewrite (decodeURI_4 _ _ _ _ _ _ _ _ (240 + cp / 262144)
               (128 + (cp / 4096) mod 64) (128 + (cp / 64) mod 64)
               (128 + cp mod 64));
      [|apply hex_octet_percent; divmod|apply leading_ones_4; divmod
       |apply hex_octet_percent; divmod|apply hex_octet_percent; divmod
       |apply hex_octet_percent; divmod].
    unfold utf8_decode. rewrite !continuation_low6.
    replace ((240 + cp / 262144 - 240) * 262144
             + (128 + (cp / 4096) mod 64 - 128) * 4096
             + (128 + (cp / 64) mod 64 - 128) * 64
             + (128 + cp mod 64 - 128)) with cp by divmod.
    replace (65536 <=? cp) with true by lia.
    replace (cp <=? 1114111) with true by lia.
    cbn [andb negb mbind option_bind]. reflexivity.
Qed.

Lemma unreserved_range (c : Z) :
  unreserved c = true -> 32 < c < 127 /\ c <> 37.
Proof.
  unfold unreserved, reserved, unescaped.
  rewrite !orb_true_iff, !andb_true_iff. lia.
Qed.

Lemma not_unreserved_reserved (c : Z) :
  unreserved c = false -> reserved c = false.
Proof. unfold unreserved. by intros [? _]%orb_false_iff. Qed.

Lemma percent_octet_printable (b : Z) :
  0 <= b < 256 -> Forall (fun c => 32 < c) (percent_octet b).
Proof.
  intros Hb. rewrite percent_octet_eq.
  pose proof (hex_digit_range (b / 16) ltac:(divmod)).
  pose proof (hex_digit_range (b mod 16) ltac:(divmod)).
  repeat constructor; lia.
Qed.

Lemma percent_encode_printable (cp : Z) :
  0 <= cp <= 1114111 -> Forall (fun c => 32 < c) (percent_encode cp).
Proof.
  intros Hcp. unfold percent_encode, utf8_octets.
  destruct (Z.ltb_spec cp 128) as [H1|H1];
    [|destruct (Z.ltb_spec cp 2048) as [H2|H2];
      [|destruct (Z.ltb_spec cp 65536) as [H3|H3]]];
    cbn [map concat]; rewrite app_nil_r;
    repeat (apply Forall_app; split); apply percent_octet_printable; divmod.
Qed.

(** Encoding a well-formed string succeeds; the result has no control
    character and no space, and the replacement followed by the decoder
    gives the string back. *)
Lemma encodeURI_round_trip (s : jstring) :
  well_formed_utf16 s = true ->
  exists e,
    encodeURI s = Some e
    /\ decodeURI (replace_pct20 e) = Some s
    /\ Forall (fun c => 32 < c) e.
Proof.
  remember (length s) as n eqn:Hn.
  assert (length s <= n)%nat as Hlen by lia. clear Hn.
  revert s Hlen. induction n as [|n IH]; intros s Hlen Hwf.
  { destruct s; [|simpl in Hlen; lia]. by exists []. }
  destruct s as [|c rest]; [by exists []|].
  cbn [well_formed_utf16] in Hwf. cbn [length] in Hlen.
  apply andb_true_iff in Hwf as [Hrange Hwf].
  apply andb_true_iff in Hrange as [Hlo%Z.leb_le Hhi%Z.ltb_lt].
  cbn [encodeURI].
  destruct (unreserved c) eqn:Hun.
  - (* copied unchanged *)
    apply unreserved_range in Hun as [Hc Hpct].
    unfold high_surrogate in Hwf.
    replace ((55296 <=? c) && (c <=? 56319)) with false in Hwf by lia.
    apply andb_true_iff in Hwf as [_ Hwf].
    destruct (IH rest ltac:(lia) Hwf) as (e & -> & Hdec & Hpr).
    exists (c :: e). split; [done|]. split.
    + rewrite replace_pct20_other, decodeURI_plain by done.
      by rewrite Hdec.
    + constructor; [lia|done].
  - apply not_unreserved_reserved in Hun.
    destruct (high_surrogate c) eqn:Hhigh.
    + (* a surrogate pair *)
      destruct rest as [|c2 rest']; [done|].
      apply andb_true_iff in Hwf as [Hlow Hwf]. rewrite Hlow.
      cbn [length] in Hlen.
      destruct (IH rest' ltac:(lia) Hwf) as (e & -> & Hdec & Hpr).
      eexists. split; [reflexivity|].
      unfold high_surrogate in Hhigh. unfold low_surrogate in Hlow.
      apply andb_true_iff in Hhigh as [?%Z.leb_le ?%Z.leb_le].
      apply andb_true_iff in Hlow as [?%Z.leb_le ?%Z.leb_le].
      set (cp := (c - 55296) * 1024 + (c2 - 56320) + 65536).
      assert (65536 <= cp <= 1114111) as Hcp by (unfold cp; lia).
      split.
      * rewrite escape_round_trip; [|lia|lia|].
        2:{ unfold reserved. rewrite !orb_false_iff. lia. }
        rewrite Hdec. cbn [mbind option_bind]. unfold utf16_encode.
        replace (cp <? 65536) with false by lia.
        replace (55296 + (cp - 65536) / 1024) with c by (unfold cp; divmod).
        replace (56320 + (cp - 65536) mod 1024) with c2
          by (unfold cp; divmod).
        reflexivity.
      * apply Forall_app. split; [|done].
        apply percent_encode_printable. lia.
    + (* any other code unit *)
      apply andb_true_iff in Hwf as [Hlow%negb_true_iff Hwf].
      rewrite Hlow.
      destruct (IH rest ltac:(lia) Hwf) as (e & -> & Hdec & Hpr).
      eexists. split; [reflexivity|].
      unfold high_surrogate in Hhigh. unfold low_surrogate in Hlow.
      split.
      * rewrite escape_round_trip; [|lia|lia|done].
        rewrite Hdec. cbn [mbind option_bind]. unfold utf16_encode.
        by replace (c <? 65536) with true by lia.
      * apply Forall_app. split; [|done].
        apply percent_encode_printable. lia.
Qed.

(** On an ill-formed string [encodeURI] throws. *)
Lemma encodeURI_ill_formed (s : jstring) :
  Forall code_unit s -> well_formed_utf16 s = false -> encodeURI s = None.
Proof.
  remember (length s) as n eqn:Hn.
  assert (length s <= n)%nat as Hlen by lia. clear Hn.
  revert s Hlen. induction n as [|n IH]; intros s Hlen Hcu Hwf.
  { destruct s; [done|simpl in Hlen; lia]. }
  destruct s as [|c rest]; [done|].
  cbn [well_formed_utf16] in Hwf. cbn [length] in Hlen.
  apply Forall_cons in Hcu as [[Hlo Hhi] Hcu].
  replace ((0 <=? c) && (c <? 65536)) with true in Hwf by lia.
  cbn [andb] in Hwf. cbn [encodeURI].
  destruct (unreserved c) eqn:Hun.
  - apply unreserved_range in Hun as [Hc Hpct].
    unfold high_surrogate, low_surrogate in Hwf.
    replace ((55296 <=? c) && (c <=? 56319)) with false in Hwf by lia.
    replace ((56320 <=? c) && (c <=? 57343)) with false in Hwf by lia.
    cbn [negb andb] in Hwf. by rewrite (IH rest ltac:(lia) Hcu Hwf).
  - destruct (high_surrogate c) eqn:Hhigh.
    + destruct rest as [|c2 rest']; [done|].
      destruct (low_surrogate c2); [|done]. cbn [andb] in Hwf.
      apply Forall_cons in Hcu as [_ Hcu]. cbn [length] in Hlen.
      by rewrite (IH rest' ltac:(lia) Hcu Hwf).
    + destruct (low_surrogate c); [done|]. cbn [negb andb] in Hwf.
      by rewrite (IH rest ltac:(lia) Hcu Hwf).
Qed.

End URIRoundTrip.

(** ** Decimal numbers *)

Lemma digits_S (fuel : nat) (n : Z) (acc : jstring) :
  digits (S fuel) n acc
  = if n <? 10 then (48 + n mod 10) :: acc
    else digits fuel (n / 10) ((48 + n mod 10) :: acc).
Proof. reflexivity. Qed.

(** With enough fuel, [digits] puts a non-empty run of decimal digits in
    front of the accumulator, and [read_digits] reads the number back. *)
Lemma digits_spec (fuel : nat) (n : Z) (acc : jstring) :
  0 <= n < 2 ^ Z.of_nat (S fuel) ->
  exists ds,
    digits (S fuel) n acc = ds ++ acc
    /\ ds <> []
    /\ Forall (fun c => is_digit c = true) ds
    /\ forall rest a k,
         read_digits (ds ++ rest) a k
         = read_digits rest (a * 10 ^ len ds + n) (k + length ds).
Proof.
  revert n acc. induction fuel as [|fuel IH]; intros n acc Hn.
  - exists [48 + n mod 10]. rewrite digits_S.
    change (2 ^ Z.of_nat 1) with 2 in Hn.
    replace (n <? 10) with true by lia.
    assert (is_digit (48 + n mod 10) = true) as Hd.
    { unfold is_digit. apply andb_true_intro.
      split; Z.div_mod_to_equations; lia. }
    split_and!; try done.
    + by repeat constructor.
    + intros rest a k. cbn [app read_digits]. rewrite Hd.
      f_equal; [|simpl; lia].
      change (len [48 + n mod 10]) with 1.
      Z.div_mod_to_equations. lia.
  - rewrite digits_S.
    assert (is_digit (48 + n mod 10) = true) as Hd.
    { unfold is_digit. apply andb_true_intro.
      split; Z.div_mod_to_equations; lia. }
    destruct (Z.ltb_spec n 10) as [Hsmall|Hbig].
    + exists [48 + n mod 10]. split_and!; try done.
      * by repeat constructor.
      * intros rest a k. cbn [app read_digits]. rewrite Hd.
        f_equal; [|simpl; lia].
        change (len [48 + n mod 10]) with 1.
        Z.div_mod_to_equations. lia.
    + destruct (IH (n / 10) ((48 + n mod 10) :: acc))
        as (ds & Heq & Hne & Hds & Hread).
      { rewrite Nat2Z.inj_succ, Z.pow_succ_r in Hn by lia.
        Z.div_mod_to_equations. lia. }
      exists (ds ++ [48 + n mod 10]). split_and!.
      * by rewrite Heq, <- app_assoc.
      * by destruct ds.
      * apply Forall_app. split; [done|]. by repeat constructor.
      * intros rest a k. rewrite <- app_assoc, Hread.
        cbn [app read_digits]. rewrite Hd.
        rewrite len_app, length_app.
        change (len [48 + n mod 10]) with 1.
        rewrite Z.pow_add_r by (pose proof (len_nonneg ds); lia).
        f_equal; [|simpl; lia].
        Z.div_mod_to_equations. lia.
Qed.

Lemma show_int_spec (n : Z) :
  0 <= n ->
  show_int n <> []
  /\ Forall (fun c => is_digit c = true) (show_int n)
  /\ parseInt (show_int n) = Some n.
Proof.
  intros Hn. unfold show_int. replace (n <? 0) with false by lia.
  destruct (digits_spec (Z.to_nat (Z.log2 n)) n []) as (ds & -> & Hne & Hds & Hread).
  { split; [done|]. rewrite Nat2Z.inj_succ, Z2Nat.id by apply Z.log2_nonneg.
    destruct (Z.eq_dec n 0) as [->|]; [done|].
    apply Z.log2_spec. lia. }
  rewrite app_nil_r. split_and!; try done.
  unfold parseInt. destruct ds as [|c ds]; [done|].
  apply Forall_cons in Hds as Hc. destruct Hc as [Hc _].
  unfold is_digit in Hc. apply andb_true_iff in Hc as [?%Z.leb_le ?%Z.leb_le].
  assert (whitespace c = false) as Hws.
  { unfold whitespace. rewrite !orb_false_iff, !andb_false_iff. lia. }
  cbn [trim_start]. rewrite Hws.
  assert (c <> 45 /\ c <> 43) as [H45 H43] by lia.
  specialize (Hread [] 0 0%nat). rewrite app_nil_r in Hread.
  assert ((let '(sign, s) :=
             match c :: ds with
             | 45 :: rest => (-1, rest)
             | 43 :: rest => (1, rest)
             | _ => (1, c :: ds)
             end in
           let '(v, count) := read_digits s 0 0 in
           match count with O => None | S _ => Some (sign * v) end)
          = Some n) as Hgoal; [|exact Hgoal].
  replace (match c :: ds with
           | 45 :: rest => (-1, rest)
           | 43 :: rest => (1, rest)
           | _ => (1, c :: ds)
           end) with (1, c :: ds).
  2:{ destruct c as [|p|p]; try done.
      do 7 (destruct p as [p|p|]; try done). }
  rewrite Hread. cbn [read_digits]. simpl (0%nat + _)%nat.
  f_equal. lia.
Qed.

(** ** [replace], [join] and [split] *)

(** The replacement never spans a separator that is none of ["%"], ["2"]
    and ["0"]. *)
Lemma replace_pct20_app_sep (sep : Z) (a b : jstring) :
  sep <> 37 -> sep <> 50 -> sep <> 48 ->
  replace_pct20 (a ++ sep :: b) = replace_pct20 a ++ sep :: replace_pct20 b.
Proof.
  intros H37 H50 H48.
  remember (length a) as n eqn:Hn.
  assert (length a <= n)%nat as Hlen by lia. clear Hn.
  revert a Hlen. induction n as [|n IH]; intros a Hlen.
  { destruct a; [|simpl in Hlen; lia]. by apply replace_pct20_other. }
  destruct a as [|c [|c1 [|c2 a]]].
  - by apply replace_pct20_other.
  - cbn [app]. destruct b as [|c2 b].
    + reflexivity.
    + rewrite replace_pct20_step.
      replace (sep =? 50) with false by lia.
      rewrite andb_false_r. cbn [andb].
      by rewrite (replace_pct20_other sep).
  - cbn [app]. rewrite replace_pct20_step.
    replace (sep =? 48) with false by lia. rewrite andb_false_r.
    change (c1 :: sep :: b) with ([c1] ++ sep :: b).
    rewrite (IH [c1]) by (simpl in *; lia). reflexivity.
  - cbn [app]. rewrite !replace_pct20_step.
    destruct ((c =? 37) && (c1 =? 50) && (c2 =? 48)).
    + rewrite IH by (simpl in *; lia). reflexivity.
    + change (c1 :: c2 :: a ++ sep :: b) with ((c1 :: c2 :: a) ++ sep :: b).
      rewrite (IH (c1 :: c2 :: a)) by (simpl in *; lia). reflexivity.
Qed.

Lemma replace_pct20_id (s : jstring) :
  Forall (fun c => c <> 37) s -> replace_pct20 s = s.
Proof.
  induction 1 as [|c s Hc _ IH]; [done|].
  by rewrite replace_pct20_other, IH.
Qed.

Lemma replace_pct20_join (ts : list jstring) :
  replace_pct20 (join [9] ts) = join [9] (map replace_pct20 ts).
Proof.
  induction ts as [|t ts IH]; [done|].
  destruct ts as [|t' ts]; [done|].
  change (join [9] (t :: t' :: ts)) with (t ++ [9] ++ join [9] (t' :: ts)).
  change (join [9] (map replace_pct20 (t :: t' :: ts)))
    with (replace_pct20 t ++ [9] ++ join [9] (map replace_pct20 (t' :: ts))).
  cbn [app]. by rewrite replace_pct20_app_sep, IH.
Qed.

(** The replacement keeps every character at or above the space. *)
Lemma replace_pct20_printable (s : jstring) :
  Forall (fun c => 32 <= c) s -> Forall (fun c => 32 <= c) (replace_pct20 s).
Proof.
  remember (length s) as n eqn:Hn.
  assert (length s <= n)%nat as Hlen by lia. clear Hn.
  revert s Hlen. induction n as [|n IH]; intros s Hlen Hs.
  { by destruct s; [|simpl in Hlen; lia]. }
  destruct s as [|c [|c1 [|c2 s]]]; try done.
  apply Forall_cons in Hs as [? Hs]. cbn [length] in Hlen.
  rewrite replace_pct20_step.
  destruct ((c =? 37) && (c1 =? 50) && (c2 =? 48)).
  - constructor; [lia|]. apply IH; [simpl; lia|].
    apply Forall_cons in Hs as [_ Hs]. by apply Forall_cons in Hs as [_ Hs].
  - constructor; [done|]. apply IH; [simpl; lia|done].
Qed.

Lemma split_no_sep (sep : Z) (s : jstring) :
  Forall (fun c => c <> sep) s -> split sep s = [s].
Proof.
  induction 1 as [|c s Hc _ IH]; [done|].
  cbn [split]. replace (c =? sep) with false by lia. by rewrite IH.
Qed.

Lemma split_app_sep (sep : Z) (a b : jstring) :
  Forall (fun c => c <> sep) a ->
  split sep (a ++ sep :: b) = a :: split sep b.
Proof.
  induction 1 as [|c s Hc _ IH].
  - cbn [app split]. by rewrite Z.eqb_refl.
  - cbn [app split]. replace (c =? sep) with false by lia. by rewrite IH.
Qed.

Lemma split_join (sep : Z) (ts : list jstring) :
  ts <> [] ->
  Forall (Forall (fun c => c <> sep)) ts ->
  split sep (join [sep] ts) = ts.
Proof.
  intros Hne Hts. induction Hts as [|t ts Ht Hts IH]; [done|].
  destruct ts as [|t' ts]; [by apply split_no_sep|].
  change (join [sep] (t :: t' :: ts))
    with (t ++ sep :: join [sep] (t' :: ts)).
  rewrite split_app_sep by done. f_equal. by apply IH.
Qed.

(** ** The delta round trip *)

Lemma fromDelta_loop_insert text1 param rest diffs pointer :
  fromDelta_loop text1 ((43 :: param) :: rest) diffs pointer
  = match URI.decodeURI param with
    | Some t =>
        fromDelta_loop text1 rest (diffs ++ [mkDiff DIFF_INSERT t]) pointer
    | None => Throw (IllegalEscape param)
    end.
Proof.
  change (fromDelta_loop text1 ((43 :: param) :: rest) diffs pointer)
    with (match URI.decodeURI (substring_from (43 :: param) 1) with
          | Some t =>
              fromDelta_loop text1 rest (diffs ++ [mkDiff DIFF_INSERT t])
                pointer
          | None => Throw (IllegalEscape (substring_from (43 :: param) 1))
          end).
  by rewrite !substring_from_1_cons.
Qed.

Lemma charAt_0_cons (c : Z) (s : jstring) : charAt (c :: s) 0 = [c].
Proof.
  unfold charAt. rewrite len_cons. pose proof (len_nonneg s).
  by replace ((0 <=? 0) && (0 <? len s + 1)) with true by lia.
Qed.

Lemma fromDelta_loop_number text1 (is_equal : bool) param rest diffs pointer n :
  parseInt param = Some n -> 0 <= n ->
  fromDelta_loop text1 (((if is_equal then 61 else 45) :: param) :: rest)
    diffs pointer
  = fromDelta_loop text1 rest
      (diffs ++ [mkDiff (if is_equal then DIFF_EQUAL else DIFF_DELETE)
                   (substring text1 pointer (pointer + n))])
      (pointer + n).
Proof.
  intros Hparse Hn.
  destruct is_equal.
  - change (fromDelta_loop text1 ((61 :: param) :: rest) diffs pointer)
      with (match parseInt (substring_from (61 :: param) 1) with
            | Some n =>
                if n <? 0
                then Throw (InvalidNumber (substring_from (61 :: param) 1))
                else fromDelta_loop text1 rest
                       (diffs ++ [mkDiff
                          (if str_eqb (charAt (61 :: param) 0) [61]
                           then DIFF_EQUAL else DIFF_DELETE)
                          (substring text1 pointer (pointer + n))])
                       (pointer + n)
            | None => Throw (InvalidNumber (substring_from (61 :: param) 1))
            end).
    rewrite !substring_from_1_cons, Hparse, charAt_0_cons.
    by replace (n <? 0) with false by lia.
  - change (fromDelta_loop text1 ((45 :: param) :: rest) diffs pointer)
      with (match parseInt (substring_from (45 :: param) 1) with
            | Some n =>
                if n <? 0
                then Throw (InvalidNumber (substring_from (45 :: param) 1))
                else fromDelta_loop text1 rest
                       (diffs ++ [mkDiff
                          (if str_eqb (charAt (45 :: param) 0) [61]
                           then DIFF_EQUAL else DIFF_DELETE)
                          (substring text1 pointer (pointer + n))])
                       (pointer + n)
            | None => Throw (InvalidNumber (substring_from (45 :: param) 1))
            end).
    rewrite !substring_from_1_cons, Hparse, charAt_0_cons.
    by replace (n <? 0) with false by lia.
Qed.

Lemma substring_middle (pre t post : jstring) :
  substring (pre ++ t ++ post) (len pre) (len pre + len t) = t.
Proof.
  pose proof (len_nonneg pre). pose proof (len_nonneg t).
  pose proof (len_nonneg post).
  rewrite substring_in by (rewrite ?len_app; lia).
  replace (Z.to_nat (len pre)) with (length pre) by (unfold len; lia).
  rewrite drop_app_length.
  replace (Z.to_nat (len pre + len t - len pre)) with (length t)
    by (unfold len; lia).
  by rewrite take_app_length.
Qed.

Lemma is_digit_range (c : Z) : is_digit c = true -> 48 <= c <= 57.
Proof. unfold is_digit. intros [?%Z.leb_le ?%Z.leb_le]%andb_true_iff. lia. Qed.

(** What the decoder needs to know about the token of one diff. *)
Lemma delta_token_spec (d : Diff) :
  (d_op d = DIFF_INSERT -> well_formed_utf16 (d_text d) = true) ->
  exists t,
    delta_token d = Ok t
    /\ Forall (fun c => c <> 9) (replace_pct20 t)
    /\ forall pre post rest acc,
         fromDelta_loop (pre ++ diffText1 [d] ++ post)
           (replace_pct20 t :: rest) acc (len pre)
         = fromDelta_loop (pre ++ diffText1 [d] ++ post) rest (acc ++ [d])
             (len pre + len (diffText1 [d])).
Proof.
  destruct d as [op text]. cbn [d_op d_text]. intros Hwf.
  unfold delta_token. cbn [d_op d_text]. rewrite diffText1_single.
  cbn [d_op d_text].
  pose proof (show_int_spec (len text) (len_nonneg text))
    as (Hne & Hdigits & Hparse).
  assert (Forall (fun c => c <> 37) (show_int (len text))) as Hno37.
  { eapply Forall_impl; [exact Hdigits|].
    intros c Hc%is_digit_range. simpl. lia. }
  assert (Forall (fun c => c <> 9) (show_int (len text))) as Hno9.
  { eapply Forall_impl; [exact Hdigits|].
    intros c Hc%is_digit_range. simpl. lia. }
  destruct op.
  - (* deletion *)
    eexists. split; [reflexivity|].
    rewrite replace_pct20_other, replace_pct20_id by done.
    split; [by constructor|].
    intros pre post rest acc. simpl (op_eqb _ _). cbv iota.
    rewrite (fromDelta_loop_number _ false _ _ _ _ (len text))
      by (done || apply len_nonneg).
    by rewrite substring_middle.
  - (* insertion *)
    destruct (URIRoundTrip.encodeURI_round_trip text (Hwf eq_refl))
      as (e & -> & Hdec & Hpr).
    eexists. split; [reflexivity|].
    rewrite replace_pct20_other by done.
    split.
    + constructor; [done|].
      eapply Forall_impl.
      * apply replace_pct20_printable.
        eapply Forall_impl; [exact Hpr|]. intros c ?. simpl in *. lia.
      * intros c ?. simpl in *. lia.
    + intros pre post rest acc. simpl (op_eqb _ _). cbv iota.
      rewrite fromDelta_loop_insert, Hdec.
      change (len (@nil Z)) with 0. by rewrite Z.add_0_r.
  - (* equality *)
    eexists. split; [reflexivity|].
    rewrite replace_pct20_other, replace_pct20_id by done.
    split; [by constructor|].
    intros pre post rest acc. simpl (op_eqb _ _). cbv iota.
    rewrite (fromDelta_loop_number _ true _ _ _ _ (len text))
      by (done || apply len_nonneg).
    by rewrite substring_middle.
Qed.

Lemma insertions_well_formed_Forall (diffs : list Diff) :
  insertions_well_formed diffs = true ->
  Forall (fun d => d_op d = DIFF_INSERT -> well_formed_utf16 (d_text d) = true)
    diffs.
Proof.
  induction diffs as [|d diffs IH]; [done|].
  cbn [insertions_well_formed forallb].
  intros [Hd Hrest]%andb_true_iff. constructor; [|by apply IH].
  intros Hop. rewrite Hop in Hd. exact Hd.
Qed.

Lemma delta_tokens_spec (diffs : list Diff) :
  insertions_well_formed diffs = true ->
  exists ts,
    delta_tokens diffs = Ok ts
    /\ length ts = length diffs
    /\ Forall (Forall (fun c => c <> 9)) (map replace_pct20 ts)
    /\ forall pre acc,
         fromDelta_loop (pre ++ diffText1 diffs) (map replace_pct20 ts) acc
           (len pre)
         = Ok (acc ++ diffs, len (pre ++ diffText1 diffs)).
Proof.
  intros Hwf%insertions_well_formed_Forall.
  induction Hwf as [|d diffs Hd _ (ts & Hts & Hlen & Hno9 & Hloop)].
  - exists []. split_and!; try done.
    intros pre acc. cbn [map fromDelta_loop]. by rewrite !app_nil_r.
  - destruct (delta_token_spec d Hd) as (t & Ht & Hno9' & Hstep).
    exists (t :: ts). cbn [delta_tokens]. rewrite Ht, Hts.
    split_and!; try done.
    + simpl. by rewrite Hlen.
    + by constructor.
    + intros pre acc. cbn [map].
      change (d :: diffs) with ([d] ++ diffs) at 1 3.
      rewrite diffText1_app.
      rewrite Hstep. rewrite <- len_app.
      rewrite (app_assoc pre). rewrite Hloop.
      by rewrite <- !app_assoc.
Qed.

(** C4 as claimed fails: [diffMain] on two emoji that share their high
    surrogate returns a cleaned script whose insertion is a lone low
    surrogate, and [diffToDelta] throws a [URIError] on it. *)
Lemma C4_counterexample :
  diffMain default_config wall_clock c4_text1 c4_text2 None = Some c4_script
  /\ cleaned c4_script
  /\ diffToDelta c4_script = Throw URIError.
Proof. split_and!; by vm_compute. Qed.

(** C4, amended.  For every script whose insertions are well-formed
    UTF-16 (cleaned or not), [diffToDelta] returns a delta and
    [diffFromDelta] on the script's source text and that delta returns the
    script itself. *)
Theorem C4_delta_round_trip (diffs : list Diff) :
  insertions_well_formed diffs = true ->
  exists delta,
    diffToDelta diffs = Ok delta
    /\ diffFromDelta (diffText1 diffs) delta = Ok diffs.
Proof.
  intros Hwf.
  destruct (delta_tokens_spec diffs Hwf) as (ts & Hts & Hlen & Hno9 & Hloop).
  unfold diffToDelta. rewrite Hts. eexists. split; [reflexivity|].
  unfold diffFromDelta. rewrite replace_pct20_join.
  specialize (Hloop [] []). cbn [app] in Hloop.
  change (len (@nil Z)) with 0 in Hloop.
  destruct diffs as [|d diffs].
  - destruct ts; [|done]. reflexivity.
  - rewrite split_join; [|by destruct ts|done].
    rewrite Hloop. cbn [mbind Result_bind rbind snd fst].
    by rewrite Z.eqb_refl.
Qed.

Lemma C4_delta_round_trip_witness :
  exists delta,
    diffToDelta c4_good_script = Ok delta
    /\ diffFromDelta (diffText1 c4_good_script) delta = Ok c4_good_script.
Proof. apply (C4_delta_round_trip c4_good_script). reflexivity. Defined.

(** ** The patch text format *)

Lemma show_int_read (n : Z) :
  0 <= n -> read_digits (show_int n) 0 0 = (n, length (show_int n)).
Proof.
  intros Hn. unfold show_int. replace (n <? 0) with false by lia.
  destruct (digits_spec (Z.to_nat (Z.log2 n)) n [])
    as (ds & -> & Hne & Hds & Hread).
  { split; [done|]. rewrite Nat2Z.inj_succ, Z2Nat.id by apply Z.log2_nonneg.
    destruct (Z.eq_dec n 0) as [->|]; [done|].
    apply Z.log2_spec. lia. }
  specialize (Hread [] 0 0%nat). rewrite !app_nil_r in *.
  rewrite Hread. cbn [read_digits]. f_equal.
Qed.

Lemma show_int_zero (n : Z) : 0 <= n -> show_int n = [48] -> n = 0.
Proof.
  intros Hn Heq. pose proof (show_int_read n Hn) as Hread.
  rewrite Heq in Hread. by injection Hread as <-.
Qed.

Lemma span_digits_app (ds rest : jstring) :
  Forall (fun c => is_digit c = true) ds ->
  match rest with [] => True | c :: _ => is_digit c = false end ->
  span_digits (ds ++ rest) = (ds, rest).
Proof.
  intros Hds Hrest. induction Hds as [|c ds Hc _ IH].
  - destruct rest as [|c rest]; [done|]. cbn [app span_digits]. by rewrite Hrest.
  - cbn [app span_digits]. by rewrite Hc, IH.
Qed.

Lemma starts_with_app (lit s : jstring) : starts_with lit (lit ++ s) = true.
Proof.
  induction lit as [|c lit IH]; [done|].
  cbn [app starts_with]. by rewrite Z.eqb_refl.
Qed.

Lemma expect_app (lit s : jstring) : expect lit (lit ++ s) = Some s.
Proof. unfold expect. by rewrite starts_with_app, drop_app_length. Qed.

(** Reading back one coordinate pair of a header; the text that follows
    it starts with a space. *)
Lemma coords_parse (st l : Z) (rest : jstring) :
  0 <= st -> 0 <= l ->
  exists m1 m2 s1,
    span_digits (coords (Some st) l ++ 32 :: rest) = (m1, s1)
    /\ truthy m1 = true
    /\ span_digits (optional_comma s1) = (m2, 32 :: rest)
    /\ header_coords m1 m2 = (Some st, l).
Proof.
  intros Hst Hl. unfold coords, show_start, num. cbn [default].
  pose proof (show_int_spec st Hst) as (Hne0 & Hdig0 & _).
  pose proof (show_int_spec (st + 1) ltac:(lia)) as (Hne1 & Hdig1 & _).
  pose proof (show_int_spec l Hl) as (Hnel & Hdigl & _).
  destruct (Z.eqb_spec l 0) as [->|Hl0];
    [|destruct (Z.eqb_spec l 1) as [->|Hl1]].
  - exists (show_int st), [48], (44 :: 48 :: 32 :: rest).
    rewrite <- app_assoc. split_and!.
    + by apply span_digits_app.
    + by destruct (show_int st).
    + reflexivity.
    + unfold header_coords. rewrite show_int_read by done. reflexivity.
  - exists (show_int (st + 1)), [], (32 :: rest). split_and!.
    + by apply span_digits_app.
    + by destruct (show_int (st + 1)).
    + reflexivity.
    + unfold header_coords. rewrite show_int_read by lia.
      cbn [fst]. simpl. do 2 f_equal. lia.
  - exists (show_int (st + 1)), (show_int l),
      (44 :: show_int l ++ 32 :: rest).
    rewrite <- !app_assoc. split_and!.
    + by apply span_digits_app.
    + by destruct (show_int (st + 1)).
    + cbn [optional_comma]. by apply span_digits_app.
    + unfold header_coords. rewrite !show_int_read by lia. cbn [fst].
      assert (str_eqb (show_int l) [] = false) as ->
        by by apply str_eqb_neq.
      assert (str_eqb (show_int l) (str "0") = false) as ->.
      { apply str_eqb_neq. intros Heq. apply show_int_zero in Heq; lia. }
      do 2 f_equal. lia.
Qed.

Lemma header_round_trip (st1 st2 l1 l2 : Z) :
  0 <= st1 -> 0 <= st2 -> 0 <= l1 -> 0 <= l2 ->
  exists m,
    match_patchHeader
      (str "@@ -" ++ coords (Some st1) l1 ++ str " +"
         ++ coords (Some st2) l2 ++ str " @@") = Some m
    /\ header_patch m = mkPatch [] (Some st1) (Some st2) l1 l2.
Proof.
  intros H1 H2 H3 H4. unfold match_patchHeader.
  rewrite expect_app. cbn [mbind option_bind].
  change (str " +" ++ coords (Some st2) l2 ++ str " @@")
    with (32 :: ([43] ++ coords (Some st2) l2 ++ str " @@")).
  destruct (coords_parse st1 l1 ([43] ++ coords (Some st2) l2 ++ str " @@")
              H1 H3) as (m1 & m2 & s1 & -> & -> & -> & Hc1).
  cbn [negb].
  change (32 :: [43] ++ coords (Some st2) l2 ++ str " @@")
    with (str " +" ++ coords (Some st2) l2 ++ str " @@").
  rewrite expect_app. cbn [mbind option_bind].
  change (str " @@") with (32 :: [64; 64]).
  destruct (coords_parse st2 l2 [64; 64] H2 H4)
    as (m3 & m4 & s3 & -> & -> & -> & Hc2).
  cbn [negb].
  change (32 :: [64; 64]) with (str " @@" ++ []).
  rewrite expect_app. cbn [mbind option_bind truthy].
  eexists. split; [reflexivity|].
  unfold header_patch. by rewrite Hc1, Hc2.
Qed.

Lemma decodeURI_no_pct (s : jstring) :
  Forall (fun c => c <> 37) s -> URI.decodeURI s = Some s.
Proof.
  induction 1 as [|c s Hc _ IH]; [done|].
  by rewrite URIDecode.decodeURI_plain, IH.
Qed.

Lemma show_int_plain (n : Z) : 0 <= n -> Forall plain (show_int n).
Proof.
  intros Hn. pose proof (show_int_spec n Hn) as (_ & Hdig & _).
  eapply Forall_impl; [exact Hdig|].
  intros c Hc%is_digit_range. unfold plain. lia.
Qed.

Lemma coords_plain (st l : Z) :
  0 <= st -> 0 <= l -> Forall plain (coords (Some st) l).
Proof.
  intros Hst Hl. unfold coords, show_start, num. cbn [default].
  pose proof (show_int_plain st Hst).
  pose proof (show_int_plain (st + 1) ltac:(lia)).
  pose proof (show_int_plain l Hl).
  assert (Forall plain (str ",0")) by (vm_compute str; repeat (apply Forall_cons_2; [unfold plain; lia|]); apply Forall_nil_2).
  assert (Forall plain (str ",")) by (vm_compute str; repeat (apply Forall_cons_2; [unfold plain; lia|]); apply Forall_nil_2).
  destruct (l =? 0); [|destruct (l =? 1)]; rewrite ?Forall_app; auto.
Qed.

Lemma header_line_plain (p : Patch) :
  printable p -> Forall plain (header_line p).
Proof.
  intros (s1 & s2 & Hs1 & Hs2 & ? & ? & ? & ?).
  unfold header_line. rewrite Hs1, Hs2.
  pose proof (coords_plain s1 (p_length1 p) ltac:(lia) ltac:(lia)).
  pose proof (coords_plain s2 (p_length2 p) ltac:(lia) ltac:(lia)).
  assert (Forall plain (str "@@ -")) by (vm_compute str; repeat (apply Forall_cons_2; [unfold plain; lia|]); apply Forall_nil_2).
  assert (Forall plain (str " +")) by (vm_compute str; repeat (apply Forall_cons_2; [unfold plain; lia|]); apply Forall_nil_2).
  assert (Forall plain (str " @@")) by (vm_compute str; repeat (apply Forall_cons_2; [unfold plain; lia|]); apply Forall_nil_2).
  rewrite ?Forall_app. auto.
Qed.

Lemma unlines_cons (l : jstring) (ls : list jstring) :
  unlines (l :: ls) = l ++ 10 :: unlines ls.
Proof. unfold unlines. cbn [map concat]. by rewrite <- app_assoc. Qed.

Lemma unlines_app (a b : list jstring) :
  unlines (a ++ b) = unlines a ++ unlines b.
Proof. unfold unlines. by rewrite map_app, concat_app. Qed.

Lemma split_unlines (lines : list jstring) :
  Forall (Forall (fun c => c <> 10)) lines ->
  split 10 (unlines lines) = lines ++ [[]].
Proof.
  induction 1 as [|l lines Hl _ IH]; [done|].
  rewrite unlines_cons, split_app_sep by done. by rewrite IH.
Qed.

Lemma well_formed_patch_Forall (p : Patch) :
  well_formed_patch p = true ->
  Forall (fun d => well_formed_utf16 (d_text d) = true) (p_diffs p).
Proof.
  unfold well_formed_patch. induction (p_diffs p) as [|d ds IH]; [done|].
  cbn [forallb]. intros [? ?]%andb_true_iff. constructor; auto.
Qed.

(** One body line: no line feed inside, the sign in front, and the text
    back from the decoder. *)
Lemma body_line_spec (d : Diff) :
  well_formed_utf16 (d_text d) = true ->
  exists e,
    URI.encodeURI (d_text d) = Some e
    /\ body_line d = op_char (d_op d) :: replace_pct20 e
    /\ Forall (fun c => c <> 10) (body_line d)
    /\ URI.decodeURI (replace_pct20 e) = Some (d_text d).
Proof.
  intros Hwf.
  destruct (URIRoundTrip.encodeURI_round_trip (d_text d) Hwf)
    as (e & He & Hdec & Hpr).
  exists e. unfold body_line. rewrite He. cbn [default].
  split_and!; try done.
  constructor; [by destruct (d_op d)|].
  eapply Forall_impl.
  - apply replace_pct20_printable.
    eapply Forall_impl; [exact Hpr|]. intros c ?. simpl in *. lia.
  - intros c ?. simpl in *. lia.
Qed.

Lemma patch_body_spec (diffs : list Diff) :
  Forall (fun d => well_formed_utf16 (d_text d) = true) diffs ->
  exists body,
    patch_body diffs = Some body
    /\ replace_pct20 body = unlines (map body_line diffs).
Proof.
  induction 1 as [|d diffs Hd _ (body & Hbody & Hrep)]; [by exists []|].
  destruct (body_line_spec d Hd) as (e & He & Hline & _ & _).
  cbn [patch_body]. rewrite He, Hbody. cbn [mbind option_bind].
  eexists. split; [reflexivity|].
  cbn [map]. rewrite unlines_cons, Hline.
  rewrite replace_pct20_other by by destruct (d_op d).
  cbn [app]. by rewrite replace_pct20_app_sep, Hrep.
Qed.

Lemma patch_toString_spec (p : Patch) :
  printable p -> well_formed_patch p = true ->
  patch_toString p = Ok (unlines (patch_lines p)).
Proof.
  intros Hpr Hwf%well_formed_patch_Forall.
  destruct (patch_body_spec (p_diffs p) Hwf) as (body & Hbody & Hrep).
  unfold patch_toString. rewrite Hbody. f_equal.
  unfold patch_lines. rewrite unlines_cons, <- Hrep.
  pose proof (header_line_plain p Hpr) as Hplain.
  rewrite <- (replace_pct20_id (header_line p)).
  2:{ eapply Forall_impl; [exact Hplain|]. by intros c [? ?]. }
  rewrite <- replace_pct20_app_sep by done.
  unfold header_line. by rewrite <- !app_assoc.
Qed.

Lemma printable_of_made (p : Patch) : made p -> printable p.
Proof.
  intros ([H1 H2] & (st & Hs1 & Hs2 & Hst) & _).
  exists st, st. rewrite H1, H2. split_and!; try done; apply len_nonneg.
Qed.

Lemma patchToText_spec (patches : list Patch) :
  Forall printable patches -> well_formed_patches patches = true ->
  patchToText patches = Ok (unlines (concat (map patch_lines patches))).
Proof.
  induction 1 as [|p patches Hp _ IH]; [done|].
  cbn [well_formed_patches forallb]. intros [Hwf Hrest]%andb_true_iff.
  cbn [patchToText]. rewrite (patch_toString_spec p Hp Hwf), (IH Hrest).
  cbn [map concat]. by rewrite unlines_app.
Qed.

(** *** Reading the lines back *)

Lemma fromText_loop_header (line : jstring) (rest : list jstring)
    (patches : list Patch) m :
  match_patchHeader line = Some m ->
  fromText_loop (line :: rest) patches None
  = fromText_loop rest patches (Some (header_patch m)).
Proof. intros Hm. cbn [fromText_loop]. by rewrite Hm. Qed.

Lemma fromText_loop_body (d : Diff) (rest : list jstring)
    (patches : list Patch) (patch : Patch) :
  well_formed_utf16 (d_text d) = true ->
  fromText_loop (body_line d :: rest) patches (Some patch)
  = fromText_loop rest patches (Some (push_diff patch d)).
Proof.
  intros Hwf. destruct (body_line_spec d Hwf) as (e & _ & -> & _ & Hdec).
  cbn [fromText_loop].
  rewrite charAt_0_cons, substring_from_1_cons, Hdec.
  by destruct d as [[] text].
Qed.

Lemma expect_head (a : Z) (lit s r : jstring) :
  expect (a :: lit) s = Some r -> exists tail, s = a :: tail.
Proof.
  unfold expect. destruct (starts_with (a :: lit) s) eqn:Hs; [|done].
  intros _. destruct s as [|c s]; [done|]. cbn [starts_with] in Hs.
  apply andb_true_iff in Hs as [->%Z.eqb_eq _]. by eexists.
Qed.

Lemma fromText_loop_next (line : jstring) (rest : list jstring)
    (patches : list Patch) (patch : Patch) m :
  Forall plain line ->
  match_patchHeader line = Some m ->
  fromText_loop (line :: rest) patches (Some patch)
  = fromText_loop rest (patches ++ [patch]) (Some (header_patch m)).
Proof.
  intros Hplain Hm.
  assert (exists tail, line = 64 :: tail) as (tail & ->).
  { unfold match_patchHeader in Hm.
    destruct (expect (str "@@ -") line) as [s|] eqn:He; [|done].
    change (str "@@ -") with (64 :: [64; 32; 45]) in He.
    by apply expect_head in He. }
  cbn [fromText_loop].
  rewrite charAt_0_cons, substring_from_1_cons, Hm.
  rewrite decodeURI_no_pct.
  2:{ apply Forall_cons in Hplain as [_ Hplain].
      eapply Forall_impl; [exact Hplain|]. by intros c [? ?]. }
  reflexivity.
Qed.

Lemma fromText_loop_end (patches : list Patch) (patch : Patch) :
  fromText_loop [[]] patches (Some patch) = Ok (patches ++ [patch]).
Proof. reflexivity. Qed.

Lemma fromText_loop_lines (diffs : list Diff) (rest : list jstring)
    (patches : list Patch) (acc : list Diff) s1 s2 l1 l2 :
  Forall (fun d => well_formed_utf16 (d_text d) = true) diffs ->
  fromText_loop (map body_line diffs ++ rest) patches
    (Some (mkPatch acc s1 s2 l1 l2))
  = fromText_loop rest patches (Some (mkPatch (acc ++ diffs) s1 s2 l1 l2)).
Proof.
  intros Hwf. revert acc. induction Hwf as [|d diffs Hd _ IH]; intros acc.
  - by rewrite app_nil_r.
  - cbn [map app]. rewrite fromText_loop_body by done.
    unfold push_diff. cbn [p_diffs p_start1 p_start2 p_length1 p_length2].
    by rewrite IH, <- app_assoc.
Qed.

(** The header of a printable patch, read back. *)
Lemma header_line_spec (p : Patch) :
  printable p ->
  exists m,
    match_patchHeader (header_line p) = Some m
    /\ header_patch m
       = mkPatch [] (p_start1 p) (p_start2 p) (p_length1 p) (p_length2 p).
Proof.
  intros (s1 & s2 & Hs1 & Hs2 & ? & ? & ? & ?).
  unfold header_line. rewrite Hs1, Hs2. by apply header_round_trip.
Qed.

Lemma fromText_loop_patches (ps : list Patch) (patches : list Patch)
    (patch : Patch) :
  Forall printable ps -> well_formed_patches ps = true ->
  fromText_loop (concat (map patch_lines ps) ++ [[]]) patches (Some patch)
  = Ok (patches ++ patch :: ps).
Proof.
  intros Hpr. revert patches patch.
  induction Hpr as [|p ps Hp _ IH]; intros patches patch Hwf.
  - apply fromText_loop_end.
  - cbn [well_formed_patches forallb] in Hwf.
    apply andb_true_iff in Hwf as [Hwfp Hwf].
    destruct (header_line_spec p Hp) as (m & Hm & Hhp).
    cbn [map concat]. unfold patch_lines at 1. cbn [app].
    rewrite (fromText_loop_next _ _ _ _ m)
      by auto using header_line_plain. rewrite Hhp.
    rewrite <- app_assoc, fromText_loop_lines
      by by apply well_formed_patch_Forall.
    cbn [app]. replace (mkPatch (p_diffs p) (p_start1 p) (p_start2 p)
                          (p_length1 p) (p_length2 p)) with p
      by by destruct p.
    rewrite (IH _ _ Hwf). by rewrite <- app_assoc.
Qed.

(** Printing and re-parsing a list of printable patches with well-formed
    texts is the identity. *)
Lemma patch_text_round_trip (ps : list Patch) :
  Forall printable ps -> well_formed_patches ps = true ->
  exists text, patchToText ps = Ok text /\ patchFromText text = Ok ps.
Proof.
  intros Hpr Hwf. rewrite (patchToText_spec ps Hpr Hwf).
  eexists. split; [reflexivity|].
  destruct Hpr as [|p ps Hp Hps]; [done|].
  unfold patchFromText.
  assert (truthy (unlines (concat (map patch_lines (p :: ps)))) = true) as ->.
  { cbn [map concat]. unfold patch_lines at 1. cbn [app].
    rewrite unlines_cons. unfold header_line. by vm_compute str. }
  cbn [negb].
  rewrite split_unlines.
  2:{ apply Forall_concat, Forall_map.
      assert (Forall printable (p :: ps)) as Hall by by constructor.
      clear Hp Hps.
      induction Hall as [|q qs Hq _ IHq]; [done|].
      cbn [well_formed_patches forallb] in Hwf.
      apply andb_true_iff in Hwf as [Hwfq Hwf].
      constructor; [|by apply IHq].
      unfold patch_lines. constructor.
      - eapply Forall_impl; [exact (header_line_plain q Hq)|].
        by intros c [? ?].
      - apply Forall_map. apply well_formed_patch_Forall in Hwfq.
        eapply Forall_impl; [exact Hwfq|].
        intros d Hd. by destruct (body_line_spec d Hd) as (e & _ & _ & ? & _). }
  cbn [well_formed_patches forallb] in Hwf.
  apply andb_true_iff in Hwf as [Hwfp Hwf].
  destruct (header_line_spec p Hp) as (m & Hm & Hhp).
  cbn [map concat]. unfold patch_lines at 1. cbn [app].
  rewrite (fromText_loop_header _ _ _ m) by done. rewrite Hhp.
  rewrite <- app_assoc, fromText_loop_lines
    by by apply well_formed_patch_Forall.
  cbn [app]. replace (mkPatch (p_diffs p) (p_start1 p) (p_start2 p)
                        (p_length1 p) (p_length2 p)) with p
    by by destruct p.
  by rewrite (fromText_loop_patches ps [] p Hps Hwf).
Qed.

Lemma patchMake_made (cfg : Config) (now : nat -> Z) (a optB optC : Arg)
    (patches : list Patch) :
  0 < patchMargin cfg ->
  patchMake cfg now a optB optC = Some (Ok patches) ->
  Forall made patches.
Proof.
  intros Hmargin Hcall.
  assert (forall text1 diffs,
            patchMake_diffs cfg text1 diffs = Some (Ok patches) ->
            Forall made patches) as Hdet.
  { intros text1 diffs Heq.
    destruct (patchMake_diffs_spec cfg Hmargin text1 diffs)
      as (ps & Hps & Hall).
    congruence. }
  unfold patchMake in Hcall.
  destruct a as [| |text1|diffs], optB as [| |text2|diffs'],
    optC as [| |text3|diffs'']; try discriminate; eauto.
  destruct (diffMain cfg now text1 text2 (Some true)) as [diffs|];
    [|discriminate].
  cbn [mbind option_bind] in Hcall.
  destruct (if 2 <? len diffs then _ else _) as [diffs1|]; [|discriminate].
  cbn [mbind option_bind] in Hcall. eauto.
Qed.

(** C8 as claimed fails: for two well-formed texts, [patchMake] cuts the
    context of its patch in the middle of a surrogate pair, and
    [patchToText] throws a [URIError] on the result. *)
Lemma C8_counterexample :
  well_formed_utf16 c8_text1 = true
  /\ well_formed_utf16 c8_text2 = true
  /\ patchMake default_config wall_clock (AString c8_text1)
       (AString c8_text2) AUndefined = Some (Ok [c8_patch])
  /\ patchToText [c8_patch] = Throw URIError.
Proof. split_and!; by vm_compute. Qed.

(** C8, amended.  With a positive margin, for every list of patches
    returned by [patchMake] (whatever the call shape) in which every diff
    text is well-formed UTF-16, [patchToText] returns a text and
    [patchFromText] on that text returns the same list: the same starts,
    lengths and diffs. *)
Theorem C8_patch_text_round_trip (cfg : Config) (now : nat -> Z)
    (a optB optC : Arg) (patches : list Patch) :
  0 < patchMargin cfg ->
  patchMake cfg now a optB optC = Some (Ok patches) ->
  well_formed_patches patches = true ->
  exists text,
    patchToText patches = Ok text /\ patchFromText text = Ok patches.
Proof.
  intros Hmargin Hcall Hwf.
  apply patch_text_round_trip; [|done].
  eapply Forall_impl; [by eapply patchMake_made|].
  apply printable_of_made.
Qed.

Lemma C8_patch_text_round_trip_witness :
  exists text,
    patchToText c8_good_patches = Ok text
    /\ patchFromText text = Ok c8_good_patches.
Proof.
  apply (C8_patch_text_round_trip default_config wall_clock
           (AString c8_good_text1) (AString c8_good_text2) AUndefined
           c8_good_patches);
    [simpl; lia|by vm_compute|reflexivity].
Defined.

(** ** Reading a script *)

(** Decide the comparisons of two known operations. *)
Ltac op_simpl :=
  change (op_eqb DIFF_DELETE DIFF_DELETE) with true in *;
  change (op_eqb DIFF_DELETE DIFF_INSERT) with false in *;
  change (op_eqb DIFF_DELETE DIFF_EQUAL) with false in *;
  change (op_eqb DIFF_INSERT DIFF_DELETE) with false in *;
  change (op_eqb DIFF_INSERT DIFF_INSERT) with true in *;
  change (op_eqb DIFF_INSERT DIFF_EQUAL) with false in *;
  change (op_eqb DIFF_EQUAL DIFF_DELETE) with false in *;
  change (op_eqb DIFF_EQUAL DIFF_INSERT) with false in *;
  change (op_eqb DIFF_EQUAL DIFF_EQUAL) with true in *;
  cbn [negb] in *; cbv iota in *.

Lemma len1_cons (d : Diff) (ds : list Diff) :
  len (diffText1 (d :: ds))
  = (if op_eqb (d_op d) DIFF_INSERT then 0 else len (d_text d))
    + len (diffText1 ds).
Proof. rewrite diffText1_cons, len_app. by destruct (op_eqb _ _). Qed.

Lemma len2_cons (d : Diff) (ds : list Diff) :
  len (diffText2 (d :: ds))
  = (if op_eqb (d_op d) DIFF_DELETE then 0 else len (d_text d))
    + len (diffText2 ds).
Proof. rewrite diffText2_cons, len_app. by destruct (op_eqb _ _). Qed.

(** *** [diffXIndex] *)

(** No diff of [before] overshoots a location at or beyond its end. *)
Lemma xindex_loop_skip (before rest : list Diff) (loc chars1 chars2 : Z) :
  chars1 + len (diffText1 before) <= loc ->
  xindex_loop (before ++ rest) loc chars1 chars2
  = xindex_loop rest loc (chars1 + len (diffText1 before))
      (chars2 + len (diffText2 before)).
Proof.
  revert chars1 chars2.
  induction before as [|[op t] before IH]; intros chars1 chars2 Hloc.
  - change (len (diffText1 [])) with 0. change (len (diffText2 [])) with 0.
    by rewrite !Z.add_0_r.
  - rewrite len1_cons, len2_cons in *. cbn [app xindex_loop d_op d_text] in *.
    pose proof (len_nonneg t). pose proof (len_nonneg (diffText1 before)).
    destruct op; op_simpl.
    + destruct (Z.ltb_spec loc (chars1 + len t)); [lia|].
      rewrite IH by lia. f_equal; lia.
    + destruct (Z.ltb_spec loc chars1); [lia|].
      rewrite IH by lia. f_equal; lia.
    + destruct (Z.ltb_spec loc (chars1 + len t)); [lia|].
      rewrite IH by lia. f_equal; lia.
Qed.

Lemma xindex_loop_bounds (diffs : list Diff) (loc chars1 chars2 : Z) :
  chars1 <= loc ->
  chars2 <= xindex_loop diffs loc chars1 chars2
  /\ xindex_loop diffs loc chars1 chars2
     <= chars2 + len (diffText2 diffs)
        + Z.max 0 (loc - chars1 - len (diffText1 diffs)).
Proof.
  revert chars1 chars2.
  induction diffs as [|[op t] diffs IH]; intros chars1 chars2 Hloc.
  - cbn [xindex_loop]. change (len (diffText1 [])) with 0.
    change (len (diffText2 [])) with 0. lia.
  - rewrite len1_cons, len2_cons. cbn [xindex_loop d_op d_text].
    pose proof (len_nonneg t). pose proof (len_nonneg (diffText1 diffs)).
    pose proof (len_nonneg (diffText2 diffs)).
    destruct op; op_simpl.
    + destruct (Z.ltb_spec loc (chars1 + len t)); [lia|].
      specialize (IH (chars1 + len t) chars2 ltac:(lia)). lia.
    + destruct (Z.ltb_spec loc chars1); [lia|].
      specialize (IH chars1 (chars2 + len t) ltac:(lia)). lia.
    + destruct (Z.ltb_spec loc (chars1 + len t)); [lia|].
      specialize (IH (chars1 + len t) (chars2 + len t) ltac:(lia)). lia.
Qed.

Lemma xindex_loop_mono (diffs : list Diff) (loc loc' chars1 chars2 : Z) :
  chars1 <= loc -> loc <= loc' ->
  xindex_loop diffs loc chars1 chars2 <= xindex_loop diffs loc' chars1 chars2.
Proof.
  revert chars1 chars2.
  induction diffs as [|[op t] diffs IH]; intros chars1 chars2 H1 Hle.
  - cbn [xindex_loop]. lia.
  - cbn [xindex_loop d_op d_text]. pose proof (len_nonneg t).
    destruct op; op_simpl.
    + destruct (Z.ltb_spec loc (chars1 + len t)),
        (Z.ltb_spec loc' (chars1 + len t)); try lia.
      * pose proof (xindex_loop_bounds diffs loc' (chars1 + len t) chars2
                      ltac:(lia)). lia.
      * apply IH; lia.
    + destruct (Z.ltb_spec loc chars1), (Z.ltb_spec loc' chars1); try lia.
      apply IH; lia.
    + destruct (Z.ltb_spec loc (chars1 + len t)),
        (Z.ltb_spec loc' (chars1 + len t)); try lia.
      * pose proof (xindex_loop_bounds diffs loc' (chars1 + len t)
                      (chars2 + len t) ltac:(lia)). lia.
      * apply IH; lia.
Qed.

(** X1.  [diffXIndex] follows the script: a location [k] characters into
    an equality maps to the location [k] characters into the same equality
    in the second text; a location inside a deletion maps to the place in
    the second text where the deleted text used to be; and the end of the
    first text maps to the end of the second. *)
Theorem X1_diffXIndex_follows_script (before after : list Diff)
    (t : jstring) (k : Z) :
  0 <= k < len t ->
  diffXIndex (before ++ mkDiff DIFF_EQUAL t :: after)
    (len (diffText1 before) + k)
  = len (diffText2 before) + k
  /\ diffXIndex (before ++ mkDiff DIFF_DELETE t :: after)
       (len (diffText1 before) + k)
     = len (diffText2 before)
  /\ diffXIndex (before ++ after) (len (diffText1 (before ++ after)))
     = len (diffText2 (before ++ after)).
Proof.
  intros Hk. unfold diffXIndex. split_and!.
  - rewrite xindex_loop_skip by lia. cbn [xindex_loop d_op d_text].
    op_simpl.
    destruct (Z.ltb_spec (len (diffText1 before) + k)
                (0 + len (diffText1 before) + len t)); lia.
  - rewrite xindex_loop_skip by lia. cbn [xindex_loop d_op d_text].
    op_simpl.
    destruct (Z.ltb_spec (len (diffText1 before) + k)
                (0 + len (diffText1 before) + len t)); lia.
  - rewrite <- (app_nil_r (before ++ after)) at 1.
    rewrite xindex_loop_skip by lia. cbn [xindex_loop]. lia.
Qed.

Lemma X1_diffXIndex_follows_script_witness :
  diffXIndex [mkDiff DIFF_EQUAL (str "a"); mkDiff DIFF_DELETE (str "1234");
              mkDiff DIFF_EQUAL (str "xyz")] 3 = 1.
Proof.
  apply (X1_diffXIndex_follows_script [mkDiff DIFF_EQUAL (str "a")]
           [mkDiff DIFF_EQUAL (str "xyz")] (str "1234") 2).
  vm_compute. split; [discriminate|reflexivity].
Defined.

(** X2.  For locations inside the first text, [diffXIndex] is monotone and
    stays inside the second text. *)
Theorem X2_diffXIndex_monotone (diffs : list Diff) (loc loc' : Z) :
  0 <= loc -> loc <= loc' -> loc' <= len (diffText1 diffs) ->
  0 <= diffXIndex diffs loc
  /\ diffXIndex diffs loc <= diffXIndex diffs loc'
  /\ diffXIndex diffs loc' <= len (diffText2 diffs).
Proof.
  intros H0 Hle Hin. unfold diffXIndex.
  pose proof (xindex_loop_bounds diffs loc 0 0 ltac:(lia)).
  pose proof (xindex_loop_bounds diffs loc' 0 0 ltac:(lia)).
  pose proof (xindex_loop_mono diffs loc loc' 0 0 ltac:(lia) Hle).
  lia.
Qed.

Lemma X2_diffXIndex_monotone_witness :
  0 <= diffXIndex [mkDiff DIFF_DELETE (str "a"); mkDiff DIFF_INSERT (str "1234");
                   mkDiff DIFF_EQUAL (str "xyz")] 1
  /\ diffXIndex [mkDiff DIFF_DELETE (str "a"); mkDiff DIFF_INSERT (str "1234");
                 mkDiff DIFF_EQUAL (str "xyz")] 1
     <= diffXIndex [mkDiff DIFF_DELETE (str "a");
                    mkDiff DIFF_INSERT (str "1234");
                    mkDiff DIFF_EQUAL (str "xyz")] 2
  /\ diffXIndex [mkDiff DIFF_DELETE (str "a"); mkDiff DIFF_INSERT (str "1234");
                 mkDiff DIFF_EQUAL (str "xyz")] 2
     <= len (diffText2 [mkDiff DIFF_DELETE (str "a");
                        mkDiff DIFF_INSERT (str "1234");
                        mkDiff DIFF_EQUAL (str "xyz")]).
Proof.
  apply (X2_diffXIndex_monotone
           [mkDiff DIFF_DELETE (str "a"); mkDiff DIFF_INSERT (str "1234");
            mkDiff DIFF_EQUAL (str "xyz")] 1 2);
    [lia|lia|vm_compute; discriminate].
Defined.

(** *** [diffLevenshtein] *)

Lemma levenshtein_loop_bounds (diffs : list Diff)
    (levenshtein insertions deletions : Z) :
  0 <= insertions -> 0 <= deletions ->
  levenshtein
  + Z.abs (insertions - deletions
           + len (diffText2 diffs) - len (diffText1 diffs))
  <= levenshtein_loop diffs levenshtein insertions deletions
  /\ levenshtein_loop diffs levenshtein insertions deletions
     <= levenshtein + insertions + deletions
        + len (diffText1 diffs) + len (diffText2 diffs).
Proof.
  revert levenshtein insertions deletions.
  induction diffs as [|[op t] diffs IH]; intros lev ins del Hi Hd.
  - cbn [levenshtein_loop]. change (len (diffText1 [])) with 0.
    change (len (diffText2 [])) with 0. lia.
  - rewrite len1_cons, len2_cons. cbn [levenshtein_loop d_op d_text].
    pose proof (len_nonneg t). pose proof (len_nonneg (diffText1 diffs)).
    pose proof (len_nonneg (diffText2 diffs)).
    destruct op; op_simpl.
    + specialize (IH lev ins (del + len t) ltac:(lia) ltac:(lia)). lia.
    + specialize (IH lev (ins + len t) del ltac:(lia) ltac:(lia)). lia.
    + specialize (IH (lev + Z.max ins del) 0 0 ltac:(lia) ltac:(lia)). lia.
Qed.

(** X3.  The distance computed by [diffLevenshtein] is at least the
    difference between the lengths of the two texts of the script and at
    most the sum of these lengths. *)
Theorem X3_diffLevenshtein_bounds (diffs : list Diff) :
  Z.abs (len (diffText2 diffs) - len (diffText1 diffs))
  <= diffLevenshtein diffs
  /\ diffLevenshtein diffs
     <= len (diffText1 diffs) + len (diffText2 diffs).
Proof.
  unfold diffLevenshtein.
  pose proof (levenshtein_loop_bounds diffs 0 0 0 ltac:(lia) ltac:(lia)).
  lia.
Qed.

(** ** Decoding a delta *)

Lemma fromDelta_loop_number_unfold text1 (is_equal : bool) param rest diffs
    pointer :
  fromDelta_loop text1 (((if is_equal then 61 else 45) :: param) :: rest)
    diffs pointer
  = match parseInt param with
    | Some n =>
        if n <? 0 then Throw (InvalidNumber param)
        else
          fromDelta_loop text1 rest
            (diffs ++ [mkDiff (if is_equal then DIFF_EQUAL else DIFF_DELETE)
                         (substring text1 pointer (pointer + n))])
            (pointer + n)
    | None => Throw (InvalidNumber param)
    end.
Proof.
  destruct is_equal.
  - change (fromDelta_loop text1 ((61 :: param) :: rest) diffs pointer)
      with (match parseInt (substring_from (61 :: param) 1) with
            | Some n =>
                if n <? 0
                then Throw (InvalidNumber (substring_from (61 :: param) 1))
                else fromDelta_loop text1 rest
                       (diffs ++ [mkDiff
                          (if str_eqb (charAt (61 :: param) 0) [61]
                           then DIFF_EQUAL else DIFF_DELETE)
                          (substring text1 pointer (pointer + n))])
                       (pointer + n)
            | None => Throw (InvalidNumber (substring_from (61 :: param) 1))
            end).
    by rewrite !substring_from_1_cons, charAt_0_cons.
  - change (fromDelta_loop text1 ((45 :: param) :: rest) diffs pointer)
      with (match parseInt (substring_from (45 :: param) 1) with
            | Some n =>
                if n <? 0
                then Throw (InvalidNumber (substring_from (45 :: param) 1))
                else fromDelta_loop text1 rest
                       (diffs ++ [mkDiff
                          (if str_eqb (charAt (45 :: param) 0) [61]
                           then DIFF_EQUAL else DIFF_DELETE)
                          (substring text1 pointer (pointer + n))])
                       (pointer + n)
            | None => Throw (InvalidNumber (substring_from (45 :: param) 1))
            end).
    by rewrite !substring_from_1_cons, charAt_0_cons.
Qed.

Lemma fromDelta_loop_other text1 c param rest diffs pointer :
  c <> 43 -> c <> 45 -> c <> 61 ->
  fromDelta_loop text1 ((c :: param) :: rest) diffs pointer
  = Throw (InvalidOp (c :: param)).
Proof.
  intros H43 H45 H61.
  destruct c as [|p|p]; [reflexivity| |reflexivity].
  do 6 (destruct p as [p|p|]; try reflexivity); congruence.
Qed.

(** What the loop appends spells the part of [text1] it walked over,
    provided it stopped inside [text1]. *)
Lemma fromDelta_loop_sound text1 tokens :
  forall acc pointer diffs pointer',
    0 <= pointer ->
    fromDelta_loop text1 tokens acc pointer = Ok (diffs, pointer') ->
    pointer <= pointer'
    /\ exists new,
         diffs = acc ++ new
         /\ (pointer' <= len text1 ->
             diffText1 new
             = take (Z.to_nat (pointer' - pointer))
                 (drop (Z.to_nat pointer) text1)).
Proof.
  induction tokens as [|token tokens IH]; intros acc pointer diffs pointer' H0.
  - cbn [fromDelta_loop]. intros [= <- <-]. split; [lia|].
    exists []. rewrite app_nil_r, Z.sub_diag. by split.
  - destruct token as [|c param].
    { cbn [fromDelta_loop]. by apply IH. }
    destruct (Z.eq_dec c 43) as [->|H43].
    { rewrite fromDelta_loop_insert.
      destruct (URI.decodeURI param) as [t|]; [|done].
      intros Hrest. apply IH in Hrest as (Hle & new & -> & Hnew); [|done].
      split; [done|]. exists (mkDiff DIFF_INSERT t :: new).
      split; [by rewrite <- app_assoc|]. intros Hin.
      rewrite diffText1_cons. op_simpl. by apply Hnew. }
    assert (forall is_equal : bool,
              c = (if is_equal then 61 else 45) ->
              fromDelta_loop text1 ((c :: param) :: tokens) acc pointer
              = Ok (diffs, pointer') ->
              pointer <= pointer'
              /\ exists new,
                   diffs = acc ++ new
                   /\ (pointer' <= len text1 ->
                       diffText1 new
                       = take (Z.to_nat (pointer' - pointer))
                           (drop (Z.to_nat pointer) text1))) as Hnumber.
    { intros is_equal -> . rewrite fromDelta_loop_number_unfold.
      destruct (parseInt param) as [n|]; [|done].
      destruct (Z.ltb_spec n 0) as [|Hn]; [done|].
      intros Hrest. apply IH in Hrest as (Hle & new & -> & Hnew); [|lia].
      split; [lia|]. eexists (_ :: new).
      split; [by rewrite <- app_assoc|]. intros Hin.
      rewrite diffText1_cons. cbn [d_op d_text].
      replace (if op_eqb (if is_equal then DIFF_EQUAL else DIFF_DELETE)
                    DIFF_INSERT then [] else
                 substring text1 pointer (pointer + n))
        with (substring text1 pointer (pointer + n))
        by by destruct is_equal.
      rewrite Hnew by done. rewrite substring_in by lia.
      replace (Z.to_nat (pointer + n - pointer)) with (Z.to_nat n) by lia.
      replace (Z.to_nat (pointer' - pointer))
        with (Z.to_nat n + Z.to_nat (pointer' - (pointer + n)))%nat by lia.
      rewrite <- take_take_drop, drop_drop.
      by replace (Z.to_nat pointer + Z.to_nat n)%nat
        with (Z.to_nat (pointer + n)) by lia. }
    destruct (Z.eq_dec c 45) as [->|H45]; [by apply (Hnumber false)|].
    destruct (Z.eq_dec c 61) as [->|H61]; [by apply (Hnumber true)|].
    by rewrite fromDelta_loop_other.
Qed.

(** X4.  Whatever delta it is given, a script that [diffFromDelta]
    returns has [text1] as its source text: the lengths of the delta are
    never accepted beyond or short of the end of [text1]. *)
Theorem X4_diffFromDelta_source_text (text1 delta : jstring)
    (diffs : list Diff) :
  diffFromDelta text1 delta = Ok diffs -> diffText1 diffs = text1.
Proof.
  unfold diffFromDelta.
  destruct (fromDelta_loop text1 (split 9 delta) [] 0) as [[ds pointer]|e]
    eqn:Hloop; [|done].
  cbn [mbind Result_bind rbind snd fst].
  destruct (Z.eqb_spec pointer (len text1)) as [->|]; [|done].
  cbn [negb]. intros [= <-].
  apply fromDelta_loop_sound in Hloop as (_ & new & -> & Hnew); [|lia].
  rewrite app_nil_l, Hnew by lia.
  rewrite Z.sub_0_r. change (Z.to_nat 0) with 0%nat. rewrite drop_0.
  apply take_ge. unfold len. lia.
Qed.

Lemma X4_diffFromDelta_source_text_witness :
  diffText1 [mkDiff DIFF_EQUAL (str "jump"); mkDiff DIFF_DELETE (str "s");
             mkDiff DIFF_INSERT (str "ed")]
  = str "jumps".
Proof.
  apply (X4_diffFromDelta_source_text (str "jumps") (str "=4	-1	+ed")).
  reflexivity.
Defined.

(** ** Longest common prefix, suffix and overlap *)

Lemma take_neq_extend (t1 t2 : jstring) (n m : nat) :
  (n <= m)%nat -> take n t1 <> take n t2 -> take m t1 <> take m t2.
Proof.
  intros Hle Hne Heq. apply Hne.
  replace n with (n `min` m)%nat by lia.
  by rewrite <- !take_take, Heq.
Qed.

Lemma take_split_neq (t1 t2 : jstring) (n m : nat) :
  (n <= m)%nat ->
  take (m - n) (drop n t1) <> take (m - n) (drop n t2) ->
  take m t1 <> take m t2.
Proof.
  intros Hle Hne Heq. apply Hne.
  rewrite !take_drop_commute.
  replace (n + (m - n))%nat with m by lia. by rewrite Heq.
Qed.

(** The binary search, once the upper bound is known to be too far. *)
Lemma diffCommonPrefix_loop_longest fuel text1 text2 pmin pmax :
  0 <= pmin -> pmin < pmax ->
  pmax <= len text1 -> pmax <= len text2 ->
  take (Z.to_nat pmin) text1 = take (Z.to_nat pmin) text2 ->
  take (Z.to_nat pmax) text1 <> take (Z.to_nat pmax) text2 ->
  (Z.to_nat (pmax - pmin) + 1 <= fuel)%nat ->
  exists n,
    diffCommonPrefix_loop fuel text1 text2 pmin pmax
      ((pmax - pmin) / 2 + pmin) pmin = Some n
    /\ pmin <= n < pmax
    /\ take (Z.to_nat n) text1 = take (Z.to_nat n) text2
    /\ take (Z.to_nat (n + 1)) text1 <> take (Z.to_nat (n + 1)) text2.
Proof.
  revert pmin pmax.
  induction fuel as [|fuel IH]; intros pmin pmax H0 Hlt H1 H2 Heq Hne Hfuel;
    [lia|].
  cbn [diffCommonPrefix_loop].
  set (pmid := (pmax - pmin) / 2 + pmin).
  assert (pmin <= pmid < pmax) as Hmid
    by (unfold pmid; Z.div_mod_to_equations; lia).
  destruct (Z.ltb_spec pmin pmid) as [Hlo|Hhi].
  2:{ exists pmid.
      assert (pmax = pmin + 1) as Hmax
        by (unfold pmid in *; Z.div_mod_to_equations; lia).
      replace pmid with pmin by lia. rewrite <- Hmax.
      split_and!; try done; lia. }
  destruct (str_eqb _ _) eqn:Hcmp.
  - apply str_eqb_eq in Hcmp. rewrite !substring_in in Hcmp by lia.
    destruct (IH pmid pmax) as (n & -> & ? & ? & ?); try lia.
    + eapply (take_eq_extend _ _ (Z.to_nat pmin)); [lia|done|].
      by replace (Z.to_nat pmid - Z.to_nat pmin)%nat
        with (Z.to_nat (pmid - pmin)) by lia.
    + done.
    + exists n. split_and!; try done; lia.
  - apply str_eqb_neq in Hcmp. rewrite !substring_in in Hcmp by lia.
    destruct (IH pmin pmid) as (n & -> & ? & ? & ?); try lia.
    + done.
    + apply (take_split_neq _ _ (Z.to_nat pmin)); [lia|].
      by replace (Z.to_nat pmid - Z.to_nat pmin)%nat
        with (Z.to_nat (pmid - pmin)) by lia.
    + exists n. split_and!; try done; lia.
Qed.

(** X5.  [diffCommonPrefix] always returns, and what it returns is the
    length of the longest common prefix of its arguments: the two texts
    agree on that many characters and on no longer prefix. *)
Theorem X5_diffCommonPrefix_longest (text1 text2 : jstring) :
  exists n,
    diffCommonPrefix text1 text2 = Some n
    /\ 0 <= n /\ n <= len text1 /\ n <= len text2
    /\ take (Z.to_nat n) text1 = take (Z.to_nat n) text2
    /\ forall m, n < m -> m <= len text1 -> m <= len text2 ->
         take (Z.to_nat m) text1 <> take (Z.to_nat m) text2.
Proof.
  pose proof (len_nonneg text1). pose proof (len_nonneg text2).
  unfold diffCommonPrefix.
  destruct text1 as [|c1 t1].
  { exists 0. cbn [truthy negb orb]. split_and!; try done; try lia.
    intros m ? Hm _. rewrite len_nil in Hm. lia. }
  destruct text2 as [|c2 t2].
  { exists 0. cbn [truthy negb orb]. split_and!; try done; try lia.
    intros m ? _ Hm. rewrite len_nil in Hm. lia. }
  cbn [truthy negb orb]. rewrite !charAt_0_cons.
  destruct (str_eqb [c1] [c2]) eqn:Hfirst; cbn [negb].
  2:{ exists 0. apply str_eqb_neq in Hfirst.
      split_and!; try done; try lia.
      intros m ? _ _. apply (take_neq_extend _ _ 1); [lia|]. done. }
  apply str_eqb_eq in Hfirst. injection Hfirst as <-.
  set (text1 := c1 :: t1) in *. set (text2 := c1 :: t2) in *.
  set (pmax := Z.min (len text1) (len text2)).
  assert (1 <= pmax).
  { unfold pmax, text1, text2. rewrite !len_cons.
    pose proof (len_nonneg t1). pose proof (len_nonneg t2). lia. }
  replace (Z.to_nat pmax + 2)%nat with (S (Z.to_nat pmax + 1)) by lia.
  cbn [diffCommonPrefix_loop].
  replace (0 <? pmax) with true by lia.
  destruct (str_eqb _ _) eqn:Hcmp.
  - (* the shorter text is a prefix of the other *)
    apply str_eqb_eq in Hcmp. rewrite !substring_in in Hcmp by lia.
    rewrite Z.sub_0_r, !drop_0 in Hcmp.
    replace ((pmax - pmax) / 2 + pmax) with pmax by (rewrite Z.sub_diag; reflexivity).
    assert (diffCommonPrefix_loop (Z.to_nat pmax + 1) text1 text2 pmax pmax
              pmax pmax = Some pmax) as ->.
    { replace (Z.to_nat pmax + 1)%nat with (S (Z.to_nat pmax)) by lia.
      cbn [diffCommonPrefix_loop]. by rewrite Z.ltb_irrefl. }
    exists pmax. split_and!; try done; try lia.
  - apply str_eqb_neq in Hcmp. rewrite !substring_in in Hcmp by lia.
    rewrite Z.sub_0_r, !drop_0 in Hcmp.
    destruct (diffCommonPrefix_loop_longest (Z.to_nat pmax + 1) text1 text2
                0 pmax) as (n & Hn & ? & ? & Hstop); try lia; try done.
    rewrite Z.sub_0_r, Z.add_0_r in Hn |- *. rewrite Hn.
    exists n. split_and!; try done; try lia.
    intros m ? _ _. apply (take_neq_extend _ _ (Z.to_nat (n + 1))); [lia|done].
Qed.

Lemma drop_neq_extend (t1 t2 : jstring) (n m : nat) :
  (n <= m)%nat -> (m <= length t1)%nat -> (m <= length t2)%nat ->
  drop (length t1 - n) t1 <> drop (length t2 - n) t2 ->
  drop (length t1 - m) t1 <> drop (length t2 - m) t2.
Proof.
  intros Hle H1 H2 Hne Heq. apply Hne.
  replace (length t1 - n)%nat with (length t1 - m + (m - n))%nat by lia.
  replace (length t2 - n)%nat with (length t2 - m + (m - n))%nat by lia.
  by rewrite <- !drop_drop, Heq.
Qed.

Lemma diffCommonSuffix_loop_longest fuel text1 text2 pmin pmax :
  0 <= pmin -> pmin < pmax ->
  pmax <= len text1 -> pmax <= len text2 ->
  drop (length text1 - Z.to_nat pmin) text1
  = drop (length text2 - Z.to_nat pmin) text2 ->
  drop (length text1 - Z.to_nat pmax) text1
  <> drop (length text2 - Z.to_nat pmax) text2 ->
  (Z.to_nat (pmax - pmin) + 1 <= fuel)%nat ->
  exists n,
    diffCommonSuffix_loop fuel text1 text2 pmin pmax
      ((pmax - pmin) / 2 + pmin) pmin = Some n
    /\ pmin <= n < pmax
    /\ drop (length text1 - Z.to_nat n) text1
       = drop (length text2 - Z.to_nat n) text2
    /\ drop (length text1 - Z.to_nat (n + 1)) text1
       <> drop (length text2 - Z.to_nat (n + 1)) text2.
Proof.
  revert pmin pmax.
  induction fuel as [|fuel IH]; intros pmin pmax H0 Hlt H1 H2 Heq Hne Hfuel;
    [lia|].
  cbn [diffCommonSuffix_loop].
  set (pmid := (pmax - pmin) / 2 + pmin).
  assert (pmin <= pmid < pmax) as Hmid
    by (unfold pmid; Z.div_mod_to_equations; lia).
  destruct (Z.ltb_spec pmin pmid) as [Hlo|Hhi].
  2:{ exists pmid.
      assert (pmax = pmin + 1) as Hmax
        by (unfold pmid in *; Z.div_mod_to_equations; lia).
      replace pmid with pmin by lia. rewrite <- Hmax.
      split_and!; try done; lia. }
  assert (take (Z.to_nat pmid - Z.to_nat pmin)
            (drop (length text1 - Z.to_nat pmid) text1)
          = substring text1 (len text1 - pmid) (len text1 - pmin)) as Hs1.
  { rewrite substring_in by lia. unfold len in *. f_equal; [lia|f_equal; lia]. }
  assert (take (Z.to_nat pmid - Z.to_nat pmin)
            (drop (length text2 - Z.to_nat pmid) text2)
          = substring text2 (len text2 - pmid) (len text2 - pmin)) as Hs2.
  { rewrite substring_in by lia. unfold len in *. f_equal; [lia|f_equal; lia]. }
  unfold len in H1, H2.
  destruct (str_eqb _ _) eqn:Hcmp.
  - apply str_eqb_eq in Hcmp. rewrite <- Hs1, <- Hs2 in Hcmp.
    destruct (IH pmid pmax) as (n & -> & ? & ? & ?);
      try lia; try (unfold len; lia).
    + eapply (drop_eq_extend _ _ (Z.to_nat pmin)); [lia|lia|lia|done|done].
    + done.
    + exists n. split_and!; try done; lia.
  - apply str_eqb_neq in Hcmp. rewrite <- Hs1, <- Hs2 in Hcmp.
    destruct (IH pmin pmid) as (n & -> & ? & ? & ?);
      try lia; try (unfold len; lia).
    + done.
    + intros Heq'. apply Hcmp. by rewrite Heq'.
    + exists n. split_and!; try done; lia.
Qed.

Lemma charAt_last (c : Z) (t : jstring) :
  charAt (c :: t) (len (c :: t) - 1)
  = drop (length (c :: t) - 1) (c :: t).
Proof.
  unfold charAt. pose proof (len_nonneg t). rewrite len_cons.
  replace ((0 <=? len t + 1 - 1) && (len t + 1 - 1 <? len t + 1))
    with true by lia.
  replace (Z.to_nat (len t + 1 - 1)) with (length (c :: t) - 1)%nat
    by (unfold len; simpl; lia).
  apply take_ge. rewrite length_drop. simpl. lia.
Qed.

(** X6.  [diffCommonSuffix] always returns, and what it returns is the
    length of the longest common suffix of its arguments. *)
Theorem X6_diffCommonSuffix_longest (text1 text2 : jstring) :
  exists n,
    diffCommonSuffix text1 text2 = Some n
    /\ 0 <= n /\ n <= len text1 /\ n <= len text2
    /\ drop (length text1 - Z.to_nat n) text1
       = drop (length text2 - Z.to_nat n) text2
    /\ forall m, n < m -> m <= len text1 -> m <= len text2 ->
         drop (length text1 - Z.to_nat m) text1
         <> drop (length text2 - Z.to_nat m) text2.
Proof.
  pose proof (len_nonneg text1). pose proof (len_nonneg text2).
  assert (drop (length text1 - Z.to_nat 0) text1
          = drop (length text2 - Z.to_nat 0) text2) as Hzero.
  { change (Z.to_nat 0) with 0%nat. by rewrite !Nat.sub_0_r, !drop_all. }
  unfold diffCommonSuffix.
  destruct text1 as [|c1 t1].
  { exists 0. cbn [truthy negb orb]. split_and!; try done; try lia.
    intros m ? Hm _. rewrite len_nil in Hm. lia. }
  destruct text2 as [|c2 t2].
  { exists 0. cbn [truthy negb orb]. split_and!; try done; try lia.
    intros m ? _ Hm. rewrite len_nil in Hm. lia. }
  cbn [truthy negb orb]. rewrite !charAt_last.
  set (text1 := c1 :: t1) in *. set (text2 := c2 :: t2) in *.
  assert (1 <= len text1 /\ 1 <= len text2) as [Hl1 Hl2].
  { unfold text1, text2. rewrite !len_cons.
    pose proof (len_nonneg t1). pose proof (len_nonneg t2). lia. }
  destruct (str_eqb _ _) eqn:Hlast; cbn [negb].
  2:{ exists 0. apply str_eqb_neq in Hlast.
      split_and!; try done; try lia.
      intros m ? ? ?.
      apply (drop_neq_extend _ _ 1); [lia|unfold len in *; lia..|done]. }
  set (pmax := Z.min (len text1) (len text2)).
  assert (1 <= pmax) by lia.
  replace (Z.to_nat pmax + 2)%nat with (S (Z.to_nat pmax + 1)) by lia.
  cbn [diffCommonSuffix_loop].
  replace (0 <? pmax) with true by lia.
  assert (drop (length text1 - Z.to_nat pmax) text1
          = substring text1 (len text1 - pmax) (len text1 - 0)) as Hs1.
  { rewrite substring_in by lia. unfold len in *.
    rewrite take_ge; [f_equal; lia|]. rewrite length_drop. lia. }
  assert (drop (length text2 - Z.to_nat pmax) text2
          = substring text2 (len text2 - pmax) (len text2 - 0)) as Hs2.
  { rewrite substring_in by lia. unfold len in *.
    rewrite take_ge; [f_equal; lia|]. rewrite length_drop. lia. }
  destruct (str_eqb (substring text1 _ _) _) eqn:Hcmp.
  - apply str_eqb_eq in Hcmp. rewrite <- Hs1, <- Hs2 in Hcmp.
    replace ((pmax - pmax) / 2 + pmax) with pmax
      by (rewrite Z.sub_diag; reflexivity).
    assert (diffCommonSuffix_loop (Z.to_nat pmax + 1) text1 text2 pmax pmax
              pmax pmax = Some pmax) as ->.
    { replace (Z.to_nat pmax + 1)%nat with (S (Z.to_nat pmax)) by lia.
      cbn [diffCommonSuffix_loop]. by rewrite Z.ltb_irrefl. }
    exists pmax. split_and!; try done; try lia.
  - apply str_eqb_neq in Hcmp. rewrite <- Hs1, <- Hs2 in Hcmp.
    destruct (diffCommonSuffix_loop_longest (Z.to_nat pmax + 1) text1 text2
                0 pmax) as (n & Hn & ? & ? & Hstop); try lia; try done.
    rewrite Z.sub_0_r, Z.add_0_r in Hn |- *. rewrite Hn.
    exists n. split_and!; try done; try lia.
    intros m ? ? ?.
    apply (drop_neq_extend _ _ (Z.to_nat (n + 1)));
      [lia|unfold len in *; lia..|done].
Qed.

(** *** [diffCommonOverlap_] *)

(** [find_from] returns the first position at which the pattern starts. *)
Lemma find_from_found (pat s : jstring) (pos f : Z) :
  0 <= pos -> find_from pat s pos = f -> f <> -1 ->
  exists k : nat,
    f = pos + Z.of_nat k
    /\ starts_with pat (drop k s) = true
    /\ forall j : nat, (j < k)%nat -> starts_with pat (drop j s) = false.
Proof.
  revert pos. induction s as [|c s IH]; intros pos Hpos Hf Hne.
  - cbn [find_from] in Hf. destruct (starts_with pat []) eqn:Hsw; [|lia].
    exists 0%nat. split_and!; [lia|done|intros; lia].
  - cbn [find_from] in Hf. destruct (starts_with pat (c :: s)) eqn:Hsw.
    + exists 0%nat. split_and!; [lia|done|intros; lia].
    + destruct (IH (pos + 1) ltac:(lia) Hf Hne) as (k & -> & Hk & Hmin).
      exists (S k). split_and!; [lia|done|].
      intros [|j] Hj; [done|]. apply Hmin. lia.
Qed.

Lemma find_from_none (pat s : jstring) (pos : Z) :
  0 <= pos -> find_from pat s pos = -1 ->
  forall j : nat, starts_with pat (drop j s) = false.
Proof.
  revert pos. induction s as [|c s IH]; intros pos Hpos Hf j.
  - cbn [find_from] in Hf. rewrite drop_nil.
    destruct (starts_with pat []); [lia|done].
  - cbn [find_from] in Hf. destruct (starts_with pat (c :: s)) eqn:Hsw; [lia|].
    destruct j as [|j]; [done|]. by apply (IH (pos + 1)); [lia|].
Qed.

Section Overlap.

Variables (s1 s2 : jstring) (L : Z).
Hypothesis len1 : len s1 = L.
Hypothesis len2 : len s2 = L.
Hypothesis differ : s1 <> s2.

(** An overlap of length [m] puts the suffix of length [k <= m] of [s1]
    at position [m - k] of [s2]. *)
Lemma overlap_occurrence (k m : Z) :
  0 <= k -> k <= m -> m <= L -> overlaps s1 s2 m ->
  starts_with (drop (length s1 - Z.to_nat k) s1)
    (drop (Z.to_nat (m - k)) s2) = true.
Proof.
  intros Hk Hkm HmL Hov. unfold overlaps in Hov. apply starts_with_spec.
  unfold len in *. rewrite length_drop.
  replace (length s1 - (length s1 - Z.to_nat k))%nat with (Z.to_nat k) by lia.
  rewrite take_drop_commute.
  replace (Z.to_nat (m - k) + Z.to_nat k)%nat with (Z.to_nat m) by lia.
  rewrite <- Hov, drop_drop. f_equal. lia.
Qed.

Lemma overlap_loop_spec fuel (best size : Z) :
  0 <= best -> best < size -> size <= L + 1 ->
  overlaps s1 s2 best ->
  (forall m, best < m -> m < size -> m <= L -> ~ overlaps s1 s2 m) ->
  (Z.to_nat (L + 1 - size) + 1 <= fuel)%nat ->
  exists n,
    diffCommonOverlap_loop fuel s1 s2 L best size = Some n
    /\ 0 <= n <= L
    /\ overlaps s1 s2 n
    /\ forall m, n < m -> m <= L -> ~ overlaps s1 s2 m.
Proof.
  revert best size.
  induction fuel as [|fuel IH]; intros best size H0 Hbl HlL Hbest Hgap Hfuel;
    [lia|].
  cbn [diffCommonOverlap_loop].
  set (pattern := substring_from s1 (L - size)).
  destruct (Z.eq_dec size (L + 1)) as [->|Hlen].
  { (* the pattern is all of [s1], which is not [s2] *)
    assert (pattern = s1) as Hpat.
    { unfold pattern, substring_from. by rewrite clamp_neg by lia. }
    assert (indexOf s2 pattern 0 = -1) as ->.
    { destruct (Z.eq_dec (indexOf s2 pattern 0) (-1)) as [|Hne]; [done|].
      exfalso. unfold indexOf in Hne. rewrite clamp_neg in Hne by lia.
      cbn [drop] in Hne.
      destruct (find_from_found pattern s2 0 _ ltac:(lia) eq_refl Hne)
        as (k & Hk & Hsw & _).
      pose proof (starts_with_length _ _ Hsw) as Hfit.
      rewrite length_drop, Hpat in Hfit. unfold len in *.
      assert (0 < length s1)%nat.
      { destruct s1, s2; simpl in *; try lia. by destruct differ. }
      assert (k = 0%nat) as -> by lia. rewrite drop_0 in Hsw.
      apply starts_with_spec in Hsw. rewrite Hpat in Hsw.
      rewrite take_ge in Hsw by lia. by apply differ. }
    cbn [Z.eqb]. exists best. split_and!; [done|lia|lia|done|].
    intros m ? ?. apply Hgap; lia. }
  assert (pattern = drop (length s1 - Z.to_nat size) s1) as Hpat.
  { unfold pattern, substring_from. rewrite clamp_in by lia.
    f_equal. unfold len in *. lia. }
  assert (len pattern = size) as Hplen.
  { rewrite Hpat. unfold len in *. rewrite length_drop. lia. }
  (* every overlap of at least [size] characters yields an occurrence *)
  assert (forall m, size <= m -> m <= L -> overlaps s1 s2 m ->
            starts_with pattern (drop (Z.to_nat (m - size)) s2) = true)
    as Hocc.
  { intros m ? ? Hov. rewrite Hpat. apply overlap_occurrence; [lia..|done]. }
  unfold indexOf. rewrite clamp_neg by lia. rewrite !drop_0.
  change (Z.of_nat 0) with 0.
  destruct (Z.eq_dec (find_from pattern s2 0) (-1)) as [Hnone|Hsome].
  { rewrite Hnone. cbn [Z.eqb]. exists best.
    split_and!; [done|lia|lia|done|].
    intros m ? ? Hov. destruct (Z.lt_ge_cases m size); [by apply (Hgap m)|].
    pose proof (find_from_none pattern s2 0 ltac:(lia) Hnone
                  (Z.to_nat (m - size))) as Hno.
    rewrite Hocc in Hno by done. discriminate. }
  destruct (find_from_found pattern s2 0 _ ltac:(lia) eq_refl Hsome)
    as (k & Hk & Hsw & Hmin).
  rewrite Hk in *. clear Hk.
  replace (0 + Z.of_nat k =? -1) with false by lia.
  pose proof (starts_with_length _ _ Hsw) as Hfit.
  rewrite length_drop in Hfit.
  assert (size + Z.of_nat k <= L) as Hroom by (unfold len in *; lia).
  (* no overlap between [size] and [size + k] *)
  assert (forall m, size <= m -> m < size + Z.of_nat k -> m <= L ->
            ~ overlaps s1 s2 m) as Hskip.
  { intros m ? ? ? Hov.
    pose proof (Hocc m ltac:(lia) ltac:(lia) Hov) as Hhit.
    rewrite Hmin in Hhit by lia. discriminate. }
  set (size' := size + (0 + Z.of_nat k)).
  assert (size' = size + Z.of_nat k) as Hl' by (unfold size'; lia).
  assert (substring_from s1 (L - size') = drop (length s1 - Z.to_nat size') s1)
    as Hsuf.
  { unfold substring_from. rewrite clamp_in by lia.
    f_equal. unfold len in *. lia. }
  assert (substring s2 0 size' = take (Z.to_nat size') s2) as Hpre.
  { rewrite substring_0. f_equal. rewrite clamp_in; lia. }
  assert ((0 + Z.of_nat k =? 0) = true -> overlaps s1 s2 size') as Hzero.
  { intros Hk0%Z.eqb_eq. assert (k = 0%nat) as -> by lia.
    rewrite drop_0 in Hsw. apply starts_with_spec in Hsw.
    replace size' with size by lia. unfold overlaps. rewrite <- Hpat.
    transitivity (take (length pattern) s2); [done|].
    f_equal. unfold len in *. lia. }
  destruct ((0 + Z.of_nat k =? 0)
            || str_eqb (substring_from s1 (L - size'))
                 (substring s2 0 size')) eqn:Htest.
  - assert (overlaps s1 s2 size') as Hov.
    { apply orb_true_iff in Htest as [Hz|Heq]; [by apply Hzero|].
      apply str_eqb_eq in Heq. unfold overlaps. by rewrite <- Hsuf, <- Hpre. }
    destruct (IH size' (size' + 1)) as (n & -> & ? & ? & ?);
      [lia|lia|lia|done|intros m ? ? ?; lia|lia|].
    exists n. split_and!; try done; lia.
  - apply orb_false_iff in Htest as [Hk0 Hneq].
    apply str_eqb_neq in Hneq. rewrite Hsuf, Hpre in Hneq.
    fold (overlaps s1 s2 size') in Hneq.
    destruct (IH best size') as (n & -> & ? & ? & ?);
      [lia|lia|lia|done| |lia|].
    { intros m ? ? ?. destruct (Z.lt_ge_cases m size); [by apply Hgap|].
      apply Hskip; lia. }
    exists n. split_and!; try done; lia.
Qed.

End Overlap.

Lemma overlaps_zero (s1 s2 : jstring) : overlaps s1 s2 0.
Proof.
  unfold overlaps. change (Z.to_nat 0) with 0%nat.
  by rewrite Nat.sub_0_r, drop_all.
Qed.

Lemma diffCommonOverlap_spec (text1 text2 : jstring) :
  exists n,
    diffCommonOverlap_ text1 text2 = Some n
    /\ 0 <= n /\ n <= len text1 /\ n <= len text2
    /\ overlaps text1 text2 n
    /\ forall m, n < m -> m <= len text1 -> m <= len text2 ->
         ~ overlaps text1 text2 m.
Proof.
  pose proof (len_nonneg text1) as Hn1. pose proof (len_nonneg text2) as Hn2.
  unfold diffCommonOverlap_.
  destruct (Z.eqb_spec (len text1) 0) as [H1|H1].
  { exists 0. cbn [orb].
    split_and!; try done; try lia; try apply overlaps_zero; intros; lia. }
  destruct (Z.eqb_spec (len text2) 0) as [H2|H2].
  { exists 0. cbn [orb].
    split_and!; try done; try lia; try apply overlaps_zero; intros; lia. }
  cbn [orb].
  set (L := Z.min (len text1) (len text2)).
  set (s1 := if len text2 <? len text1
             then substring_from text1 (len text1 - len text2) else text1).
  set (s2 := if len text1 <? len text2
             then substring text2 0 (len text1) else text2).
  assert (s1 = drop (length text1 - Z.to_nat L) text1) as Hs1.
  { unfold s1, L. destruct (Z.ltb_spec (len text2) (len text1)).
    - unfold substring_from. rewrite clamp_in by lia.
      f_equal. unfold len in *. lia.
    - replace (length text1 - Z.to_nat (Z.min (len text1) (len text2)))%nat
        with 0%nat by (unfold len in *; lia).
      by rewrite drop_0. }
  assert (s2 = take (Z.to_nat L) text2) as Hs2.
  { unfold s2, L. destruct (Z.ltb_spec (len text1) (len text2)).
    - rewrite substring_0, clamp_in by lia. f_equal. lia.
    - symmetry. apply take_ge. unfold len in *. lia. }
  assert (len s1 = L) as Hl1.
  { rewrite Hs1. unfold L, len in *. rewrite length_drop. lia. }
  assert (len s2 = L) as Hl2.
  { rewrite Hs2. unfold L, len in *. rewrite length_take. lia. }
  (* overlaps of the truncated texts are overlaps of the texts *)
  assert (forall k, 0 <= k <= L ->
            overlaps s1 s2 k <-> overlaps text1 text2 k) as Hsame.
  { intros k Hk. unfold overlaps. rewrite Hs1 at 2. rewrite Hs2 at 1.
    rewrite drop_drop, take_take.
    replace (length text1 - Z.to_nat L + (length s1 - Z.to_nat k))%nat
      with (length text1 - Z.to_nat k)%nat by (unfold L, len in *; lia).
    by replace (Z.to_nat k `min` Z.to_nat L)%nat with (Z.to_nat k) by lia. }
  destruct (str_eqb s1 s2) eqn:Heq.
  - apply str_eqb_eq in Heq. exists L.
    assert (overlaps text1 text2 L) as HovL.
    { apply Hsame; [lia|]. unfold overlaps.
      unfold len in Hl1. replace (length s1 - Z.to_nat L)%nat with 0%nat by lia.
      rewrite drop_0, Heq. symmetry. apply take_ge. unfold len in Hl2. lia. }
    split_and!; try done; try (unfold L; lia); intros; unfold L in *; lia.
  - apply str_eqb_neq in Heq.
    destruct (overlap_loop_spec s1 s2 L Hl1 Hl2 Heq (Z.to_nat L + 2) 0 1)
      as (n & -> & ? & Hov & Hmax); try lia.
    + apply overlaps_zero.
    + exists n. split_and!; try done; try (unfold L in *; lia).
      * by apply Hsame.
      * intros m ? ? ? Hm. apply (Hmax m); [lia|unfold L; lia|].
        apply Hsame; [unfold L; lia|done].
Qed.

(** X7.  [diffCommonOverlap_] always returns, and what it returns is the
    length of the longest suffix of [text1] that is a prefix of [text2]. *)
Theorem X7_diffCommonOverlap_longest (text1 text2 : jstring) :
  exists n,
    diffCommonOverlap_ text1 text2 = Some n
    /\ 0 <= n /\ n <= len text1 /\ n <= len text2
    /\ overlaps text1 text2 n
    /\ forall m, n < m -> m <= len text1 -> m <= len text2 ->
         ~ overlaps text1 text2 m.
Proof. apply diffCommonOverlap_spec. Qed.

(** ** More about patch lists *)

(** X8.  With a positive margin, every patch returned by [patchMake],
    whatever the call shape, holds at least one diff and has both start
    positions assigned to the same non-negative number: the patches of a
    list have a rolling context, each one is located in the text as the
    previous patches leave it. *)
Theorem X8_patchMake_rolling_context (cfg : Config) (now : nat -> Z)
    (a optB optC : Arg) (patches : list Patch) :
  0 < patchMargin cfg ->
  patchMake cfg now a optB optC = Some (Ok patches) ->
  Forall (fun p => p_diffs p <> []
                   /\ exists st, p_start1 p = Some st
                                 /\ p_start2 p = Some st /\ 0 <= st)
    patches.
Proof.
  intros Hmargin Hcall.
  eapply Forall_impl; [by eapply patchMake_made|].
  intros p (_ & Hst & Hne). by split.
Qed.

Lemma X8_patchMake_rolling_context_witness :
  Forall (fun p => p_diffs p <> []
                   /\ exists st, p_start1 p = Some st
                                 /\ p_start2 p = Some st /\ 0 <= st)
    c8_good_patches.
Proof.
  apply (X8_patchMake_rolling_context default_config wall_clock
           (AString c8_good_text1) (AString c8_good_text2) AUndefined);
    [simpl; lia|by vm_compute].
Defined.

(** A script of equalities never opens a patch. *)
Lemma make_loop_equalities (cfg : Config) (diffs : list Diff)
    (patches : list Patch) (c1 c2 : Z) (pre post : jstring) :
  Forall (fun d => d_op d = DIFF_EQUAL) diffs ->
  exists c1' c2',
    make_loop cfg diffs (mkMake patches new_patchObj c1 c2 pre post)
    = Some (Ok (mkMake patches new_patchObj c1' c2' pre post)).
Proof.
  intros Hall. revert c1 c2.
  induction Hall as [|[op t] diffs Hd _ IH]; intros c1 c2.
  - by exists c1, c2.
  - cbn [d_op] in Hd. subst op. cbn [make_loop].
    unfold make_step. cbn [d_op d_text new_patchObj p_diffs]. op_simpl.
    change (len (@nil Diff) =? 0) with true.
    rewrite !andb_false_r. cbn [negb andb mbind option_bind].
    cbn [mk_charCount1 mk_charCount2 mk_patches mk_patch mk_prepatchText
         mk_postpatchText].
    apply IH.
Qed.

(** X9.  [patchMake] returns no patch when there is nothing to change:
    for every script made of equalities only, and for every pair of
    identical texts. *)
Theorem X9_patchMake_nothing_to_do (cfg : Config) (now : nat -> Z)
    (text : jstring) (diffs : list Diff) :
  Forall (fun d => d_op d = DIFF_EQUAL) diffs ->
  patchMake cfg now (AString text) (ADiffs diffs) AUndefined = Some (Ok [])
  /\ patchMake cfg now (ADiffs diffs) AUndefined AUndefined = Some (Ok [])
  /\ patchMake cfg now (AString text) (AString text) AUndefined
     = Some (Ok []).
Proof.
  intros Hall.
  assert (forall text1 ds,
            Forall (fun d => d_op d = DIFF_EQUAL) ds ->
            patchMake_diffs cfg text1 ds = Some (Ok [])) as Hnone.
  { intros text1 ds Hds. unfold patchMake_diffs.
    destruct ds as [|d ds]; [done|].
    destruct (make_loop_equalities cfg (d :: ds) [] 0 0 text1 text1 Hds)
      as (c1 & c2 & ->).
    reflexivity. }
  split_and!; cbn [patchMake]; auto.
  unfold diffMain, diffMain_clock.
  assert (exists fuel,
            (2 * (length text + length text) + 4)%nat = S fuel) as [fuel ->]
    by (eexists (2 * (length text + length text) + 3)%nat; lia).
  destruct (if Qle_bool (diffTimeout cfg) 0 then _ else _) as [deadline clk].
  cbn [diffMain_rec default].
  assert (str_eqb text text = true) as -> by by apply str_eqb_eq.
  destruct text as [|c text]; cbn [truthy mbind option_bind fst].
  - reflexivity.
  - change (2 <? len [mkDiff DIFF_EQUAL (c :: text)]) with false.
    cbn [mbind option_bind]. apply Hnone. by repeat constructor.
Qed.

Lemma X9_patchMake_nothing_to_do_witness :
  patchMake default_config wall_clock (AString (str "abc"))
    (ADiffs [mkDiff DIFF_EQUAL (str "ab"); mkDiff DIFF_EQUAL (str "c")])
    AUndefined = Some (Ok []).
Proof.
  apply (X9_patchMake_nothing_to_do default_config wall_clock (str "abc")
           [mkDiff DIFF_EQUAL (str "ab"); mkDiff DIFF_EQUAL (str "c")]).
  repeat constructor.
Defined.

(** X10.  [patchSplitMax] leaves a list alone when none of its patches is
    longer than [matchMaxBits]. *)
Theorem X10_patchSplitMax_small (cfg : Config) (patches : list Patch) :
  Forall (fun p => p_length1 p <= matchMaxBits cfg) patches ->
  patchSplitMax cfg patches = Some patches.
Proof.
  induction 1 as [|p patches Hp _ IH]; [done|].
  cbn [patchSplitMax]. rewrite IH.
  by replace (p_length1 p <=? matchMaxBits cfg) with true by lia.
Qed.

Lemma X10_patchSplitMax_small_witness :
  patchSplitMax default_config c8_good_patches = Some c8_good_patches.
Proof.
  apply (X10_patchSplitMax_small default_config c8_good_patches).
  repeat constructor; simpl; lia.
Defined.

(** *** [patchAddPadding] *)

Section PaddingEdges.

Variable cfg : Config.
Hypothesis margin_nonneg : 0 <= patchMargin cfg.

Lemma len_nullPadding' : len (nullPadding cfg) = patchMargin cfg.
Proof. unfold nullPadding, len. rewrite length_map, length_seqZ. lia. Qed.

Lemma pad_first_head (p : Patch) :
  head_context (patchMargin cfg) (pad_first cfg p).
Proof.
  unfold pad_first, head_context. pose proof len_nullPadding' as Hpad.
  destruct (p_diffs p) as [|[op t] rest] eqn:Hdiffs.
  - eexists _, _. cbn [p_diffs]. split_and!; [done|done|]. simpl. lia.
  - cbn [d_op d_text]. destruct (op_eqb op DIFF_EQUAL) eqn:Hop.
    + apply bool_decide_eq_true in Hop. subst op.
      destruct (Z.ltb_spec (len t) (patchMargin cfg)) as [Hshort|Hlong].
      * eexists _, _. cbn [p_diffs]. split_and!; [done|done|].
        cbn [set_text d_text]. rewrite len_app.
        unfold substring_from, len in *. rewrite length_drop.
        unfold clamp, len. lia.
      * eexists _, _. rewrite Hdiffs. split_and!; [done|done|]. simpl. lia.
    + eexists _, _. cbn [p_diffs]. split_and!; [done|done|]. simpl. lia.
Qed.

Lemma pad_last_tail (p : Patch) :
  tail_context (patchMargin cfg) (pad_last cfg p).
Proof.
  unfold pad_last, tail_context. pose proof len_nullPadding' as Hpad.
  destruct (last (p_diffs p)) as [[op t]|] eqn:Hlast.
  - cbn [d_op d_text]. destruct (op_eqb op DIFF_EQUAL) eqn:Hop.
    + apply bool_decide_eq_true in Hop. subst op.
      destruct (Z.ltb_spec (len t) (patchMargin cfg)) as [Hshort|Hlong].
      * eexists. cbn [p_diffs]. rewrite last_snoc.
        split_and!; [done|done|].
        cbn [set_text d_text]. rewrite len_app, substring_0.
        unfold len in *. rewrite length_take. unfold clamp, len. lia.
      * eexists. rewrite Hlast. split_and!; [done|done|]. simpl. lia.
    + eexists. cbn [p_diffs]. rewrite last_snoc.
      split_and!; [done|done|]. simpl. lia.
  - eexists. cbn [p_diffs]. split_and!; [done|done|]. simpl. lia.
Qed.

Lemma pad_last_keeps_head (p : Patch) :
  head_context (patchMargin cfg) p ->
  head_context (patchMargin cfg) (pad_last cfg p).
Proof.
  intros (d & rest & Hdiffs & Hop & Hlen). unfold pad_last, head_context.
  rewrite Hdiffs.
  destruct (last (d :: rest)) as [l|] eqn:Hlast;
    [|by apply last_None in Hlast].
  destruct (op_eqb (d_op l) DIFF_EQUAL);
    [destruct (Z.ltb_spec (len (d_text l)) (patchMargin cfg))|].
  - destruct rest as [|r rest].
    + cbn [last] in Hlast. injection Hlast as <-. lia.
    + eexists d, _. cbn [p_diffs length]. split_and!; [|done|done].
      replace (S (S (length rest)) - 1)%nat with (S (length rest)) by lia.
      reflexivity.
  - exists d, rest. by rewrite Hdiffs.
  - eexists d, _. cbn [p_diffs]. split_and!; [|done|done]. reflexivity.
Qed.

End PaddingEdges.

(** X11.  On a non-empty list [patchAddPadding] returns a padding string
    of [patchMargin] code units and as many patches as it was given; the
    first of them begins, and the last of them ends, with an equality of
    at least [patchMargin] code units. *)
Theorem X11_patchAddPadding_edges (cfg : Config) (patches : list Patch) :
  0 <= patchMargin cfg -> patches <> [] ->
  exists first rest final,
    patchAddPadding cfg patches = Ok (first :: rest, nullPadding cfg)
    /\ len (nullPadding cfg) = patchMargin cfg
    /\ length (first :: rest) = length patches
    /\ last (first :: rest) = Some final
    /\ head_context (patchMargin cfg) first
    /\ tail_context (patchMargin cfg) final.
Proof.
  intros Hmargin Hne. unfold patchAddPadding.
  destruct patches as [|p ps]; [done|]. cbn [map].
  set (pf := pad_first cfg (bump cfg p)).
  pose proof (pad_first_head cfg Hmargin (bump cfg p)) as Hhead. fold pf in Hhead.
  destruct (map (bump cfg) ps) as [|q qs] eqn:Hrest.
  - cbn [last length]. cbn [Nat.sub take app].
    apply (f_equal length) in Hrest. rewrite length_map in Hrest.
    exists (pad_last cfg pf), [], (pad_last cfg pf).
    split_and!; try done.
    + by apply len_nullPadding'.
    + simpl in *. lia.
    + by apply pad_last_keeps_head.
    + by apply pad_last_tail.
  - destruct (last (pf :: q :: qs)) as [l|] eqn:Hlast;
      [|by apply last_None in Hlast].
    cbn [length]. replace (S (S (length qs)) - 1)%nat with (S (length qs)) by lia.
    cbn [take app].
    exists pf, (take (length qs) (q :: qs) ++ [pad_last cfg l]), (pad_last cfg l).
    split_and!; try done.
    + by apply len_nullPadding'.
    + apply (f_equal length) in Hrest. rewrite length_map in Hrest.
      cbn [length] in *. rewrite length_app, length_take. simpl. lia.
    + change (pf :: take (length qs) (q :: qs) ++ [pad_last cfg l])
        with ((pf :: take (length qs) (q :: qs)) ++ [pad_last cfg l]).
      by rewrite last_snoc.
    + by apply pad_last_tail.
Qed.

Lemma X11_patchAddPadding_edges_witness :
  exists first rest final,
    patchAddPadding default_config c8_good_patches
    = Ok (first :: rest, nullPadding default_config)
    /\ len (nullPadding default_config) = patchMargin default_config
    /\ length (first :: rest) = length c8_good_patches
    /\ last (first :: rest) = Some final
    /\ head_context (patchMargin default_config) first
    /\ tail_context (patchMargin default_config) final.
Proof.
  apply (X11_patchAddPadding_edges default_config c8_good_patches);
    [simpl; lia|discriminate].
Defined.

(** ** The match engine *)

Lemma int32_testbit (z b : Z) :
  0 <= b < 32 -> Z.testbit (int32 z) b = Z.testbit z b.
Proof.
  intros Hb. unfold int32.
  rewrite <- (Z.mod_pow2_bits_low _ 32 b) by lia.
  rewrite <- (Z.mod_pow2_bits_low z 32 b) by lia.
  f_equal. change (2 ^ 32) with 4294967296.
  Z.div_mod_to_equations. lia.
Qed.

Lemma shl_1_testbit (n b : Z) :
  0 <= b < 32 -> Z.testbit (shl 1 n) b = bool_decide (n mod 32 = b).
Proof.
  intros Hb. unfold shl. rewrite int32_testbit by done.
  change (int32 1) with 1.
  assert (0 <= n mod 32 < 32) by (Z.div_mod_to_equations; lia).
  rewrite Z.shiftl_1_l, Z.pow2_bits_eqb by lia.
  destruct (Z.eqb_spec (n mod 32) b) as [H1|H1];
    [by rewrite bool_decide_eq_true_2|by rewrite bool_decide_eq_false_2].
Qed.

Lemma bor_testbit (x y b : Z) :
  0 <= b < 32 ->
  Z.testbit (bor x y) b = Z.testbit x b || Z.testbit y b.
Proof.
  intros Hb. unfold bor. by rewrite Z.lor_spec, !int32_testbit.
Qed.

Lemma bits_insert (s : gmap Z Z) (c c' v : Z) :
  bits (<[c := v]> s) c' = if decide (c = c') then v else bits s c'.
Proof.
  unfold bits. destruct (decide (c = c')) as [->|Hne].
  - by rewrite lookup_insert_eq.
  - by rewrite lookup_insert_ne.
Qed.

Lemma alphabet_fill_bits (rest : jstring) (L i : Z) (s : gmap Z Z)
    (c b : Z) :
  0 <= b < 32 ->
  Z.testbit (bits (alphabet_fill rest L i s) c) b = true
  <-> Z.testbit (bits s c) b = true
      \/ exists j : nat,
           rest !! j = Some c /\ (L - (i + Z.of_nat j) - 1) mod 32 = b.
Proof.
  intros Hb. revert i s.
  induction rest as [|c0 rest IH]; intros i s.
  - cbn [alphabet_fill]. split; [by left|].
    intros [?|(j & Hj & _)]; [done|]. by destruct j.
  - cbn [alphabet_fill]. rewrite IH, bits_insert. split.
    + intros [Hnew|(j & Hj & Hbit)].
      * destruct (decide (c0 = c)) as [->|]; [|by left].
        rewrite bor_testbit, shl_1_testbit in Hnew by done.
        apply orb_true_iff in Hnew as [?|Hhere]; [by left|].
        apply bool_decide_eq_true in Hhere.
        right. exists 0%nat. split; [done|].
        rewrite <- Hhere. f_equal. lia.
      * right. exists (S j). split; [done|].
        rewrite <- Hbit. f_equal. lia.
    + intros [Hold|([|j] & Hj & Hbit)].
      * left. destruct (decide (c0 = c)) as [->|]; [|done].
        rewrite bor_testbit by done. by rewrite Hold.
      * cbn in Hj. injection Hj as ->. left.
        rewrite decide_True by done.
        rewrite bor_testbit, shl_1_testbit by done.
        apply orb_true_iff. right. apply bool_decide_eq_true.
        rewrite <- Hbit. f_equal. lia.
      * right. exists j. split; [done|]. rewrite <- Hbit. f_equal. lia.
Qed.

Lemma alphabet_init_bits (pattern : jstring) (c : Z) :
  bits (foldr (fun c s => <[c := 0]> s) ∅ pattern) c = 0.
Proof.
  induction pattern as [|c0 pattern IH]; [done|].
  cbn [foldr]. rewrite bits_insert. by destruct (decide _).
Qed.

(** X12.  The mask that [matchAlphabet_] stores for a character has,
    among its 32 bits, exactly the bits of the positions at which the
    character occurs in the pattern, the last position of the pattern
    being bit 0 (positions wrap around modulo 32, as the shift operator
    does). *)
Theorem X12_matchAlphabet_bits (pattern : jstring) (c b : Z) :
  0 <= b < 32 ->
  Z.testbit (bits (matchAlphabet_ pattern) c) b = true
  <-> exists i : nat,
        pattern !! i = Some c
        /\ (len pattern - Z.of_nat i - 1) mod 32 = b.
Proof.
  intros Hb. unfold matchAlphabet_.
  rewrite alphabet_fill_bits, alphabet_init_bits by done.
  rewrite Z.bits_0. split.
  - intros [?|(j & Hj & Hbit)]; [done|]. exists j. split; [done|].
    rewrite <- Hbit. f_equal; lia.
  - intros (j & Hj & Hbit). right. exists j. split; [done|].
    rewrite <- Hbit. f_equal; lia.
Qed.

Lemma X12_matchAlphabet_bits_witness :
  Z.testbit (bits (matchAlphabet_ (str "abc")) 97) 2 = true
  <-> exists i : nat,
        str "abc" !! i = Some 97
        /\ (len (str "abc") - Z.of_nat i - 1) mod 32 = 2.
Proof. apply (X12_matchAlphabet_bits (str "abc") 97 2). lia. Defined.

(** ** Patches that apply where they say *)

Lemma chain_app (R : jstring -> Patch -> jstring -> Prop)
    (text mid text' : jstring) (ps qs : list Patch) :
  chain R text ps mid -> chain R mid qs text' -> chain R text (ps ++ qs) text'.
Proof.
  revert text. induction ps as [|p ps IH]; intros text.
  - cbn [chain app]. by intros ->.
  - cbn [chain app]. intros (m & Hp & Hps) Hqs. exists m. split; [done|].
    by apply IH.
Qed.

Lemma chain_app_inv (R : jstring -> Patch -> jstring -> Prop)
    (text text' : jstring) (ps qs : list Patch) :
  chain R text (ps ++ qs) text' ->
  exists mid, chain R text ps mid /\ chain R mid qs text'.
Proof.
  revert text. induction ps as [|p ps IH]; intros text.
  - cbn [chain app]. intros Hqs. by exists text.
  - cbn [chain app]. intros (m & Hp & Hrest).
    destruct (IH _ Hrest) as (mid & Hps & Hqs).
    exists mid. split; [by exists m|done].
Qed.

Lemma chain_mono (R R' : jstring -> Patch -> jstring -> Prop)
    (text text' : jstring) (ps : list Patch) :
  (forall x p y, R x p y -> R' x p y) ->
  chain R text ps text' -> chain R' text ps text'.
Proof.
  intros HR. revert text. induction ps as [|p ps IH]; intros text; [done|].
  intros (m & Hp & Hps). exists m. split; [by apply HR|by apply IH].
Qed.

Lemma anchored_at_applies (n : Z) (text : jstring) (p : Patch)
    (text' : jstring) :
  anchored_at n text p text' -> applies_at text p text'.
Proof. intros (b & a & ? & ? & ? & _). by exists b, a. Qed.

Lemma anchored_applies (n : Z) (text : jstring) (ps : list Patch)
    (text' : jstring) :
  anchored n text ps text' -> applies text ps text'.
Proof. apply chain_mono, anchored_at_applies. Qed.

(** *** Context taken from the text around a patch *)

Lemma substring_before (H rest : jstring) (k : Z) :
  0 <= k ->
  substring (H ++ rest) (len H - k) (len H)
  = drop (length H - Z.to_nat k) H.
Proof.
  intros Hk. unfold substring, clamp. rewrite len_app.
  pose proof (len_nonneg H). pose proof (len_nonneg rest).
  replace (Z.to_nat (Z.max 0 (Z.min (len H) (len H + len rest))))
    with (length H) by (unfold len in *; lia).
  replace (Z.to_nat (Z.max 0 (Z.min (len H - k) (len H + len rest))))
    with (length H - Z.to_nat k)%nat by (unfold len in *; lia).
  replace (Nat.min (length H - Z.to_nat k) (length H))
    with (length H - Z.to_nat k)%nat by lia.
  replace (Nat.max (length H - Z.to_nat k) (length H)) with (length H) by lia.
  rewrite drop_app_le by lia.
  rewrite take_app_le by (rewrite length_drop; lia).
  apply take_ge. rewrite length_drop. lia.
Qed.

Lemma substring_after (A tail : jstring) (k : Z) :
  0 <= k ->
  substring (A ++ tail) (len A) (len A + k) = take (Z.to_nat k) tail.
Proof.
  intros Hk. unfold substring, clamp. rewrite len_app.
  pose proof (len_nonneg A). pose proof (len_nonneg tail).
  replace (Z.to_nat (Z.max 0 (Z.min (len A) (len A + len tail))))
    with (length A) by (unfold len in *; lia).
  set (e := Z.to_nat (Z.max 0 (Z.min (len A + k) (len A + len tail)))).
  assert (e = (length A + Nat.min (Z.to_nat k) (length tail))%nat) as ->
    by (unfold e, len in *; lia).
  replace (Nat.min (length A) (length A + Nat.min (Z.to_nat k) (length tail)))
    with (length A) by lia.
  replace (Nat.max (length A) (length A + Nat.min (Z.to_nat k) (length tail))
           - length A)%nat
    with (Nat.min (Z.to_nat k) (length tail)) by lia.
  rewrite drop_app_length.
  destruct (Nat.min_spec (Z.to_nat k) (length tail)) as [[? ->]|[? ->]];
    [done|].
  rewrite !take_ge by lia. done.
Qed.

Section Anchoring.

Variable cfg : Config.
Hypothesis margin_pos : 0 < patchMargin cfg.

(** [patchAddContext_] on a patch located right after [H] in the text:
    the context it adds is the end of [H] and the beginning of [tail]. *)
Lemma patchAddContext_anchor (patch : Patch) (H tail : jstring) :
  p_start1 patch = Some (len H) -> p_start2 patch = Some (len H) ->
  p_length1 patch = len (diffText1 (p_diffs patch)) ->
  exists p' H1 prefix suffix tail2,
    patchAddContext_ cfg patch (H ++ diffText1 (p_diffs patch) ++ tail)
    = Some (Ok p')
    /\ H = H1 ++ prefix /\ tail = suffix ++ tail2
    /\ p_diffs p'
       = (if truthy prefix then [mkDiff DIFF_EQUAL prefix] else [])
           ++ p_diffs patch
           ++ (if truthy suffix then [mkDiff DIFF_EQUAL suffix] else [])
    /\ p_start1 p' = Some (len H1) /\ p_start2 p' = Some (len H1)
    /\ (patchMargin cfg <= len prefix \/ H1 = [])
    /\ (patchMargin cfg <= len suffix \/ tail2 = []).
Proof.
  intros Hs1 Hs2 Hl1.
  set (T1 := diffText1 (p_diffs patch)) in *.
  pose proof (len_nonneg H) as HH. pose proof (len_nonneg T1) as HT.
  pose proof (len_nonneg tail) as Htl.
  unfold patchAddContext_.
  destruct (Z.eqb_spec (len (H ++ T1 ++ tail)) 0) as [Hempty|Hne].
  { rewrite !len_app in Hempty.
    assert (H = []) as -> by (apply len_zero_nil; lia).
    assert (tail = []) as -> by (apply len_zero_nil; lia).
    exists patch, [], [], [], []. cbn [truthy app].
    rewrite app_nil_r. split_and!; try done; by right. }
  rewrite Hs2.
  destruct (context_loop_total cfg margin_pos (H ++ T1 ++ tail) (len H)
              (p_length1 patch)
              (Z.to_nat (Z.abs (len H) + Z.abs (p_length1 patch)
                         + len (H ++ T1 ++ tail)) + 1)
              (substring (H ++ T1 ++ tail) (len H) (len H + p_length1 patch))
              0)
    as (padding & -> & Hpad); [lia|lia|by left|].
  cbn [mbind option_bind].
  set (pad := padding + patchMargin cfg).
  assert (substring (H ++ T1 ++ tail) (len H - pad) (len H)
          = drop (length H - Z.to_nat pad) H) as Hprefix
    by (apply substring_before; lia).
  assert (substring (H ++ T1 ++ tail) (len H + p_length1 patch)
            (len H + p_length1 patch + pad)
          = take (Z.to_nat pad) tail) as Hsuffix.
  { rewrite Hl1, <- len_app, (app_assoc H T1 tail).
    apply substring_after. lia. }
  rewrite Hprefix, Hsuffix.
  eexists _, (take (length H - Z.to_nat pad) H),
    (drop (length H - Z.to_nat pad) H), (take (Z.to_nat pad) tail),
    (drop (Z.to_nat pad) tail).
  split; [reflexivity|]. cbn [p_diffs p_start1 p_start2].
  assert (len (take (length H - Z.to_nat pad) H)
          = len H - len (drop (length H - Z.to_nat pad) H)) as Hlen1.
  { unfold len. rewrite length_take, length_drop. lia. }
  split_and!.
  - by rewrite take_drop.
  - by rewrite take_drop.
  - destruct (truthy (take _ tail)), (truthy (drop _ H)); cbn [app];
      rewrite ?app_nil_r; done.
  - rewrite Hs1. cbn [num default]. by rewrite Hlen1.
  - by rewrite Hlen1.
  - destruct (Z.le_gt_cases pad (len H)).
    + left. unfold len in *. rewrite length_drop. lia.
    + right. replace (length H - Z.to_nat pad)%nat with 0%nat
        by (unfold len in *; lia). done.
  - destruct (Z.le_gt_cases pad (len tail)).
    + left. unfold len in *. rewrite length_take. lia.
    + right. apply drop_ge. unfold len in *. lia.
Qed.

End Anchoring.

Lemma substring_0_app (A B : jstring) : substring (A ++ B) 0 (len A) = A.
Proof.
  rewrite substring_0, clamp_in
    by (rewrite len_app; pose proof (len_nonneg A); pose proof (len_nonneg B);
        lia).
  unfold len. rewrite Nat2Z.id. by rewrite take_app_length.
Qed.

Lemma substring_from_app (A B : jstring) : substring_from (A ++ B) (len A) = B.
Proof.
  rewrite substring_from_in
    by (rewrite len_app; pose proof (len_nonneg A); pose proof (len_nonneg B);
        lia).
  unfold len. rewrite Nat2Z.id. by rewrite drop_app_length.
Qed.

Section MakeAnchor.

Variable cfg : Config.
Hypothesis margin_pos : 0 < patchMargin cfg.
Variable text1 : jstring.

(** The patch [patchAddContext_] returns is anchored in the text. *)
Lemma patchAddContext_anchored (patch : Patch) (H tail : jstring) :
  p_diffs patch <> [] ->
  p_start1 patch = Some (len H) -> p_start2 patch = Some (len H) ->
  p_length1 patch = len (diffText1 (p_diffs patch)) ->
  exists p',
    patchAddContext_ cfg patch (H ++ diffText1 (p_diffs patch) ++ tail)
    = Some (Ok p')
    /\ anchored_at (patchMargin cfg)
         (H ++ diffText1 (p_diffs patch) ++ tail) p'
         (H ++ diffText2 (p_diffs patch) ++ tail).
Proof.
  intros Hne Hs1 Hs2 Hl1.
  destruct (patchAddContext_anchor cfg margin_pos patch H tail Hs1 Hs2 Hl1)
    as (p' & H1 & prefix & suffix & tail2 & -> & -> & -> & Hd & _ & Hst
        & Hhead & Htail).
  exists p'. split; [done|]. exists H1, tail2.
  assert (diffText1 (p_diffs p') = prefix ++ diffText1 (p_diffs patch) ++ suffix
          /\ diffText2 (p_diffs p')
             = prefix ++ diffText2 (p_diffs patch) ++ suffix) as [Ht1 Ht2].
  { rewrite Hd, !diffText1_app, !diffText2_app.
    destruct (truthy prefix) eqn:Hp, (truthy suffix) eqn:Hs;
      rewrite ?diffText1_single, ?diffText2_single; cbn [d_op d_text op_eqb];
      try apply truthy_false_nil in Hp as ->;
      try apply truthy_false_nil in Hs as ->; done. }
  split_and!.
  - done.
  - rewrite Ht1. by rewrite <- !app_assoc.
  - rewrite Ht2. by rewrite <- !app_assoc.
  - destruct Hhead as [Hhead|Hhead]; [left|by right].
    unfold head_context. rewrite Hd.
    destruct (truthy prefix) eqn:Hp.
    + by eexists _, _.
    + apply truthy_false_nil in Hp as ->. rewrite len_nil in Hhead. lia.
  - destruct Htail as [Htail|Htail]; [left|by right].
    unfold tail_context. rewrite Hd.
    destruct (truthy suffix) eqn:Hs.
    + eexists. rewrite !app_assoc, last_snoc. done.
    + apply truthy_false_nil in Hs as ->. rewrite len_nil in Htail. lia.
Qed.

Lemma anchored_snoc (text mid text' : jstring) (ps : list Patch) (p : Patch) :
  anchored (patchMargin cfg) text ps mid ->
  anchored_at (patchMargin cfg) mid p text' ->
  anchored (patchMargin cfg) text (ps ++ [p]) text'.
Proof.
  intros Hps Hp. eapply chain_app; [exact Hps|]. by exists text'.
Qed.

Local Ltac texts :=
  rewrite ?diffText1_app, ?diffText2_app, ?diffText1_single,
    ?diffText2_single, ?diffText1_cons, ?diffText2_cons, ?len_app;
  cbn [d_op d_text app]; op_simpl; rewrite ?len_nil, ?app_nil_r, <- ?app_assoc.

Lemma make_step_anchor (done rest : list Diff) (d : Diff) (s : MakeState) :
  anchor_inv cfg text1 done (d :: rest) s ->
  exists s',
    make_step cfg s d (bool_decide (rest = [])) = Some (Ok s')
    /\ anchor_inv cfg text1 (done ++ [d]) rest s'.
Proof.
  destruct s as [patches [G st1 st2 l1 l2] c1 c2 pre post].
  intros (H & tail & Hpre & Hpost & Hpost2 & Hanch & Hl1 & Hst & Hcnt).
  cbn [mk_patches mk_patch mk_charCount1 mk_charCount2 mk_prepatchText
       mk_postpatchText p_diffs p_start1 p_start2 p_length1] in *.
  destruct (Hcnt ltac:(done)) as (Htail & Hc1 & Hc2). clear Hcnt.
  destruct d as [op text]. pose proof (len_nonneg text) as Htext.
  assert (substring post 0 c2 = H ++ diffText2 G) as Hsub0.
  { rewrite Hpost, Hc2, <- len_app, app_assoc. apply substring_0_app. }
  assert (substring_from post c2 = tail) as Hsub1.
  { rewrite Hpost, Hc2, <- len_app, app_assoc. apply substring_from_app. }
  assert (diffText2 done = H ++ diffText2 G) as Hdone.
  { rewrite Hpost, <- Htail, app_assoc in Hpost2.
    by apply app_inv_tail in Hpost2. }
  clear Hpost2.
  unfold make_step. cbn [d_op d_text].
  destruct G as [|g0 G'].
  - (* No patch is open. *)
    change (diffText1 []) with (@nil Z) in *.
    change (diffText2 []) with (@nil Z) in *.
    rewrite len_nil in Hl1.
    rewrite len_nil, Z.add_0_r in Hc1, Hc2. rewrite app_nil_r in Hsub0, Hdone.
    cbn [app] in Hpre, Hpost.
    destruct op; op_simpl; cbn [p_diffs];
      change (len (@nil Diff) =? 0) with true; change (0 =? 0) with true;
      cbn [andb]; cbv iota;
      cbn [p_diffs p_start1 p_start2 p_length1 p_length2 app].
    + (* DELETE *)
      eexists. split; [reflexivity|]. unfold anchor_inv.
      cbn [mk_patches mk_patch mk_charCount1 mk_charCount2 mk_prepatchText
           mk_postpatchText p_diffs p_start1 p_start2 p_length1 negb].
      revert Htail. texts. intros Htail.
      exists H, (diffText1 rest). texts.
      assert (substring_from post (c2 + len text) = diffText1 rest) as ->.
      { rewrite Hpost, Htail, Hc2, <- len_app, app_assoc.
        apply substring_from_app. }
      rewrite Hsub0, Hdone.
      split_and!.
      * by rewrite Hpre, Htail.
      * done.
      * done.
      * done.
      * rewrite ?len_nil; lia.
      * intros _. by rewrite Hc1, Hc2.
      * intros _. split_and!; [done|rewrite ?len_nil; lia|rewrite ?len_nil; lia].
    + (* INSERT *)
      eexists. split; [reflexivity|]. unfold anchor_inv.
      cbn [mk_patches mk_patch mk_charCount1 mk_charCount2 mk_prepatchText
           mk_postpatchText p_diffs p_start1 p_start2 p_length1 negb].
      revert Htail. texts. intros Htail.
      exists H, (diffText1 rest). texts.
      rewrite Hsub0, Hsub1, Hdone, Htail.
      split_and!.
      * by rewrite Hpre, Htail.
      * done.
      * done.
      * done.
      * rewrite ?len_nil; lia.
      * intros _. by rewrite Hc1, Hc2.
      * intros _. split_and!; [done|rewrite ?len_nil; lia|rewrite ?len_nil; lia].
    + (* EQUAL *)
      rewrite !andb_false_r. cbn [negb andb].
      eexists. split; [reflexivity|]. unfold anchor_inv.
      cbn [mk_patches mk_patch mk_charCount1 mk_charCount2 mk_prepatchText
           mk_postpatchText p_diffs p_start1 p_start2 p_length1 negb].
      revert Htail. texts. intros Htail.
      exists (H ++ text), (diffText1 rest). texts.
      change (diffText1 []) with (@nil Z).
      change (diffText2 []) with (@nil Z).
      rewrite Hdone. cbn [app]. rewrite len_nil.
      split_and!.
      * by rewrite Hpre, Htail.
      * by rewrite Hpost, Htail.
      * by rewrite Hpost, Htail.
      * done.
      * done.
      * done.
      * intros _. split_and!; [done|rewrite ?len_nil; lia|rewrite ?len_nil; lia].
  - (* A patch is open. *)
    destruct (Hst ltac:(done)) as [-> ->]. clear Hst.
    set (G := g0 :: G') in *.
    assert ((len G =? 0) = false) as Hopen.
    { unfold G. rewrite len_cons. pose proof (len_nonneg G'). lia. }
    cbn [p_diffs]. rewrite Hopen. cbn [andb negb].
    destruct op; op_simpl;
      cbn [p_diffs p_start1 p_start2 p_length1 p_length2 app].
    + (* DELETE *)
      eexists. split; [reflexivity|]. unfold anchor_inv.
      cbn [mk_patches mk_patch mk_charCount1 mk_charCount2 mk_prepatchText
           mk_postpatchText p_diffs p_start1 p_start2 p_length1 negb].
      revert Htail. texts. intros Htail.
      exists H, (diffText1 rest). texts.
      assert (substring_from post (c2 + len text) = diffText1 rest) as ->.
      { rewrite Hpost, Htail, Hc2, <- !len_app, !app_assoc.
        apply substring_from_app. }
      rewrite Hsub0, Hdone. rewrite <- ?app_assoc.
      split_and!.
      * by rewrite Hpre, Htail.
      * done.
      * done.
      * done.
      * rewrite ?len_nil; lia.
      * done.
      * intros _. split_and!; [done|rewrite ?len_nil; lia|rewrite ?len_nil; lia].
    + (* INSERT *)
      eexists. split; [reflexivity|]. unfold anchor_inv.
      cbn [mk_patches mk_patch mk_charCount1 mk_charCount2 mk_prepatchText
           mk_postpatchText p_diffs p_start1 p_start2 p_length1 negb].
      revert Htail. texts. intros Htail.
      exists H, (diffText1 rest). texts.
      rewrite Hsub0, Hsub1, Hdone, Htail. rewrite <- ?app_assoc.
      split_and!.
      * by rewrite Hpre, Htail.
      * done.
      * done.
      * done.
      * rewrite ?len_nil; lia.
      * done.
      * intros _. split_and!; [done|rewrite ?len_nil; lia|rewrite ?len_nil; lia].
    + (* EQUAL *)
      rewrite Hopen. cbn [negb]. rewrite !andb_true_r.
      revert Htail. texts. intros Htail.
      destruct ((len text <=? 2 * patchMargin cfg)
                && negb (bool_decide (rest = []))) eqn:Hsmall.
      * (* Small equality inside a patch. *)
        eexists. split; [reflexivity|]. unfold anchor_inv.
        cbn [mk_patches mk_patch mk_charCount1 mk_charCount2 mk_prepatchText
             mk_postpatchText p_diffs p_start1 p_start2 p_length1 negb].
        exists H, (diffText1 rest). texts.
        split_and!.
        -- by rewrite Hpre, Htail.
        -- by rewrite Hpost, Htail.
        -- by rewrite Hpost, Hdone, Htail, <- !app_assoc.
        -- done.
        -- rewrite ?len_nil; lia.
        -- done.
        -- intros _. split_and!; [done|rewrite ?len_nil; lia|rewrite ?len_nil; lia].
      * destruct (2 * patchMargin cfg <=? len text) eqn:Hbig.
        -- (* Time for a new patch. *)
           destruct (patchAddContext_anchored
                       (mkPatch G (Some (len H)) (Some (len H)) l1 l2)
                       H tail ltac:(done) eq_refl eq_refl Hl1)
             as (p' & Hctx & Hp').
           cbn [p_diffs] in Hctx, Hp'. rewrite Hpre, Hctx.
           cbn [mbind option_bind].
           eexists. split; [reflexivity|]. unfold anchor_inv.
           cbn [mk_patches mk_patch mk_charCount1 mk_charCount2
                mk_prepatchText mk_postpatchText p_diffs p_start1 p_start2
                p_length1 negb new_patchObj].
           exists (H ++ diffText2 G ++ text), (diffText1 rest). texts.
           change (diffText1 []) with (@nil Z).
           change (diffText2 []) with (@nil Z). cbn [app].
           rewrite ?(@len_nil Z), ?Z.add_0_r.
           split_and!.
           ++ by rewrite Hpost, Htail.
           ++ by rewrite Hpost, Htail.
           ++ by rewrite Hpost, Hdone, Htail, <- !app_assoc.
           ++ eapply anchored_snoc; [exact Hanch|].
              rewrite Hpre, Hpost. exact Hp'.
           ++ done.
           ++ done.
           ++ intros _. split_and!; [done|rewrite ?len_nil; lia|rewrite ?len_nil; lia].
        -- (* The last diff is a small equality. *)
           assert (rest = []) as ->.
           { apply andb_false_iff in Hsmall as [Hs|Hs]; [lia|].
             apply negb_false_iff in Hs. by apply bool_decide_eq_true in Hs. }
           eexists. split; [reflexivity|]. unfold anchor_inv.
           cbn [mk_patches mk_patch mk_charCount1 mk_charCount2
                mk_prepatchText mk_postpatchText p_diffs p_start1 p_start2
                p_length1 negb].
           exists H, tail. texts.
           change (diffText1 []) with (@nil Z) in *.
           rewrite app_nil_r in *.
           split_and!; try done.
           by rewrite Hpost, Hdone, Htail, <- !app_assoc.
Qed.

(** The whole loop, and the patch picked up after it. *)
Lemma make_loop_anchor (done rest : list Diff) (s : MakeState) :
  anchor_inv cfg text1 done rest s ->
  exists s',
    make_loop cfg rest s = Some (Ok s')
    /\ anchor_inv cfg text1 (done ++ rest) [] s'.
Proof.
  revert done s. induction rest as [|d rest IH]; intros done s Hinv.
  - exists s. by rewrite app_nil_r.
  - cbn [make_loop].
    destruct (make_step_anchor done rest d s Hinv) as (s1 & -> & Hinv1).
    cbn [mbind option_bind].
    destruct (IH _ _ Hinv1) as (s' & -> & Hinv').
    exists s'. split; [done|]. by rewrite <- app_assoc in Hinv'.
Qed.

Lemma patchMake_diffs_anchored (diffs : list Diff) :
  text1 = diffText1 diffs ->
  exists patches,
    patchMake_diffs cfg text1 diffs = Some (Ok patches)
    /\ anchored (patchMargin cfg) text1 patches (diffText2 diffs).
Proof.
  intros Htext. unfold patchMake_diffs.
  destruct diffs as [|d0 diffs']; [by exists []|].
  set (diffs := d0 :: diffs') in *.
  destruct (make_loop_anchor [] diffs (mkMake [] new_patchObj 0 0 text1 text1))
    as (s & -> & Hinv).
  { exists [], text1. cbn. split_and!; done. }
  cbn [mbind option_bind app] in *.
  destruct s as [patches [G st1 st2 l1 l2] c1 c2 pre post].
  destruct Hinv as (H & tail & Hpre & Hpost & Hpost2 & Hanch & Hl1 & Hst & _).
  unfold patchDiffLength.
  cbn [mk_patches mk_patch mk_charCount1 mk_charCount2 mk_prepatchText
       mk_postpatchText p_diffs p_start1 p_start2 p_length1] in *.
  change (diffText1 []) with (@nil Z) in Hpost2. rewrite app_nil_r in Hpost2.
  destruct G as [|g0 G'].
  - change (len (@nil Diff) =? 0) with true. cbn [negb].
    exists patches. split; [done|].
    assert (pre = post) as Hsame by (by rewrite Hpre, Hpost).
    by rewrite <- Hpost2, <- Hsame.
  - set (G := g0 :: G') in *.
    assert ((len G =? 0) = false) as ->.
    { unfold G. rewrite len_cons. pose proof (len_nonneg G'). lia. }
    cbn [negb].
    destruct (Hst ltac:(done)) as [-> ->].
    destruct (patchAddContext_anchored
                (mkPatch G (Some (len H)) (Some (len H)) l1 l2)
                H tail ltac:(done) eq_refl eq_refl Hl1)
      as (p' & Hctx & Hp').
    cbn [p_diffs] in Hctx, Hp'. rewrite Hpre, Hctx.
    cbn [mbind option_bind].
    exists (patches ++ [p']). split; [done|].
    eapply anchored_snoc; [exact Hanch|].
    rewrite Hpre, <- Hpost2, Hpost. exact Hp'.
Qed.

End MakeAnchor.

(** *** Padding keeps the patches applicable *)

Lemma num_Some (x : Z) : num (Some x) = x.
Proof. reflexivity. Qed.

Section PadApplies.

Variable cfg : Config.
Hypothesis margin_nonneg : 0 <= patchMargin cfg.

Lemma ready_at_applies (n : Z) (np text : jstring) (p : Patch)
    (text' : jstring) :
  ready_at n np text p text' -> applies_at text p text'.
Proof. intros (b & a & ? & ? & ? & _). by exists b, (a ++ np). Qed.

Lemma bump_ready (X Y : jstring) (p : Patch) :
  anchored_at (patchMargin cfg) X p Y ->
  ready_at (patchMargin cfg) (nullPadding cfg)
    (nullPadding cfg ++ X ++ nullPadding cfg) (bump cfg p)
    (nullPadding cfg ++ Y ++ nullPadding cfg).
Proof.
  intros (b & a & Hs & -> & -> & _ & Ht).
  exists (nullPadding cfg ++ b), a. unfold bump. cbn [p_diffs p_start2].
  rewrite Hs, num_Some, len_app, (len_nullPadding' cfg) by done.
  split_and!.
  - f_equal. lia.
  - by rewrite <- !app_assoc.
  - by rewrite <- !app_assoc.
  - done.
Qed.

Lemma pad_first_ready (X Y : jstring) (p : Patch) :
  anchored_at (patchMargin cfg) X p Y ->
  ready_at (patchMargin cfg) (nullPadding cfg)
    (nullPadding cfg ++ X ++ nullPadding cfg) (pad_first cfg (bump cfg p))
    (nullPadding cfg ++ Y ++ nullPadding cfg).
Proof.
  intros Hp. pose proof (bump_ready X Y p Hp) as Hbump.
  destruct Hp as (b & a & Hs & -> & -> & Hh & Ht).
  pose proof (len_nullPadding' cfg margin_nonneg) as Hnp.
  unfold pad_first. cbn [bump p_diffs p_start1 p_start2 p_length1 p_length2].
  unfold head_context in Hh. unfold tail_context in Ht.
  destruct (p_diffs p) as [|[op e] rest] eqn:Hdiffs.
  - (* No diff at all. *)
    destruct Hh as [(d & r & Hd & _)| ->]; [done|].
    destruct Ht as [(d & Hl & _)| ->]; [done|].
    exists [], []. rewrite Hs, !num_Some. cbn [p_diffs p_start2 app].
    rewrite (@len_nil Z), Z.add_0_l, Z.sub_diag.
    rewrite diffText1_single, diffText2_single. cbn [d_op d_text].
    op_simpl. split_and!; try done.
    left. eexists. split_and!; [done|done|]. cbn [d_text]. lia.
  - cbn [d_op d_text].
    destruct op; op_simpl.
    + (* The patch begins with a deletion. *)
      destruct Hh as [(d & r & Hd & Hop & _)| ->];
        [by injection Hd as <- _|].
      exists [], a. rewrite Hs, !num_Some. cbn [p_diffs p_start2 app].
      rewrite (@len_nil Z), Z.add_0_l, Z.sub_diag.
      rewrite !(diffText1_cons (mkDiff DIFF_EQUAL _)),
        !(diffText2_cons (mkDiff DIFF_EQUAL _)). cbn [d_op d_text]. op_simpl.
      split_and!; rewrite <- ?app_assoc; done.
    + (* The patch begins with an insertion. *)
      destruct Hh as [(d & r & Hd & Hop & _)| ->];
        [by injection Hd as <- _|].
      exists [], a. rewrite Hs, !num_Some. cbn [p_diffs p_start2 app].
      rewrite (@len_nil Z), Z.add_0_l, Z.sub_diag.
      rewrite !(diffText1_cons (mkDiff DIFF_EQUAL _)),
        !(diffText2_cons (mkDiff DIFF_EQUAL _)). cbn [d_op d_text]. op_simpl.
      split_and!; rewrite <- ?app_assoc; done.
    + (* The patch begins with an equality. *)
      destruct (Z.ltb_spec (len e) (patchMargin cfg)) as [Hshort|Hlong].
      * destruct Hh as [(d & r & Hd & _ & Hlen)| ->].
        { injection Hd as <- _. cbn [d_text] in Hlen. lia. }
        pose proof (len_nonneg e) as He.
        exists (take (Z.to_nat (len e)) (nullPadding cfg)), a.
        rewrite Hs, !num_Some. cbn [p_diffs p_start2 app set_text].
        rewrite !(diffText1_cons (mkDiff DIFF_EQUAL _)),
          !(diffText2_cons (mkDiff DIFF_EQUAL _)) in *.
        cbn [d_op d_text] in *. op_simpl.
        rewrite substring_from_in by lia.
        unfold set_text. cbn [d_op d_text].
        rewrite !diffText1_cons, !diffText2_cons. cbn [d_op d_text]. op_simpl.
        split_and!.
        -- f_equal. rewrite len_take by (unfold len in *; lia).
           rewrite len_nil. lia.
        -- rewrite <- !app_assoc.
           rewrite (app_assoc (take _ _) (drop _ _)), take_drop. done.
        -- rewrite <- !app_assoc.
           rewrite (app_assoc (take _ _) (drop _ _)), take_drop. done.
        -- destruct Ht as [(d & Hl & Hop & Hlen)| ->]; [left|by right].
           destruct rest as [|r rest'].
           ++ cbn [last] in Hl. injection Hl as <-. cbn [d_text] in Hlen. lia.
           ++ exists d. split_and!; [exact Hl|done|done].
      * revert Hbump. unfold bump. by rewrite Hdiffs.
Qed.

Lemma pad_last_applies (X Y : jstring) (q : Patch) :
  ready_at (patchMargin cfg) (nullPadding cfg) X q Y ->
  applies_at X (pad_last cfg q) Y.
Proof.
  intros Hq. pose proof (ready_at_applies _ _ _ _ _ Hq) as Hsame.
  destruct Hq as (b & a & Hs & -> & -> & Ht).
  pose proof (len_nullPadding' cfg margin_nonneg) as Hnp.
  unfold pad_last. unfold tail_context in Ht.
  destruct (last (p_diffs q)) as [[op e]|] eqn:Hlast.
  - cbn [d_op d_text]. destruct op; op_simpl.
    + (* The patch ends with a deletion. *)
      destruct Ht as [(d & Hd & Hop & _)| ->]; [by injection Hd as <-|].
      exists b, []. cbn [p_diffs p_start2 app].
      rewrite diffText1_app, diffText2_app, diffText1_single,
        diffText2_single. cbn [d_op d_text]. op_simpl.
      split_and!; rewrite <- ?app_assoc, ?app_nil_r; done.
    + (* The patch ends with an insertion. *)
      destruct Ht as [(d & Hd & Hop & _)| ->]; [by injection Hd as <-|].
      exists b, []. cbn [p_diffs p_start2 app].
      rewrite diffText1_app, diffText2_app, diffText1_single,
        diffText2_single. cbn [d_op d_text]. op_simpl.
      split_and!; rewrite <- ?app_assoc, ?app_nil_r; done.
    + (* The patch ends with an equality. *)
      destruct (Z.ltb_spec (len e) (patchMargin cfg)) as [Hshort|Hlong];
        [|done].
      destruct Ht as [(d & Hd & _ & Hlen)| ->].
      { injection Hd as <-. cbn [d_text] in Hlen. lia. }
      pose proof (len_nonneg e) as He.
      set (extra := patchMargin cfg - len e).
      exists b, (drop (Z.to_nat extra) (nullPadding cfg)).
      cbn [p_diffs p_start2 app].
      apply last_Some in Hlast as [init Hinit]. rewrite Hinit.
      rewrite length_app. cbn [length].
      replace (length init + 1 - 1)%nat with (length init) by lia.
      rewrite take_app_length.
      rewrite !diffText1_app, !diffText2_app, !diffText1_single,
        !diffText2_single. unfold set_text. cbn [d_op d_text]. op_simpl.
      rewrite substring_0, clamp_in by (unfold extra; lia).
      split_and!; [done| |];
        rewrite <- ?app_assoc; cbn [app]; by rewrite take_drop.
  - (* No diff at all. *)
    destruct Ht as [(d & Hd & _)| ->]; [done|].
    apply last_None in Hlast.
    exists b, []. cbn [p_diffs p_start2 app]. rewrite Hlast.
    rewrite diffText1_single, diffText2_single. cbn [d_op d_text]. op_simpl.
    change (diffText1 []) with (@nil Z). change (diffText2 []) with (@nil Z).
    split_and!; rewrite ?app_nil_r; done.
Qed.

Lemma bump_all_ready (X Y : jstring) (ps : list Patch) :
  anchored (patchMargin cfg) X ps Y ->
  chain (ready_at (patchMargin cfg) (nullPadding cfg))
    (nullPadding cfg ++ X ++ nullPadding cfg) (map (bump cfg) ps)
    (nullPadding cfg ++ Y ++ nullPadding cfg).
Proof.
  revert X. induction ps as [|p ps IH]; intros X.
  - cbn [chain map]. unfold anchored. cbn [chain]. by intros ->.
  - intros (mid & Hp & Hps). cbn [map chain].
    exists (nullPadding cfg ++ mid ++ nullPadding cfg).
    split; [by apply bump_ready|by apply IH].
Qed.

Lemma pad_last_chain (X Y : jstring) (qs : list Patch) (l : Patch) :
  last qs = Some l ->
  chain (ready_at (patchMargin cfg) (nullPadding cfg)) X qs Y ->
  applies X (take (length qs - 1) qs ++ [pad_last cfg l]) Y.
Proof.
  intros Hlast Hqs. rewrite (last_split _ _ Hlast) in Hqs.
  apply chain_app_inv in Hqs as (mid & Hinit & (y & Hl & ->)).
  eapply chain_app.
  - eapply chain_mono; [|exact Hinit]. apply ready_at_applies.
  - exists y. split; [by apply pad_last_applies|done].
Qed.

(** [patchAddPadding] on anchored patches: the padded patches apply to
    the padded text. *)
Lemma patchAddPadding_applies (X Y : jstring) (ps : list Patch) :
  ps <> [] ->
  anchored (patchMargin cfg) X ps Y ->
  exists ps',
    patchAddPadding cfg ps = Ok (ps', nullPadding cfg)
    /\ applies (nullPadding cfg ++ X ++ nullPadding cfg) ps'
         (nullPadding cfg ++ Y ++ nullPadding cfg).
Proof.
  intros Hne Hps. destruct ps as [|p ps]; [done|].
  destruct Hps as (mid & Hp & Hps).
  unfold patchAddPadding. cbn [map].
  set (qs := pad_first cfg (bump cfg p) :: map (bump cfg) ps).
  assert (chain (ready_at (patchMargin cfg) (nullPadding cfg))
            (nullPadding cfg ++ X ++ nullPadding cfg) qs
            (nullPadding cfg ++ Y ++ nullPadding cfg)) as Hqs.
  { exists (nullPadding cfg ++ mid ++ nullPadding cfg).
    split; [by apply pad_first_ready|by apply bump_all_ready]. }
  destruct (last qs) as [l|] eqn:Hlast; [|by apply last_None in Hlast].
  eexists. split; [reflexivity|]. by apply pad_last_chain.
Qed.

End PadApplies.

(** *** Splitting keeps the patches applicable *)

Lemma substring_cut (t : jstring) (k : Z) :
  substring t 0 k ++ substring_from t (len (substring t 0 k)) = t.
Proof.
  rewrite substring_0. pose proof (clamp_le k t).
  rewrite len_take by done. unfold substring_from.
  rewrite (clamp_in (Z.of_nat (clamp k t))) by (unfold len; lia).
  rewrite Nat2Z.id. apply take_drop.
Qed.

(** What is left of a deletion or an equality after its first part has
    been taken. *)
Lemma cut_texts (op : Op) (text : jstring) (k : Z) (rest : list Diff) :
  op <> DIFF_INSERT ->
  let cut := substring text 0 k in
  let big' :=
    if str_eqb cut text then rest
    else set_text (mkDiff op text) (substring_from text (len cut)) :: rest in
  diffText1 (mkDiff op text :: rest) = diffText1 [mkDiff op cut] ++ diffText1 big'
  /\ diffText2 (mkDiff op text :: rest)
     = diffText2 [mkDiff op cut] ++ diffText2 big'.
Proof.
  intros Hop cut big'. unfold big'.
  pose proof (substring_cut text k) as Hcut. fold cut in Hcut.
  destruct (str_eqb cut text) eqn:Hall.
  - apply str_eqb_eq in Hall. rewrite Hall.
    rewrite diffText1_single, diffText2_single, !diffText1_cons,
      !diffText2_cons. cbn [d_op d_text].
    by destruct op; op_simpl.
  - unfold set_text.
    rewrite diffText1_single, diffText2_single, !diffText1_cons,
      !diffText2_cons. cbn [d_op d_text].
    destruct op; op_simpl; try done; by rewrite ?app_assoc, ?Hcut.
Qed.

Section SplitApplies.

Variable cfg : Config.

Lemma split_fill_texts (fuel : nat) (s s' : SplitState) :
  split_fill fuel cfg s = Some s' ->
  exists chunk,
    p_diffs (sp_patch s') = p_diffs (sp_patch s) ++ chunk
    /\ p_start2 (sp_patch s') = p_start2 (sp_patch s)
    /\ diffText1 (sp_bigdiffs s) = diffText1 chunk ++ diffText1 (sp_bigdiffs s')
    /\ diffText2 (sp_bigdiffs s) = diffText2 chunk ++ diffText2 (sp_bigdiffs s')
    /\ sp_start2 s' = sp_start2 s + len (diffText2 chunk)
    /\ (sp_empty s' = true ->
        sp_empty s = true /\ diffText1 chunk = diffText2 chunk).
Proof.
  assert (forall s0 : SplitState,
            exists chunk,
              p_diffs (sp_patch s0) = p_diffs (sp_patch s0) ++ chunk
              /\ p_start2 (sp_patch s0) = p_start2 (sp_patch s0)
              /\ diffText1 (sp_bigdiffs s0)
                 = diffText1 chunk ++ diffText1 (sp_bigdiffs s0)
              /\ diffText2 (sp_bigdiffs s0)
                 = diffText2 chunk ++ diffText2 (sp_bigdiffs s0)
              /\ sp_start2 s0 = sp_start2 s0 + len (diffText2 chunk)
              /\ (sp_empty s0 = true ->
                  sp_empty s0 = true /\ diffText1 chunk = diffText2 chunk))
    as Hstop.
  { intros s0. exists []. rewrite app_nil_r.
    change (diffText2 []) with (@nil Z). rewrite len_nil, Z.add_0_r.
    split_and!; done. }
  revert s.
  induction fuel as [|fuel IH];
    intros [bigdiffs patch start1 start2 empty] Hrun; cbn [split_fill] in Hrun.
  - destruct bigdiffs as [|d rest]; [injection Hrun as <-; apply Hstop|].
    destruct (p_length1 patch <? matchMaxBits cfg - patchMargin cfg);
      [done|injection Hrun as <-; apply Hstop].
  - destruct bigdiffs as [|[op text] rest]; [injection Hrun as <-; apply Hstop|].
    destruct (p_length1 patch <? matchMaxBits cfg - patchMargin cfg);
      [|injection Hrun as <-; apply Hstop].
    cbn [d_op d_text] in Hrun.
    destruct (op_eqb op DIFF_INSERT) eqn:Hins.
    { (* Insertions are harmless. *)
      apply bool_decide_eq_true in Hins. subst op.
      apply IH in Hrun as (chunk & Hd & Hs & H1 & H2 & Hst & He).
      cbn [sp_bigdiffs sp_patch sp_start2 sp_empty p_diffs p_start2] in *.
      exists (mkDiff DIFF_INSERT text :: chunk).
      rewrite Hd, <- app_assoc, diffText1_cons, !diffText2_cons, H1, H2.
      cbn [d_op d_text]. op_simpl. rewrite len_app.
      split_and!; rewrite <- ?app_assoc; try done; try lia.
      intros Hempty. by destruct (He Hempty). }
    assert (op <> DIFF_INSERT) as Hop.
    { intros ->. by vm_compute in Hins. }
    match type of Hrun with
    | (if ?c then _ else _) = _ => destruct c eqn:Hlarge
    end.
    { (* A large deletion passes in one chunk. *)
      assert (op = DIFF_DELETE) as ->.
      { rewrite !andb_true_iff in Hlarge.
        destruct Hlarge as [[[Hdel _] _] _]. by apply bool_decide_eq_true in Hdel. }
      apply IH in Hrun as (chunk & Hd & Hs & H1 & H2 & Hst & He).
      cbn [sp_bigdiffs sp_patch sp_start2 sp_empty p_diffs p_start2] in *.
      exists (mkDiff DIFF_DELETE text :: chunk).
      rewrite Hd, <- app_assoc, !diffText1_cons, !diffText2_cons, H1, H2.
      cbn [d_op d_text]. op_simpl.
      split_and!; rewrite <- ?app_assoc; try done; try lia.
      intros Hempty. by destruct (He Hempty). }
    (* Deletion or equality: only as much as fits. *)
    apply IH in Hrun as (chunk & Hd & Hs & H1 & H2 & Hst & He).
    cbn [sp_bigdiffs sp_patch sp_start2 sp_empty p_diffs p_start2] in *.
    set (cut := substring text 0
                  (matchMaxBits cfg - p_length1 patch - patchMargin cfg)) in *.
    destruct (cut_texts op text
                (matchMaxBits cfg - p_length1 patch - patchMargin cfg) rest Hop)
      as [Hc1 Hc2].
    fold cut in Hc1, Hc2. cbv zeta in Hc1, Hc2.
    exists (mkDiff op cut :: chunk).
    rewrite Hd, <- app_assoc, Hc1, Hc2, H1, H2.
    rewrite diffText1_single, diffText2_single,
      (diffText1_cons (mkDiff op cut)), (diffText2_cons (mkDiff op cut)).
    cbn [d_op d_text].
    destruct op; [|done|]; op_simpl.
    + split_and!; rewrite <- ?app_assoc; try done; try lia.
      intros Hempty. by destruct (He Hempty).
    + rewrite len_app. split_and!; rewrite <- ?app_assoc; try done; try lia.
      intros Hempty. destruct (He Hempty) as [? ->]. done.
Qed.

Lemma add_postcontext_texts (p : Patch) (post : jstring) :
  diffText1 (p_diffs (add_postcontext p post)) = diffText1 (p_diffs p) ++ post
  /\ diffText2 (p_diffs (add_postcontext p post))
     = diffText2 (p_diffs p) ++ post
  /\ p_start2 (add_postcontext p post) = p_start2 p.
Proof.
  unfold add_postcontext.
  destruct (str_eqb post []) eqn:Hnil.
  { apply str_eqb_eq in Hnil as ->. by rewrite !app_nil_r. }
  cbn [p_diffs p_start2].
  destruct (last (p_diffs p)) as [[op e]|] eqn:Hlast.
  - cbn [d_op d_text]. destruct (op_eqb op DIFF_EQUAL) eqn:Hop.
    + apply bool_decide_eq_true in Hop. subst op.
      apply last_Some in Hlast as [init ->].
      rewrite length_app. cbn [length].
      replace (length init + 1 - 1)%nat with (length init) by lia.
      rewrite take_app_length. unfold set_text.
      rewrite !diffText1_app, !diffText2_app, !diffText1_single,
        !diffText2_single. cbn [d_op d_text]. op_simpl.
      by rewrite <- !app_assoc.
    + rewrite diffText1_app, diffText2_app, diffText1_single,
        diffText2_single. cbn [d_op d_text]. by op_simpl.
  - rewrite diffText1_app, diffText2_app, diffText1_single,
      diffText2_single. cbn [d_op d_text]. by op_simpl.
Qed.

(** The fragments of one patch apply one after the other where the patch
    did: [W ++ precontext] is what lies before the diffs still to be
    packed. *)
Lemma split_big_applies (fuel : nat) (bigdiffs : list Diff)
    (start1 start2 : Z) (precontext : jstring) (acc out : list Patch)
    (W after : jstring) :
  split_big fuel cfg bigdiffs start1 start2 precontext acc = Some out ->
  start2 = len W + len precontext ->
  exists new,
    out = acc ++ new
    /\ applies (W ++ precontext ++ diffText1 bigdiffs ++ after) new
         (W ++ precontext ++ diffText2 bigdiffs ++ after).
Proof.
  revert bigdiffs start1 start2 precontext acc W.
  induction fuel as [|fuel IH];
    intros bigdiffs start1 start2 pre acc W Hrun Hstart.
  - destruct bigdiffs as [|d rest]; [|done].
    injection Hrun as <-. exists []. by rewrite app_nil_r.
  - destruct bigdiffs as [|d rest].
    { injection Hrun as <-. exists []. by rewrite app_nil_r. }
    cbn [split_big] in Hrun.
    set (big := d :: rest) in *.
    set (patch0 := if str_eqb pre [] then _ else _) in Hrun.
    assert (diffText1 (p_diffs patch0) = pre
            /\ diffText2 (p_diffs patch0) = pre
            /\ p_start2 patch0 = Some (len W)) as (H01 & H02 & H0s).
    { unfold patch0. destruct (str_eqb pre []) eqn:Hnil; cbn [p_diffs p_start2].
      - apply str_eqb_eq in Hnil as ->. split_and!; [done|done|].
        f_equal. lia.
      - rewrite diffText1_single, diffText2_single. cbn [d_op d_text].
        op_simpl. split_and!; [done|done|]. f_equal. lia. }
    destruct (split_fill _ cfg (mkSplit big patch0 start1 start2 true))
      as [[big' patch' start1' start2' empty]|] eqn:Hfill; [|done].
    cbn [mbind option_bind] in Hrun.
    apply split_fill_texts in Hfill as (chunk & Hd & Hs & H1 & H2 & Hst & He).
    cbn [sp_bigdiffs sp_patch sp_start2 sp_empty] in *.
    set (text2 := diffText2 (p_diffs patch')) in *.
    set (pre' := substring_from text2 (len text2 - patchMargin cfg)) in *.
    set (post := substring (diffText1 big') 0 (patchMargin cfg)) in *.
    assert (text2 = pre ++ diffText2 chunk) as Htext2
      by (unfold text2; by rewrite Hd, diffText2_app, H02).
    set (W' := W ++ substring text2 0 (len text2 - patchMargin cfg)).
    assert (W' ++ pre' = W ++ pre ++ diffText2 chunk) as HW'.
    { unfold W', pre'. by rewrite <- app_assoc, substring_split, Htext2. }
    assert (start2' = len W' + len pre') as Hstart'.
    { rewrite <- len_app, HW', !len_app. lia. }
    destruct (IH _ _ _ _ _ W' Hrun Hstart') as (new' & Hout & Hnew').
    rewrite !app_assoc, HW', <- !app_assoc in Hnew'.
    rewrite H1, H2, <- !app_assoc.
    destruct empty.
    + (* Only equalities were packed: the fragment is dropped. *)
      destruct (He eq_refl) as [_ Hsame].
      exists new'. split; [done|]. by rewrite Hsame.
    + exists (add_postcontext patch' post :: new').
      split; [by rewrite Hout, <- app_assoc|].
      destruct (add_postcontext_texts patch' post) as (Hp1 & Hp2 & Hps).
      exists (W ++ pre ++ diffText2 chunk ++ diffText1 big' ++ after).
      split; [|exact Hnew'].
      exists W, (substring_from (diffText1 big') (patchMargin cfg) ++ after).
      rewrite Hp1, Hp2, Hps, Hs, Hd, diffText1_app, diffText2_app, H01, H02.
      split_and!; [done| |]; rewrite <- !app_assoc; unfold post;
        by rewrite (app_assoc (substring _ _ _)), substring_split.
Qed.

Lemma patchSplitMax_applies (X Y : jstring) (ps out : list Patch) :
  patchSplitMax cfg ps = Some out -> applies X ps Y -> applies X out Y.
Proof.
  revert X out. induction ps as [|p ps IH]; intros X out Hrun Hps.
  - by injection Hrun as <-.
  - cbn [patchSplitMax] in Hrun.
    destruct Hps as (mid & (b & a & Hs & -> & ->) & Hps).
    destruct (patchSplitMax cfg ps) as [tail|] eqn:Htail.
    2:{ by destruct (if p_length1 p <=? matchMaxBits cfg then _ else _). }
    specialize (IH _ _ eq_refl Hps).
    destruct (p_length1 p <=? matchMaxBits cfg).
    + injection Hrun as <-. exists (b ++ diffText2 (p_diffs p) ++ a).
      split; [by exists b, a|done].
    + destruct (split_big _ cfg (p_diffs p) _ _ [] []) as [head|] eqn:Hhead;
        [|done].
      injection Hrun as <-.
      apply (split_big_applies _ _ _ _ _ _ _ b a) in Hhead
        as (new & -> & Hnew).
      * eapply chain_app; [exact Hnew|exact IH].
      * rewrite Hs, num_Some, len_nil. lia.
Qed.

End SplitApplies.

(** *** Applying patches that fit *)

Lemma matchMain_exact (cfg : Config) (before pattern after : jstring) :
  matchMain cfg (before ++ pattern ++ after) pattern (len before)
  = Some (Ok (len before)).
Proof.
  unfold matchMain.
  pose proof (len_nonneg before) as Hb. pose proof (len_nonneg pattern) as Hp.
  pose proof (len_nonneg after) as Ha.
  assert (len (before ++ pattern ++ after)
          = len before + len pattern + len after) as Hlen
    by (rewrite !len_app; lia).
  replace (Z.max 0 (Z.min (len before) (len (before ++ pattern ++ after))))
    with (len before) by lia.
  destruct (str_eqb (before ++ pattern ++ after) pattern) eqn:Hsame.
  { apply str_eqb_eq in Hsame. rewrite Hsame in Hlen.
    do 2 f_equal. lia. }
  destruct (Z.eqb_spec (len (before ++ pattern ++ after)) 0) as [Hnil|_].
  { apply str_eqb_neq in Hsame. destruct Hsame.
    assert (before = []) as -> by (apply len_zero_nil; lia).
    assert (pattern = []) as -> by (apply len_zero_nil; lia).
    assert (after = []) as -> by (apply len_zero_nil; lia). done. }
  rewrite substring_after by lia.
  unfold len at 1. rewrite Nat2Z.id, take_app_length.
  by rewrite (proj2 (str_eqb_eq pattern pattern) eq_refl).
Qed.

Lemma matchMain_at (cfg : Config) (text before pattern after : jstring) :
  text = before ++ pattern ++ after ->
  matchMain cfg text pattern (len before) = Some (Ok (len before)).
Proof. intros ->. apply matchMain_exact. Qed.

Lemma patchDeepCopy_same (patches : list Patch) :
  patchDeepCopy patches = patches.
Proof.
  unfold patchDeepCopy. rewrite <- (map_id patches) at 2.
  apply map_ext. intros [diffs s1 s2 l1 l2]. cbn [p_diffs p_start1 p_start2
    p_length1 p_length2]. f_equal.
  rewrite <- (map_id diffs) at 2. apply map_ext. by intros [op t].
Qed.

Section ApplyExact.

Variable cfg : Config.
Variable now : nat -> Z.
Hypothesis maxbits_nonneg : 0 <= matchMaxBits cfg.

Lemma apply_locate_exact (before text1 after : jstring) :
  exists endLoc,
    apply_locate cfg (before ++ text1 ++ after) text1 (len before)
    = Some (Ok (len before, endLoc))
    /\ (if endLoc =? -1 then len before + len text1
        else endLoc + matchMaxBits cfg) = len before + len text1.
Proof.
  unfold apply_locate.
  pose proof (len_nonneg before) as Hb.
  destruct (Z.ltb_spec (matchMaxBits cfg) (len text1)) as [Hbig|Hsmall].
  - (* An oversized pattern: its two ends are looked for. *)
    set (n := Z.to_nat (matchMaxBits cfg)).
    set (k := Z.to_nat (len text1 - matchMaxBits cfg)).
    assert (substring text1 0 (matchMaxBits cfg) = take n text1) as ->.
    { rewrite substring_0, clamp_in by lia. done. }
    assert (substring_from text1 (len text1 - matchMaxBits cfg)
            = drop k text1) as ->.
    { rewrite substring_from_in by lia. done. }
    rewrite (matchMain_at cfg _ before (take n text1) (drop n text1 ++ after))
      by (by rewrite (app_assoc (take _ _)), take_drop).
    cbn [mbind option_bind].
    destruct (Z.eqb_spec (len before) (-1)); [lia|]. cbn [negb].
    assert (len (before ++ take k text1)
            = len before + len text1 - matchMaxBits cfg) as Hend.
    { rewrite len_app, len_take by (unfold k, len in *; lia). unfold k. lia. }
    rewrite <- Hend.
    rewrite (matchMain_at cfg _ (before ++ take k text1) (drop k text1) after)
      by (by rewrite <- app_assoc, (app_assoc (take _ _)), take_drop).
    cbn [mbind option_bind]. rewrite Hend.
    destruct (Z.eqb_spec (len before + len text1 - matchMaxBits cfg) (-1));
      [lia|].
    destruct (Z.leb_spec (len before + len text1 - matchMaxBits cfg)
                (len before)); [lia|].
    cbn [orb]. eexists. split; [reflexivity|].
    destruct (Z.eqb_spec (len before + len text1 - matchMaxBits cfg) (-1));
      lia.
  - rewrite matchMain_exact. cbn [mbind option_bind].
    exists (-1). by split.
Qed.

Lemma apply_step_exact (X Y : jstring) (p : Patch) (results : list bool)
    (clk : nat) :
  applies_at X p Y ->
  apply_step cfg now p (mkApply X 0 results clk)
  = Some (Ok (mkApply Y 0 (results ++ [true]) clk)).
Proof.
  intros (b & a & Hs & -> & ->). unfold apply_step.
  rewrite Hs, num_Some, Z.add_0_r.
  destruct (apply_locate_exact b (diffText1 (p_diffs p)) a)
    as (endLoc & -> & Hend).
  cbn [mbind option_bind].
  pose proof (len_nonneg b) as Hb.
  destruct (Z.eqb_spec (len b) (-1)); [lia|].
  assert ((if endLoc =? -1
           then substring (b ++ diffText1 (p_diffs p) ++ a) (len b)
                  (len b + len (diffText1 (p_diffs p)))
           else substring (b ++ diffText1 (p_diffs p) ++ a) (len b)
                  (endLoc + matchMaxBits cfg))
          = diffText1 (p_diffs p)) as ->.
  { assert (substring (b ++ diffText1 (p_diffs p) ++ a) (len b)
              (len b + len (diffText1 (p_diffs p)))
            = diffText1 (p_diffs p)) as Hsub.
    { rewrite substring_after by apply len_nonneg.
      unfold len at 1. by rewrite Nat2Z.id, take_app_length. }
    destruct (endLoc =? -1); [done|]. by rewrite Hend. }
  rewrite (proj2 (str_eqb_eq _ _) eq_refl).
  rewrite substring_0_app.
  rewrite <- len_app, (app_assoc b (diffText1 _) a), substring_from_app,
    Z.sub_diag.
  done.
Qed.

Lemma apply_loop_exact (X Y : jstring) (ps : list Patch)
    (results : list bool) (clk : nat) :
  applies X ps Y ->
  apply_loop cfg now ps (mkApply X 0 results clk)
  = Some (Ok (mkApply Y 0 (results ++ map (fun _ => true) ps) clk)).
Proof.
  revert X results. induction ps as [|p ps IH]; intros X results.
  - intros ->. cbn [apply_loop map]. by rewrite app_nil_r.
  - intros (mid & Hp & Hps). cbn [apply_loop map].
    rewrite (apply_step_exact _ _ _ _ _ Hp). cbn [mbind option_bind].
    rewrite (IH _ _ Hps). by rewrite <- app_assoc.
Qed.

End ApplyExact.

(** *** From a script to patches, and back onto the text *)

Section ApplyAnchored.

Variable cfg : Config.
Variable now : nat -> Z.
Hypothesis margin_nonneg : 0 <= patchMargin cfg.
Hypothesis margin_small : 2 * patchMargin cfg < matchMaxBits cfg.

Lemma patchSplitMax_keeps_applies (X Y : jstring) (ps : list Patch) :
  applies X ps Y ->
  exists out, patchSplitMax cfg ps = Some out /\ applies X out Y.
Proof.
  intros Hps.
  destruct (patchSplitMax_spec cfg margin_nonneg margin_small ps)
    as (out & Hout & _).
  exists out. split; [done|]. by eapply patchSplitMax_applies.
Qed.

Lemma patchApply_anchored (T T' : jstring) (ps : list Patch) :
  anchored (patchMargin cfg) T ps T' ->
  exists flags,
    patchApply cfg now ps T = Some (Ok (T', flags))
    /\ Forall (fun ok => ok = true) flags.
Proof.
  intros Hps. destruct ps as [|p ps].
  { exists []. split; [|done]. unfold anchored in Hps. cbn [chain] in Hps.
    by rewrite Hps. }
  unfold patchApply. rewrite patchDeepCopy_same.
  destruct (patchAddPadding_applies cfg margin_nonneg T T' (p :: ps)
              ltac:(done) Hps) as (padded & -> & Hpadded).
  destruct (patchSplitMax_keeps_applies _ _ _ Hpadded) as (out & -> & Hout).
  cbn [mbind option_bind].
  rewrite (apply_loop_exact cfg now ltac:(lia) _ _ _ [] 0%nat Hout).
  cbn [mbind option_bind ap_text ap_results app].
  exists (map (fun _ => true) out). split.
  - do 3 f_equal.
    replace (len (nullPadding cfg ++ T' ++ nullPadding cfg)
             - len (nullPadding cfg))
      with (len (nullPadding cfg) + len T') by (rewrite !len_app; lia).
    apply substring_middle.
  - apply Forall_map. by apply Forall_true.
Qed.

End ApplyAnchored.

(** X13.  The patches [patchMake] builds from a script, given alone or
    with the source text of the script, apply one after the other to the
    source text, each exactly at its [start2] and with [patchMargin] code
    units of context or the edge of the text on either side; together
    they turn the source text into the destination text of the script. *)
Theorem X13_patchMake_anchored (cfg : Config) (now : nat -> Z)
    (diffs : list Diff) :
  0 < patchMargin cfg ->
  exists patches,
    patchMake cfg now (ADiffs diffs) AUndefined AUndefined = Some (Ok patches)
    /\ patchMake cfg now (AString (diffText1 diffs)) (ADiffs diffs) AUndefined
       = Some (Ok patches)
    /\ anchored (patchMargin cfg) (diffText1 diffs) patches (diffText2 diffs).
Proof.
  intros Hmargin.
  destruct (patchMake_diffs_anchored cfg Hmargin (diffText1 diffs) diffs
              eq_refl) as (patches & Hmake & Hanch).
  exists patches. by cbn [patchMake].
Qed.

Lemma X13_patchMake_anchored_witness :
  exists patches,
    patchMake default_config wall_clock
      (ADiffs [mkDiff DIFF_EQUAL (str "The quick ");
               mkDiff DIFF_DELETE (str "brown");
               mkDiff DIFF_INSERT (str "red");
               mkDiff DIFF_EQUAL (str " fox")]) AUndefined AUndefined
    = Some (Ok patches)
    /\ patchMake default_config wall_clock
         (AString (diffText1 [mkDiff DIFF_EQUAL (str "The quick ");
                              mkDiff DIFF_DELETE (str "brown");
                              mkDiff DIFF_INSERT (str "red");
                              mkDiff DIFF_EQUAL (str " fox")]))
         (ADiffs [mkDiff DIFF_EQUAL (str "The quick ");
                  mkDiff DIFF_DELETE (str "brown");
                  mkDiff DIFF_INSERT (str "red");
                  mkDiff DIFF_EQUAL (str " fox")]) AUndefined
       = Some (Ok patches)
    /\ anchored (patchMargin default_config)
         (diffText1 [mkDiff DIFF_EQUAL (str "The quick ");
                     mkDiff DIFF_DELETE (str "brown");
                     mkDiff DIFF_INSERT (str "red");
                     mkDiff DIFF_EQUAL (str " fox")])
         patches
         (diffText2 [mkDiff DIFF_EQUAL (str "The quick ");
                     mkDiff DIFF_DELETE (str "brown");
                     mkDiff DIFF_INSERT (str "red");
                     mkDiff DIFF_EQUAL (str " fox")]).
Proof.
  apply (X13_patchMake_anchored default_config wall_clock). simpl. lia.
Defined.

(** X14.  [patchAddPadding] keeps anchored patches applicable: the padded
    patches apply, one after the other and each exactly at its [start2],
    to the text with the padding string on both sides, and give the
    result with the padding string on both sides. *)
Theorem X14_patchAddPadding_applies (cfg : Config) (text text' : jstring)
    (patches : list Patch) :
  0 <= patchMargin cfg -> patches <> [] ->
  anchored (patchMargin cfg) text patches text' ->
  exists padded,
    patchAddPadding cfg patches = Ok (padded, nullPadding cfg)
    /\ applies (nullPadding cfg ++ text ++ nullPadding cfg) padded
         (nullPadding cfg ++ text' ++ nullPadding cfg).
Proof. intros Hmargin Hne Hps. by apply patchAddPadding_applies. Qed.

Lemma X14_patchAddPadding_applies_witness :
  exists padded,
    patchAddPadding default_config
      [mkPatch [mkDiff DIFF_EQUAL (str "ab"); mkDiff DIFF_DELETE (str "cd");
                mkDiff DIFF_INSERT (str "XYZ"); mkDiff DIFF_EQUAL (str "ef")]
         (Some 0) (Some 0) 6 7]
    = Ok (padded, nullPadding default_config)
    /\ applies
         (nullPadding default_config ++ str "abcdef"
            ++ nullPadding default_config) padded
         (nullPadding default_config ++ str "abXYZef"
            ++ nullPadding default_config).
Proof.
  apply (X14_patchAddPadding_applies default_config).
  - simpl. lia.
  - discriminate.
  - exists (str "abXYZef"). split; [|reflexivity].
    exists [], []. split_and!; try reflexivity; by right.
Defined.

(** X15.  [patchSplitMax] returns, and keeps the patches applicable: if
    the patches apply one after the other, each exactly at its [start2],
    then so do the patches it leaves, with the same final text. *)
Theorem X15_patchSplitMax_applies (cfg : Config) (text text' : jstring)
    (patches : list Patch) :
  0 <= patchMargin cfg -> 2 * patchMargin cfg < matchMaxBits cfg ->
  applies text patches text' ->
  exists out, patchSplitMax cfg patches = Some out /\ applies text out text'.
Proof. intros Hm Hs Hps. by apply patchSplitMax_keeps_applies. Qed.

Lemma X15_patchSplitMax_applies_witness :
  exists out,
    patchSplitMax default_config [c6_patch] = Some out
    /\ applies (diffText1 c6_diffs) out (diffText2 c6_diffs).
Proof.
  apply (X15_patchSplitMax_applies default_config).
  - simpl. lia.
  - simpl. lia.
  - exists (diffText2 c6_diffs). split; [|reflexivity].
    exists [], []. split_and!; by rewrite ?app_nil_r.
Defined.

(** X16.  [patchApply] on anchored patches returns the text they lead
    to, with every flag true: no patch is dropped, moved or applied
    approximately. *)
Theorem X16_patchApply_anchored (cfg : Config) (now : nat -> Z)
    (text text' : jstring) (patches : list Patch) :
  0 <= patchMargin cfg -> 2 * patchMargin cfg < matchMaxBits cfg ->
  anchored (patchMargin cfg) text patches text' ->
  exists flags,
    patchApply cfg now patches text = Some (Ok (text', flags))
    /\ Forall (fun ok => ok = true) flags.
Proof. intros Hm Hs Hps. by apply patchApply_anchored. Qed.

Lemma X16_patchApply_anchored_witness :
  exists flags,
    patchApply default_config wall_clock
      [mkPatch [mkDiff DIFF_EQUAL (str "ab"); mkDiff DIFF_DELETE (str "cd");
                mkDiff DIFF_INSERT (str "XYZ"); mkDiff DIFF_EQUAL (str "ef")]
         (Some 0) (Some 0) 6 7]
      (str "abcdef")
    = Some (Ok (str "abXYZef", flags))
    /\ Forall (fun ok => ok = true) flags.
Proof.
  apply (X16_patchApply_anchored default_config wall_clock).
  - simpl. lia.
  - simpl. lia.
  - exists (str "abXYZef"). split; [|reflexivity].
    exists [], []. split_and!; try reflexivity; by right.
Defined.

(** X17.  Round trip of [patchMake] and [patchApply]: the patches made
    from a script, applied to the source text of the script, give its
    destination text, and every patch is reported as applied. *)
Theorem X17_patchMake_patchApply (cfg : Config) (now : nat -> Z)
    (diffs : list Diff) :
  0 < patchMargin cfg -> 2 * patchMargin cfg < matchMaxBits cfg ->
  exists patches flags,
    patchMake cfg now (ADiffs diffs) AUndefined AUndefined = Some (Ok patches)
    /\ patchApply cfg now patches (diffText1 diffs)
       = Some (Ok (diffText2 diffs, flags))
    /\ Forall (fun ok => ok = true) flags.
Proof.
  intros Hmargin Hsmall.
  destruct (patchMake_diffs_anchored cfg Hmargin (diffText1 diffs) diffs
              eq_refl) as (patches & Hmake & Hanch).
  destruct (patchApply_anchored cfg now ltac:(lia) Hsmall _ _ _ Hanch)
    as (flags & Happly & Hflags).
  by exists patches, flags.
Qed.

Lemma X17_patchMake_patchApply_witness :
  exists patches flags,
    patchMake default_config wall_clock
      (ADiffs [mkDiff DIFF_EQUAL (str "The quick ");
               mkDiff DIFF_DELETE (str "brown");
               mkDiff DIFF_INSERT (str "red");
               mkDiff DIFF_EQUAL (str " fox")]) AUndefined AUndefined
    = Some (Ok patches)
    /\ patchApply default_config wall_clock patches
         (diffText1 [mkDiff DIFF_EQUAL (str "The quick ");
                     mkDiff DIFF_DELETE (str "brown");
                     mkDiff DIFF_INSERT (str "red");
                     mkDiff DIFF_EQUAL (str " fox")])
       = Some (Ok (diffText2 [mkDiff DIFF_EQUAL (str "The quick ");
                              mkDiff DIFF_DELETE (str "brown");
                              mkDiff DIFF_INSERT (str "red");
                              mkDiff DIFF_EQUAL (str " fox")], flags))
    /\ Forall (fun ok => ok = true) flags.
Proof.
  apply (X17_patchMake_patchApply default_config wall_clock); simpl; lia.
Defined.

(** X18.  [matchMain] returns the expected location whenever the pattern
    occurs exactly there, whatever the length of the pattern: no other
    location, no [-1] and no error. *)
Theorem X18_matchMain_exact (cfg : Config) (before pattern after : jstring) :
  matchMain cfg (before ++ pattern ++ after) pattern (len before)
  = Some (Ok (len before)).
Proof. apply matchMain_exact. Qed.

(** ** [diffCleanupMerge] returns, and keeps the texts of the script *)

Lemma get_middle {A} (pre post : list A) (x : A) (i : Z) :
  i = len pre -> get (pre ++ x :: post) i = Some x.
Proof.
  intros ->. unfold get. pose proof (len_nonneg pre).
  destruct (Z.leb_spec 0 (len pre)); [|lia].
  unfold len. rewrite Nat2Z.id. by apply list_lookup_middle.
Qed.

Lemma set_at_middle {A} (pre post : list A) (x y : A) (i : Z) :
  i = len pre -> set_at (pre ++ x :: post) i y = pre ++ y :: post.
Proof.
  intros ->. unfold set_at. pose proof (len_nonneg pre).
  destruct (Z.leb_spec 0 (len pre)); [|lia].
  unfold len. rewrite Nat2Z.id. by rewrite insert_app_r_alt, Nat.sub_diag.
Qed.

Lemma splice_middle {A} (pre mid post ins : list A) (i n : Z) :
  i = len pre -> n = len mid ->
  splice (pre ++ mid ++ post) i n ins = pre ++ ins ++ post.
Proof.
  intros -> ->. unfold splice, len. rewrite !Nat2Z.id.
  rewrite take_app_length. f_equal. f_equal.
  rewrite drop_app_add', drop_app_length; done.
Qed.

Lemma splice_insert {A} (pre post ins : list A) (i : Z) :
  i = len pre -> splice (pre ++ post) i 0 ins = pre ++ ins ++ post.
Proof. intros Hi. by apply (splice_middle pre [] post). Qed.

Lemma splice_insert_snoc {A} (pre post ins : list A) (x : A) (i : Z) :
  i = len pre + 1 -> splice (pre ++ x :: post) i 0 ins = pre ++ x :: ins ++ post.
Proof.
  intros Hi. rewrite (cons_middle x pre post), app_assoc.
  rewrite (splice_insert (pre ++ [x]))
    by (rewrite len_app, len_cons, len_nil; lia).
  by rewrite <- app_assoc.
Qed.

Lemma splice_remove_after {A} (pre post : list A) (x y : A) (i : Z) :
  i = len pre + 1 -> splice (pre ++ x :: y :: post) i 1 [] = pre ++ x :: post.
Proof.
  intros Hi. rewrite (cons_middle x pre (y :: post)), app_assoc.
  rewrite (splice_middle (pre ++ [x]) [y] post [])
    by (rewrite ?len_app, ?len_cons, ?len_nil; lia).
  by rewrite <- app_assoc.
Qed.

(** *** The weight of a script *)

Lemma script_size_app (a b : list Diff) :
  script_size (a ++ b) = (script_size a + script_size b)%nat.
Proof.
  unfold script_size. rewrite map_app.
  induction (map _ a) as [|x l IH]; simpl; lia.
Qed.

Lemma weight_app (a b : list Diff) : weight (a ++ b) = weight a + weight b.
Proof. unfold weight. rewrite len_app, script_size_app. lia. Qed.

Lemma weight_cons (d : Diff) (ds : list Diff) :
  weight (d :: ds) = 1 + len (d_text d) + weight ds.
Proof. unfold weight, script_size, len. simpl. lia. Qed.

Lemma weight_nil : weight [] = 0.
Proof. reflexivity. Qed.

Lemma weight_nonneg (ds : list Diff) : 0 <= weight ds.
Proof. unfold weight. pose proof (len_nonneg ds). lia. Qed.

Lemma weight_edits (run : list Diff) :
  Forall (fun d => d_op d <> DIFF_EQUAL) run ->
  weight run = len run + len (diffText1 run) + len (diffText2 run).
Proof.
  induction 1 as [|[op t] run Hop _ IH].
  - reflexivity.
  - rewrite weight_cons, len_cons, diffText1_cons, diffText2_cons, !len_app, IH.
    cbn [d_op d_text] in *. destruct op; [| |done]; op_simpl;
      rewrite len_nil; lia.
Qed.

Lemma trailing_range (ds : list Diff) : 0 <= trailing ds <= 1.
Proof.
  unfold trailing. destruct (last ds) as [d|]; [|lia].
  destruct (str_eqb _ _); lia.
Qed.

Lemma trailing_app_cons (a : list Diff) (d : Diff) (ds : list Diff) :
  trailing (a ++ d :: ds) = trailing (d :: ds).
Proof. unfold trailing. by rewrite last_app_cons. Qed.

Lemma trailing_cons_cons (d e : Diff) (ds : list Diff) :
  trailing (d :: e :: ds) = trailing (e :: ds).
Proof. reflexivity. Qed.

(** *** The first sweep *)

Lemma merge_factor_prefix_spec (pre rest : list Diff) (k : Z)
    (textInsert textDelete : jstring) :
  pre = [] \/ (exists pre0 e, pre = pre0 ++ [mkDiff DIFF_EQUAL e]) ->
  exists pre1 ti1 td1,
    merge_factor_prefix (pre ++ rest) (len pre + k) k textInsert textDelete
    = Some (pre1 ++ rest, len pre1 + k, ti1, td1)
    /\ diffText1 pre1 ++ td1 = diffText1 pre ++ textDelete
    /\ diffText2 pre1 ++ ti1 = diffText2 pre ++ textInsert
    /\ weight pre1 + len ti1 + len td1
       <= weight pre + len textInsert + len textDelete.
Proof.
  intros Hpre. unfold merge_factor_prefix.
  destruct (diffCommonPrefix_spec textInsert textDelete)
    as (c & -> & Hc0 & Hc1 & Hc2 & Htake).
  cbn [mbind option_bind].
  destruct (Z.eqb_spec c 0) as [->|Hc].
  { exists pre, textInsert, textDelete. split_and!; [done|done|done|lia]. }
  set (n := Z.to_nat c) in *.
  assert (substring textInsert 0 c = take n textInsert) as ->
    by (by rewrite substring_0, clamp_in by lia).
  assert (substring_from textInsert c = drop n textInsert) as ->
    by (by rewrite substring_from_in by lia).
  assert (substring_from textDelete c = drop n textDelete) as ->
    by (by rewrite substring_from_in by lia).
  assert (len (take n textInsert) = c) as Hlc
    by (rewrite len_take by (unfold n, len in *; lia); unfold n; lia).
  assert (len (drop n textInsert) = len textInsert - c) as Hli
    by (rewrite len_drop; unfold n, len in *; lia).
  assert (len (drop n textDelete) = len textDelete - c) as Hld
    by (rewrite len_drop; unfold n, len in *; lia).
  destruct Hpre as [->|(pre0 & e & ->)].
  - (* The run starts the script: a new equality goes in front. *)
    rewrite (@len_nil Diff), Z.add_0_l, Z.sub_diag. cbn [Z.ltb Z.compare app].
    cbn [mbind option_bind].
    exists [mkDiff DIFF_EQUAL (take n textInsert)], (drop n textInsert),
      (drop n textDelete).
    rewrite diffText1_single, diffText2_single. cbn [d_op d_text]. op_simpl.
    split_and!.
    + unfold splice. cbn [Z.to_nat take drop app Nat.add]. rewrite drop_0.
      do 4 f_equal. rewrite len_cons, (@len_nil Diff). lia.
    + change (diffText1 []) with (@nil Z). cbn [app].
      by rewrite Htake, take_drop.
    + by rewrite take_drop.
    + rewrite weight_cons, weight_nil. cbn [d_text]. lia.
  - (* The equality before the run takes the common prefix. *)
    rewrite len_app, len_cons, (@len_nil Diff).
    destruct (Z.ltb_spec 0 (len pre0 + (0 + 1) + k - k)) as [_|Hbad];
      [|pose proof (len_nonneg pre0); lia].
    rewrite <- app_assoc. cbn [app].
    rewrite (get_middle pre0) by lia. cbn [mbind option_bind d_op d_text].
    op_simpl. rewrite (set_at_middle pre0) by lia.
    cbn [mbind option_bind].
    exists (pre0 ++ [mkDiff DIFF_EQUAL (e ++ take n textInsert)]),
      (drop n textInsert), (drop n textDelete).
    rewrite !diffText1_app, !diffText2_app, !diffText1_single,
      !diffText2_single. cbn [d_op d_text set_text]. op_simpl.
    split_and!.
    + rewrite <- app_assoc. cbn [app]. do 4 f_equal.
      rewrite len_app, len_cons, (@len_nil Diff). lia.
    + rewrite <- !app_assoc. by rewrite Htake, take_drop.
    + rewrite <- !app_assoc. by rewrite take_drop.
    + rewrite !weight_app, !weight_cons, weight_nil. cbn [d_text].
      rewrite len_app. lia.
Qed.

Lemma merge_factor_suffix_spec (A post : list Diff) (cur : Diff)
    (textInsert textDelete : jstring) :
  exists cur2 ti2 td2,
    merge_factor_suffix (A ++ cur :: post) (len A) textInsert textDelete
    = Some (A ++ cur2 :: post, ti2, td2)
    /\ d_op cur2 = d_op cur
    /\ textDelete ++ d_text cur = td2 ++ d_text cur2
    /\ textInsert ++ d_text cur = ti2 ++ d_text cur2
    /\ ((cur2 = cur /\ ti2 = textInsert /\ td2 = textDelete)
        \/ len ti2 + len td2 + len (d_text cur2) + 1
           <= len textInsert + len textDelete + len (d_text cur)).
Proof.
  unfold merge_factor_suffix.
  destruct (diffCommonSuffix_spec textInsert textDelete)
    as (c & -> & Hc0 & Hc1 & Hc2 & Hdrop).
  cbn [mbind option_bind].
  destruct (Z.eqb_spec c 0) as [->|Hc].
  { exists cur, textInsert, textDelete. split_and!; try done. by left. }
  rewrite (get_middle A) by done. cbn [mbind option_bind].
  rewrite (set_at_middle A) by done.
  set (ni := (length textInsert - Z.to_nat c)%nat) in *.
  set (nd := (length textDelete - Z.to_nat c)%nat) in *.
  assert (substring_from textInsert (len textInsert - c) = drop ni textInsert)
    as ->.
  { rewrite substring_from_in by lia. f_equal. unfold ni, len. lia. }
  assert (substring textInsert 0 (len textInsert - c) = take ni textInsert)
    as ->.
  { rewrite substring_0, clamp_in by lia. f_equal. unfold ni, len. lia. }
  assert (substring textDelete 0 (len textDelete - c) = take nd textDelete)
    as ->.
  { rewrite substring_0, clamp_in by lia. f_equal. unfold nd, len. lia. }
  eexists _, _, _. split; [reflexivity|]. cbn [set_text d_op d_text].
  split_and!.
  - done.
  - by rewrite app_assoc, Hdrop, take_drop.
  - by rewrite app_assoc, take_drop.
  - right. rewrite len_app, !len_take, len_drop by (unfold ni, nd; lia).
    unfold ni, nd, len in *. lia.
Qed.

Lemma diffText1_edits (td ti : jstring) :
  diffText1 ((if negb (len td =? 0) then [mkDiff DIFF_DELETE td] else [])
             ++ (if negb (len ti =? 0) then [mkDiff DIFF_INSERT ti] else []))
  = td.
Proof.
  destruct (Z.eqb_spec (len td) 0) as [Hd|_], (Z.eqb_spec (len ti) 0) as [Hi|_];
    cbn [negb app]; rewrite ?diffText1_cons; cbn [d_op d_text]; op_simpl;
    change (diffText1 []) with (@nil Z); rewrite ?app_nil_r; try done;
    by apply len_zero_nil in Hd as ->.
Qed.

Lemma diffText2_edits (td ti : jstring) :
  diffText2 ((if negb (len td =? 0) then [mkDiff DIFF_DELETE td] else [])
             ++ (if negb (len ti =? 0) then [mkDiff DIFF_INSERT ti] else []))
  = ti.
Proof.
  destruct (Z.eqb_spec (len td) 0) as [Hd|_], (Z.eqb_spec (len ti) 0) as [Hi|_];
    cbn [negb app]; rewrite ?diffText2_cons; cbn [d_op d_text]; op_simpl;
    change (diffText2 []) with (@nil Z); rewrite ?app_nil_r; try done;
    by apply len_zero_nil in Hi as ->.
Qed.

Lemma weight_edits_le (td ti : jstring) :
  weight ((if negb (len td =? 0) then [mkDiff DIFF_DELETE td] else [])
          ++ (if negb (len ti =? 0) then [mkDiff DIFF_INSERT ti] else []))
  <= 2 + len td + len ti.
Proof.
  pose proof (len_nonneg td). pose proof (len_nonneg ti).
  destruct (len td =? 0), (len ti =? 0); cbn [negb app];
    rewrite ?weight_cons, ?weight_nil; cbn [d_text]; lia.
Qed.

(** The state after a run of two or more edits has been replaced by
    the merged ones. *)
Lemma merge_closed_run (pre run post pre1 edits diffs' : list Diff)
    (t t2 td2 ti2 : jstring) (p' : Z) :
  Forall (fun d => d_op d <> DIFF_EQUAL) run -> 1 < len run ->
  diffText1 pre1 ++ td2 ++ t2 = diffText1 pre ++ diffText1 run ++ t ->
  diffText2 pre1 ++ ti2 ++ t2 = diffText2 pre ++ diffText2 run ++ t ->
  weight pre1 + len ti2 + len td2 + len t2
  <= weight pre + len (diffText2 run) + len (diffText1 run) + len t ->
  (t2 = t
   \/ weight pre1 + len ti2 + len td2 + len t2 + 1
      <= weight pre + len (diffText2 run) + len (diffText1 run) + len t) ->
  diffText1 edits = td2 -> diffText2 edits = ti2 ->
  weight edits <= 2 + len td2 + len ti2 ->
  diffs' = pre1 ++ edits ++ mkDiff DIFF_EQUAL t2 :: post ->
  p' = len pre1 + len edits + 1 ->
  merge_inv (mkMerge diffs' p' 0 0 [] [])
  /\ diffText1 diffs'
     = diffText1 (pre ++ run ++ mkDiff DIFF_EQUAL t :: post)
  /\ diffText2 diffs'
     = diffText2 (pre ++ run ++ mkDiff DIFF_EQUAL t :: post)
  /\ len diffs' - p'
     = len (pre ++ run ++ mkDiff DIFF_EQUAL t :: post)
       - (len pre + len run) - 1
  /\ weight diffs' - trailing diffs'
     <= weight (pre ++ run ++ mkDiff DIFF_EQUAL t :: post)
        - trailing (pre ++ run ++ mkDiff DIFF_EQUAL t :: post)
  /\ diffs' <> [].
Proof.
  intros Hrun Hmany Hf1 Hf2 Hw Hstrict He1 He2 Hwe -> ->.
  split_and!.
  - exists (pre1 ++ edits ++ [mkDiff DIFF_EQUAL t2]), [], post.
    cbn [mg_diffs mg_pointer mg_countDelete mg_countInsert mg_textDelete
         mg_textInsert app].
    rewrite !len_app, len_cons, !(@len_nil Diff).
    split_and!; rewrite <- ?app_assoc; try done; try lia.
    right. exists (pre1 ++ edits), t2. by rewrite <- app_assoc.
  - rewrite !diffText1_app, !diffText1_cons, He1. cbn [d_op d_text]. op_simpl.
    by rewrite !app_assoc, <- (app_assoc (diffText1 pre1)), Hf1, <- !app_assoc.
  - rewrite !diffText2_app, !diffText2_cons, He2. cbn [d_op d_text]. op_simpl.
    by rewrite !app_assoc, <- (app_assoc (diffText2 pre1)), Hf2, <- !app_assoc.
  - rewrite !len_app, !len_cons. lia.
  - rewrite (app_assoc pre1), (app_assoc pre), !trailing_app_cons.
    rewrite <- !app_assoc, !weight_app, !weight_cons, (weight_edits run Hrun).
    cbn [d_text].
    destruct Hstrict as [->|Hstrict]; [lia|].
    pose proof (trailing_range (mkDiff DIFF_EQUAL t2 :: post)).
    pose proof (trailing_range (mkDiff DIFF_EQUAL t :: post)). lia.
  - by destruct pre1, edits.
Qed.

Lemma merge_step_spec (s : MergeState) :
  merge_inv s -> mg_pointer s < len (mg_diffs s) ->
  exists s',
    merge_step s = Some s' /\ merge_inv s'
    /\ diffText1 (mg_diffs s') = diffText1 (mg_diffs s)
    /\ diffText2 (mg_diffs s') = diffText2 (mg_diffs s)
    /\ len (mg_diffs s') - mg_pointer s'
       = len (mg_diffs s) - mg_pointer s - 1
    /\ weight (mg_diffs s') - trailing (mg_diffs s')
       <= weight (mg_diffs s) - trailing (mg_diffs s)
    /\ mg_diffs s' <> [].
Proof.
  destruct s as [diffs p cd ci td ti].
  intros (pre & run & post & Hd & Hp & Hcount & Hrun & H1 & H2 & Hpre) Hlt.
  cbn [mg_diffs mg_pointer mg_countDelete mg_countInsert mg_textDelete
       mg_textInsert] in *.
  subst diffs p td ti.
  pose proof (len_nonneg pre) as Hlpre. pose proof (len_nonneg run) as Hlrun.
  destruct post as [|[op t] post].
  { rewrite app_nil_r, len_app in Hlt. lia. }
  unfold merge_step.
  rewrite (app_assoc pre run).
  rewrite (get_middle (pre ++ run) post _ (len pre + len run))
    by (by rewrite len_app).
  cbn [mbind option_bind d_op d_text]. rewrite <- (app_assoc pre run).
  destruct op.
  - (* A deletion joins the run. *)
    eexists. split; [reflexivity|].
    cbn [mg_diffs mg_pointer mg_countDelete mg_countInsert mg_textDelete
         mg_textInsert].
    split_and!; try done; try lia; [|by destruct pre, run].
    exists pre, (run ++ [mkDiff DIFF_DELETE t]), post.
    cbn [mg_diffs mg_pointer mg_countDelete mg_countInsert mg_textDelete
         mg_textInsert].
    rewrite diffText1_app, diffText2_app, diffText1_single, diffText2_single.
    cbn [d_op d_text]. op_simpl. rewrite len_app, len_cons, (@len_nil Diff).
    split_and!; rewrite <- ?app_assoc, ?app_nil_r; try done; try lia.
    apply Forall_app. split; [done|]. by apply Forall_singleton.
  - (* An insertion joins the run. *)
    eexists. split; [reflexivity|].
    cbn [mg_diffs mg_pointer mg_countDelete mg_countInsert mg_textDelete
         mg_textInsert].
    split_and!; try done; try lia; [|by destruct pre, run].
    exists pre, (run ++ [mkDiff DIFF_INSERT t]), post.
    cbn [mg_diffs mg_pointer mg_countDelete mg_countInsert mg_textDelete
         mg_textInsert].
    rewrite diffText1_app, diffText2_app, diffText1_single, diffText2_single.
    cbn [d_op d_text]. op_simpl. rewrite len_app, len_cons, (@len_nil Diff).
    split_and!; rewrite <- ?app_assoc, ?app_nil_r; try done; try lia.
    apply Forall_app. split; [done|]. by apply Forall_singleton.
  - (* An equality closes the run. *)
    rewrite Hcount.
    destruct (Z.ltb_spec 1 (len run)) as [Hmany|Hfew].
    + (* Two or more edits: they are merged. *)
      lazymatch goal with
      | |- context [mbind _ (mbind _ ?e)] =>
      assert (exists pre1 t2 ti2 td2,
                e
                = Some (pre1 ++ run ++ mkDiff DIFF_EQUAL t2 :: post,
                        len pre1 + len run, ti2, td2)
                /\ diffText1 pre1 ++ td2 ++ t2
                   = diffText1 pre ++ diffText1 run ++ t
                /\ diffText2 pre1 ++ ti2 ++ t2
                   = diffText2 pre ++ diffText2 run ++ t
                /\ weight pre1 + len ti2 + len td2 + len t2
                   <= weight pre + len (diffText2 run) + len (diffText1 run)
                      + len t
                /\ (t2 = t
                    \/ weight pre1 + len ti2 + len td2 + len t2 + 1
                       <= weight pre + len (diffText2 run)
                          + len (diffText1 run) + len t))
        as (pre1 & t2 & ti2 & td2 & Hfac & Hf1 & Hf2 & Hw & Hstrict)
      end.
      { destruct (negb (cd =? 0) && negb (ci =? 0)).
        2:{ exists pre, t, (diffText2 run), (diffText1 run).
            split_and!; try done; try lia. by left. }
        destruct (merge_factor_prefix_spec pre
                    (run ++ mkDiff DIFF_EQUAL t :: post)
                    (len run) (diffText2 run) (diffText1 run) Hpre)
          as (pre1 & ti1 & td1 & -> & Hp1 & Hp2 & Hpw).
        cbn [mbind option_bind].
        rewrite (app_assoc pre1 run), <- len_app.
        destruct (merge_factor_suffix_spec (pre1 ++ run) post
                    (mkDiff DIFF_EQUAL t) ti1 td1)
          as ([op2 t2] & ti2 & td2 & -> & Hop & Hs1 & Hs2 & Hsw).
        cbn [mbind option_bind d_op d_text] in *. subst op2.
        exists pre1, t2, ti2, td2. rewrite <- app_assoc.
        split_and!.
        - by rewrite len_app.
        - by rewrite <- Hs1, app_assoc, Hp1, <- app_assoc.
        - by rewrite <- Hs2, app_assoc, Hp2, <- app_assoc.
        - destruct Hsw as [(Hc & -> & ->)|Hsw]; [injection Hc as ->|]; lia.
        - destruct Hsw as [(Hc & -> & ->)|Hsw]; [injection Hc as ->; by left|].
          right. lia. }
      rewrite Hfac. cbn [mbind option_bind].
      replace (len pre1 + len run - len run) with (len pre1) by lia.
      rewrite (splice_middle pre1 run (mkDiff DIFF_EQUAL t2 :: post) [])
        by done.
      cbn [app].
      pose proof (diffText1_edits td2 ti2) as He1.
      pose proof (diffText2_edits td2 ti2) as He2.
      pose proof (weight_edits_le td2 ti2) as Hwe.
      destruct (len td2 =? 0), (len ti2 =? 0); cbn [negb app] in *;
        rewrite ?(splice_insert pre1) by done; cbn [app];
        rewrite ?(splice_insert_snoc pre1) by done; cbn [app];
        cbn [mbind option_bind];
        (eexists; split; [reflexivity|]);
        cbn [mg_diffs mg_pointer];
        eapply (merge_closed_run pre run post pre1); try eassumption;
        rewrite <- ?app_assoc; cbn [app]; try done;
        rewrite ?len_cons, ?(@len_nil Diff); lia.
    + (* At most one edit: nothing to merge. *)
      destruct run as [|r [|r2 run']].
      * (* No edit: this equality follows another one, or starts the
           script. *)
        cbn [app] in *. rewrite (@len_nil Diff), Z.add_0_r in *.
        destruct Hpre as [->|(pre0 & e & ->)].
        -- rewrite (@len_nil Diff). cbn [Z.eqb negb app mbind option_bind].
           eexists. split; [reflexivity|].
           cbn [mg_diffs mg_pointer]. split_and!; try done; try lia.
           exists [mkDiff DIFF_EQUAL t], [], post.
           cbn [mg_diffs mg_pointer mg_countDelete mg_countInsert
                mg_textDelete mg_textInsert app].
           rewrite len_cons, !(@len_nil Diff).
           split_and!; try done. right. by exists [], t.
        -- pose proof (len_nonneg pre0) as Hl0.
           rewrite len_app, len_cons, (@len_nil Diff).
           destruct (Z.eqb_spec (len pre0 + (0 + 1)) 0); [lia|]. cbn [negb].
           rewrite <- app_assoc. cbn [app].
           rewrite (get_middle pre0) by lia.
           cbn [mbind option_bind d_op d_text]. op_simpl.
           rewrite (set_at_middle pre0) by lia. cbn [set_text d_op d_text].
           rewrite (splice_remove_after pre0) by lia.
           cbn [app mbind option_bind].
           eexists. split; [reflexivity|].
           cbn [mg_diffs mg_pointer]. unfold set_text. cbn [d_op d_text].
           rewrite !diffText1_app, !diffText2_app, !diffText1_cons,
             !diffText2_cons. cbn [d_op d_text]. op_simpl.
           rewrite <- ?app_assoc.
           split_and!; try done.
           ++ exists (pre0 ++ [mkDiff DIFF_EQUAL (e ++ t)]), [], post.
              cbn [mg_diffs mg_pointer mg_countDelete mg_countInsert
                   mg_textDelete mg_textInsert app].
              rewrite !len_app, len_cons, !(@len_nil Diff).
              split_and!; rewrite <- ?app_assoc; try done; try lia.
              right. by eexists _, _.
           ++ rewrite !len_app, !len_cons. lia.
           ++ pose proof (trailing_range
                            (pre0 ++ mkDiff DIFF_EQUAL (e ++ t) :: post)).
              pose proof (trailing_range
                            (pre0 ++ mkDiff DIFF_EQUAL e
                               :: mkDiff DIFF_EQUAL t :: post)).
              rewrite !weight_app, !weight_cons in *. cbn [d_text].
              rewrite len_app. lia.
           ++ by destruct pre0.
      * (* One edit: it stays as it is. *)
        assert (d_op r <> DIFF_EQUAL) as Hr by (by inversion Hrun).
        rewrite len_cons, (@len_nil Diff) in *.
        destruct (Z.eqb_spec (len pre + (0 + 1)) 0); [lia|]. cbn [negb].
        cbn [app].
        rewrite (get_middle pre) by lia.
        cbn [mbind option_bind].
        assert (op_eqb (d_op r) DIFF_EQUAL = false) as ->
          by (unfold op_eqb; apply bool_decide_eq_false_2, Hr).
        cbn [mbind option_bind].
        eexists. split; [reflexivity|].
        cbn [mg_diffs mg_pointer]. split_and!; try done; try lia.
        -- exists (pre ++ [r; mkDiff DIFF_EQUAL t]), [], post.
           cbn [mg_diffs mg_pointer mg_countDelete mg_countInsert
                mg_textDelete mg_textInsert app].
           rewrite !len_app, !len_cons, !(@len_nil Diff).
           split_and!; rewrite <- ?app_assoc; try done; try lia.
           right. exists (pre ++ [r]), t. by rewrite <- app_assoc.
        -- by destruct pre.
      * rewrite !len_cons in Hfew. pose proof (len_nonneg run'). lia.
Qed.

Lemma merge_loop_spec (fuel : nat) (s : MergeState) :
  merge_inv s -> mg_diffs s <> [] ->
  len (mg_diffs s) - mg_pointer s <= Z.of_nat fuel ->
  exists out,
    merge_loop fuel s = Some out
    /\ diffText1 out = diffText1 (mg_diffs s)
    /\ diffText2 out = diffText2 (mg_diffs s)
    /\ weight out - trailing out
       <= weight (mg_diffs s) - trailing (mg_diffs s)
    /\ out <> [].
Proof.
  revert s. induction fuel as [|fuel IH]; intros s Hinv Hne Hfuel.
  - cbn [merge_loop].
    destruct (Z.ltb_spec (mg_pointer s) (len (mg_diffs s))); [lia|].
    exists (mg_diffs s). split_and!; try done; lia.
  - cbn [merge_loop].
    destruct (Z.ltb_spec (mg_pointer s) (len (mg_diffs s))) as [Hlt|_].
    2:{ exists (mg_diffs s). split_and!; try done; lia. }
    destruct (merge_step_spec s Hinv Hlt)
      as (s' & -> & Hinv' & H1 & H2 & Hmeasure & Hw & Hne').
    cbn [mbind option_bind].
    destruct (IH s' Hinv' Hne' ltac:(lia)) as (out & -> & Ho1 & Ho2 & How & Hone).
    exists out. split_and!; try done; try congruence. lia.
Qed.

(** *** The second sweep *)

Lemma get_second {A} (pre post : list A) (x y : A) (i : Z) :
  i = len pre + 1 -> get (pre ++ x :: y :: post) i = Some y.
Proof.
  intros ->. rewrite (cons_middle x pre), app_assoc.
  apply get_middle. rewrite len_app, len_cons, len_nil. lia.
Qed.

Lemma get_third {A} (pre post : list A) (x y z : A) (i : Z) :
  i = len pre + 2 -> get (pre ++ x :: y :: z :: post) i = Some z.
Proof.
  intros ->. rewrite (cons_middle x pre), app_assoc.
  apply get_second. rewrite len_app, len_cons, len_nil. lia.
Qed.

Lemma set_at_second {A} (pre post : list A) (x y y' : A) (i : Z) :
  i = len pre + 1 ->
  set_at (pre ++ x :: y :: post) i y' = pre ++ x :: y' :: post.
Proof.
  intros ->. rewrite (cons_middle x pre), app_assoc.
  rewrite (set_at_middle (pre ++ [x]))
    by (rewrite len_app, len_cons, len_nil; lia).
  by rewrite <- app_assoc.
Qed.

Lemma set_at_third {A} (pre post : list A) (x y z z' : A) (i : Z) :
  i = len pre + 2 ->
  set_at (pre ++ x :: y :: z :: post) i z' = pre ++ x :: y :: z' :: post.
Proof.
  intros ->. rewrite (cons_middle x pre), app_assoc.
  rewrite (set_at_second (pre ++ [x]))
    by (rewrite len_app, len_cons, len_nil; lia).
  by rewrite <- app_assoc.
Qed.

Lemma splice_remove_at {A} (pre post : list A) (x : A) (i : Z) :
  i = len pre -> splice (pre ++ x :: post) i 1 [] = pre ++ post.
Proof. intros Hi. by apply (splice_middle pre [x] post []). Qed.

Lemma splice_remove_third {A} (pre post : list A) (x y z : A) (i : Z) :
  i = len pre + 2 ->
  splice (pre ++ x :: y :: z :: post) i 1 [] = pre ++ x :: y :: post.
Proof.
  intros Hi. rewrite (cons_middle x pre), app_assoc.
  rewrite (splice_remove_after (pre ++ [x]))
    by (rewrite len_app, len_cons, len_nil; lia).
  by rewrite <- app_assoc.
Qed.

(** A string that ends with [s]. *)
Lemma ends_with_split (t s : jstring) :
  substring_from t (len t - len s) = s ->
  t = substring t 0 (len t - len s) ++ s
  /\ len (substring t 0 (len t - len s)) = len t - len s.
Proof.
  intros Hend. pose proof (substring_split t (len t - len s)) as Hsplit.
  rewrite Hend in Hsplit. split; [done|].
  apply (f_equal len) in Hsplit. rewrite len_app in Hsplit. lia.
Qed.

(** A string that begins with [s]. *)
Lemma begins_with_split (t s : jstring) :
  substring t 0 (len s) = s ->
  t = s ++ substring_from t (len s)
  /\ len (substring_from t (len s)) = len t - len s.
Proof.
  intros Hbegin. pose proof (substring_split t (len s)) as Hsplit.
  rewrite Hbegin in Hsplit. split; [done|].
  apply (f_equal len) in Hsplit. rewrite len_app in Hsplit. lia.
Qed.

Lemma shift_step_spec (A B : list Diff) (prev cur next : Diff) :
  exists diffs' changed,
    shift_step (A ++ prev :: cur :: next :: B) (len A + 1)
    = Some (diffs', changed)
    /\ diffText1 diffs' = diffText1 (A ++ prev :: cur :: next :: B)
    /\ diffText2 diffs' = diffText2 (A ++ prev :: cur :: next :: B)
    /\ (if changed
        then weight diffs' + 1 = weight (A ++ prev :: cur :: next :: B)
             /\ len diffs' + 1 = len (A ++ prev :: cur :: next :: B)
        else diffs' = A ++ prev :: cur :: next :: B).
Proof.
  unfold shift_step.
  rewrite (get_middle A _ _ (len A + 1 - 1)) by lia. cbn [mbind option_bind].
  rewrite (get_third A _ _ _ _ (len A + 1 + 1)) by lia.
  cbn [mbind option_bind].
  destruct (op_eqb (d_op prev) DIFF_EQUAL && op_eqb (d_op next) DIFF_EQUAL)
    eqn:Hops.
  2:{ by eexists _, false. }
  apply andb_true_iff in Hops as [Hop1 Hop2].
  apply bool_decide_eq_true in Hop1, Hop2.
  destruct prev as [op1 p], next as [op2 n], cur as [op c].
  cbn [d_op d_text] in *. subst.
  rewrite (get_second A _ _ _ (len A + 1)) by lia.
  cbn [mbind option_bind d_op d_text].
  destruct (str_eqb (substring_from c (len c - len p)) p) eqn:Hover_prev.
  - (* Shift the edit over the previous equality. *)
    apply str_eqb_eq, ends_with_split in Hover_prev as [Hc Hlen].
    set (x := substring c 0 (len c - len p)) in *. clearbody x. subst c.
    rewrite (set_at_second A) by lia.
    rewrite (set_at_third A) by lia.
    rewrite (splice_remove_at A) by lia.
    unfold set_text. cbn [d_op d_text].
    eexists _, true. split; [reflexivity|].
    rewrite !diffText1_app, !diffText2_app, !diffText1_cons, !diffText2_cons,
      !weight_app, !weight_cons, !len_app, !len_cons.
    cbn [d_op d_text]. rewrite !len_app.
    split_and!.
    + destruct op; op_simpl; by rewrite <- ?app_assoc.
    + destruct op; op_simpl; by rewrite <- ?app_assoc.
    + lia.
    + lia.
  - destruct (str_eqb (substring c 0 (len n)) n) eqn:Hover_next.
    + (* Shift the edit over the next equality. *)
      apply str_eqb_eq, begins_with_split in Hover_next as [Hc Hlen].
      set (y := substring_from c (len n)) in *. clearbody y. subst c.
      rewrite (set_at_middle A) by lia.
      rewrite (set_at_second A) by lia.
      rewrite (splice_remove_third A) by lia.
      unfold set_text. cbn [d_op d_text].
      eexists _, true. split; [reflexivity|].
      rewrite !diffText1_app, !diffText2_app, !diffText1_cons,
        !diffText2_cons, !weight_app, !weight_cons, !len_app, !len_cons.
      cbn [d_op d_text]. rewrite !len_app.
      split_and!.
      * destruct op; op_simpl; by rewrite <- ?app_assoc.
      * destruct op; op_simpl; by rewrite <- ?app_assoc.
      * lia.
      * lia.
    + by eexists _, false.
Qed.

Lemma split_around {A} (l : list A) (p : Z) :
  1 <= p < len l - 1 ->
  exists a x y z b, l = a ++ x :: y :: z :: b /\ len a = p - 1.
Proof.
  intros Hp. unfold len in *.
  destruct (lookup_lt_is_Some_2 l (Z.to_nat (p - 1)) ltac:(lia)) as [x Hx].
  destruct (lookup_lt_is_Some_2 l (S (Z.to_nat (p - 1))) ltac:(lia)) as [y Hy].
  destruct (lookup_lt_is_Some_2 l (S (S (Z.to_nat (p - 1)))) ltac:(lia))
    as [z Hz].
  exists (take (Z.to_nat (p - 1)) l), x, y, z,
    (drop (S (S (S (Z.to_nat (p - 1))))) l).
  split.
  - rewrite <- (take_drop_middle l _ x Hx) at 1. f_equal. f_equal.
    rewrite <- (take_drop_middle l _ y Hy) at 1.
    rewrite drop_app_length'
      by (rewrite length_take; apply lookup_lt_Some in Hy; lia).
    f_equal.
    rewrite <- (take_drop_middle l _ z Hz) at 1.
    rewrite drop_app_length'
      by (rewrite length_take; apply lookup_lt_Some in Hz; lia).
    done.
  - rewrite length_take. lia.
Qed.

Lemma shift_loop_spec (fuel : nat) (diffs : list Diff) (pointer : Z)
    (changes : bool) :
  1 <= pointer -> len diffs - 1 - pointer <= Z.of_nat fuel ->
  exists out changed,
    shift_loop fuel diffs pointer changes = Some (out, changed)
    /\ diffText1 out = diffText1 diffs
    /\ diffText2 out = diffText2 diffs
    /\ weight out <= weight diffs
    /\ (changed = true -> changes = true \/ weight out < weight diffs).
Proof.
  revert diffs pointer changes.
  induction fuel as [|fuel IH]; intros diffs pointer changes Hp Hfuel;
    cbn [shift_loop];
    destruct (Z.ltb_spec pointer (len diffs - 1)) as [Hlt|Hge]; try lia.
  1,3: exists diffs, changes; split_and!; try done; try lia; by left.
  destruct (split_around diffs pointer ltac:(lia))
    as (a & x & y & z & b & -> & Hlen).
  replace pointer with (len a + 1) in * by lia.
  destruct (shift_step_spec a b x y z)
    as (diffs' & changed & -> & H1 & H2 & Hchanged).
  cbn [mbind option_bind].
  destruct (IH diffs' (len a + 1 + 1) (changes || changed))
    as (out & ch & -> & Ho1 & Ho2 & How & Hoch).
  - lia.
  - destruct changed; [destruct Hchanged|subst diffs']; lia.
  - exists out, ch. split_and!; try congruence.
    + destruct changed; [destruct Hchanged|subst diffs']; lia.
    + intros Hch. destruct (Hoch Hch) as [Hor|Hlt'].
      * destruct changed; [right; destruct Hchanged; lia|].
        rewrite orb_false_r in Hor. by left.
      * right. destruct changed; [destruct Hchanged|subst diffs']; lia.
Qed.

(** *** The whole of [diffCleanupMerge] *)

Lemma trailing_dummy (diffs : list Diff) :
  trailing (diffs ++ [mkDiff DIFF_EQUAL []]) = 1.
Proof. unfold trailing. by rewrite last_snoc. Qed.

(** Dropping the last diff when it holds the empty string. *)
Lemma pop_empty_spec (diffs : list Diff) :
  diffs <> [] ->
  exists l,
    get diffs (len diffs - 1) = Some l
    /\ let popped :=
         if str_eqb (d_text l) [] then take (length diffs - 1) diffs
         else diffs in
       diffText1 popped = diffText1 diffs
       /\ diffText2 popped = diffText2 diffs
       /\ weight popped = weight diffs - trailing diffs.
Proof.
  intros Hne.
  destruct (last diffs) as [l|] eqn:Hlast; [|by apply last_None in Hlast].
  pose proof Hlast as Hinit. apply last_Some in Hinit as [init ->].
  exists l. split.
  { apply get_middle. rewrite len_app, len_cons, len_nil. lia. }
  cbv zeta. unfold trailing. rewrite Hlast.
  destruct (str_eqb (d_text l) []) eqn:Hempty; [|split_and!; [done|done|lia]].
  apply str_eqb_eq in Hempty.
  rewrite length_app. cbn [length].
  replace (length init + 1 - 1)%nat with (length init) by lia.
  rewrite take_app_length.
  rewrite diffText1_app, diffText2_app, diffText1_single, diffText2_single,
    weight_app, weight_cons, weight_nil, Hempty, len_nil.
  split_and!; [by destruct (op_eqb _ _); rewrite app_nil_r
              |by destruct (op_eqb _ _); rewrite app_nil_r|lia].
Qed.

Lemma diffCleanupMerge_rec_spec (fuel : nat) (diffs : list Diff) :
  weight diffs + 1 <= Z.of_nat fuel ->
  exists out,
    diffCleanupMerge_rec fuel diffs = Some out
    /\ diffText1 out = diffText1 diffs
    /\ diffText2 out = diffText2 diffs
    /\ weight out <= weight diffs.
Proof.
  revert diffs. induction fuel as [|fuel IH]; intros diffs Hfuel.
  { pose proof (weight_nonneg diffs). lia. }
  cbn [diffCleanupMerge_rec].
  set (diffs1 := diffs ++ [mkDiff DIFF_EQUAL []]).
  assert (diffText1 diffs1 = diffText1 diffs
          /\ diffText2 diffs1 = diffText2 diffs
          /\ weight diffs1 - trailing diffs1 = weight diffs)
    as (Hd1 & Hd2 & Hdw).
  { unfold diffs1.
    rewrite diffText1_app, diffText2_app, diffText1_single, diffText2_single,
      weight_app, weight_cons, weight_nil, trailing_dummy, !app_nil_r.
    cbn [d_text]. rewrite len_nil. split_and!; [done|done|lia]. }
  destruct (merge_loop_spec (length diffs1 + 1) (mkMerge diffs1 0 0 0 [] []))
    as (out1 & -> & H11 & H12 & H1w & Hne1).
  { exists [], [], diffs1. cbn. split_and!; try done. by left. }
  { unfold diffs1. by destruct diffs. }
  { cbn [mg_diffs mg_pointer]. unfold len. lia. }
  cbn [mbind option_bind mg_diffs] in *.
  destruct (pop_empty_spec out1 Hne1) as (l & -> & Hpop).
  cbn [mbind option_bind]. cbv zeta in Hpop.
  set (diffs2 := if str_eqb (d_text l) [] then _ else _) in *.
  destruct Hpop as (H21 & H22 & H2w).
  destruct (shift_loop_spec (length diffs2) diffs2 1 false ltac:(lia))
    as (out2 & changed & -> & H31 & H32 & H3w & Hchanged).
  { unfold len. lia. }
  cbn [mbind option_bind fst snd].
  destruct changed.
  - destruct (Hchanged eq_refl) as [?|Hless]; [done|].
    destruct (IH out2 ltac:(lia)) as (out & -> & Ho1 & Ho2 & How).
    exists out. split_and!; [done|congruence|congruence|lia].
  - exists out2. split_and!; [done|congruence|congruence|lia].
Qed.

(** X19.  [diffCleanupMerge] always returns, and the script it leaves
    has the same source text and the same destination text as the script
    it was given; it holds no more diffs and code units, counted
    together, than that script. *)
Theorem X19_diffCleanupMerge_texts (diffs : list Diff) :
  exists out,
    diffCleanupMerge diffs = Some out
    /\ diffText1 out = diffText1 diffs
    /\ diffText2 out = diffText2 diffs
    /\ weight out <= weight diffs.
Proof.
  unfold diffCleanupMerge. apply diffCleanupMerge_rec_spec.
  unfold weight, len. lia.
Qed.

(** ** [diffMain] returns edit scripts *)

Lemma indexOf_found (long short : jstring) :
  indexOf long short 0 <> -1 ->
  long = substring long 0 (indexOf long short 0) ++ short
         ++ substring_from long (indexOf long short 0 + len short).
Proof.
  intros Hfound.
  destruct (indexOf_bounds long short 0) as [?|[Hlo Hhi]]; [done|].
  revert Hfound Hlo Hhi. unfold indexOf. rewrite clamp_neg by lia.
  rewrite drop_0. change (Z.of_nat 0) with 0.
  intros Hfound Hlo Hhi.
  destruct (find_from_found short long 0 _ ltac:(lia) eq_refl Hfound)
    as (k & Hk & Hsw & _).
  rewrite Hk in *. apply starts_with_spec in Hsw.
  pose proof (len_nonneg short) as Hs.
  rewrite substring_0, clamp_in by lia.
  rewrite substring_from_in by lia.
  replace (Z.to_nat (0 + Z.of_nat k)) with k by lia.
  replace (Z.to_nat (0 + Z.of_nat k + len short)) with (k + length short)%nat
    by (unfold len; lia).
  rewrite <- Hsw at 1. rewrite <- drop_drop, take_drop, take_drop. done.
Qed.

Lemma diffHalfMatch_splits (cfg : Config) (text1 text2 : jstring)
    (a b c d m : jstring) :
  diffHalfMatch_ cfg text1 text2 = Some (Some (a, b, c, d, m)) ->
  text1 = a ++ m ++ b /\ text2 = c ++ m ++ d.
Proof.
  unfold diffHalfMatch_.
  destruct (Qle_bool (diffTimeout cfg) 0); [done|].
  set (long := if len text2 <? len text1 then text1 else text2).
  set (short := if len text2 <? len text1 then text2 else text1).
  destruct (Z.ltb_spec (len long) 4) as [Hshort|Hlong]; [done|].
  cbn [orb]. destruct (_ <? len long); [done|].
  destruct (diffHalfMatchI_spec long short (ceil_div (len long) 4))
    as (hm1 & -> & H1);
    [done | unfold ceil_div; Z.div_mod_to_equations; lia
     | unfold ceil_div; Z.div_mod_to_equations; lia |].
  destruct (diffHalfMatchI_spec long short (ceil_div (len long) 2))
    as (hm2 & -> & H2);
    [done | unfold ceil_div; Z.div_mod_to_equations; lia
     | unfold ceil_div; Z.div_mod_to_equations; lia |].
  cbn [mbind option_bind].
  set (hm := match hm1, hm2 with
             | None, None => None
             | Some h1, None => Some h1
             | None, Some h2 => Some h2
             | Some h1, Some h2 =>
                 if len (hm_common h2) <? len (hm_common h1)
                 then Some h1 else Some h2
             end).
  assert (forall h, hm = Some h -> splits_texts long short h) as Hhm.
  { intros h. unfold hm.
    destruct hm1 as [h1|], hm2 as [h2|]; try done.
    - destruct (len (hm_common h2) <? len (hm_common h1));
        intros ?; simplify_eq; [by apply H1|by apply H2].
    - intros ?; simplify_eq. by apply H1.
    - intros ?; simplify_eq. by apply H2. }
  clearbody hm. destruct hm as [[[[[a' b'] c'] d'] m']|]; [|done].
  destruct (Hhm _ eq_refl) as [Hl Hs].
  unfold long, short in *.
  destruct (len text2 <? len text1); intros ?; by simplify_eq.
Qed.

Section DiffValid.

Variable cfg : Config.
Variable now : nat -> Z.

(** The recursive calls return edit scripts. *)
Variable diffMain : DiffMainFn.
Hypothesis diffMain_valid :
  forall text1 text2 checklines deadline clk r,
    line_mode_off checklines text1 text2 ->
    diffMain text1 text2 checklines deadline clk = Some r ->
    valid_script text1 text2 (fst r).

Lemma valid_script_app (a1 a2 b1 b2 : jstring) (da db : list Diff) :
  valid_script a1 a2 da -> valid_script b1 b2 db ->
  valid_script (a1 ++ b1) (a2 ++ b2) (da ++ db).
Proof.
  intros [<- <-] [<- <-]. split; [apply diffText1_app|apply diffText2_app].
Qed.

Lemma diffBisectSplit_valid (text1 text2 : jstring) (x y : Z) (deadline : Q)
    (clk : nat) (r : list Diff * nat) :
  diffBisectSplit_ diffMain text1 text2 x y deadline clk = Some r ->
  valid_script text1 text2 (fst r).
Proof.
  unfold diffBisectSplit_.
  destruct (diffMain (substring text1 0 x) _ false deadline clk)
    as [[da clk1]|] eqn:Ha; [|done].
  cbn [mbind option_bind].
  destruct (diffMain (substring_from text1 x) _ false deadline clk1)
    as [[db clk2]|] eqn:Hb; [|done].
  cbn [mbind option_bind]. intros [= <-]. cbn [fst].
  apply diffMain_valid in Ha, Hb; [|by left..]. cbn [fst] in *.
  rewrite <- (substring_split text1 x) at 1.
  rewrite <- (substring_split text2 y) at 1.
  by apply valid_script_app.
Qed.

Lemma bail_valid (text1 text2 : jstring) :
  valid_script text1 text2
    [mkDiff DIFF_DELETE text1; mkDiff DIFF_INSERT text2].
Proof.
  split; rewrite ?diffText1_cons, ?diffText2_cons; cbn [d_op d_text]; op_simpl;
    by rewrite ?app_nil_r.
Qed.

Lemma bisect_loop_valid (n : nat) (text1 text2 : jstring)
    (vOffset vLength delta : Z) (front : bool) (deadline : Q) (d : Z)
    (v1 v2 : gmap Z Z) (k1start k1end k2start k2end : Z) (clk : nat)
    (r : list Diff * nat) :
  bisect_loop now diffMain n text1 text2 vOffset vLength delta front deadline
    d v1 v2 k1start k1end k2start k2end clk = Some r ->
  valid_script text1 text2 (fst r).
Proof.
  revert d v1 v2 k1start k1end k2start k2end clk.
  induction n as [|n IH]; intros d v1 v2 k1start k1end k2start k2end clk;
    cbn [bisect_loop].
  { intros [= <-]. apply bail_valid. }
  destruct (negb (Qle_bool (inject_Z (now clk)) deadline)).
  { intros [= <-]. apply bail_valid. }
  destruct (walk_front _ _ _ _ _ _ _ _ _ _ _ _ _) as [[v1' k1s k1e|x y]|];
    cbn [mbind option_bind]; [|apply diffBisectSplit_valid|done].
  destruct (walk_reverse _ _ _ _ _ _ _ _ _ _ _ _ _) as [[v2' k2s k2e|x y]|];
    cbn [mbind option_bind]; [apply IH|apply diffBisectSplit_valid|done].
Qed.

Lemma diffCompute_valid (text1 text2 : jstring) (checklines : bool)
    (deadline : Q) (clk : nat) (r : list Diff * nat) :
  line_mode_off checklines text1 text2 ->
  diffCompute_ cfg now diffMain text1 text2 checklines deadline clk = Some r ->
  valid_script text1 text2 (fst r).
Proof.
  intros Hoff. unfold diffCompute_.
  destruct (truthy text1) eqn:Ht1; cbn [negb].
  2:{ apply truthy_false_nil in Ht1 as ->. intros [= <-]. cbn [fst].
      split; rewrite ?diffText1_single, ?diffText2_single; by op_simpl. }
  destruct (truthy text2) eqn:Ht2; cbn [negb].
  2:{ apply truthy_false_nil in Ht2 as ->. intros [= <-]. cbn [fst].
      split; rewrite ?diffText1_single, ?diffText2_single; by op_simpl. }
  set (long := if len text2 <? len text1 then text1 else text2).
  set (short := if len text2 <? len text1 then text2 else text1).
  destruct (Z.eqb_spec (indexOf long short 0) (-1)) as [_|Hfound]; cbn [negb].
  2:{ (* The shorter text is inside the longer one. *)
      intros [= <-]. cbn [fst].
      pose proof (indexOf_found long short Hfound) as Hlong.
      unfold long, short in *.
      destruct (len text2 <? len text1);
        split; rewrite ?diffText1_cons, ?diffText2_cons; cbn [d_op d_text];
        op_simpl; change (diffText1 []) with (@nil Z);
        change (diffText2 []) with (@nil Z); rewrite ?app_nil_r; cbn [app];
        done. }
  destruct (len short =? 1).
  { intros [= <-]. apply bail_valid. }
  destruct (diffHalfMatch_ cfg text1 text2)
    as [[[[[[text1A text1B] text2A] text2B] midCommon]|]|] eqn:Hhm;
    cbn [mbind option_bind]; [| |done].
  - (* A half match: both pairs are processed separately. *)
    apply diffHalfMatch_splits in Hhm as [H1 H2].
    assert (len text1 = len text1A + len midCommon + len text1B) as Hl1
      by (rewrite H1, !len_app; lia).
    assert (len text2 = len text2A + len midCommon + len text2B) as Hl2
      by (rewrite H2, !len_app; lia).
    pose proof (len_nonneg text1A). pose proof (len_nonneg text1B).
    pose proof (len_nonneg text2A). pose proof (len_nonneg text2B).
    pose proof (len_nonneg midCommon).
    destruct (diffMain text1A text2A checklines deadline clk)
      as [[da clk1]|] eqn:Ha; [|done].
    cbn [mbind option_bind].
    destruct (diffMain text1B text2B checklines deadline clk1)
      as [[db clk2]|] eqn:Hb; [|done].
    cbn [mbind option_bind]. intros [= <-]. cbn [fst].
    apply diffMain_valid in Ha, Hb; cbn [fst] in *.
    2,3: destruct Hoff as [?|[?|?]]; [by left|right; left; lia|right; right; lia].
    rewrite H1, H2. apply valid_script_app; [done|].
    apply (valid_script_app midCommon midCommon _ _ [_]); [|done].
    split; rewrite ?diffText1_single, ?diffText2_single; by op_simpl.
  - (* No half match. *)
    destruct (checklines && (100 <? len text1) && (100 <? len text2))
      eqn:Hline.
    { rewrite !andb_true_iff in Hline. destruct Hline as [[-> H1] H2].
      destruct Hoff as [?|[?|?]]; [done|lia|lia]. }
    unfold diffBisect_. apply bisect_loop_valid.
Qed.

End DiffValid.

Lemma line_mode_off_shorter (checklines : bool) (a b a' b' : jstring) :
  len a' <= len a -> len b' <= len b ->
  line_mode_off checklines a b -> line_mode_off checklines a' b'.
Proof.
  intros Ha Hb [?|[?|?]]; [by left|right; left; lia|right; right; lia].
Qed.

Lemma diffMain_rec_valid (cfg : Config) (now : nat -> Z) (fuel : nat)
    (text1 text2 : jstring) (checklines : bool) (deadline : Q) (clk : nat)
    (r : list Diff * nat) :
  line_mode_off checklines text1 text2 ->
  diffMain_rec cfg now fuel text1 text2 checklines deadline clk = Some r ->
  valid_script text1 text2 (fst r).
Proof.
  revert text1 text2 checklines deadline clk r.
  induction fuel as [|fuel IH];
    intros text1 text2 checklines deadline clk r Hoff; [done|].
  cbn [diffMain_rec].
  destruct (str_eqb text1 text2) eqn:Hsame.
  { apply str_eqb_eq in Hsame as <-.
    destruct (truthy text1) eqn:Ht; intros [= <-]; cbn [fst].
    - split; rewrite ?diffText1_single, ?diffText2_single; by op_simpl.
    - by apply truthy_false_nil in Ht as ->. }
  destruct (diffCommonPrefix_spec text1 text2)
    as (n & -> & Hn0 & Hn1 & Hn2 & Htake).
  cbn [mbind option_bind].
  set (nn := Z.to_nat n) in *.
  assert (substring text1 0 n = take nn text1) as ->
    by (by rewrite substring_0, clamp_in by lia).
  assert (substring_from text1 n = drop nn text1) as ->
    by (by rewrite substring_from_in by lia).
  assert (substring_from text2 n = drop nn text2) as ->
    by (by rewrite substring_from_in by lia).
  set (t1 := drop nn text1) in *. set (t2 := drop nn text2) in *.
  destruct (diffCommonSuffix_spec t1 t2) as (m & -> & Hm0 & Hm1 & Hm2 & Hdrop).
  cbn [mbind option_bind].
  set (k1 := (length t1 - Z.to_nat m)%nat) in *.
  set (k2 := (length t2 - Z.to_nat m)%nat) in *.
  assert (substring_from t1 (len t1 - m) = drop k1 t1) as ->.
  { rewrite substring_from_in by lia. f_equal. unfold k1, len. lia. }
  assert (substring t1 0 (len t1 - m) = take k1 t1) as ->.
  { rewrite substring_0, clamp_in by lia. f_equal. unfold k1, len. lia. }
  assert (substring t2 0 (len t2 - m) = take k2 t2) as ->.
  { rewrite substring_0, clamp_in by lia. f_equal. unfold k2, len. lia. }
  destruct (diffCompute_ cfg now (diffMain_rec cfg now fuel) (take k1 t1)
              (take k2 t2) checklines deadline clk)
    as [[diffs clk1]|] eqn:Hcompute; [|done].
  cbn [mbind option_bind].
  apply diffCompute_valid in Hcompute as [Hd1 Hd2]; cbn [fst] in *.
  2:{ intros a b c dl ck r' Hoff'. by apply IH. }
  2:{ eapply line_mode_off_shorter; [| |exact Hoff].
      - unfold len, t1. rewrite length_take, length_drop. lia.
      - unfold len, t2. rewrite length_take, length_drop. lia. }
  set (diffs1 := if truthy (take nn text1) then _ else diffs).
  set (diffs2 := if truthy (drop k1 t1) then _ else diffs1).
  destruct (diffCleanupMerge_rec_spec
              (length diffs2 + script_size diffs2 + 2) diffs2)
    as (out & Hout & Ho1 & Ho2 & _); [unfold weight, len; lia|].
  fold (diffCleanupMerge diffs2) in Hout.
  rewrite Hout. cbn [mbind option_bind]. intros [= <-]. cbn [fst].
  assert (valid_script (take nn text1 ++ take k1 t1)
            (take nn text1 ++ take k2 t2) diffs1) as [H11 H12].
  { unfold diffs1. destruct (truthy (take nn text1)) eqn:Hp.
    - split; rewrite ?diffText1_cons, ?diffText2_cons; cbn [d_op d_text];
        op_simpl; congruence.
    - apply truthy_false_nil in Hp as ->. by split. }
  assert (valid_script (take nn text1 ++ take k1 t1 ++ drop k1 t1)
            (take nn text1 ++ take k2 t2 ++ drop k1 t1) diffs2) as [H21 H22].
  { unfold diffs2. destruct (truthy (drop k1 t1)) eqn:Hs.
    - split; rewrite ?diffText1_app, ?diffText2_app, ?diffText1_single,
        ?diffText2_single; cbn [d_op d_text]; op_simpl;
        rewrite ?H11, ?H12, <- ?app_assoc; done.
    - apply truthy_false_nil in Hs as ->. rewrite !app_nil_r. by split. }
  split.
  - rewrite Ho1, H21, take_drop. unfold t1. by rewrite take_drop.
  - rewrite Ho2, H22, Hdrop. fold k2. rewrite take_drop, Htake.
    unfold t2. by rewrite take_drop.
Qed.

(** X20.  Whenever [diffMain] returns a script without going through the
    line mode (line mode switched off, or one of the texts of at most 100
    code units), the script is an edit script from [text1] to [text2]:
    its source text is [text1] and its destination text is [text2]. *)
Theorem X20_diffMain_valid_script (cfg : Config) (now : nat -> Z)
    (text1 text2 : jstring) (optChecklines : option bool)
    (diffs : list Diff) :
  optChecklines = Some false \/ len text1 <= 100 \/ len text2 <= 100 ->
  diffMain cfg now text1 text2 optChecklines = Some diffs ->
  diffText1 diffs = text1 /\ diffText2 diffs = text2.
Proof.
  intros Hoff. unfold diffMain, diffMain_clock.
  destruct (if Qle_bool (diffTimeout cfg) 0 then _ else _) as [deadline clk].
  destruct (diffMain_rec _ _ _ _ _ _ _ _) as [r|] eqn:Hrun; [|done].
  cbn [mbind option_bind]. intros [= <-].
  eapply diffMain_rec_valid; [|exact Hrun].
  destruct Hoff as [->|Hshort]; [by left|by right].
Qed.

Lemma X20_diffMain_valid_script_witness :
  diffText1 [mkDiff DIFF_EQUAL (str "The quick ");
             mkDiff DIFF_DELETE (str "b"); mkDiff DIFF_EQUAL (str "r");
             mkDiff DIFF_DELETE (str "own"); mkDiff DIFF_INSERT (str "ed");
             mkDiff DIFF_EQUAL (str " fox");
             mkDiff DIFF_INSERT (str " jumps")]
  = str "The quick brown fox"
  /\ diffText2 [mkDiff DIFF_EQUAL (str "The quick ");
                mkDiff DIFF_DELETE (str "b"); mkDiff DIFF_EQUAL (str "r");
                mkDiff DIFF_DELETE (str "own"); mkDiff DIFF_INSERT (str "ed");
                mkDiff DIFF_EQUAL (str " fox");
                mkDiff DIFF_INSERT (str " jumps")]
     = str "The quick red fox jumps".
Proof.
  apply (X20_diffMain_valid_script default_config wall_clock _ _ None).
  - right. left. vm_compute. discriminate.
  - vm_compute. reflexivity.
Defined.

(** ** [diffMain] on identical and on empty texts *)

Lemma diffCleanupMerge_single (op : Op) (text : jstring) :
  op <> DIFF_EQUAL ->
  diffCleanupMerge [mkDiff op text] = Some [mkDiff op text].
Proof. intros Hop. destruct op; [by vm_compute|by vm_compute|done]. Qed.

Lemma substring_from_0 (s : jstring) : substring_from s 0 = s.
Proof. unfold substring_from. by rewrite clamp_neg by lia. Qed.

Section DiffEdges.

Variable cfg : Config.
Variable now : nat -> Z.

Lemma diffMain_rec_same (fuel : nat) (text : jstring) (checklines : bool)
    (deadline : Q) (clk : nat) :
  diffMain_rec cfg now (S fuel) text text checklines deadline clk
  = Some (if truthy text then [mkDiff DIFF_EQUAL text] else [], clk).
Proof.
  cbn [diffMain_rec]. rewrite (proj2 (str_eqb_eq text text) eq_refl).
  by destruct (truthy text).
Qed.

Lemma diffMain_rec_insert (fuel : nat) (text : jstring) (checklines : bool)
    (deadline : Q) (clk : nat) :
  text <> [] ->
  diffMain_rec cfg now (S fuel) [] text checklines deadline clk
  = Some ([mkDiff DIFF_INSERT text], clk).
Proof.
  intros Hne. cbn [diffMain_rec].
  rewrite (proj2 (str_eqb_neq [] text)) by done.
  change (diffCommonPrefix [] text) with (Some 0).
  cbn [mbind option_bind].
  rewrite !substring_from_0.
  change (diffCommonSuffix [] text) with (Some 0).
  cbn [mbind option_bind].
  rewrite !Z.sub_0_r. rewrite (substring_whole text 0 (len text)) by lia.
  change (substring [] 0 (len [])) with (@nil Z).
  change (substring [] 0 0) with (@nil Z).
  change (substring_from [] (len [])) with (@nil Z).
  unfold diffCompute_. cbn [truthy negb mbind option_bind].
  by rewrite diffCleanupMerge_single.
Qed.

Lemma diffMain_rec_delete (fuel : nat) (text : jstring) (checklines : bool)
    (deadline : Q) (clk : nat) :
  text <> [] ->
  diffMain_rec cfg now (S fuel) text [] checklines deadline clk
  = Some ([mkDiff DIFF_DELETE text], clk).
Proof.
  intros Hne. cbn [diffMain_rec].
  rewrite (proj2 (str_eqb_neq text [])) by done.
  assert (diffCommonPrefix text [] = Some 0) as ->.
  { unfold diffCommonPrefix. cbn [truthy negb]. by rewrite orb_true_r. }
  cbn [mbind option_bind].
  rewrite !substring_from_0.
  assert (diffCommonSuffix text [] = Some 0) as ->.
  { unfold diffCommonSuffix. cbn [truthy negb]. by rewrite orb_true_r. }
  cbn [mbind option_bind].
  rewrite !Z.sub_0_r. rewrite (substring_whole text 0 (len text)) by lia.
  change (substring [] 0 (len [])) with (@nil Z).
  assert (substring text 0 0 = []) as ->
    by (by rewrite substring_0, clamp_neg by lia).
  assert (substring_from text (len text) = []) as ->.
  { rewrite substring_from_in by (pose proof (len_nonneg text); lia).
    apply drop_ge. unfold len. lia. }
  unfold diffCompute_.
  assert (truthy text = true) as ->
    by (by destruct text).
  cbn [truthy negb mbind option_bind].
  by rewrite diffCleanupMerge_single.
Qed.

End DiffEdges.

(** X21.  [diffMain] on identical texts returns the single equality (no
    diff at all when the texts are empty); when exactly one of the texts
    is empty it returns the other one as a single insertion or a single
    deletion. *)
Theorem X21_diffMain_edges (cfg : Config) (now : nat -> Z) (text : jstring)
    (optChecklines : option bool) :
  diffMain cfg now text text optChecklines
  = Some (if truthy text then [mkDiff DIFF_EQUAL text] else [])
  /\ (text <> [] ->
      diffMain cfg now [] text optChecklines = Some [mkDiff DIFF_INSERT text]
      /\ diffMain cfg now text [] optChecklines
         = Some [mkDiff DIFF_DELETE text]).
Proof.
  unfold diffMain, diffMain_clock.
  destruct (if Qle_bool (diffTimeout cfg) 0 then _ else _) as [deadline clk].
  split; [|intros Hne; split].
  - replace (2 * (length text + length text) + 4)%nat
      with (S (2 * (length text + length text) + 3)) by lia.
    by rewrite diffMain_rec_same.
  - replace (2 * (length (@nil Z) + length text) + 4)%nat
      with (S (2 * (length (@nil Z) + length text) + 3)) by lia.
    by rewrite diffMain_rec_insert.
  - replace (2 * (length text + length (@nil Z)) + 4)%nat
      with (S (2 * (length text + length (@nil Z)) + 3)) by lia.
    by rewrite diffMain_rec_delete.
Qed.

(** ** Line mode: [diffLinesToChars_] and [diffCharsToLines_] *)

Lemma decode_lines_app (la : list jstring) (a b : jstring) :
  decode_lines la (a ++ b) = decode_lines la a ++ decode_lines la b.
Proof. unfold decode_lines. by rewrite map_app, concat_app. Qed.

Lemma get_app_l {A} (l ext : list A) (i : Z) :
  0 <= i < len l -> get (l ++ ext) i = get l i.
Proof.
  intros Hi. unfold get. destruct (0 <=? i); [|done].
  apply lookup_app_l. unfold len in Hi. lia.
Qed.

Lemma get_Some_range {A} (l : list A) (i : Z) (x : A) :
  get l i = Some x -> 0 <= i < len l.
Proof.
  unfold get. destruct (Z.leb_spec 0 i); [|done].
  intros Hx%lookup_lt_Some. unfold len. lia.
Qed.

(** Line numbers in range keep their meaning when the array grows. *)
Lemma decode_lines_stable (la ext : list jstring) (chars : jstring) :
  Forall (fun c => 0 <= c < len la) chars ->
  decode_lines (la ++ ext) chars = decode_lines la chars.
Proof.
  induction 1 as [|c chars Hc _ IH]; [done|].
  unfold decode_lines in *. cbn [map concat]. rewrite IH.
  by rewrite get_app_l.
Qed.

Lemma diffText1_chars_to_lines (diffs : list Diff) (la : list jstring) :
  diffText1 (diffCharsToLines_ diffs la) = decode_lines la (diffText1 diffs).
Proof.
  induction diffs as [|[op t] diffs IH]; [done|].
  unfold diffCharsToLines_ in *. cbn [map].
  rewrite !diffText1_cons, decode_lines_app, IH.
  unfold set_text. cbn [d_op d_text]. by destruct (op_eqb op DIFF_INSERT).
Qed.

Lemma diffText2_chars_to_lines (diffs : list Diff) (la : list jstring) :
  diffText2 (diffCharsToLines_ diffs la) = decode_lines la (diffText2 diffs).
Proof.
  induction diffs as [|[op t] diffs IH]; [done|].
  unfold diffCharsToLines_ in *. cbn [map].
  rewrite !diffText2_cons, decode_lines_app, IH.
  unfold set_text. cbn [d_op d_text]. by destruct (op_eqb op DIFF_DELETE).
Qed.

(** No property name of [Object.prototype] holds a line feed. *)
Lemma keys_one_line (key : jstring) :
  key ∈ object_prototype_keys -> 10 ∉ key.
Proof.
  intros Hkey Hin.
  assert (forallb (fun k => forallb (fun c => negb (c =? 10)) k)
            object_prototype_keys = true) as Hall by (by vm_compute).
  rewrite forallb_forall in Hall.
  apply list_elem_of_In in Hkey. specialize (Hall _ Hkey).
  rewrite forallb_forall in Hall.
  apply list_elem_of_In in Hin. by specialize (Hall _ Hin).
Qed.

(** Where the next line ends. *)
Lemma next_line_end (text : jstring) (lineStart : Z) :
  0 <= lineStart < len text ->
  let i := indexOf text [10] lineStart in
  let lineEnd := if i =? -1 then len text - 1 else i in
  lineStart <= lineEnd < len text
  /\ (i <> -1 -> text !! Z.to_nat lineEnd = Some 10).
Proof.
  intros Hstart. cbv zeta.
  destruct (Z.eqb_spec (indexOf text [10] lineStart) (-1)) as [Hnone|Hfound].
  { split; [lia|]. intros Hne. by destruct Hne. }
  destruct (indexOf_bounds text [10] lineStart) as [?|[Hlo Hhi]]; [done|].
  rewrite clamp_in in Hlo by lia. rewrite Z2Nat.id in Hlo by lia.
  change (len [10]) with 1 in Hhi.
  split; [lia|]. intros _.
  revert Hfound Hlo Hhi. unfold indexOf. rewrite clamp_in by lia.
  rewrite Z2Nat.id by lia. intros Hfound Hlo Hhi.
  destruct (find_from_found [10] (drop (Z.to_nat lineStart) text) lineStart _
              ltac:(lia) eq_refl Hfound) as (k & Hk & Hsw & _).
  rewrite Hk. apply starts_with_spec in Hsw. cbn [length] in Hsw.
  rewrite drop_drop in Hsw.
  replace (Z.to_nat (lineStart + Z.of_nat k)) with (Z.to_nat lineStart + k)%nat
    by lia.
  destruct (drop (Z.to_nat lineStart + k) text) as [|c rest] eqn:Hdrop;
    [done|].
  injection Hsw as ->.
  pose proof (lookup_drop text (Z.to_nat lineStart + k) 0) as Hlook.
  rewrite Hdrop, Nat.add_0_r in Hlook. done.
Qed.

Lemma take_snoc_lookup {A} (l : list A) (n : nat) (x : A) :
  l !! n = Some x -> last (take (S n) l) = Some x.
Proof.
  intros Hx. rewrite (take_S_r l n x Hx). apply last_snoc.
Qed.

Lemma decode_lines_snoc (la : list jstring) (chars : jstring) (n : Z)
    (line : jstring) :
  get la n = Some line ->
  decode_lines la (chars ++ [n]) = decode_lines la chars ++ line.
Proof.
  intros Hn. rewrite decode_lines_app. f_equal.
  unfold decode_lines. cbn [map concat]. rewrite Hn. cbn [default].
  apply app_nil_r.
Qed.

Lemma Forall_range_snoc (chars : jstring) (n bound bound' : Z) :
  Forall (fun c => 0 <= c < bound) chars -> bound <= bound' ->
  0 <= n < bound' ->
  Forall (fun c => 0 <= c < bound') (chars ++ [n]).
Proof.
  intros Hchars Hle Hn. apply Forall_app. split.
  - eapply Forall_impl; [exact Hchars|]. intros c Hc. cbn in *. lia.
  - by apply Forall_singleton.
Qed.

Lemma munge_loop_spec (fuel : nat) (text : jstring) (maxLines : Z)
    (tbl : LineTable) (chars : jstring) (lineEnd : Z) :
  maxLines <= 65535 ->
  table_ok tbl ->
  -1 <= lineEnd ->
  len (lineArray tbl) <= maxLines + 1 ->
  (lineEnd + 1 < len text -> len (lineArray tbl) <= maxLines) ->
  Forall (fun c => 0 <= c < len (lineArray tbl)) chars ->
  len text - lineEnd <= Z.of_nat fuel ->
  exists chars' tbl',
    munge_loop fuel text maxLines tbl chars (lineEnd + 1) lineEnd
      (len (lineArray tbl)) = Some (chars', tbl')
    /\ table_ok tbl'
    /\ len (lineArray tbl') <= maxLines + 1
    /\ (exists ext, lineArray tbl' = lineArray tbl ++ ext)
    /\ Forall (fun c => 0 <= c < len (lineArray tbl')) chars'
    /\ (~ inherited_line text ->
        (lineEnd + 1 < len text ->
         take (Z.to_nat (lineEnd + 1)) text = []
         \/ last (take (Z.to_nat (lineEnd + 1)) text) = Some 10) ->
        decode_lines (lineArray tbl) chars
        = take (Z.to_nat (lineEnd + 1)) text ->
        decode_lines (lineArray tbl') chars' = text).
Proof.
  intros Hmax. revert tbl chars lineEnd.
  assert (forall tbl chars lineEnd,
            table_ok tbl -> len (lineArray tbl) <= maxLines + 1 ->
            Forall (fun c => 0 <= c < len (lineArray tbl)) chars ->
            len text - 1 <= lineEnd ->
            exists chars' tbl',
              Some (chars, tbl) = Some (chars', tbl')
              /\ table_ok tbl'
              /\ len (lineArray tbl') <= maxLines + 1
              /\ (exists ext, lineArray tbl' = lineArray tbl ++ ext)
              /\ Forall (fun c => 0 <= c < len (lineArray tbl')) chars'
              /\ (~ inherited_line text ->
                  (lineEnd + 1 < len text ->
                   take (Z.to_nat (lineEnd + 1)) text = []
                   \/ last (take (Z.to_nat (lineEnd + 1)) text) = Some 10) ->
                  decode_lines (lineArray tbl) chars
                  = take (Z.to_nat (lineEnd + 1)) text ->
                  decode_lines (lineArray tbl') chars' = text)) as Hstop.
  { intros tbl chars lineEnd Hok Hlen Hchars Hend. exists chars, tbl.
    split_and!; try done.
    - exists []. by rewrite app_nil_r.
    - intros _ _ ->. apply take_ge. unfold len in *. lia. }
  induction fuel as [|fuel IH];
    intros tbl chars lineEnd Hok Hle Hlen Hroom Hchars Hfuel;
    cbn [munge_loop];
    destruct (Z.ltb_spec lineEnd (len text - 1)) as [Hmore|Hdone];
    try (by apply Hstop); [lia|].
  set (lineStart := lineEnd + 1) in *.
  destruct (next_line_end text lineStart ltac:(lia)) as [Hrange Hnl].
  cbv zeta in *.
  set (i := indexOf text [10] lineStart) in *.
  set (le := if i =? -1 then len text - 1 else i) in *.
  set (line := substring text lineStart (le + 1)).
  assert (line = take (Z.to_nat (le + 1 - lineStart))
                   (drop (Z.to_nat lineStart) text)) as Hline
    by (unfold line; apply substring_in; lia).
  assert (take (Z.to_nat (le + 1)) text
          = take (Z.to_nat lineStart) text ++ line) as Htake.
  { rewrite Hline, take_take_drop_app. f_equal. lia. }
  assert (le + 1 < len text ->
          take (Z.to_nat (le + 1)) text = []
          \/ last (take (Z.to_nat (le + 1)) text) = Some 10) as Hnext.
  { intros Hin. right.
    assert (i <> -1) as Hfound.
    { intros Hi. unfold le in Hin. rewrite Hi in Hin. cbn in Hin. lia. }
    replace (Z.to_nat (le + 1)) with (S (Z.to_nat le)) by lia.
    apply take_snoc_lookup. by apply Hnl. }
  destruct Hok as [Hone Htable].
  pose proof (Hroom ltac:(lia)) as Hlal.
  unfold lineHash_get.
  destruct (lineHash tbl !! line) as [n|] eqn:Hhash.
  - (* A line seen before. *)
    destruct (Htable _ _ Hhash) as [Hget Hn].
    cbn [fromCharCode]. rewrite Z.mod_small by lia.
    destruct (IH tbl (chars ++ [n]) le)
      as (chars' & tbl' & -> & Hok' & Hlen' & Hext & Hchars' & Hdec);
      try done; try lia.
    { eapply Forall_range_snoc; [exact Hchars|lia|].
      by apply get_Some_range in Hget. }
    exists chars', tbl'. split_and!; try done.
    intros Hno _ Hchars_text. apply Hdec; [done|done|].
    by rewrite (decode_lines_snoc _ _ _ _ Hget), Hchars_text, Htake.
  - destruct (bool_decide (line ∈ object_prototype_keys)) eqn:Hkey.
    + (* A line that is a property name of [Object.prototype]. *)
      cbn [fromCharCode].
      destruct (IH tbl (chars ++ [0]) le)
        as (chars' & tbl' & -> & Hok' & Hlen' & Hext & Hchars' & Hdec);
        try done; try lia.
      { eapply Forall_range_snoc; [exact Hchars|lia|lia]. }
      exists chars', tbl'. split_and!; try done.
      intros Hno Hstart _. destruct Hno.
      apply bool_decide_eq_true in Hkey.
      pose proof (keys_one_line _ Hkey) as Hone_line.
      assert (i = -1) as Hi.
      { destruct (Z.eq_dec i (-1)) as [|Hfound]; [done|].
        destruct Hone_line. rewrite Hline.
        apply (list_elem_of_lookup_2 _ (Z.to_nat (le - lineStart))).
        rewrite lookup_take_lt by lia. rewrite lookup_drop.
        replace (Z.to_nat lineStart + Z.to_nat (le - lineStart))%nat
          with (Z.to_nat le) by lia.
        by apply Hnl. }
      exists (take (Z.to_nat lineStart) text), line. split_and!.
      * done.
      * assert (le = len text - 1) as Hle_end
          by (unfold le; rewrite Hi; done).
        rewrite <- Htake, Hle_end. symmetry. apply take_ge.
        unfold len. lia.
      * apply Hstart. lia.
    + (* A new line. *)
      set (bail := len (lineArray tbl) =? maxLines).
      set (line2 := if bail then substring_from text lineStart else line).
      set (le2 := if bail then len text else le).
      assert ((if bail then (substring_from text lineStart, len text)
               else (line, le)) = (line2, le2)) as ->
        by (unfold line2, le2; by destruct bail).
      cbn [fromCharCode]. rewrite Z.mod_small by lia.
      assert (take (Z.to_nat (le2 + 1)) text
              = take (Z.to_nat lineStart) text ++ line2) as Htake2.
      { unfold line2, le2. destruct bail; [|done].
        rewrite substring_from_in by lia. rewrite take_drop.
        apply take_ge. unfold len. lia. }
      assert (le <= le2 <= len text) as Hle2
        by (unfold le2; destruct bail; lia).
      assert (le2 + 1 < len text -> bail = false /\ le2 = le) as Hnobail.
      { unfold le2. destruct bail; [lia|done]. }
      destruct (IH (mkLineTable (lineArray tbl ++ [line2])
                      (<[line2 := len (lineArray tbl)]> (lineHash tbl)))
                  (chars ++ [len (lineArray tbl)]) le2)
        as (chars' & tbl' & Hrun & Hok' & Hlen' & Hext & Hchars' & Hdec);
        cbn [lineArray lineHash]; try lia.
      { split; cbn [lineArray lineHash].
        - rewrite len_app. change (len [line2]) with 1. lia.
        - intros l n Hl.
          destruct (decide (l = line2)) as [->|Hother].
          + rewrite lookup_insert_eq in Hl. injection Hl as <-.
            split; [|lia]. by apply get_middle.
          + rewrite lookup_insert_ne in Hl by done.
            destruct (Htable _ _ Hl) as [Hget Hn]. split; [|done].
            rewrite get_app_l; [done|]. by apply get_Some_range in Hget. }
      { rewrite len_app. change (len [line2]) with 1. lia. }
      { intros Hin. destruct (Hnobail Hin) as [Hb _].
        rewrite len_app. change (len [line2]) with 1.
        unfold bail in Hb. apply Z.eqb_neq in Hb. lia. }
      { rewrite len_app. change (len [line2]) with 1.
        eapply Forall_range_snoc; [exact Hchars|lia|lia]. }
      cbn [lineArray lineHash] in *.
      rewrite len_app in Hrun. change (len [line2]) with 1 in Hrun.
      exists chars', tbl'. split_and!; try done.
      * destruct Hext as [ext ->]. exists ([line2] ++ ext).
        by rewrite <- app_assoc.
      * intros Hno _ Hchars_text. apply Hdec; [done| |].
        -- intros Hin. destruct (Hnobail Hin) as [_ ->]. by apply Hnext.
        -- rewrite decode_lines_app, decode_lines_stable by done.
           rewrite Hchars_text, Htake2. f_equal.
           unfold decode_lines. cbn [map concat].
           rewrite (get_middle (lineArray tbl) [] line2) by done.
           cbn [default]. apply app_nil_r.
Qed.

Lemma diffLinesToChars_spec (text1 text2 : jstring) :
  exists chars1 chars2 la,
    diffLinesToChars_ text1 text2 = Some (chars1, chars2, la)
    /\ (~ inherited_line text1 -> decode_lines la chars1 = text1)
    /\ (~ inherited_line text2 -> decode_lines la chars2 = text2).
Proof.
  unfold diffLinesToChars_, diffLinesToCharsMunge_.
  destruct (munge_loop_spec (length text1 + 1) text1 40000
              (mkLineTable [[]] ∅) [] (-1))
    as (chars1 & tbl1 & Hrun1 & Hok1 & Hlen1 & _ & Hchars1 & Hdec1);
    cbn [lineArray lineHash]; try done; try lia.
  { unfold len. lia. }
  cbn [lineArray lineHash] in Hrun1. change (-1 + 1) with 0 in Hrun1.
  rewrite Hrun1. cbn [mbind option_bind].
  destruct (munge_loop_spec (length text2 + 1) text2 65535 tbl1 [] (-1))
    as (chars2 & tbl2 & Hrun2 & Hok2 & Hlen2 & [ext Hext] & Hchars2 & Hdec2);
    try done; try lia.
  { unfold len. lia. }
  change (-1 + 1) with 0 in Hrun2. rewrite Hrun2. cbn [mbind option_bind].
  exists chars1, chars2, (lineArray tbl2). split; [done|]. split.
  - intros Hno. rewrite Hext, decode_lines_stable by done.
    apply Hdec1; [done|by left|done].
  - intros Hno. apply Hdec2; [done|by left|done].
Qed.

(** X22.  [diffLinesToChars_] always returns; when the last line of
    neither text is a property name of [Object.prototype] left without a
    line feed, [diffCharsToLines_] turns every edit script between the
    two strings of line numbers into an edit script between the two
    texts. *)
Theorem X22_lines_round_trip (text1 text2 : jstring) :
  ~ inherited_line text1 -> ~ inherited_line text2 ->
  exists chars1 chars2 la,
    diffLinesToChars_ text1 text2 = Some (chars1, chars2, la)
    /\ forall diffs,
         valid_script chars1 chars2 diffs ->
         valid_script text1 text2 (diffCharsToLines_ diffs la).
Proof.
  intros Hno1 Hno2.
  destruct (diffLinesToChars_spec text1 text2)
    as (chars1 & chars2 & la & Hrun & Hd1 & Hd2).
  exists chars1, chars2, la. split; [done|].
  intros diffs [H1 H2]. split.
  - rewrite diffText1_chars_to_lines, H1. by apply Hd1.
  - rewrite diffText2_chars_to_lines, H2. by apply Hd2.
Qed.

(** A text that ends with a line feed has no line without one. *)
Lemma ends_with_line_feed (text : jstring) :
  last text = Some 10 -> ~ inherited_line text.
Proof.
  intros Hlast (pre & key & Hkey & -> & _).
  pose proof (keys_one_line _ Hkey) as Hone. destruct Hone.
  rewrite last_app in Hlast.
  destruct (last key) as [c|] eqn:Hc.
  - injection Hlast as ->. apply last_Some in Hc as [init ->].
    apply elem_of_app. right. constructor.
  - apply last_None in Hc as ->.
    revert Hkey. vm_compute. intros Hkey.
    repeat (apply elem_of_cons in Hkey as [Hkey|Hkey]; [discriminate|]).
    by apply elem_of_nil in Hkey.
Qed.

Lemma X22_lines_round_trip_witness :
  exists chars1 chars2 la,
    diffLinesToChars_ [97; 10; 98; 10] [97; 10; 99; 10]
    = Some (chars1, chars2, la)
    /\ forall diffs,
         valid_script chars1 chars2 diffs ->
         valid_script [97; 10; 98; 10] [97; 10; 99; 10]
           (diffCharsToLines_ diffs la).
Proof.
  apply (X22_lines_round_trip [97; 10; 98; 10] [97; 10; 99; 10]);
    by apply ends_with_line_feed.
Defined.

(** ** [diffCleanupSemanticLossless] *)

Lemma charAt_0_nil : charAt [] 0 = [].
Proof. reflexivity. Qed.

Lemma substring_from_1_nil : substring_from [] 1 = [].
Proof. reflexivity. Qed.

(** What one step of the slide does to an arrangement. *)
Lemma slide_step_spec (e1 ed e2 : jstring) (without within : jstring)
    (size : Z) :
  str_eqb (charAt ed 0) (charAt e2 0) = true ->
  arrangement_of without within size (e1, ed, e2) ->
  arrangement_of without within size
    (e1 ++ charAt ed 0, substring_from ed 1 ++ charAt e2 0,
     substring_from e2 1)
  /\ (ed <> [] -> exists c e2', e2 = c :: e2'
                   /\ substring_from e2 1 = e2'
                   /\ substring_from ed 1 ++ charAt e2 0 <> []).
Proof.
  intros Hsame%str_eqb_eq (H1 & H2 & H3).
  destruct ed as [|c ed'], e2 as [|c' e2'];
    rewrite ?charAt_0_cons, ?charAt_0_nil, ?substring_from_1_cons,
      ?substring_from_1_nil in *; try done.
  { split; [|done]. unfold arrangement_of. cbn [app] in *.
    rewrite !app_nil_r in *. by split_and!. }
  injection Hsame as <-. split.
  - split_and!.
    + by rewrite <- app_assoc.
    + rewrite <- H2, <- !app_assoc. done.
    + rewrite <- H3, len_app, !len_cons, len_nil. lia.
  - intros _. exists c, e2'. split_and!; [done|done|by destruct ed'].
Qed.

Lemma lossless_slide_spec (fuel : nat) (cur best b : Arrangement)
    (score : Z) (without within : jstring) (size : Z) :
  arrangement_of without within size cur ->
  arrangement_of without within size best ->
  lossless_slide fuel cur best score = Some b ->
  arrangement_of without within size b.
Proof.
  revert cur best score.
  induction fuel as [|fuel IH]; intros [[e1 ed] e2] best score Hcur Hbest;
    cbn [lossless_slide];
    destruct (str_eqb (charAt ed 0) (charAt e2 0)) eqn:Hsame;
    try done; try (by intros [= <-]).
  destruct (slide_step_spec e1 ed e2 _ _ _ Hsame Hcur) as [Hnext _].
  destruct (_ <=? _); by apply IH.
Qed.

Lemma lossless_slide_total (fuel : nat) (e1 ed e2 : jstring)
    (best : Arrangement) (score : Z) :
  ed <> [] -> (length e2 < fuel)%nat ->
  exists b, lossless_slide fuel (e1, ed, e2) best score = Some b.
Proof.
  revert e1 ed e2 best score.
  induction fuel as [|fuel IH]; intros e1 ed e2 best score Hed Hfuel; [lia|].
  cbn [lossless_slide].
  destruct (str_eqb (charAt ed 0) (charAt e2 0)) eqn:Hsame; [|by eexists].
  destruct (slide_step_spec e1 ed e2 (e1 ++ e2) (e1 ++ ed ++ e2) (len ed)
              Hsame ltac:(done)) as [_ Hstep].
  destruct (Hstep Hed) as (c & e2' & -> & -> & Hne).
  cbn [length] in Hfuel.
  destruct (_ <=? _); apply IH; (done || lia).
Qed.

Lemma texts_nonempty_middle (A B mid mid' : list Diff) :
  texts_nonempty (A ++ mid ++ B) -> texts_nonempty mid' ->
  texts_nonempty (A ++ mid' ++ B).
Proof.
  unfold texts_nonempty. rewrite !Forall_app. intros (HA & _ & HB) Hmid.
  by split_and!.
Qed.

(** Saving the best arrangement back to the script. *)
Lemma lossless_write_back (A B : list Diff) (op : Op)
    (p ct n b1 bed b2 : jstring) (diffs' : list Diff) (p' : Z) :
  let diffs :=
    A ++ mkDiff DIFF_EQUAL p :: mkDiff op ct :: mkDiff DIFF_EQUAL n :: B in
  let pointer := len A + 1 in
  arrangement_of (p ++ n) (p ++ ct ++ n) (len ct) (b1, bed, b2) ->
  (if negb (str_eqb p b1) then
     let '(diffs, pointer) :=
       if truthy b1
       then (set_at diffs (pointer - 1) (set_text (mkDiff DIFF_EQUAL p) b1),
             pointer)
       else (splice diffs (pointer - 1) 1 [], pointer - 1) in
     cur' ← get diffs pointer;
     let diffs := set_at diffs pointer (set_text cur' bed) in
     if truthy b2 then
       next' ← get diffs (pointer + 1);
       Some (set_at diffs (pointer + 1) (set_text next' b2), pointer)
     else Some (splice diffs (pointer + 1) 1 [], pointer - 1)
   else Some (diffs, pointer)) = Some (diffs', p') ->
  diffText1 diffs' = diffText1 diffs
  /\ diffText2 diffs' = diffText2 diffs
  /\ 2 * len diffs' - p' <= 2 * len diffs - pointer
  /\ (texts_nonempty diffs -> texts_nonempty diffs' /\ len A <= p').
Proof.
  intros diffs pointer (H1 & H2 & H3).
  destruct (str_eqb p b1) eqn:Hsame; cbn [negb].
  { intros [= <- <-]. split_and!; try done; try lia.
    intros Hne. split; [done|]. unfold pointer. lia. }
  assert (forall X Y : jstring,
            (if op_eqb op DIFF_INSERT then [] else bed) = X ->
            (if op_eqb op DIFF_INSERT then [] else ct) = Y ->
            b1 ++ X ++ b2 = p ++ Y ++ n) as HD1.
  { intros X Y <- <-. by destruct (op_eqb op DIFF_INSERT). }
  assert (forall X Y : jstring,
            (if op_eqb op DIFF_DELETE then [] else bed) = X ->
            (if op_eqb op DIFF_DELETE then [] else ct) = Y ->
            b1 ++ X ++ b2 = p ++ Y ++ n) as HD2.
  { intros X Y <- <-. by destruct (op_eqb op DIFF_DELETE). }
  assert (texts_nonempty diffs -> bed <> [] /\ p ++ n <> []) as Hkeep.
  { unfold diffs, texts_nonempty. rewrite Forall_app, !Forall_cons.
    cbn [d_text]. intros (_ & Hp & Hct & _). split.
    - intros ->. rewrite len_nil in H3. symmetry in H3.
      by apply len_zero_nil in H3.
    - by destruct p. }
  unfold diffs, pointer.
  replace (len A + 1 - 1) with (len A) by lia.
  destruct (truthy b1) eqn:Hb1, (truthy b2) eqn:Hb2.
  - (* Both equalities stay. *)
    rewrite (set_at_middle A) by done.
    rewrite (get_second A _ _ _ (len A + 1)) by done.
    cbn [mbind option_bind].
    rewrite (set_at_second A) by done.
    rewrite (get_third A _ _ _ _ (len A + 1 + 1)) by lia.
    cbn [mbind option_bind].
    rewrite (set_at_third A) by lia.
    unfold set_text. cbn [d_op d_text].
    intros [= <- <-]. split_and!.
    + rewrite !diffText1_app, !diffText1_cons. cbn [d_op d_text]. op_simpl.
      f_equal. rewrite !app_assoc. f_equal. rewrite <- !app_assoc.
      by apply HD1.
    + rewrite !diffText2_app, !diffText2_cons. cbn [d_op d_text]. op_simpl.
      f_equal. rewrite !app_assoc. f_equal. rewrite <- !app_assoc.
      by apply HD2.
    + rewrite !len_app, !len_cons. lia.
    + intros Hne. destruct (Hkeep Hne) as [Hbed _]. split; [|lia].
      apply (texts_nonempty_middle A B
               [mkDiff DIFF_EQUAL p; mkDiff op ct; mkDiff DIFF_EQUAL n]
               [mkDiff DIFF_EQUAL b1; mkDiff op bed; mkDiff DIFF_EQUAL b2]);
        [done|].
      apply truthy_true_len in Hb1, Hb2.
      repeat (apply Forall_cons_2; [cbn [d_text]; intros ->; by cbn in *|]).
      apply Forall_nil_2.
  - (* The second equality is used up. *)
    apply truthy_false_nil in Hb2 as ->.
    rewrite (set_at_middle A) by done.
    rewrite (get_second A _ _ _ (len A + 1)) by done.
    cbn [mbind option_bind].
    rewrite (set_at_second A) by done.
    rewrite (splice_remove_third A) by lia.
    unfold set_text. cbn [d_op d_text].
    intros [= <- <-]. split_and!.
    + rewrite !diffText1_app, !diffText1_cons. cbn [d_op d_text]. op_simpl.
      f_equal. rewrite !app_assoc. f_equal. rewrite <- !app_assoc.
      rewrite <- (HD1 _ _ eq_refl eq_refl). by rewrite !app_nil_r.
    + rewrite !diffText2_app, !diffText2_cons. cbn [d_op d_text]. op_simpl.
      f_equal. rewrite !app_assoc. f_equal. rewrite <- !app_assoc.
      rewrite <- (HD2 _ _ eq_refl eq_refl). by rewrite !app_nil_r.
    + rewrite !len_app, !len_cons. lia.
    + intros Hne. destruct (Hkeep Hne) as [Hbed _]. split; [|lia].
      apply (texts_nonempty_middle A B
               [mkDiff DIFF_EQUAL p; mkDiff op ct; mkDiff DIFF_EQUAL n]
               [mkDiff DIFF_EQUAL b1; mkDiff op bed]); [done|].
      apply truthy_true_len in Hb1.
      repeat (apply Forall_cons_2; [cbn [d_text]; intros ->; by cbn in *|]).
      apply Forall_nil_2.
  - (* The first equality is used up. *)
    apply truthy_false_nil in Hb1 as ->.
    rewrite (splice_remove_at A) by done.
    rewrite (get_middle A _ _ (len A)) by done.
    cbn [mbind option_bind].
    rewrite (set_at_middle A) by done.
    rewrite (get_second A _ _ _ (len A + 1)) by done.
    cbn [mbind option_bind].
    rewrite (set_at_second A) by done.
    unfold set_text. cbn [d_op d_text].
    intros [= <- <-]. split_and!.
    + rewrite !diffText1_app, !diffText1_cons. cbn [d_op d_text]. op_simpl.
      f_equal. rewrite !app_assoc. f_equal. rewrite <- !app_assoc.
      by rewrite <- (HD1 _ _ eq_refl eq_refl).
    + rewrite !diffText2_app, !diffText2_cons. cbn [d_op d_text]. op_simpl.
      f_equal. rewrite !app_assoc. f_equal. rewrite <- !app_assoc.
      by rewrite <- (HD2 _ _ eq_refl eq_refl).
    + rewrite !len_app, !len_cons. lia.
    + intros Hne. destruct (Hkeep Hne) as [Hbed _]. split; [|lia].
      apply (texts_nonempty_middle A B
               [mkDiff DIFF_EQUAL p; mkDiff op ct; mkDiff DIFF_EQUAL n]
               [mkDiff op bed; mkDiff DIFF_EQUAL b2]); [done|].
      apply truthy_true_len in Hb2.
      repeat (apply Forall_cons_2; [cbn [d_text]; intros ->; by cbn in *|]).
      apply Forall_nil_2.
  - (* Both equalities are used up. *)
    apply truthy_false_nil in Hb1 as ->. apply truthy_false_nil in Hb2 as ->.
    rewrite (splice_remove_at A) by done.
    rewrite (get_middle A _ _ (len A)) by done.
    cbn [mbind option_bind].
    rewrite (set_at_middle A) by done.
    rewrite (splice_remove_after A) by done.
    unfold set_text. cbn [d_op d_text].
    intros [= <- <-]. split_and!.
    + rewrite !diffText1_app, !diffText1_cons. cbn [d_op d_text]. op_simpl.
      f_equal. rewrite !app_assoc. f_equal. rewrite <- !app_assoc.
      rewrite <- (HD1 _ _ eq_refl eq_refl). by rewrite !app_nil_r.
    + rewrite !diffText2_app, !diffText2_cons. cbn [d_op d_text]. op_simpl.
      f_equal. rewrite !app_assoc. f_equal. rewrite <- !app_assoc.
      rewrite <- (HD2 _ _ eq_refl eq_refl). by rewrite !app_nil_r.
    + rewrite !len_app, !len_cons. lia.
    + intros Hne. destruct (Hkeep Hne) as [_ Hpn]. by rewrite <- H1 in Hpn.
Qed.

(** The arrangement the slide starts from: the edit shifted as far left
    as possible. *)
Lemma lossless_start_spec (p ct n : jstring) (c : Z) :
  0 <= c -> c <= len p -> c <= len ct ->
  drop (length p - Z.to_nat c) p = drop (length ct - Z.to_nat c) ct ->
  arrangement_of (p ++ n) (p ++ ct ++ n) (len ct)
    (if negb (c =? 0) then
       (substring p 0 (len p - c),
        substring_from ct (len ct - c) ++ substring ct 0 (len ct - c),
        substring_from ct (len ct - c) ++ n)
     else (p, ct, n)).
Proof.
  intros Hc0 Hc1 Hc2 Hdrop.
  destruct (Z.eqb_spec c 0) as [->|Hc]; cbn [negb]; [done|].
  set (np := (length p - Z.to_nat c)%nat) in *.
  set (nc := (length ct - Z.to_nat c)%nat) in *.
  assert (substring p 0 (len p - c) = take np p) as ->.
  { rewrite substring_0, clamp_in by lia. f_equal. unfold np, len. lia. }
  assert (substring ct 0 (len ct - c) = take nc ct) as ->.
  { rewrite substring_0, clamp_in by lia. f_equal. unfold nc, len. lia. }
  assert (substring_from ct (len ct - c) = drop nc ct) as ->.
  { rewrite substring_from_in by lia. f_equal. unfold nc, len. lia. }
  unfold arrangement_of. split_and!.
  - by rewrite <- Hdrop, app_assoc, take_drop.
  - rewrite <- Hdrop at 1.
    rewrite !app_assoc, take_drop, <- !app_assoc.
    by rewrite (app_assoc (take nc ct)), take_drop.
  - rewrite len_app, len_take, len_drop by (unfold nc; lia).
    unfold nc, len in *. lia.
Qed.

Lemma lossless_step_spec (A B : list Diff) (prev cur next : Diff)
    (diffs' : list Diff) (p' : Z) :
  lossless_step (A ++ prev :: cur :: next :: B) (len A + 1)
  = Some (diffs', p') ->
  diffText1 diffs' = diffText1 (A ++ prev :: cur :: next :: B)
  /\ diffText2 diffs' = diffText2 (A ++ prev :: cur :: next :: B)
  /\ 2 * len diffs' - p'
     <= 2 * len (A ++ prev :: cur :: next :: B) - (len A + 1)
  /\ (texts_nonempty (A ++ prev :: cur :: next :: B) ->
      texts_nonempty diffs' /\ len A <= p').
Proof.
  unfold lossless_step.
  rewrite (get_middle A _ _ (len A + 1 - 1)) by lia. cbn [mbind option_bind].
  rewrite (get_third A _ _ _ _ (len A + 1 + 1)) by lia.
  cbn [mbind option_bind].
  destruct (op_eqb (d_op prev) DIFF_EQUAL && op_eqb (d_op next) DIFF_EQUAL)
    eqn:Hops.
  2:{ intros [= <- <-]. split_and!; try done; try lia.
      intros Hne. split; [done|lia]. }
  apply andb_true_iff in Hops as [Hop1 Hop2].
  apply bool_decide_eq_true in Hop1, Hop2.
  destruct prev as [op1 p], next as [op2 n], cur as [op ct].
  cbn [d_op d_text] in *. subst.
  rewrite (get_second A _ _ _ (len A + 1)) by lia.
  cbn [mbind option_bind d_op d_text].
  destruct (diffCommonSuffix_spec p ct) as (c & -> & Hc0 & Hc1 & Hc2 & Hdrop).
  cbn [mbind option_bind].
  pose proof (lossless_start_spec p ct n c Hc0 Hc1 Hc2 Hdrop) as Hstart.
  destruct (if negb (c =? 0) then _ else _) as [[e1 ed] e2] eqn:Hshift
    in Hstart |- *.
  destruct (lossless_slide _ _ _ _) as [[[b1 bed] b2]|] eqn:Hslide; [|done].
  cbn [mbind option_bind].
  apply lossless_slide_spec with (1 := Hstart) (2 := Hstart) in Hslide.
  intros Hrun.
  by apply (lossless_write_back A B op p ct n b1 bed b2 diffs' p' Hslide).
Qed.

Lemma lossless_step_total (A B : list Diff) (prev cur next : Diff) :
  texts_nonempty (A ++ prev :: cur :: next :: B) ->
  exists r, lossless_step (A ++ prev :: cur :: next :: B) (len A + 1) = Some r.
Proof.
  intros Hne. unfold lossless_step.
  rewrite (get_middle A _ _ (len A + 1 - 1)) by lia. cbn [mbind option_bind].
  rewrite (get_third A _ _ _ _ (len A + 1 + 1)) by lia.
  cbn [mbind option_bind].
  destruct (op_eqb (d_op prev) DIFF_EQUAL && op_eqb (d_op next) DIFF_EQUAL);
    [|by eexists].
  rewrite (get_second A _ _ _ (len A + 1)) by lia.
  cbn [mbind option_bind].
  destruct (diffCommonSuffix_spec (d_text prev) (d_text cur))
    as (c & -> & Hc0 & Hc1 & Hc2 & Hdrop).
  cbn [mbind option_bind].
  pose proof (lossless_start_spec (d_text prev) (d_text cur) (d_text next) c
                Hc0 Hc1 Hc2 Hdrop) as Hstart.
  assert (d_text cur <> []) as Hcur.
  { unfold texts_nonempty in Hne.
    rewrite Forall_app, !Forall_cons in Hne. by destruct Hne as (_ & _ & ? & _). }
  destruct (if negb (c =? 0) then _ else _) as [[e1 ed] e2] eqn:Hshift
    in Hstart |- *.
  destruct Hstart as (_ & _ & Hsize). cbv iota beta zeta.
  destruct (lossless_slide _ _ _ _) as [[[b1 bed] b2]|] eqn:Hslide.
  2:{ destruct (lossless_slide_total (length e2 + 1) e1 ed e2 (e1, ed, e2)
                  (arrangement_score (e1, ed, e2))) as [b Hb]; [|lia|].
      - intros ->. rewrite len_nil in Hsize. symmetry in Hsize.
        by apply len_zero_nil in Hsize.
      - by pose proof (eq_trans (eq_sym Hb) Hslide). }
  cbn [mbind option_bind].
  destruct (negb (str_eqb (d_text prev) b1)); [|by eexists].
  replace (len A + 1 - 1) with (len A) by lia.
  destruct (truthy b1), (truthy b2).
  - rewrite (set_at_middle A) by done.
    rewrite (get_second A _ _ _ (len A + 1)) by done.
    cbn [mbind option_bind].
    rewrite (set_at_second A) by done.
    rewrite (get_third A _ _ _ _ (len A + 1 + 1)) by lia.
    by eexists.
  - rewrite (set_at_middle A) by done.
    rewrite (get_second A _ _ _ (len A + 1)) by done.
    by eexists.
  - rewrite (splice_remove_at A) by done.
    rewrite (get_middle A _ _ (len A)) by done.
    cbn [mbind option_bind].
    rewrite (set_at_middle A) by done.
    rewrite (get_second A _ _ _ (len A + 1)) by done.
    by eexists.
  - rewrite (splice_remove_at A) by done.
    rewrite (get_middle A _ _ (len A)) by done.
    by eexists.
Qed.

Lemma lossless_loop_spec (fuel : nat) (diffs : list Diff) (pointer : Z)
    (out : list Diff) :
  lossless_loop fuel diffs pointer = Some out ->
  diffText1 out = diffText1 diffs /\ diffText2 out = diffText2 diffs.
Proof.
  revert diffs pointer. induction fuel as [|fuel IH]; intros diffs pointer;
    cbn [lossless_loop];
    destruct (Z.ltb_spec pointer (len diffs - 1)) as [Hlt|Hge];
    try done; try (by intros [= <-]).
  destruct (Z.le_gt_cases 1 pointer) as [Hp|Hp].
  2:{ unfold lossless_step, get.
      destruct (Z.leb_spec 0 (pointer - 1)); [lia|done]. }
  destruct (split_around diffs pointer ltac:(lia))
    as (a & x & y & z & b & -> & Hlen).
  replace pointer with (len a + 1) in * by lia.
  destruct (lossless_step _ _) as [[diffs' p']|] eqn:Hstep; [|done].
  cbn [mbind option_bind fst snd].
  apply lossless_step_spec in Hstep as (H1 & H2 & _).
  intros Hrun. apply IH in Hrun as [Ho1 Ho2]. split; congruence.
Qed.

Lemma lossless_loop_total (fuel : nat) (diffs : list Diff) (pointer : Z) :
  texts_nonempty diffs -> 1 <= pointer ->
  2 * len diffs - pointer <= Z.of_nat fuel ->
  exists out,
    lossless_loop fuel diffs pointer = Some out /\ texts_nonempty out.
Proof.
  revert diffs pointer.
  induction fuel as [|fuel IH]; intros diffs pointer Hne Hp Hfuel;
    cbn [lossless_loop];
    destruct (Z.ltb_spec pointer (len diffs - 1)) as [Hlt|Hge];
    try (by exists diffs); [lia|].
  destruct (split_around diffs pointer ltac:(lia))
    as (a & x & y & z & b & -> & Hlen).
  replace pointer with (len a + 1) in * by lia.
  destruct (lossless_step_total a b x y z Hne) as [[diffs' p'] Hstep].
  rewrite Hstep. cbn [mbind option_bind fst snd].
  apply lossless_step_spec in Hstep as (_ & _ & Hmeasure & Hkeep).
  destruct (Hkeep Hne) as [Hne' Hp'].
  pose proof (len_nonneg a).
  apply IH; [done|lia|lia].
Qed.

(** X23.  [diffCleanupSemanticLossless] keeps the texts of the script:
    whenever it returns, the script it leaves has the same source text
    and the same destination text as the one it was given.  It returns
    for every script without an empty string, and then leaves a script
    without one. *)
Theorem X23_diffCleanupSemanticLossless_texts (diffs : list Diff) :
  (forall out,
     diffCleanupSemanticLossless diffs = Some out ->
     diffText1 out = diffText1 diffs /\ diffText2 out = diffText2 diffs)
  /\ (texts_nonempty diffs ->
      exists out,
        diffCleanupSemanticLossless diffs = Some out /\ texts_nonempty out).
Proof.
  unfold diffCleanupSemanticLossless. split.
  - intros out. apply lossless_loop_spec.
  - intros Hne. apply lossless_loop_total; [done|lia|unfold len; lia].
Qed.

Lemma X23_diffCleanupSemanticLossless_texts_witness :
  exists out,
    diffCleanupSemanticLossless
      [mkDiff DIFF_EQUAL (str "The c"); mkDiff DIFF_INSERT (str "ow and the c");
       mkDiff DIFF_EQUAL (str "at.")] = Some out
    /\ texts_nonempty out.
Proof.
  apply (proj2 (X23_diffCleanupSemanticLossless_texts _)).
  repeat (apply Forall_cons_2; [by vm_compute|]). apply Forall_nil_2.
Defined.
(** ** [diffCleanupMerge] brings no empty string into a script *)

Lemma get_split {A} (l : list A) (p : Z) (x : A) :
  get l p = Some x ->
  exists a b, l = a ++ x :: b /\ len a = p.
Proof.
  unfold get. destruct (Z.leb_spec 0 p); [|done]. intros Hx.
  exists (take (Z.to_nat p) l), (drop (S (Z.to_nat p)) l). split.
  - by rewrite take_drop_middle.
  - unfold len. rewrite length_take. apply lookup_lt_Some in Hx. lia.
Qed.

Lemma get_in_range {A} (l : list A) (p : Z) :
  0 <= p < len l -> exists x, get l p = Some x.
Proof.
  intros Hp. unfold get. destruct (Z.leb_spec 0 p); [|lia].
  apply lookup_lt_is_Some_2. unfold len in Hp. lia.
Qed.

Lemma but_last_lookup (diffs : list Diff) :
  nonempty_but_last diffs
  <-> forall (i : nat) x,
        diffs !! i = Some x -> (S i < length diffs)%nat -> d_text x <> [].
Proof.
  unfold nonempty_but_last, texts_nonempty. rewrite Forall_lookup. split.
  - intros H i x Hx Hi. apply (H i). by rewrite lookup_take_lt by lia.
  - intros H i x Hx. apply lookup_take_Some in Hx as [Hx Hi].
    apply (H i); [done|lia].
Qed.

Lemma texts_nonempty_but_last (diffs : list Diff) :
  texts_nonempty diffs -> nonempty_but_last diffs.
Proof. apply Forall_take. Qed.

Lemma but_last_snoc (body : list Diff) (l : Diff) :
  texts_nonempty body -> nonempty_but_last (body ++ [l]).
Proof.
  intros Hbody. unfold nonempty_but_last. rewrite length_app. cbn [length].
  replace (length body + 1 - 1)%nat with (length body) by lia.
  by rewrite take_app_length.
Qed.

Lemma but_last_app (a b : list Diff) :
  texts_nonempty a -> nonempty_but_last b -> nonempty_but_last (a ++ b).
Proof.
  intros Ha Hb. apply but_last_lookup. intros i x Hx Hi.
  rewrite length_app in Hi.
  apply lookup_app_Some in Hx as [Hx|[Hge Hx]].
  - by apply (Forall_lookup_1 _ _ _ _ Ha Hx).
  - apply (proj1 (but_last_lookup b) Hb _ _ Hx). lia.
Qed.

Lemma but_last_drop (diffs : list Diff) (k : nat) :
  nonempty_but_last diffs -> nonempty_but_last (drop k diffs).
Proof.
  intros H. apply but_last_lookup. intros i x Hx Hi.
  rewrite lookup_drop in Hx. rewrite length_drop in Hi.
  apply (proj1 (but_last_lookup diffs) H _ _ Hx). lia.
Qed.

Lemma but_last_take_lt (diffs : list Diff) (k : nat) :
  nonempty_but_last diffs -> (k < length diffs)%nat ->
  texts_nonempty (take k diffs).
Proof.
  intros H Hk. apply Forall_lookup. intros i x Hx.
  apply lookup_take_Some in Hx as [Hx Hi].
  apply (proj1 (but_last_lookup diffs) H _ _ Hx). lia.
Qed.

Lemma but_last_get (diffs : list Diff) (i : Z) (x : Diff) :
  nonempty_but_last diffs -> get diffs i = Some x -> i < len diffs - 1 ->
  d_text x <> [].
Proof.
  intros H Hx Hi. unfold get in Hx. destruct (Z.leb_spec 0 i); [|done].
  apply (proj1 (but_last_lookup diffs) H _ _ Hx). unfold len in Hi. lia.
Qed.

Lemma but_last_set_at (diffs : list Diff) (i : Z) (x : Diff) :
  d_text x <> [] -> nonempty_but_last diffs ->
  nonempty_but_last (set_at diffs i x).
Proof.
  intros Hx H. unfold set_at. destruct (0 <=? i); [|done].
  apply but_last_lookup. intros j y Hy Hj. rewrite length_insert in Hj.
  destruct (decide (Z.to_nat i = j)) as [<-|Hne].
  - rewrite list_lookup_insert_eq in Hy by lia. by injection Hy as <-.
  - rewrite list_lookup_insert_ne in Hy by done.
    by apply (proj1 (but_last_lookup diffs) H _ _ Hy).
Qed.

Lemma but_last_remove (diffs : list Diff) (i n : Z) :
  nonempty_but_last diffs -> nonempty_but_last (splice diffs i n []).
Proof.
  intros H. unfold splice. cbn [app].
  destruct (decide (Z.to_nat i < length diffs)%nat) as [Hlt|Hge].
  - apply but_last_app; [by apply but_last_take_lt|by apply but_last_drop].
  - rewrite take_ge, drop_ge, app_nil_r by lia. done.
Qed.

Lemma but_last_insert (diffs ins : list Diff) (i : Z) :
  0 <= i < len diffs -> texts_nonempty ins -> nonempty_but_last diffs ->
  nonempty_but_last (splice diffs i 0 ins).
Proof.
  intros Hi Hins H. unfold splice, len in *.
  apply but_last_app; [apply but_last_take_lt; [done|lia]|].
  apply but_last_app; [done|by apply but_last_drop].
Qed.

Lemma len_splice {A} (l ins : list A) (i n : Z) :
  0 <= i -> 0 <= n -> i + n <= len l ->
  len (splice l i n ins) = len l - n + len ins.
Proof.
  intros Hi Hn Hle. unfold splice, len in *.
  rewrite !length_app, length_take, length_drop. lia.
Qed.

Lemma len_set_at {A} (l : list A) (i : Z) (x : A) :
  len (set_at l i x) = len l.
Proof.
  unfold set_at, len. destruct (0 <=? i); [|done]. by rewrite length_insert.
Qed.

Lemma texts_nonempty_set_at (diffs : list Diff) (i : Z) (x : Diff) :
  d_text x <> [] -> texts_nonempty diffs -> texts_nonempty (set_at diffs i x).
Proof.
  intros Hx H. unfold set_at. destruct (0 <=? i); [|done].
  by apply Forall_insert.
Qed.

Lemma texts_nonempty_remove (diffs : list Diff) (i n : Z) :
  texts_nonempty diffs -> texts_nonempty (splice diffs i n []).
Proof.
  intros H. unfold splice. cbn [app]. apply Forall_app.
  split; [by apply Forall_take|by apply Forall_drop].
Qed.

Lemma texts_nonempty_get (diffs : list Diff) (i : Z) (x : Diff) :
  texts_nonempty diffs -> get diffs i = Some x -> d_text x <> [].
Proof.
  intros H Hx. unfold get in Hx. destruct (0 <=? i); [|done].
  by apply (Forall_lookup_1 _ _ _ _ H Hx).
Qed.

Lemma app_nonempty_l {A} (a b : list A) : a <> [] -> a ++ b <> [].
Proof. by destruct a. Qed.

Lemma app_nonempty_r {A} (a b : list A) : b <> [] -> a ++ b <> [].
Proof. by destruct a, b. Qed.

Lemma substring_0_nonempty (s : jstring) (c : Z) :
  0 < c <= len s -> substring s 0 c <> [].
Proof.
  intros Hc Hnil. apply (f_equal len) in Hnil.
  rewrite substring_0, clamp_in, len_take, len_nil in Hnil
    by (unfold len in *; lia).
  lia.
Qed.

Lemma substring_from_nonempty (s : jstring) (a : Z) :
  0 <= a < len s -> substring_from s a <> [].
Proof.
  intros Ha Hnil. apply (f_equal len) in Hnil.
  rewrite substring_from_in, len_drop, len_nil in Hnil by lia.
  unfold len in *. lia.
Qed.

Lemma merge_factor_prefix_nonempty (diffs : list Diff) (pointer count : Z)
    (textInsert textDelete : jstring) (diffs1 : list Diff) (pointer1 : Z)
    (ti1 td1 : jstring) :
  merge_factor_prefix diffs pointer count textInsert textDelete
  = Some (diffs1, pointer1, ti1, td1) ->
  nonempty_but_last diffs -> 0 <= pointer < len diffs ->
  nonempty_but_last diffs1
  /\ pointer <= pointer1 /\ pointer1 - pointer = len diffs1 - len diffs.
Proof.
  unfold merge_factor_prefix.
  destruct (diffCommonPrefix_spec textInsert textDelete)
    as (c & -> & Hc0 & Hc1 & Hc2 & _).
  cbn [mbind option_bind].
  destruct (Z.eqb_spec c 0) as [->|Hc].
  { intros [= <- <- <- <-] Hbl Hp. split_and!; [done|lia|lia]. }
  pose proof (substring_0_nonempty textInsert c ltac:(lia)) as Hpre.
  assert (forall rest,
            nonempty_but_last diffs -> 0 <= pointer < len diffs ->
            nonempty_but_last
              (splice diffs 0 0 [mkDiff DIFF_EQUAL (substring textInsert 0 c)])
            /\ pointer <= pointer + 1
            /\ pointer + 1 - pointer
               = len (splice diffs 0 0
                        [mkDiff DIFF_EQUAL (substring textInsert 0 rest)])
                 - len diffs) as Hfront.
  { intros rest Hbl Hp. split_and!; [|lia|].
    - apply but_last_insert; [lia| |done].
      by apply Forall_singleton.
    - rewrite len_splice by lia. rewrite len_cons, (@len_nil Diff). lia. }
  destruct (0 <? pointer - count).
  - destruct (get diffs (pointer - count - 1)) as [prev|]; [|done].
    cbn [mbind option_bind].
    destruct (op_eqb (d_op prev) DIFF_EQUAL); cbn [mbind option_bind];
      intros [= <- <- <- <-] Hbl Hp; [|by apply (Hfront c)].
    split_and!; [|lia|rewrite len_set_at; lia].
    apply but_last_set_at; [|done]. by apply app_nonempty_r.
  - cbn [mbind option_bind]. intros [= <- <- <- <-] Hbl Hp.
    by apply (Hfront c).
Qed.

Lemma merge_factor_suffix_nonempty (diffs : list Diff) (pointer : Z)
    (textInsert textDelete : jstring) (diffs1 : list Diff)
    (ti1 td1 : jstring) :
  merge_factor_suffix diffs pointer textInsert textDelete
  = Some (diffs1, ti1, td1) ->
  nonempty_but_last diffs ->
  nonempty_but_last diffs1 /\ len diffs1 = len diffs.
Proof.
  unfold merge_factor_suffix.
  destruct (diffCommonSuffix_spec textInsert textDelete)
    as (c & -> & Hc0 & Hc1 & Hc2 & _).
  cbn [mbind option_bind].
  destruct (Z.eqb_spec c 0) as [->|Hc].
  { by intros [= <- <- <-] Hbl. }
  destruct (get diffs pointer) as [cur|]; [|done].
  cbn [mbind option_bind]. intros [= <- <- <-] Hbl.
  split; [|apply len_set_at].
  apply but_last_set_at; [|done]. apply app_nonempty_l.
  apply substring_from_nonempty. lia.
Qed.

(** "Delete the offending records and add the merged ones." *)
Lemma merge_rebuild_nonempty (diffs : list Diff) (pointer count : Z)
    (textDelete textInsert : jstring) :
  nonempty_but_last diffs -> 0 <= count <= pointer -> pointer < len diffs ->
  let pointer0 := pointer - count in
  let diffs0 := splice diffs pointer0 count [] in
  let r1 :=
    if negb (len textDelete =? 0)
    then (splice diffs0 pointer0 0 [mkDiff DIFF_DELETE textDelete],
          pointer0 + 1)
    else (diffs0, pointer0) in
  let r2 :=
    if negb (len textInsert =? 0)
    then (splice (fst r1) (snd r1) 0 [mkDiff DIFF_INSERT textInsert],
          snd r1 + 1)
    else r1 in
  nonempty_but_last (fst r2) /\ 0 <= snd r2.
Proof.
  intros Hbl Hcount Hp. cbv zeta.
  set (pointer0 := pointer - count).
  set (diffs0 := splice diffs pointer0 count []).
  assert (nonempty_but_last diffs0) as Hbl0 by (by apply but_last_remove).
  assert (len diffs0 = len diffs - count) as Hlen0.
  { unfold diffs0. rewrite len_splice by (unfold pointer0 in *; lia).
    rewrite (@len_nil Diff). lia. }
  assert (forall op t d p,
            t <> [] -> nonempty_but_last d -> 0 <= p < len d ->
            nonempty_but_last (splice d p 0 [mkDiff op t])
            /\ len (splice d p 0 [mkDiff op t]) = len d + 1) as Hins.
  { intros op t d p Ht Hd Hpd. split.
    - apply but_last_insert; [done| |done]. by apply Forall_singleton.
    - rewrite len_splice by lia. rewrite len_cons, (@len_nil Diff). lia. }
  assert (forall t : jstring, negb (len t =? 0) = true -> t <> []) as Hnil.
  { intros t Ht ->. by rewrite len_nil in Ht. }
  destruct (negb (len textDelete =? 0)) eqn:Hd;
    destruct (negb (len textInsert =? 0)) eqn:Hi; cbn [fst snd].
  - destruct (Hins DIFF_DELETE textDelete diffs0 pointer0)
      as [Hbl1 Hlen1]; [by apply Hnil|done|unfold pointer0 in *; lia|].
    destruct (Hins DIFF_INSERT textInsert
                (splice diffs0 pointer0 0 [mkDiff DIFF_DELETE textDelete])
                (pointer0 + 1))
      as [Hbl2 Hlen2]; [by apply Hnil|done|unfold pointer0 in *; lia|].
    split; [done|unfold pointer0 in *; lia].
  - destruct (Hins DIFF_DELETE textDelete diffs0 pointer0)
      as [Hbl1 Hlen1]; [by apply Hnil|done|unfold pointer0 in *; lia|].
    split; [done|unfold pointer0 in *; lia].
  - destruct (Hins DIFF_INSERT textInsert diffs0 pointer0)
      as [Hbl1 Hlen1]; [by apply Hnil|done|unfold pointer0 in *; lia|].
    split; [done|unfold pointer0 in *; lia].
  - split; [done|unfold pointer0 in *; lia].
Qed.

Lemma merge_step_nonempty (s s' : MergeState) :
  merge_step s = Some s' ->
  nonempty_but_last (mg_diffs s) ->
  0 <= mg_countDelete s -> 0 <= mg_countInsert s ->
  mg_countDelete s + mg_countInsert s <= mg_pointer s ->
  mg_pointer s < len (mg_diffs s) ->
  nonempty_but_last (mg_diffs s')
  /\ 0 <= mg_countDelete s' /\ 0 <= mg_countInsert s'
  /\ mg_countDelete s' + mg_countInsert s' <= mg_pointer s'.
Proof.
  destruct s as [diffs p cd ci td ti].
  cbn [mg_diffs mg_pointer mg_countDelete mg_countInsert].
  intros Hstep Hbl Hcd Hci Hcount Hp. unfold merge_step in Hstep.
  destruct (get diffs p) as [cur|] eqn:Hcur; [|done].
  cbn [mbind option_bind] in Hstep.
  destruct (d_op cur) eqn:Hop.
  1,2: injection Hstep as <-; cbn; split_and!; (done || lia).
  assert (forall d q, nonempty_but_last d -> 0 <= q ->
            nonempty_but_last (mg_diffs (mkMerge d q 0 0 [] []))
            /\ 0 <= mg_countDelete (mkMerge d q 0 0 [] [])
            /\ 0 <= mg_countInsert (mkMerge d q 0 0 [] [])
            /\ mg_countDelete (mkMerge d q 0 0 [] [])
               + mg_countInsert (mkMerge d q 0 0 [] [])
               <= mg_pointer (mkMerge d q 0 0 [] [])) as Hdone.
  { intros d q Hd Hq. cbn. split_and!; (done || lia). }
  destruct (Z.ltb_spec 1 (cd + ci)) as [Hmany|Hfew].
  - destruct (negb (cd =? 0) && negb (ci =? 0)).
    + destruct (merge_factor_prefix diffs p (cd + ci) ti td)
        as [[[[d1 p1] ti1] td1]|] eqn:Hpre; [|done].
      cbn [mbind option_bind] in Hstep.
      destruct (merge_factor_suffix d1 p1 ti1 td1)
        as [[[d2 ti2] td2]|] eqn:Hsuf; [|done].
      cbn [mbind option_bind] in Hstep.
      apply merge_factor_prefix_nonempty in Hpre
        as (Hbl1 & Hp1 & Hlen1); [|done|lia].
      apply merge_factor_suffix_nonempty in Hsuf as [Hbl2 Hlen2]; [|done].
      destruct (merge_rebuild_nonempty d2 p1 (cd + ci) td2 ti2 Hbl2
                  ltac:(lia) ltac:(lia)) as [Hbl3 Hp3].
      cbv zeta in Hbl3, Hp3.
      destruct (negb (len td2 =? 0)), (negb (len ti2 =? 0));
        cbn [fst snd mbind option_bind] in *;
        injection Hstep as <-; apply Hdone; (done || lia).
    + cbn [mbind option_bind] in Hstep.
      destruct (merge_rebuild_nonempty diffs p (cd + ci) td ti Hbl
                  ltac:(lia) ltac:(lia)) as [Hbl3 Hp3].
      cbv zeta in Hbl3, Hp3.
      destruct (negb (len td =? 0)), (negb (len ti =? 0));
        cbn [fst snd mbind option_bind] in *;
        injection Hstep as <-; apply Hdone; (done || lia).
  - destruct (Z.eqb_spec p 0) as [->|Hp0]; cbn [negb] in Hstep.
    { cbn [mbind option_bind] in Hstep. injection Hstep as <-.
      apply Hdone; [done|lia]. }
    destruct (get diffs (p - 1)) as [prev|] eqn:Hprev; [|done].
    cbn [mbind option_bind] in Hstep.
    destruct (op_eqb (d_op prev) DIFF_EQUAL);
      cbn [mbind option_bind] in Hstep; injection Hstep as <-;
      (apply Hdone; [|lia]); [|done].
    apply but_last_remove, but_last_set_at; [|done].
    apply app_nonempty_l. apply (but_last_get diffs (p - 1)); [done|done|lia].
Qed.

Lemma merge_loop_nonempty (fuel : nat) (s : MergeState) (out : list Diff) :
  merge_loop fuel s = Some out ->
  nonempty_but_last (mg_diffs s) ->
  0 <= mg_countDelete s -> 0 <= mg_countInsert s ->
  mg_countDelete s + mg_countInsert s <= mg_pointer s ->
  nonempty_but_last out.
Proof.
  revert s. induction fuel as [|fuel IH]; intros s; cbn [merge_loop];
    destruct (Z.ltb_spec (mg_pointer s) (len (mg_diffs s))) as [Hlt|Hge];
    try done; try (by intros [= <-]).
  destruct (merge_step s) as [s1|] eqn:Hstep; [|done].
  cbn [mbind option_bind]. intros Hrun Hbl Hcd Hci Hcount.
  destruct (merge_step_nonempty s s1 Hstep Hbl Hcd Hci Hcount Hlt)
    as (Hbl1 & Hcd1 & Hci1 & Hcount1).
  by apply (IH s1).
Qed.

Lemma shift_step_nonempty (diffs : list Diff) (pointer : Z)
    (diffs' : list Diff) (changed : bool) :
  shift_step diffs pointer = Some (diffs', changed) ->
  texts_nonempty diffs -> texts_nonempty diffs'.
Proof.
  unfold shift_step. intros Hstep Hne.
  destruct (get diffs (pointer - 1)) as [prev|] eqn:Hprev; [|done].
  destruct (get diffs (pointer + 1)) as [next|] eqn:Hnext; [|done].
  cbn [mbind option_bind] in Hstep.
  pose proof (texts_nonempty_get _ _ _ Hne Hprev) as Hp.
  pose proof (texts_nonempty_get _ _ _ Hne Hnext) as Hn.
  destruct (_ && _); [|by injection Hstep as <- <-].
  destruct (get diffs pointer) as [cur|]; [|done].
  cbn [mbind option_bind] in Hstep.
  destruct (str_eqb _ _).
  { injection Hstep as <- <-.
    apply texts_nonempty_remove, texts_nonempty_set_at;
      [by apply app_nonempty_l|].
    apply texts_nonempty_set_at; [by apply app_nonempty_l|done]. }
  destruct (str_eqb _ _); [|by injection Hstep as <- <-].
  injection Hstep as <- <-.
  apply texts_nonempty_remove, texts_nonempty_set_at;
    [by apply app_nonempty_r|].
  apply texts_nonempty_set_at; [by apply app_nonempty_l|done].
Qed.

Lemma shift_loop_nonempty (fuel : nat) (diffs : list Diff) (pointer : Z)
    (changes : bool) (out : list Diff) (changed : bool) :
  shift_loop fuel diffs pointer changes = Some (out, changed) ->
  texts_nonempty diffs -> texts_nonempty out.
Proof.
  revert diffs pointer changes.
  induction fuel as [|fuel IH]; intros diffs pointer changes;
    cbn [shift_loop]; destruct (pointer <? len diffs - 1);
    try done; try (by intros [= <- <-]).
  destruct (shift_step diffs pointer) as [[diffs1 c]|] eqn:Hstep; [|done].
  cbn [mbind option_bind]. intros Hrun Hne.
  apply (IH _ _ _ Hrun). by apply (shift_step_nonempty _ _ _ _ Hstep).
Qed.

Lemma diffCleanupMerge_rec_nonempty (fuel : nat) (diffs out : list Diff) :
  diffCleanupMerge_rec fuel diffs = Some out ->
  texts_nonempty diffs -> texts_nonempty out.
Proof.
  revert diffs. induction fuel as [|fuel IH]; intros diffs; [done|].
  cbn [diffCleanupMerge_rec].
  destruct (merge_loop _ _) as [diffs1|] eqn:Hloop; [|done].
  cbn [mbind option_bind].
  destruct (get diffs1 (len diffs1 - 1)) as [l|] eqn:Hlast; [|done].
  cbn [mbind option_bind].
  destruct (shift_loop _ _ _ _) as [[diffs2 changed]|] eqn:Hshift; [|done].
  cbn [mbind option_bind fst snd]. intros Hout Hne.
  apply merge_loop_nonempty in Hloop;
    [|by apply but_last_snoc|done|done|done].
  assert (texts_nonempty diffs2) as Hne2.
  { apply (shift_loop_nonempty _ _ _ _ _ _ Hshift).
    destruct (str_eqb (d_text l) []) eqn:Hempty; [done|].
    apply str_eqb_neq in Hempty.
    apply get_split in Hlast as (a & b & -> & Ha).
    destruct b as [|x b].
    2:{ rewrite len_app, !len_cons in Ha. pose proof (len_nonneg b). lia. }
    unfold nonempty_but_last in Hloop. rewrite length_app in Hloop.
    cbn [length] in Hloop.
    replace (length a + 1 - 1)%nat with (length a) in Hloop by lia.
    rewrite take_app_length in Hloop.
    apply Forall_app. split; [done|]. by apply Forall_singleton. }
  destruct changed; [by apply (IH diffs2)|by injection Hout as <-].
Qed.
(** ** [diffCleanupSemantic] and [diffCleanupEfficiency] keep the texts *)

Lemma count_equal_app (a b : list Diff) :
  count_equal (a ++ b) = count_equal a + count_equal b.
Proof. unfold count_equal. by rewrite filter_app, len_app. Qed.

Lemma count_equal_cons (d : Diff) (ds : list Diff) :
  count_equal (d :: ds)
  = (if op_eqb (d_op d) DIFF_EQUAL then 1 else 0) + count_equal ds.
Proof.
  unfold count_equal, op_eqb. rewrite filter_cons.
  destruct (decide (d_op d = DIFF_EQUAL)) as [He|He].
  - rewrite bool_decide_eq_true_2, len_cons by done. lia.
  - rewrite bool_decide_eq_false_2 by done. lia.
Qed.

Lemma count_equal_range (ds : list Diff) : 0 <= count_equal ds <= len ds.
Proof.
  unfold count_equal, len. pose proof (length_filter (fun d => d_op d = DIFF_EQUAL) ds).
  lia.
Qed.

(** Both loops eliminate an equality the same way: a deletion of its
    text goes before it, and it becomes an insertion. *)
Lemma eliminate_spec (A B : list Diff) (t : jstring) (top : Z) :
  top = len A ->
  let diffs := splice (A ++ mkDiff DIFF_EQUAL t :: B) top 0
                 [mkDiff DIFF_DELETE t] in
  get diffs (top + 1) = Some (mkDiff DIFF_EQUAL t)
  /\ set_at diffs (top + 1) (set_op (mkDiff DIFF_EQUAL t) DIFF_INSERT)
     = A ++ mkDiff DIFF_DELETE t :: mkDiff DIFF_INSERT t :: B.
Proof.
  intros ->. cbv zeta. rewrite (splice_insert A) by done. cbn [app]. split.
  - by apply get_second.
  - by apply set_at_second.
Qed.

Lemma eliminated_texts (A B : list Diff) (t : jstring) :
  let before := A ++ mkDiff DIFF_EQUAL t :: B in
  let after := A ++ mkDiff DIFF_DELETE t :: mkDiff DIFF_INSERT t :: B in
  diffText1 after = diffText1 before
  /\ diffText2 after = diffText2 before
  /\ count_equal after = count_equal before - 1
  /\ len after = len before + 1
  /\ (texts_nonempty before -> texts_nonempty after).
Proof.
  cbv zeta. split_and!.
  - rewrite !diffText1_app, !diffText1_cons. by op_simpl.
  - rewrite !diffText2_app, !diffText2_cons. by op_simpl.
  - rewrite !count_equal_app, !count_equal_cons. cbn [d_op]. op_simpl. lia.
  - rewrite !len_app, !len_cons. lia.
  - unfold texts_nonempty. rewrite !Forall_app, !Forall_cons. cbn [d_text].
    tauto.
Qed.

Lemma cleanup_step_plain (diffs : list Diff) (pointer : Z) :
  0 <= pointer -> cleanup_step_ok diffs pointer diffs (pointer + 1).
Proof. intros Hp. unfold cleanup_step_ok, cleanup_potential. split_and!; try done; lia. Qed.

Lemma cleanup_step_eliminate (A B : list Diff) (t : jstring)
    (pointer pointer' : Z) :
  pointer < len (A ++ mkDiff DIFF_EQUAL t :: B) -> 0 <= pointer' ->
  cleanup_step_ok (A ++ mkDiff DIFF_EQUAL t :: B) pointer
    (A ++ mkDiff DIFF_DELETE t :: mkDiff DIFF_INSERT t :: B) pointer'.
Proof.
  intros Hp Hp'.
  destruct (eliminated_texts A B t) as (H1 & H2 & Hc & Hl & Hne).
  unfold cleanup_step_ok, cleanup_potential.
  rewrite Hc, Hl. split_and!; try done.
  pose proof (count_equal_range (A ++ mkDiff DIFF_EQUAL t :: B)).
  clear H1 H2 Hc Hl Hne.
  set (c := count_equal _) in *. set (l := len _) in *.
  replace (l + 1 + (c - 1) + 1) with (l + c + 1) by lia.
  set (X := l + c + 1). assert (l < X) by (unfold X; lia).
  replace ((c - 1) * X) with (c * X - X) by lia. lia.
Qed.

Lemma stack_ok_push (diffs : list Diff) (equalities : gmap Z Z)
    (equalitiesLength : Z) (lastEquality : option jstring)
    (pointer : Z) (cur : Diff) :
  stack_ok diffs equalities equalitiesLength lastEquality ->
  0 <= pointer -> get diffs pointer = Some cur ->
  op_eqb (d_op cur) DIFF_EQUAL = true ->
  stack_ok diffs (<[equalitiesLength := pointer]> equalities)
    (equalitiesLength + 1) (Some (d_text cur)).
Proof.
  intros [Hslots _] Hp Hcur Hop. split.
  - intros i Hi. destruct (decide (i = equalitiesLength)) as [->|Hne].
    + exists pointer. by rewrite lookup_insert_eq.
    + rewrite lookup_insert_ne by done. apply Hslots. lia.
  - intros t [= <-]. apply get_split in Hcur as (A & B & -> & <-).
    exists A, B. split.
    + replace (equalitiesLength + 1 - 1) with equalitiesLength by lia.
      by rewrite lookup_insert_eq.
    + destruct cur as [op text]. cbn [d_op d_text] in *.
      unfold op_eqb in Hop. by apply bool_decide_eq_true in Hop as ->.
Qed.

Lemma stack_ok_drop (diffs diffs' : list Diff) (equalities : gmap Z Z)
    (equalitiesLength n : Z) (lastEquality : option jstring) :
  stack_ok diffs equalities equalitiesLength lastEquality ->
  n <= equalitiesLength ->
  stack_ok diffs' equalities n None.
Proof.
  intros [Hslots _] Hn. split; [|done].
  intros i Hi. apply Hslots. lia.
Qed.

Lemma semantic_step_spec (s : SemState) :
  stack_ok (sm_diffs s) (sm_equalities s) (sm_equalitiesLength s)
    (sm_lastEquality s) ->
  0 <= sm_pointer s < len (sm_diffs s) ->
  exists s',
    semantic_step s = Some s'
    /\ stack_ok (sm_diffs s') (sm_equalities s') (sm_equalitiesLength s')
         (sm_lastEquality s')
    /\ cleanup_step_ok (sm_diffs s) (sm_pointer s)
         (sm_diffs s') (sm_pointer s').
Proof.
  destruct s as [diffs changes equalities equalitiesLength lastEquality
                   pointer li1 ld1 li2 ld2].
  cbn [sm_diffs sm_equalities sm_equalitiesLength sm_lastEquality sm_pointer].
  intros Hstack Hp. unfold semantic_step.
  destruct (get_in_range diffs pointer Hp) as [cur Hcur].
  rewrite Hcur. cbn [mbind option_bind].
  destruct (op_eqb (d_op cur) DIFF_EQUAL) eqn:Hop.
  { eexists. split; [done|]. cbn. split.
    - eapply stack_ok_push; [done|lia|done|done].
    - apply cleanup_step_plain. lia. }
  destruct lastEquality as [[|c rest]|].
  1,3: eexists; (split; [done|]); cbn; split;
         [done|apply cleanup_step_plain; lia].
  destruct (_ && _).
  2:{ eexists. split; [done|]. cbn. split;
        [done|apply cleanup_step_plain; lia]. }
  destruct (proj2 Hstack _ eq_refl) as (A & B & Htop & ->).
  rewrite Htop. cbn [mbind option_bind].
  destruct (eliminate_spec A B (c :: rest) (len A) eq_refl) as [Hget Hset].
  cbv zeta in Hget, Hset. rewrite Hget. cbn [mbind option_bind].
  rewrite Hset.
  destruct (Z.ltb_spec 0 (equalitiesLength - 2)) as [Hmore|Hnone].
  - destruct (proj1 Hstack (equalitiesLength - 2 - 1) ltac:(lia))
      as (k & -> & Hk).
    cbn [mbind option_bind]. eexists. split; [done|]. cbn. split.
    + eapply stack_ok_drop; [done|lia].
    + apply cleanup_step_eliminate; lia.
  - cbn [mbind option_bind]. eexists. split; [done|]. cbn. split.
    + eapply stack_ok_drop; [done|lia].
    + apply cleanup_step_eliminate; lia.
Qed.

Lemma cleanup_potential_pos (diffs : list Diff) (pointer : Z) :
  pointer < len diffs -> 0 < cleanup_potential diffs pointer.
Proof.
  intros Hp. unfold cleanup_potential.
  pose proof (count_equal_range diffs) as Hc.
  pose proof (Z.mul_nonneg_nonneg (count_equal diffs)
                (len diffs + count_equal diffs + 1) ltac:(lia) ltac:(lia)).
  lia.
Qed.

Lemma cleanup_potential_start (diffs : list Diff) :
  cleanup_potential diffs 0
  <= Z.of_nat ((length diffs + 2) * (length diffs + 2) * 2).
Proof.
  unfold cleanup_potential. pose proof (count_equal_range diffs) as Hc.
  unfold len in *. set (c := count_equal diffs) in *.
  set (n := length diffs) in *. nia.
Qed.

Lemma semantic_loop_spec (fuel : nat) (s : SemState) :
  stack_ok (sm_diffs s) (sm_equalities s) (sm_equalitiesLength s)
    (sm_lastEquality s) ->
  0 <= sm_pointer s ->
  cleanup_potential (sm_diffs s) (sm_pointer s) <= Z.of_nat fuel ->
  exists s',
    semantic_loop fuel s = Some s'
    /\ diffText1 (sm_diffs s') = diffText1 (sm_diffs s)
    /\ diffText2 (sm_diffs s') = diffText2 (sm_diffs s)
    /\ (texts_nonempty (sm_diffs s) -> texts_nonempty (sm_diffs s')).
Proof.
  revert s. induction fuel as [|fuel IH]; intros s Hstack Hp Hfuel;
    cbn [semantic_loop];
    destruct (Z.ltb_spec (sm_pointer s) (len (sm_diffs s))) as [Hlt|Hge];
    try (by exists s).
  { pose proof (cleanup_potential_pos _ _ Hlt). lia. }
  destruct (semantic_step_spec s Hstack ltac:(lia))
    as (s1 & -> & Hstack1 & Hp1 & Hless & H1 & H2 & Hne).
  cbn [mbind option_bind].
  destruct (IH s1 Hstack1 Hp1 ltac:(lia)) as (s' & -> & H1' & H2' & Hne').
  exists s'. split_and!; [done|congruence|congruence|tauto].
Qed.

Lemma efficiency_step_spec (cfg : Config) (s : EffState) :
  stack_ok (ef_diffs s) (ef_equalities s) (ef_equalitiesLength s)
    (ef_lastEquality s) ->
  0 <= ef_pointer s < len (ef_diffs s) ->
  exists s',
    efficiency_step cfg s = Some s'
    /\ stack_ok (ef_diffs s') (ef_equalities s') (ef_equalitiesLength s')
         (ef_lastEquality s')
    /\ cleanup_step_ok (ef_diffs s) (ef_pointer s)
         (ef_diffs s') (ef_pointer s').
Proof.
  destruct s as [diffs changes equalities equalitiesLength lastEquality
                   pointer preIns preDel postIns postDel].
  cbn [ef_diffs ef_equalities ef_equalitiesLength ef_lastEquality ef_pointer].
  intros Hstack Hp. unfold efficiency_step.
  destruct (get_in_range diffs pointer Hp) as [cur Hcur].
  rewrite Hcur. cbn [mbind option_bind].
  destruct (op_eqb (d_op cur) DIFF_EQUAL) eqn:Hop.
  { destruct (_ && _); eexists; (split; [done|]); cbn; split;
      try (apply cleanup_step_plain; lia).
    - eapply stack_ok_push; [done|lia|done|done].
    - split; [intros; lia|done]. }
  destruct lastEquality as [[|c rest]|].
  1,3: eexists; (split; [done|]); cbn; split;
         [done|apply cleanup_step_plain; lia].
  destruct (_ || _).
  2:{ eexists. split; [done|]. cbn. split;
        [done|apply cleanup_step_plain; lia]. }
  destruct (proj2 Hstack _ eq_refl) as (A & B & Htop & ->).
  rewrite Htop. cbn [mbind option_bind].
  destruct (eliminate_spec A B (c :: rest) (len A) eq_refl) as [Hget Hset].
  cbv zeta in Hget, Hset. rewrite Hget. cbn [mbind option_bind].
  rewrite Hset.
  destruct (preIns && preDel).
  { eexists. split; [done|]. cbn. split.
    - split; [intros; lia|done].
    - apply cleanup_step_eliminate; lia. }
  destruct (Z.ltb_spec 0 (equalitiesLength - 1 - 1)) as [Hmore|Hnone].
  - destruct (proj1 Hstack (equalitiesLength - 1 - 1 - 1) ltac:(lia))
      as (k & -> & Hk).
    cbn [mbind option_bind]. eexists. split; [done|]. cbn. split.
    + eapply stack_ok_drop; [done|lia].
    + apply cleanup_step_eliminate; lia.
  - cbn [mbind option_bind]. eexists. split; [done|]. cbn. split.
    + eapply stack_ok_drop; [done|lia].
    + apply cleanup_step_eliminate; lia.
Qed.

Lemma efficiency_loop_spec (cfg : Config) (fuel : nat) (s : EffState) :
  stack_ok (ef_diffs s) (ef_equalities s) (ef_equalitiesLength s)
    (ef_lastEquality s) ->
  0 <= ef_pointer s ->
  cleanup_potential (ef_diffs s) (ef_pointer s) <= Z.of_nat fuel ->
  exists s',
    efficiency_loop fuel cfg s = Some s'
    /\ diffText1 (ef_diffs s') = diffText1 (ef_diffs s)
    /\ diffText2 (ef_diffs s') = diffText2 (ef_diffs s)
    /\ (texts_nonempty (ef_diffs s) -> texts_nonempty (ef_diffs s')).
Proof.
  revert s. induction fuel as [|fuel IH]; intros s Hstack Hp Hfuel;
    cbn [efficiency_loop];
    destruct (Z.ltb_spec (ef_pointer s) (len (ef_diffs s))) as [Hlt|Hge];
    try (by exists s).
  { pose proof (cleanup_potential_pos _ _ Hlt). lia. }
  destruct (efficiency_step_spec cfg s Hstack ltac:(lia))
    as (s1 & -> & Hstack1 & Hp1 & Hless & H1 & H2 & Hne).
  cbn [mbind option_bind].
  destruct (IH s1 Hstack1 Hp1 ltac:(lia)) as (s' & -> & H1' & H2' & Hne').
  exists s'. split_and!; [done|congruence|congruence|tauto].
Qed.

Lemma stack_ok_start (diffs : list Diff) : stack_ok diffs ∅ 0 None.
Proof. split; [intros; lia|done]. Qed.

(** *** The overlaps between deletions and insertions *)

Lemma overlaps_join (s1 s2 : jstring) (n : Z) :
  0 <= n -> n <= len s1 -> n <= len s2 -> overlaps s1 s2 n ->
  substring s1 0 (len s1 - n) ++ substring s2 0 n = s1.
Proof.
  intros Hn H1 H2 Hov. unfold overlaps in Hov.
  rewrite !substring_0, !clamp_in by lia. rewrite <- Hov.
  replace (Z.to_nat (len s1 - n)) with (length s1 - Z.to_nat n)%nat
    by (unfold len in *; lia).
  apply take_drop.
Qed.

Lemma split_pair {A} (l : list A) (p : Z) :
  1 <= p < len l ->
  exists a x y b, l = a ++ x :: y :: b /\ len a = p - 1.
Proof.
  intros Hp.
  destruct (get_in_range l (p - 1) ltac:(lia)) as [x Hx].
  apply get_split in Hx as (a & b & -> & Ha).
  destruct b as [|y b].
  { rewrite len_app, len_cons, len_nil in Hp. lia. }
  by exists a, x, y, b.
Qed.

Lemma overlap_step_spec (A B : list Diff) (prev cur : Diff) :
  let diffs := A ++ prev :: cur :: B in
  exists diffs' pointer',
    overlap_step diffs (len A + 1) = Some (diffs', pointer')
    /\ diffText1 diffs' = diffText1 diffs
    /\ diffText2 diffs' = diffText2 diffs
    /\ len diffs' - pointer' < len diffs - (len A + 1)
    /\ 1 <= pointer'.
Proof.
  cbv zeta. pose proof (len_nonneg A) as HA. unfold overlap_step.
  rewrite (get_middle A _ _ (len A + 1 - 1)) by lia.
  rewrite (get_second A _ _ _ (len A + 1)) by done.
  cbn [mbind option_bind].
  destruct prev as [op1 deletion], cur as [op2 insertion].
  cbn [d_op d_text].
  destruct (op_eqb op1 DIFF_DELETE && op_eqb op2 DIFF_INSERT) eqn:Hops.
  2:{ eexists _, _. split_and!; try done; lia. }
  apply andb_prop in Hops as [H1 H2]. unfold op_eqb in H1, H2.
  apply bool_decide_eq_true in H1 as ->.
  apply bool_decide_eq_true in H2 as ->.
  destruct (diffCommonOverlap_spec deletion insertion)
    as (n1 & -> & Hn1 & Hn1d & Hn1i & Hov1 & _).
  destruct (diffCommonOverlap_spec insertion deletion)
    as (n2 & -> & Hn2 & Hn2i & Hn2d & Hov2 & _).
  cbn [mbind option_bind].
  destruct (n2 <=? n1).
  - destruct (_ || _).
    2:{ eexists _, _. split_and!; try done; lia. }
    rewrite (splice_insert_snoc A) by done. cbn [app].
    rewrite (set_at_middle A _ _ _ (len A + 1 - 1)) by lia.
    rewrite (set_at_third A _ _ _ _ _ (len A + 1 + 1)) by lia.
    eexists _, _. split; [done|]. unfold set_text. cbn [d_op].
    split_and!.
    + rewrite !diffText1_app, !diffText1_cons. op_simpl. cbn [d_op d_text].
      op_simpl. rewrite !app_nil_l.
      by rewrite (app_assoc (substring _ _ _)), overlaps_join.
    + rewrite !diffText2_app, !diffText2_cons. op_simpl. cbn [d_op d_text].
      op_simpl. rewrite !app_nil_l.
      by rewrite (app_assoc (substring _ _ _)), substring_split.
    + rewrite !len_app, !len_cons. lia.
    + lia.
  - destruct (_ || _).
    2:{ eexists _, _. split_and!; try done; lia. }
    rewrite (splice_insert_snoc A) by done. cbn [app].
    rewrite (set_at_middle A _ _ _ (len A + 1 - 1)) by lia.
    rewrite (set_at_third A _ _ _ _ _ (len A + 1 + 1)) by lia.
    eexists _, _. split; [done|].
    split_and!.
    + rewrite !diffText1_app, !diffText1_cons. op_simpl. cbn [d_op d_text].
      op_simpl. rewrite !app_nil_l.
      by rewrite (app_assoc (substring _ _ _)), substring_split.
    + rewrite !diffText2_app, !diffText2_cons. op_simpl. cbn [d_op d_text].
      op_simpl. rewrite !app_nil_l.
      by rewrite (app_assoc (substring _ _ _)), overlaps_join.
    + rewrite !len_app, !len_cons. lia.
    + lia.
Qed.

Lemma overlap_loop_total (fuel : nat) (diffs : list Diff) (pointer : Z) :
  1 <= pointer -> len diffs - pointer <= Z.of_nat fuel ->
  exists out,
    overlap_loop fuel diffs pointer = Some out
    /\ diffText1 out = diffText1 diffs
    /\ diffText2 out = diffText2 diffs.
Proof.
  revert diffs pointer.
  induction fuel as [|fuel IH]; intros diffs pointer Hp Hfuel;
    cbn [overlap_loop];
    destruct (Z.ltb_spec pointer (len diffs)) as [Hlt|Hge];
    try (by exists diffs); [lia|].
  destruct (split_pair diffs pointer ltac:(lia))
    as (a & x & y & b & -> & Hlen).
  replace pointer with (len a + 1) in * by lia.
  destruct (overlap_step_spec a b x y)
    as (diffs' & p' & -> & H1 & H2 & Hless & Hp').
  cbn [mbind option_bind fst snd].
  destruct (IH diffs' p' Hp' ltac:(lia)) as (out & -> & Ho1 & Ho2).
  exists out. split_and!; [done|congruence|congruence].
Qed.

Lemma diffCleanupMerge_spec (diffs : list Diff) :
  exists out,
    diffCleanupMerge diffs = Some out
    /\ diffText1 out = diffText1 diffs
    /\ diffText2 out = diffText2 diffs
    /\ (texts_nonempty diffs -> texts_nonempty out).
Proof.
  unfold diffCleanupMerge.
  destruct (diffCleanupMerge_rec_spec (length diffs + script_size diffs + 2)
              diffs) as (out & Hout & H1 & H2 & _).
  { unfold weight, len. lia. }
  exists out. split_and!; try done.
  by apply (diffCleanupMerge_rec_nonempty _ _ _ Hout).
Qed.

Lemma diffCleanupEfficiency_spec (cfg : Config) (diffs : list Diff) :
  exists out,
    diffCleanupEfficiency cfg diffs = Some out
    /\ diffText1 out = diffText1 diffs
    /\ diffText2 out = diffText2 diffs
    /\ (texts_nonempty diffs -> texts_nonempty out).
Proof.
  unfold diffCleanupEfficiency.
  destruct (efficiency_loop_spec cfg
              ((length diffs + 2) * (length diffs + 2) * 2)
              (mkEff diffs false ∅ 0 None 0 false false false false))
    as (s & -> & H1 & H2 & Hne).
  { apply stack_ok_start. }
  { done. }
  { apply cleanup_potential_start. }
  cbn [mbind option_bind ef_diffs] in *.
  destruct (ef_changes s); [|by exists (ef_diffs s)].
  destruct (diffCleanupMerge_spec (ef_diffs s))
    as (out & Hout & Ho1 & Ho2 & Hone).
  exists out. split_and!; [exact Hout|congruence|congruence|tauto].
Qed.

(** What [diffCleanupSemantic] hands to [diffCleanupSemanticLossless]. *)
Lemma semantic_first_pass (diffs : list Diff) :
  exists s mid,
    semantic_loop ((length diffs + 2) * (length diffs + 2) * 2)
      (mkSem diffs false ∅ 0 None 0 0 0 0 0) = Some s
    /\ (if sm_changes s then diffCleanupMerge (sm_diffs s)
        else Some (sm_diffs s)) = Some mid
    /\ diffText1 mid = diffText1 diffs
    /\ diffText2 mid = diffText2 diffs
    /\ (texts_nonempty diffs -> texts_nonempty mid).
Proof.
  destruct (semantic_loop_spec
              ((length diffs + 2) * (length diffs + 2) * 2)
              (mkSem diffs false ∅ 0 None 0 0 0 0 0))
    as (s & Hs & H1 & H2 & Hne).
  { apply stack_ok_start. }
  { done. }
  { apply cleanup_potential_start. }
  cbn [sm_diffs] in *. exists s.
  destruct (sm_changes s); [|by exists (sm_diffs s)].
  destruct (diffCleanupMerge_spec (sm_diffs s))
    as (out & Hout & Ho1 & Ho2 & Hone).
  exists out. split_and!; [done|done|congruence|congruence|tauto].
Qed.

Lemma diffCleanupSemantic_texts (diffs out : list Diff) :
  diffCleanupSemantic diffs = Some out ->
  diffText1 out = diffText1 diffs /\ diffText2 out = diffText2 diffs.
Proof.
  unfold diffCleanupSemantic.
  destruct (semantic_first_pass diffs) as (s & mid & -> & Hmid & H1 & H2 & _).
  cbn [mbind option_bind]. rewrite Hmid. cbn [mbind option_bind].
  destruct (diffCleanupSemanticLossless mid) as [diffs3|] eqn:Hlossless;
    [|done].
  cbn [mbind option_bind].
  apply lossless_loop_spec in Hlossless as [H31 H32].
  destruct (overlap_loop_total (length diffs3 + 1) diffs3 1 ltac:(lia))
    as (out' & -> & Ho1 & Ho2).
  { unfold len. lia. }
  intros [= <-]. split; congruence.
Qed.

Lemma diffCleanupSemanticLossless_total (diffs : list Diff) :
  texts_nonempty diffs ->
  exists out,
    diffCleanupSemanticLossless diffs = Some out /\ texts_nonempty out.
Proof.
  intros Hne. unfold diffCleanupSemanticLossless.
  apply lossless_loop_total; [done|lia|unfold len; lia].
Qed.

Lemma diffCleanupSemantic_total (diffs : list Diff) :
  texts_nonempty diffs -> exists out, diffCleanupSemantic diffs = Some out.
Proof.
  intros Hne. unfold diffCleanupSemantic.
  destruct (semantic_first_pass diffs)
    as (s & mid & -> & Hmid & _ & _ & Hkeep).
  cbn [mbind option_bind]. rewrite Hmid. cbn [mbind option_bind].
  destruct (diffCleanupSemanticLossless_total mid (Hkeep Hne))
    as (diffs3 & -> & _).
  cbn [mbind option_bind].
  destruct (overlap_loop_total (length diffs3 + 1) diffs3 1 ltac:(lia))
    as (out & -> & _).
  { unfold len. lia. }
  by exists out.
Qed.

(** X24.  [diffCleanupMerge] brings no empty string into a script: for
    a script in which no diff holds the empty string it returns a script
    in which none does. *)
Theorem X24_diffCleanupMerge_nonempty (diffs : list Diff) :
  texts_nonempty diffs ->
  exists out, diffCleanupMerge diffs = Some out /\ texts_nonempty out.
Proof.
  intros Hne.
  destruct (diffCleanupMerge_spec diffs) as (out & Hout & _ & _ & Hkeep).
  exists out. split; [done|by apply Hkeep].
Qed.

Lemma X24_diffCleanupMerge_nonempty_witness :
  exists out,
    diffCleanupMerge
      [mkDiff DIFF_DELETE (str "ab"); mkDiff DIFF_INSERT (str "ac");
       mkDiff DIFF_EQUAL (str "d")] = Some out
    /\ texts_nonempty out.
Proof.
  apply X24_diffCleanupMerge_nonempty.
  repeat (apply Forall_cons_2; [by vm_compute|]). apply Forall_nil_2.
Defined.

(** X25.  [diffCleanupEfficiency] always returns, and the script it
    returns has the same source text and the same destination text as
    the one it was given; it brings no empty string into the script. *)
Theorem X25_diffCleanupEfficiency_texts (cfg : Config) (diffs : list Diff) :
  exists out,
    diffCleanupEfficiency cfg diffs = Some out
    /\ diffText1 out = diffText1 diffs
    /\ diffText2 out = diffText2 diffs
    /\ (texts_nonempty diffs -> texts_nonempty out).
Proof. apply diffCleanupEfficiency_spec. Qed.

(** X26.  [diffCleanupSemantic] keeps the texts of the script: whenever
    it returns, the script it leaves has the same source text and the
    same destination text as the one it was given.  It returns for every
    script in which no diff holds the empty string. *)
Theorem X26_diffCleanupSemantic_texts (diffs : list Diff) :
  (forall out,
     diffCleanupSemantic diffs = Some out ->
     diffText1 out = diffText1 diffs /\ diffText2 out = diffText2 diffs)
  /\ (texts_nonempty diffs ->
      exists out, diffCleanupSemantic diffs = Some out).
Proof.
  split.
  - intros out. apply diffCleanupSemantic_texts.
  - apply diffCleanupSemantic_total.
Qed.

Lemma X26_diffCleanupSemantic_texts_witness :
  exists out,
    diffCleanupSemantic
      [mkDiff DIFF_DELETE (str "abcxxx"); mkDiff DIFF_INSERT (str "xxxdef")]
    = Some out.
Proof.
  apply (proj2 (X26_diffCleanupSemantic_texts _)).
  repeat (apply Forall_cons_2; [by vm_compute|]). apply Forall_nil_2.
Defined.
